(** * claudeskill-manager: a shallow embedding of the crypto, version-chain
    and sync code, and the properties of its specification.

    Data model.
    - A byte ([Uint8Array] element, [Buffer] element) is a [Z] in [0, 256);
      byte strings are [list Z], and [bytes_ok] states the range.
    - A JavaScript string is the list of its UTF-16 code units, each a [Z]
      in [0, 65536).  [js "abc"] writes a literal.
    - [null] / [undefined] results are [option]; thrown exceptions are [None]
      of an [option] result.
    - Randomness ([node:crypto] [randomBytes]) is an explicit entropy tape
      threaded through the functions that draw from it.
    - Server tables are lists of rows; the local sync index is a finite map
      from skill keys to entries. *)

From Stdlib Require Import ZArith List Bool Lia String Ascii Btauto Sorted.
From stdpp Require Import base gmap list.
Import ListNotations.
Local Open Scope Z_scope.

(* ===================================================================== *)
(** * Part I: the model                                                   *)
(* ===================================================================== *)

(** ** Bytes and JavaScript strings *)

Abbreviation bytes := (list Z).
Abbreviation jsstring := (list Z).

Definition byte_ok (b : Z) : Prop := 0 <= b < 256.
Definition bytes_ok (bs : bytes) : Prop := Forall byte_ok bs.

Definition byte_okb (b : Z) : bool := (0 <=? b) && (b <? 256).
Definition bytes_okb (bs : bytes) : bool := forallb byte_okb bs.

(** The code units of an ASCII / Latin-1 literal. *)
Definition js (s : string) : jsstring :=
  map (fun a => Z.of_N (N_of_ascii a)) (list_ascii_of_string s).

Fixpoint jseqb (a b : jsstring) : bool :=
  match a, b with
  | [], [] => true
  | x :: a', y :: b' => (x =? y) && jseqb a' b'
  | _, _ => false
  end.

(** [Array.prototype.join]. *)
Fixpoint join (sep : jsstring) (parts : list jsstring) : jsstring :=
  match parts with
  | [] => []
  | [p] => p
  | p :: rest => p ++ sep ++ join sep rest
  end.

(** [String.prototype.toLowerCase] / [toUpperCase].  The model maps the
    ASCII letters and leaves every other code unit as it is: the Unicode
    case mappings of non-ASCII characters are outside this model. *)
Definition lower_unit (c : Z) : Z :=
  if (65 <=? c) && (c <=? 90) then c + 32 else c.
Definition upper_unit (c : Z) : Z :=
  if (97 <=? c) && (c <=? 122) then c - 32 else c.
Definition toLowerCase (s : jsstring) : jsstring := map lower_unit s.
Definition toUpperCase (s : jsstring) : jsstring := map upper_unit s.

(** The regular-expression class [\s] of ECMAScript: white space and line
    terminators. *)
Definition is_js_space (c : Z) : bool :=
  ((9 <=? c) && (c <=? 13)) || (c =? 32) || (c =? 160) || (c =? 5760)
  || ((8192 <=? c) && (c <=? 8202)) || (c =? 8232) || (c =? 8233)
  || (c =? 8239) || (c =? 8287) || (c =? 12288) || (c =? 65279).

(** The class [[-\s]] used by [parseRecoveryKey]. *)
Definition is_key_sep (c : Z) : bool := (c =? 45) || is_js_space c.

(** [s.split(/[sep]+/)]: the pieces between maximal runs of separators.
    [cur] is the piece being read (reversed), [in_run] says that the
    previous code unit was a separator. *)
Fixpoint split_runs_from (sep : Z -> bool) (s : jsstring) (cur : jsstring)
    (in_run : bool) : list jsstring :=
  match s with
  | [] => [rev cur]
  | c :: r =>
      if sep c then
        if in_run then split_runs_from sep r [] true
        else rev cur :: split_runs_from sep r [] true
      else split_runs_from sep r (c :: cur) false
  end.

Definition split_runs (sep : Z -> bool) (s : jsstring) : list jsstring :=
  split_runs_from sep s [] false.

(** [.filter(Boolean)] on an array of strings drops the empty ones. *)
Definition filter_nonempty (l : list jsstring) : list jsstring :=
  List.filter (fun w => negb (jseqb w [])) l.

(** [Array.prototype.indexOf] on an array of strings: the first index, or
    -1. *)
Fixpoint indexOf_from (w : jsstring) (l : list jsstring) (i : Z) : Z :=
  match l with
  | [] => -1
  | x :: r => if jseqb x w then i else indexOf_from w r (i + 1)
  end.
Definition indexOf (l : list jsstring) (w : jsstring) : Z := indexOf_from w l 0.

(** ** Randomness

    [randomBytes(n)] reads the next [n] bytes of the system's entropy.  The
    tape is a function from positions to bytes together with a cursor. *)

Record Rng := mkRng { tape : nat -> Z; cursor : nat }.

Definition generateRandomBytes (n : nat) (g : Rng) : bytes * Rng :=
  (map (fun i => tape g (cursor g + i)%nat mod 256) (seq 0 n),
   mkRng (tape g) (cursor g + n)).

(** ** crypto.ts: constants *)

Definition AES_KEY_LENGTH : nat := 32.
Definition AES_IV_LENGTH : nat := 12.
Definition AES_TAG_LENGTH : nat := 16.
Definition ARGON2_MEMORY : Z := 65536.
Definition ARGON2_ITERATIONS : Z := 3.
Definition ARGON2_PARALLELISM : Z := 4.
Definition ARGON2_SALT_LENGTH : nat := 16.

Definition WORDLIST : list jsstring := map js [
  "apple"; "armor"; "arrow"; "badge"; "baker"; "beach"; "beast"; "berry";
  "blade"; "blank"; "blaze"; "blend"; "bless"; "block"; "bloom"; "board";
  "bonus"; "boost"; "bound"; "brain"; "brand"; "brave"; "bread"; "break";
  "brick"; "brief"; "bring"; "broad"; "brook"; "brush"; "build"; "burst";
  "cabin"; "cable"; "camel"; "candy"; "cargo"; "carry"; "catch"; "cause";
  "chain"; "chair"; "chalk"; "charm"; "chase"; "cheap"; "check"; "chess";
  "chief"; "child"; "chill"; "claim"; "clamp"; "clash"; "class"; "clean";
  "clear"; "clerk"; "click"; "cliff"; "climb"; "clock"; "close"; "cloth";
  "cloud"; "coach"; "coast"; "coral"; "couch"; "cover"; "craft"; "crane";
  "crash"; "crawl"; "cream"; "creek"; "crisp"; "cross"; "crowd"; "crown";
  "crush"; "curve"; "cycle"; "dance"; "delta"; "depot"; "depth"; "diary";
  "digit"; "dodge"; "draft"; "drain"; "drama"; "drank"; "dream"; "dress";
  "drift"; "drill"; "drink"; "drive"; "drown"; "drums"; "dusty"; "dwarf";
  "eagle"; "earth"; "elbow"; "elder"; "elite"; "ember"; "empty"; "enemy";
  "enjoy"; "enter"; "equal"; "error"; "essay"; "event"; "exact"; "exile";
  "exist"; "extra"; "fable"; "faith"; "fancy"; "fault"; "feast"; "fence";
  "fetch"; "fever"; "fiber"; "field"; "fifth"; "fifty"; "fight"; "final";
  "flair"; "flame"; "flash"; "fleet"; "flesh"; "fling"; "float"; "flock";
  "flood"; "floor"; "flour"; "fluid"; "flush"; "flute"; "focus"; "force";
  "forge"; "forth"; "forum"; "found"; "frame"; "frank"; "fresh"; "frost";
  "fruit"; "fuels"; "giant"; "glass"; "gleam"; "glide"; "globe"; "glory";
  "grace"; "grade"; "grain"; "grand"; "grant"; "grape"; "grasp"; "grass";
  "grave"; "great"; "green"; "greet"; "grief"; "grill"; "grind"; "group";
  "grove"; "guard"; "guess"; "guest"; "guide"; "guilt"; "habit"; "happy";
  "harsh"; "haste"; "haven"; "heart"; "heavy"; "hedge"; "heist"; "hello";
  "honor"; "horse"; "hotel"; "house"; "human"; "humor"; "ideal"; "image";
  "index"; "inner"; "input"; "intro"; "issue"; "ivory"; "jelly"; "jewel";
  "joint"; "joker"; "jolly"; "judge"; "juice"; "jumbo"; "kayak"; "khaki";
  "knife"; "knock"; "label"; "labor"; "lance"; "large"; "laser"; "latch";
  "later"; "laugh"; "layer"; "learn"; "lease"; "leave"; "legal"; "lemon";
  "level"; "lever"; "light"; "limit"; "linen"; "links"; "liver"; "llama";
  "local"; "lodge"; "logic"; "lunar"; "lunch"; "maker"; "manor"; "maple"
]%string.

(** ** crypto.ts: recovery keys *)

Record RecoveryKey := mkRecoveryKey {
  rk_words : list jsstring;
  rk_bytes : bytes
}.

(** [WORDLIST[index]!]: an index outside the array would give [undefined];
    the model reads the empty string there. *)
Definition word_at (index : Z) : jsstring :=
  nth (Z.to_nat index) WORDLIST [].

Definition generateRecoveryKey (g : Rng) : RecoveryKey * Rng :=
  let '(bs, g') := generateRandomBytes 8 g in
  let words := map (fun byte => word_at (byte mod Z.of_nat (length WORDLIST))) bs in
  (mkRecoveryKey words bs, g').

(** [new Uint8Array(indices)]: each number is stored modulo 256. *)
Definition Uint8Array_of (ns : list Z) : bytes := map (fun n => n mod 256) ns.

Definition parseRecoveryKey (wordsInput : jsstring) : option RecoveryKey :=
  let words := filter_nonempty (split_runs is_key_sep (toLowerCase wordsInput)) in
  if negb (length words =? 8)%nat then None
  else
    let indices := map (indexOf WORDLIST) words in
    if existsb (fun index => index =? -1) indices then None
    else Some (mkRecoveryKey words (Uint8Array_of indices)).

Definition formatRecoveryKey (recoveryKey : RecoveryKey) : jsstring :=
  join (js "-") (map toUpperCase (rk_words recoveryKey)).


(** ** Text encodings

    [TextEncoder.encode], [Buffer] with "utf8", [hash.update(s, "utf8")]:
    a JavaScript string is first read as Unicode scalar values (a high
    surrogate followed by a low one is one supplementary character, any
    other surrogate becomes U+FFFD) and each scalar value is written in
    UTF-8. *)

Module Text.

Definition is_high_surrogate (c : Z) : bool := (0xD800 <=? c) && (c <=? 0xDBFF).
Definition is_low_surrogate (c : Z) : bool := (0xDC00 <=? c) && (c <=? 0xDFFF).
Definition is_surrogate (c : Z) : bool := (0xD800 <=? c) && (c <=? 0xDFFF).

Definition pair_code_point (hi lo : Z) : Z :=
  0x10000 + Z.shiftl (hi - 0xD800) 10 + (lo - 0xDC00).

(** The scalar values of a string (the conversion to a USVString). *)
Fixpoint scalar_values (s : jsstring) : list Z :=
  match s with
  | [] => []
  | c :: r =>
      if is_high_surrogate c then
        match r with
        | lo :: r' =>
            if is_low_surrogate lo then pair_code_point c lo :: scalar_values r'
            else 0xFFFD :: scalar_values r
        | [] => [0xFFFD]
        end
      else if is_low_surrogate c then 0xFFFD :: scalar_values r
      else c :: scalar_values r
  end.

(** The UTF-16 code units of one scalar value. *)
Definition utf16_units (cp : Z) : jsstring :=
  if cp <? 0x10000 then [cp]
  else [0xD800 + Z.shiftr (cp - 0x10000) 10; 0xDC00 + Z.land (cp - 0x10000) 0x3FF].

Definition utf8_bytes (cp : Z) : bytes :=
  if cp <? 0x80 then [cp]
  else if cp <? 0x800 then
    [Z.lor 0xC0 (Z.shiftr cp 6); Z.lor 0x80 (Z.land cp 0x3F)]
  else if cp <? 0x10000 then
    [Z.lor 0xE0 (Z.shiftr cp 12); Z.lor 0x80 (Z.land (Z.shiftr cp 6) 0x3F);
     Z.lor 0x80 (Z.land cp 0x3F)]
  else
    [Z.lor 0xF0 (Z.shiftr cp 18); Z.lor 0x80 (Z.land (Z.shiftr cp 12) 0x3F);
     Z.lor 0x80 (Z.land (Z.shiftr cp 6) 0x3F); Z.lor 0x80 (Z.land cp 0x3F)].

(** [new TextEncoder().encode(s)]. *)
Definition utf8_encode (s : jsstring) : bytes :=
  flat_map utf8_bytes (scalar_values s).

(** [new TextDecoder().decode(bytes)]: the UTF-8 decoder of the Encoding
    standard.  [d_needed = 0] is the state between characters; inside a
    sequence the next byte must lie in [[d_lower], [d_upper]].  A byte that
    cannot continue the sequence gives U+FFFD and is read again as the start
    of the next one. *)
Record dstate := mkDstate {
  d_cp : Z; d_seen : Z; d_needed : Z; d_lower : Z; d_upper : Z
}.

Definition d_init : dstate := mkDstate 0 0 0 0x80 0xBF.

Definition decode_first (b : Z) : list Z * dstate :=
  if (0 <=? b) && (b <=? 0x7F) then ([b], d_init)
  else if (0xC2 <=? b) && (b <=? 0xDF) then
    ([], mkDstate (Z.land b 0x1F) 0 1 0x80 0xBF)
  else if (0xE0 <=? b) && (b <=? 0xEF) then
    ([], mkDstate (Z.land b 0xF) 0 2
           (if b =? 0xE0 then 0xA0 else 0x80) (if b =? 0xED then 0x9F else 0xBF))
  else if (0xF0 <=? b) && (b <=? 0xF4) then
    ([], mkDstate (Z.land b 0x7) 0 3
           (if b =? 0xF0 then 0x90 else 0x80) (if b =? 0xF4 then 0x8F else 0xBF))
  else ([0xFFFD], d_init).

Definition decode_step (st : dstate) (b : Z) : list Z * dstate :=
  if d_needed st =? 0 then decode_first b
  else if (b <? d_lower st) || (d_upper st <? b) then
    let '(out, st') := decode_first b in (0xFFFD :: out, st')
  else
    let cp := Z.lor (Z.shiftl (d_cp st) 6) (Z.land b 0x3F) in
    if d_seen st + 1 =? d_needed st then ([cp], d_init)
    else ([], mkDstate cp (d_seen st + 1) (d_needed st) 0x80 0xBF).

Fixpoint decode_from (st : dstate) (bs : bytes) : list Z :=
  match bs with
  | [] => if d_needed st =? 0 then [] else [0xFFFD]
  | b :: r => let '(out, st') := decode_step st b in out ++ decode_from st' r
  end.

(** A leading byte order mark is dropped ([ignoreBOM] is false by
    default). *)
Definition strip_bom (bs : bytes) : bytes :=
  match bs with
  | b0 :: b1 :: b2 :: r =>
      if (b0 =? 0xEF) && (b1 =? 0xBB) && (b2 =? 0xBF) then r else bs
  | _ => bs
  end.

Definition utf8_decode (bs : bytes) : jsstring :=
  flat_map utf16_units (decode_from d_init (strip_bom bs)).

(** Strings that [utf8_encode] reads without replacement: code units in
    range and every surrogate paired. *)
Fixpoint well_formed (s : jsstring) : bool :=
  match s with
  | [] => true
  | c :: r =>
      if is_high_surrogate c then
        match r with
        | lo :: r' => is_low_surrogate lo && well_formed r'
        | [] => false
        end
      else if is_low_surrogate c then false
      else (0 <=? c) && (c <? 0x10000) && well_formed r
  end.

(** *** Hexadecimal *)

Definition hex_digit (d : Z) : Z := if d <? 10 then 48 + d else 87 + d.

(** [buffer.toString("hex")] / [digest("hex")]: two lower-case digits per
    byte. *)
Definition hex_of_bytes (bs : bytes) : jsstring :=
  flat_map (fun b => [hex_digit (Z.shiftr b 4); hex_digit (Z.land b 15)]) bs.

(** The hexadecimal digits of a natural number, most significant first, as
    [Number.prototype.toString(16)] writes them. *)
Fixpoint hex_digits_fuel (fuel : nat) (n : Z) (acc : jsstring) : jsstring :=
  match fuel with
  | O => acc
  | S f =>
      let acc' := hex_digit (n mod 16) :: acc in
      if n / 16 =? 0 then acc' else hex_digits_fuel f (n / 16) acc'
  end.

Definition number_toString16 (n : Z) : jsstring :=
  if n <? 0 then 45 :: hex_digits_fuel (Z.to_nat (Z.log2 (- n)) + 1) (- n) []
  else hex_digits_fuel (Z.to_nat (Z.log2 n) + 1) n [].

(** *** JSON.stringify of a string (QuoteJSONString) *)

Definition u_escape (c : Z) : jsstring :=
  [92; 117; hex_digit (Z.land (Z.shiftr c 12) 15); hex_digit (Z.land (Z.shiftr c 8) 15);
   hex_digit (Z.land (Z.shiftr c 4) 15); hex_digit (Z.land c 15)].

Definition json_escape_unit (c : Z) : jsstring :=
  if c =? 8 then [92; 98]
  else if c =? 9 then [92; 116]
  else if c =? 10 then [92; 110]
  else if c =? 12 then [92; 102]
  else if c =? 13 then [92; 114]
  else if c =? 34 then [92; 34]
  else if c =? 92 then [92; 92]
  else if c <? 32 then u_escape c
  else [c].

Fixpoint json_escape (s : jsstring) : jsstring :=
  match s with
  | [] => []
  | c :: r =>
      if is_high_surrogate c then
        match r with
        | lo :: r' =>
            if is_low_surrogate lo then c :: lo :: json_escape r'
            else u_escape c ++ json_escape r
        | [] => u_escape c
        end
      else if is_low_surrogate c then u_escape c ++ json_escape r
      else json_escape_unit c ++ json_escape r
  end.

Definition json_string (s : jsstring) : jsstring := [34] ++ json_escape s ++ [34].

(** [JSON.stringify] of an array whose elements are already serialized. *)
Definition json_array (items : list jsstring) : jsstring :=
  js "[" ++ join (js ",") items ++ js "]".

(** [JSON.stringify] of an object, from its (key, serialized value) pairs in
    insertion order. *)
Definition json_object (fields : list (jsstring * jsstring)) : jsstring :=
  js "{" ++ join (js ",") (map (fun kv => json_string kv.1 ++ js ":" ++ kv.2) fields)
  ++ js "}".

End Text.

(** ** Base64 as Node's [Buffer] reads and writes it

    [buf.toString("base64")] writes the standard alphabet with padding.
    [Buffer.from(s, "base64")] is forgiving: it accepts the URL-safe
    alphabet as well, skips every code unit outside the alphabets, stops at
    the first [=], and keeps the bytes of an incomplete last group. *)

Module Base64.

Definition alphabet : jsstring :=
  js "ABCDEFGHIJKLMNOPQRSTUVWXYZabcdefghijklmnopqrstuvwxyz0123456789+/".

Definition char_of (sextet : Z) : Z := nth (Z.to_nat sextet) alphabet 0.

Fixpoint encode (bs : bytes) : jsstring :=
  match bs with
  | [] => []
  | [a] =>
      [char_of (Z.shiftr a 2); char_of (Z.shiftl (Z.land a 3) 4); 61; 61]
  | [a; b] =>
      [char_of (Z.shiftr a 2);
       char_of (Z.lor (Z.shiftl (Z.land a 3) 4) (Z.shiftr b 4));
       char_of (Z.shiftl (Z.land b 15) 2); 61]
  | a :: b :: c :: r =>
      [char_of (Z.shiftr a 2);
       char_of (Z.lor (Z.shiftl (Z.land a 3) 4) (Z.shiftr b 4));
       char_of (Z.lor (Z.shiftl (Z.land b 15) 2) (Z.shiftr c 6));
       char_of (Z.land c 63)] ++ encode r
  end.

Definition unbase64 (c : Z) : option Z :=
  if (65 <=? c) && (c <=? 90) then Some (c - 65)
  else if (97 <=? c) && (c <=? 122) then Some (c - 71)
  else if (48 <=? c) && (c <=? 57) then Some (c + 4)
  else if (c =? 43) || (c =? 45) then Some 62
  else if (c =? 47) || (c =? 95) then Some 63
  else None.

(** The sextets of the text before the first [=]. *)
Fixpoint sextets (s : jsstring) : list Z :=
  match s with
  | [] => []
  | c :: r =>
      if c =? 61 then []
      else match unbase64 c with
           | Some v => v :: sextets r
           | None => sextets r
           end
  end.

Fixpoint decode_sextets (l : list Z) : bytes :=
  match l with
  | a :: b :: c :: d :: r =>
      [Z.land (Z.lor (Z.shiftl a 2) (Z.shiftr b 4)) 255;
       Z.land (Z.lor (Z.shiftl b 4) (Z.shiftr c 2)) 255;
       Z.land (Z.lor (Z.shiftl c 6) d) 255] ++ decode_sextets r
  | [a; b; c] =>
      [Z.land (Z.lor (Z.shiftl a 2) (Z.shiftr b 4)) 255;
       Z.land (Z.lor (Z.shiftl b 4) (Z.shiftr c 2)) 255]
  | [a; b] => [Z.land (Z.lor (Z.shiftl a 2) (Z.shiftr b 4)) 255]
  | _ => []
  end.

Definition decode (s : jsstring) : bytes := decode_sextets (sextets s).

End Base64.

(** ** SHA-256 (FIPS 180-4), the digest behind [createHash("sha256")]

    32-bit words are [Z] in [0, 2^32); additions wrap. *)

Module SHA256.

Definition w32 (x : Z) : Z := x mod 4294967296.
Definition add32 (a b : Z) : Z := w32 (a + b).
Definition rotr (n x : Z) : Z := w32 (Z.lor (Z.shiftr x n) (Z.shiftl x (32 - n))).
Definition shr (n x : Z) : Z := Z.shiftr x n.
Definition not32 (x : Z) : Z := 4294967295 - x.

Definition Ch (x y z : Z) : Z := Z.lxor (Z.land x y) (Z.land (not32 x) z).
Definition Maj (x y z : Z) : Z :=
  Z.lxor (Z.lxor (Z.land x y) (Z.land x z)) (Z.land y z).
Definition Sigma0 (x : Z) : Z := Z.lxor (Z.lxor (rotr 2 x) (rotr 13 x)) (rotr 22 x).
Definition Sigma1 (x : Z) : Z := Z.lxor (Z.lxor (rotr 6 x) (rotr 11 x)) (rotr 25 x).
Definition sigma0 (x : Z) : Z := Z.lxor (Z.lxor (rotr 7 x) (rotr 18 x)) (shr 3 x).
Definition sigma1 (x : Z) : Z := Z.lxor (Z.lxor (rotr 17 x) (rotr 19 x)) (shr 10 x).

(** The constants are what the standard says they are: the first 32 bits of
    the fractional parts of the cube roots (for [K]) and of the square roots
    (for [H0]) of the first primes. *)
Definition is_prime (p : Z) : bool :=
  (2 <=? p) && forallb (fun d => negb (p mod Z.of_nat d =? 0)) (seq 2 (Z.to_nat p - 2)).

Definition first_primes (n : nat) : list Z :=
  firstn n (List.filter is_prime (map Z.of_nat (seq 2 400))).

(** The integer cube root, one bit at a time from bit [bit] down. *)
Fixpoint cube_root_from (bit : nat) (n r : Z) : Z :=
  let c := r + 2 ^ Z.of_nat bit in
  let r' := if c * c * c <=? n then c else r in
  match bit with
  | O => r'
  | S b => cube_root_from b n r'
  end.

Definition frac_cube_root (p : Z) : Z := w32 (cube_root_from 36 (p * 2 ^ 96) 0).
Definition frac_square_root (p : Z) : Z := w32 (Z.sqrt (p * 2 ^ 64)).

Definition K : list Z := Eval vm_compute in map frac_cube_root (first_primes 64).

Record state := mkState { sa : Z; sb : Z; sc : Z; sd : Z; se : Z; sf : Z; sg : Z; sh : Z }.

Definition state_of_list (l : list Z) : state :=
  mkState (nth 0 l 0) (nth 1 l 0) (nth 2 l 0) (nth 3 l 0)
          (nth 4 l 0) (nth 5 l 0) (nth 6 l 0) (nth 7 l 0).

Definition H0 : state :=
  Eval vm_compute in state_of_list (map frac_square_root (first_primes 8)).

Definition round (s : state) (k w : Z) : state :=
  let t1 := add32 (add32 (add32 (add32 (sh s) (Sigma1 (se s))) (Ch (se s) (sf s) (sg s))) k) w in
  let t2 := add32 (Sigma0 (sa s)) (Maj (sa s) (sb s) (sc s)) in
  mkState (add32 t1 t2) (sa s) (sb s) (sc s) (add32 (sd s) t1) (se s) (sf s) (sg s).

(** The 64 rounds of one block.  [win] holds the sixteen schedule words
    W(t) .. W(t+15) of the current round [t]. *)
Fixpoint rounds (ks : list Z) (win : list Z) (s : state) : state :=
  match ks with
  | [] => s
  | k :: ks' =>
      let w := nth 0 win 0 in
      let wnew := add32 (add32 (sigma1 (nth 14 win 0)) (nth 9 win 0))
                        (add32 (sigma0 (nth 1 win 0)) w) in
      rounds ks' (tl win ++ [wnew]) (round s k w)
  end.

Definition add_state (s t : state) : state :=
  mkState (add32 (sa s) (sa t)) (add32 (sb s) (sb t)) (add32 (sc s) (sc t))
          (add32 (sd s) (sd t)) (add32 (se s) (se t)) (add32 (sf s) (sf t))
          (add32 (sg s) (sg t)) (add32 (sh s) (sh t)).

Definition compress (s : state) (block : list Z) : state :=
  add_state s (rounds K block s).

(** Big-endian words of a byte string whose length is a multiple of 4. *)
Fixpoint words_of_bytes (bs : bytes) : list Z :=
  match bs with
  | b0 :: b1 :: b2 :: b3 :: r =>
      (Z.shiftl b0 24 + Z.shiftl b1 16 + Z.shiftl b2 8 + b3) :: words_of_bytes r
  | _ => []
  end.

Definition bytes_of_word (w : Z) : bytes :=
  [Z.shiftr w 24; Z.land (Z.shiftr w 16) 255; Z.land (Z.shiftr w 8) 255; Z.land w 255].

(** The padding: a 1 bit, zeros up to 56 modulo 64, the bit length on 64
    bits. *)
Definition pad (msg : bytes) : bytes :=
  let len := Z.of_nat (length msg) in
  let zeros := Z.to_nat ((55 - len) mod 64) in
  let bits := len * 8 in
  msg ++ [128] ++ repeat 0 zeros
      ++ bytes_of_word (w32 (Z.shiftr bits 32)) ++ bytes_of_word (w32 bits).

Fixpoint blocks (fuel : nat) (ws : list Z) (s : state) : state :=
  match fuel with
  | O => s
  | S f =>
      match ws with
      | [] => s
      | _ => blocks f (skipn 16 ws) (compress s (firstn 16 ws))
      end
  end.

Definition digest (msg : bytes) : bytes :=
  let ws := words_of_bytes (pad msg) in
  let s := blocks (length ws) ws H0 in
  flat_map bytes_of_word [sa s; sb s; sc s; sd s; se s; sf s; sg s; sh s].

End SHA256.

(** ** AES-256 (FIPS 197), the block cipher behind "aes-256-gcm"

    A block and a round key are 16 bytes, in the order of the input; the
    byte in row [r] and column [c] of the state is at index [r + 4 c]. *)

Module AES.

Definition SBOX : list Z := [
  0x63; 0x7c; 0x77; 0x7b; 0xf2; 0x6b; 0x6f; 0xc5; 0x30; 0x01; 0x67; 0x2b; 0xfe; 0xd7; 0xab; 0x76;
  0xca; 0x82; 0xc9; 0x7d; 0xfa; 0x59; 0x47; 0xf0; 0xad; 0xd4; 0xa2; 0xaf; 0x9c; 0xa4; 0x72; 0xc0;
  0xb7; 0xfd; 0x93; 0x26; 0x36; 0x3f; 0xf7; 0xcc; 0x34; 0xa5; 0xe5; 0xf1; 0x71; 0xd8; 0x31; 0x15;
  0x04; 0xc7; 0x23; 0xc3; 0x18; 0x96; 0x05; 0x9a; 0x07; 0x12; 0x80; 0xe2; 0xeb; 0x27; 0xb2; 0x75;
  0x09; 0x83; 0x2c; 0x1a; 0x1b; 0x6e; 0x5a; 0xa0; 0x52; 0x3b; 0xd6; 0xb3; 0x29; 0xe3; 0x2f; 0x84;
  0x53; 0xd1; 0x00; 0xed; 0x20; 0xfc; 0xb1; 0x5b; 0x6a; 0xcb; 0xbe; 0x39; 0x4a; 0x4c; 0x58; 0xcf;
  0xd0; 0xef; 0xaa; 0xfb; 0x43; 0x4d; 0x33; 0x85; 0x45; 0xf9; 0x02; 0x7f; 0x50; 0x3c; 0x9f; 0xa8;
  0x51; 0xa3; 0x40; 0x8f; 0x92; 0x9d; 0x38; 0xf5; 0xbc; 0xb6; 0xda; 0x21; 0x10; 0xff; 0xf3; 0xd2;
  0xcd; 0x0c; 0x13; 0xec; 0x5f; 0x97; 0x44; 0x17; 0xc4; 0xa7; 0x7e; 0x3d; 0x64; 0x5d; 0x19; 0x73;
  0x60; 0x81; 0x4f; 0xdc; 0x22; 0x2a; 0x90; 0x88; 0x46; 0xee; 0xb8; 0x14; 0xde; 0x5e; 0x0b; 0xdb;
  0xe0; 0x32; 0x3a; 0x0a; 0x49; 0x06; 0x24; 0x5c; 0xc2; 0xd3; 0xac; 0x62; 0x91; 0x95; 0xe4; 0x79;
  0xe7; 0xc8; 0x37; 0x6d; 0x8d; 0xd5; 0x4e; 0xa9; 0x6c; 0x56; 0xf4; 0xea; 0x65; 0x7a; 0xae; 0x08;
  0xba; 0x78; 0x25; 0x2e; 0x1c; 0xa6; 0xb4; 0xc6; 0xe8; 0xdd; 0x74; 0x1f; 0x4b; 0xbd; 0x8b; 0x8a;
  0x70; 0x3e; 0xb5; 0x66; 0x48; 0x03; 0xf6; 0x0e; 0x61; 0x35; 0x57; 0xb9; 0x86; 0xc1; 0x1d; 0x9e;
  0xe1; 0xf8; 0x98; 0x11; 0x69; 0xd9; 0x8e; 0x94; 0x9b; 0x1e; 0x87; 0xe9; 0xce; 0x55; 0x28; 0xdf;
  0x8c; 0xa1; 0x89; 0x0d; 0xbf; 0xe6; 0x42; 0x68; 0x41; 0x99; 0x2d; 0x0f; 0xb0; 0x54; 0xbb; 0x16 ].

Definition INV_SBOX : list Z := [
  0x52; 0x09; 0x6a; 0xd5; 0x30; 0x36; 0xa5; 0x38; 0xbf; 0x40; 0xa3; 0x9e; 0x81; 0xf3; 0xd7; 0xfb;
  0x7c; 0xe3; 0x39; 0x82; 0x9b; 0x2f; 0xff; 0x87; 0x34; 0x8e; 0x43; 0x44; 0xc4; 0xde; 0xe9; 0xcb;
  0x54; 0x7b; 0x94; 0x32; 0xa6; 0xc2; 0x23; 0x3d; 0xee; 0x4c; 0x95; 0x0b; 0x42; 0xfa; 0xc3; 0x4e;
  0x08; 0x2e; 0xa1; 0x66; 0x28; 0xd9; 0x24; 0xb2; 0x76; 0x5b; 0xa2; 0x49; 0x6d; 0x8b; 0xd1; 0x25;
  0x72; 0xf8; 0xf6; 0x64; 0x86; 0x68; 0x98; 0x16; 0xd4; 0xa4; 0x5c; 0xcc; 0x5d; 0x65; 0xb6; 0x92;
  0x6c; 0x70; 0x48; 0x50; 0xfd; 0xed; 0xb9; 0xda; 0x5e; 0x15; 0x46; 0x57; 0xa7; 0x8d; 0x9d; 0x84;
  0x90; 0xd8; 0xab; 0x00; 0x8c; 0xbc; 0xd3; 0x0a; 0xf7; 0xe4; 0x58; 0x05; 0xb8; 0xb3; 0x45; 0x06;
  0xd0; 0x2c; 0x1e; 0x8f; 0xca; 0x3f; 0x0f; 0x02; 0xc1; 0xaf; 0xbd; 0x03; 0x01; 0x13; 0x8a; 0x6b;
  0x3a; 0x91; 0x11; 0x41; 0x4f; 0x67; 0xdc; 0xea; 0x97; 0xf2; 0xcf; 0xce; 0xf0; 0xb4; 0xe6; 0x73;
  0x96; 0xac; 0x74; 0x22; 0xe7; 0xad; 0x35; 0x85; 0xe2; 0xf9; 0x37; 0xe8; 0x1c; 0x75; 0xdf; 0x6e;
  0x47; 0xf1; 0x1a; 0x71; 0x1d; 0x29; 0xc5; 0x89; 0x6f; 0xb7; 0x62; 0x0e; 0xaa; 0x18; 0xbe; 0x1b;
  0xfc; 0x56; 0x3e; 0x4b; 0xc6; 0xd2; 0x79; 0x20; 0x9a; 0xdb; 0xc0; 0xfe; 0x78; 0xcd; 0x5a; 0xf4;
  0x1f; 0xdd; 0xa8; 0x33; 0x88; 0x07; 0xc7; 0x31; 0xb1; 0x12; 0x10; 0x59; 0x27; 0x80; 0xec; 0x5f;
  0x60; 0x51; 0x7f; 0xa9; 0x19; 0xb5; 0x4a; 0x0d; 0x2d; 0xe5; 0x7a; 0x9f; 0x93; 0xc9; 0x9c; 0xef;
  0xa0; 0xe0; 0x3b; 0x4d; 0xae; 0x2a; 0xf5; 0xb0; 0xc8; 0xeb; 0xbb; 0x3c; 0x83; 0x53; 0x99; 0x61;
  0x17; 0x2b; 0x04; 0x7e; 0xba; 0x77; 0xd6; 0x26; 0xe1; 0x69; 0x14; 0x63; 0x55; 0x21; 0x0c; 0x7d ].

Definition sub_byte (b : Z) : Z := nth (Z.to_nat b) SBOX 0.
Definition inv_sub_byte (b : Z) : Z := nth (Z.to_nat b) INV_SBOX 0.

(** Multiplication by x in GF(2^8) modulo x^8 + x^4 + x^3 + x + 1. *)
Definition xtime (a : Z) : Z :=
  Z.land (Z.lxor (Z.shiftl a 1) (if Z.testbit a 7 then 0x1b else 0)) 0xff.

Fixpoint xor_bytes (a b : bytes) : bytes :=
  match a, b with
  | x :: a', y :: b' => Z.lxor x y :: xor_bytes a' b'
  | _, _ => []
  end.

Definition SubBytes (s : bytes) : bytes := map sub_byte s.
Definition InvSubBytes (s : bytes) : bytes := map inv_sub_byte s.

Definition ShiftRows (s : bytes) : bytes :=
  map (fun i => nth i s 0) [0; 5; 10; 15; 4; 9; 14; 3; 8; 13; 2; 7; 12; 1; 6; 11]%nat.
Definition InvShiftRows (s : bytes) : bytes :=
  map (fun i => nth i s 0) [0; 13; 10; 7; 4; 1; 14; 11; 8; 5; 2; 15; 12; 9; 6; 3]%nat.

Definition mul2 (a : Z) : Z := xtime a.
Definition mul3 (a : Z) : Z := Z.lxor (xtime a) a.
Definition mul9 (a : Z) : Z := Z.lxor (xtime (xtime (xtime a))) a.
Definition mul11 (a : Z) : Z := Z.lxor (Z.lxor (xtime (xtime (xtime a))) (xtime a)) a.
Definition mul13 (a : Z) : Z := Z.lxor (Z.lxor (xtime (xtime (xtime a))) (xtime (xtime a))) a.
Definition mul14 (a : Z) : Z :=
  Z.lxor (Z.lxor (xtime (xtime (xtime a))) (xtime (xtime a))) (xtime a).

Definition mix_column (a0 a1 a2 a3 : Z) : bytes :=
  [Z.lxor (Z.lxor (Z.lxor (mul2 a0) (mul3 a1)) a2) a3;
   Z.lxor (Z.lxor (Z.lxor a0 (mul2 a1)) (mul3 a2)) a3;
   Z.lxor (Z.lxor (Z.lxor a0 a1) (mul2 a2)) (mul3 a3);
   Z.lxor (Z.lxor (Z.lxor (mul3 a0) a1) a2) (mul2 a3)].

Definition inv_mix_column (b0 b1 b2 b3 : Z) : bytes :=
  [Z.lxor (Z.lxor (Z.lxor (mul14 b0) (mul11 b1)) (mul13 b2)) (mul9 b3);
   Z.lxor (Z.lxor (Z.lxor (mul9 b0) (mul14 b1)) (mul11 b2)) (mul13 b3);
   Z.lxor (Z.lxor (Z.lxor (mul13 b0) (mul9 b1)) (mul14 b2)) (mul11 b3);
   Z.lxor (Z.lxor (Z.lxor (mul11 b0) (mul13 b1)) (mul9 b2)) (mul14 b3)].

Fixpoint MixColumns (s : bytes) : bytes :=
  match s with
  | a0 :: a1 :: a2 :: a3 :: r => mix_column a0 a1 a2 a3 ++ MixColumns r
  | _ => []
  end.

Fixpoint InvMixColumns (s : bytes) : bytes :=
  match s with
  | b0 :: b1 :: b2 :: b3 :: r => inv_mix_column b0 b1 b2 b3 ++ InvMixColumns r
  | _ => []
  end.

Definition AddRoundKey (s rk : bytes) : bytes := xor_bytes s rk.

(** *** Key expansion (Nk = 8, Nr = 14) *)

Definition RotWord (w : bytes) : bytes :=
  match w with
  | a :: r => r ++ [a]
  | [] => []
  end.
Definition SubWord (w : bytes) : bytes := map sub_byte w.

Fixpoint words4 (bs : bytes) : list bytes :=
  match bs with
  | a :: b :: c :: d :: r => [a; b; c; d] :: words4 r
  | _ => []
  end.

(** [win] holds the eight words w(i-8) .. w(i-1). *)
Fixpoint expand (n : nat) (i : Z) (rcon : Z) (win : list bytes) : list bytes :=
  match n with
  | O => []
  | S n' =>
      let prev := nth 7 win [] in
      let temp :=
        if i mod 8 =? 0 then xor_bytes (SubWord (RotWord prev)) [rcon; 0; 0; 0]
        else if i mod 8 =? 4 then SubWord prev
        else prev in
      let w := xor_bytes (nth 0 win []) temp in
      w :: expand n' (i + 1) (if i mod 8 =? 0 then xtime rcon else rcon) (tl win ++ [w])
  end.

Definition key_words (key : bytes) : list bytes :=
  let w0 := words4 key in w0 ++ expand 52 8 1 w0.

Fixpoint group4 (ws : list bytes) : list bytes :=
  match ws with
  | a :: b :: c :: d :: r => (a ++ b ++ c ++ d) :: group4 r
  | _ => []
  end.

Definition round_keys (key : bytes) : list bytes := group4 (key_words key).

(** *** The cipher and its inverse *)

Fixpoint rounds (rks : list bytes) (s : bytes) : bytes :=
  match rks with
  | [] => s
  | [last] => AddRoundKey (ShiftRows (SubBytes s)) last
  | rk :: rest => rounds rest (AddRoundKey (MixColumns (ShiftRows (SubBytes s))) rk)
  end.

Definition encrypt_block_with (rks : list bytes) (block : bytes) : bytes :=
  match rks with
  | rk0 :: rest => rounds rest (AddRoundKey block rk0)
  | [] => block
  end.

Definition encrypt_block (key block : bytes) : bytes :=
  encrypt_block_with (round_keys key) block.

(** The inverse cipher, over the round keys in reverse order. *)
Fixpoint inv_rounds (rks : list bytes) (s : bytes) : bytes :=
  match rks with
  | [] => s
  | [rk0] => AddRoundKey (InvSubBytes (InvShiftRows s)) rk0
  | rk :: rest =>
      inv_rounds rest (InvMixColumns (AddRoundKey (InvSubBytes (InvShiftRows s)) rk))
  end.

Definition decrypt_block_with (rks : list bytes) (block : bytes) : bytes :=
  match rev rks with
  | last :: rest => inv_rounds rest (AddRoundKey block last)
  | [] => block
  end.

Definition decrypt_block (key block : bytes) : bytes :=
  decrypt_block_with (round_keys key) block.

End AES.

(** ** Galois/Counter Mode (NIST SP 800-38D) over AES-256, without
    additional authenticated data: what [createCipheriv("aes-256-gcm", ...)]
    and [createDecipheriv] compute.  A 128-bit block is a [Z], its first bit
    the most significant one. *)

Module GCM.

Definition block_of_bytes (bs : bytes) : Z :=
  fold_left (fun acc b => acc * 256 + b) bs 0.

(** The [n] bytes of [x], most significant first. *)
Definition bytes_of_block (n : nat) (x : Z) : bytes :=
  map (fun i => Z.land (Z.shiftr x (8 * Z.of_nat (n - 1 - i))) 255) (seq 0 n).

Definition R : Z := Z.shiftl 0xe1 120.

(** Multiplication in GF(2^128): bit [i] of [x] (from the most significant)
    adds [v], which is then multiplied by the field's generator. *)
Fixpoint gf_mul_loop (n : nat) (i : Z) (x z v : Z) : Z :=
  match n with
  | O => z
  | S n' =>
      let z' := if Z.testbit x (127 - i) then Z.lxor z v else z in
      let v' := if Z.testbit v 0 then Z.lxor (Z.shiftr v 1) R else Z.shiftr v 1 in
      gf_mul_loop n' (i + 1) x z' v'
  end.

Definition gf_mul (x y : Z) : Z := gf_mul_loop 128 0 x 0 y.

Definition ghash (h : Z) (blocks : list Z) : Z :=
  fold_left (fun y b => gf_mul (Z.lxor y b) h) blocks 0.

(** The 16-byte blocks of a byte string, the last one completed with
    zeros. *)
Fixpoint blocks_of_fuel (fuel : nat) (bs : bytes) : list Z :=
  match fuel with
  | O => []
  | S f =>
      match bs with
      | [] => []
      | _ => block_of_bytes (firstn 16 (bs ++ repeat 0 15)) :: blocks_of_fuel f (skipn 16 bs)
      end
  end.
Definition blocks_of (bs : bytes) : list Z := blocks_of_fuel (length bs) bs.

Definition bit_length (bs : bytes) : Z := 8 * Z.of_nat (length bs).

Definition hash_subkey (key : bytes) : Z :=
  block_of_bytes (AES.encrypt_block key (repeat 0 16)).

(** The pre-counter block J0. *)
Definition J0 (key iv : bytes) : bytes :=
  if (length iv =? 12)%nat then iv ++ [0; 0; 0; 1]
  else bytes_of_block 16 (ghash (hash_subkey key) (blocks_of iv ++ [bit_length iv])).

Definition inc32 (cb : bytes) : bytes :=
  firstn 12 cb ++ bytes_of_block 4 ((block_of_bytes (skipn 12 cb) + 1) mod 4294967296).

(** [n] blocks of key stream, from the counter block after [cb]. *)
Fixpoint keystream (key cb : bytes) (n : nat) : bytes :=
  match n with
  | O => []
  | S n' => let cb' := inc32 cb in AES.encrypt_block key cb' ++ keystream key cb' n'
  end.

(** GCTR: the data XOR as much key stream as it needs. *)
Definition ctr (key iv data : bytes) : bytes :=
  AES.xor_bytes data (keystream key (J0 key iv) ((length data + 15) / 16)).

Definition tag (key iv ciphertext : bytes) : bytes :=
  AES.xor_bytes
    (bytes_of_block 16
       (ghash (hash_subkey key) (blocks_of ciphertext ++ [bit_length ciphertext])))
    (AES.encrypt_block key (J0 key iv)).

Definition encrypt (key iv plaintext : bytes) : bytes * bytes :=
  let c := ctr key iv plaintext in (c, tag key iv c).

Fixpoint bytes_eqb (a b : bytes) : bool :=
  match a, b with
  | [], [] => true
  | x :: a', y :: b' => (x =? y) && bytes_eqb a' b'
  | _, _ => false
  end.

(** Decryption releases the plaintext only when the tag fits. *)
Definition decrypt (key iv ciphertext t : bytes) : option bytes :=
  if bytes_eqb (tag key iv ciphertext) t then Some (ctr key iv ciphertext) else None.

End GCM.

(** ** crypto.ts: key derivation and the AES-256-GCM envelope *)

(** Argon2id comes from the library [@noble/hashes]; the model takes it as
    an interface: a function of password, salt, the cost parameters [t],
    [m], [p] and the length [dkLen].  It throws ([None]) on parameters it
    refuses; with a salt of at least 8 bytes, [t >= 1], [p >= 1],
    [m >= 8 p] and [dkLen >= 4] it returns a [Uint8Array] of [dkLen]
    bytes. *)
Class Argon2id := {
  argon2id : bytes -> bytes -> Z -> Z -> Z -> nat -> option bytes;
  argon2id_length : forall password salt t m p dkLen,
    (8 <= length salt)%nat -> 1 <= t -> 1 <= p -> 8 * p <= m -> (4 <= dkLen)%nat ->
    exists key, argon2id password salt t m p dkLen = Some key /\ length key = dkLen;
  argon2id_bytes : forall password salt t m p dkLen key,
    argon2id password salt t m p dkLen = Some key -> bytes_ok key
}.

Record DerivedKey := mkDerivedKey { dk_key : bytes; dk_salt : bytes }.

Record Encrypted := mkEncrypted { ciphertext : bytes; iv : bytes; tag : bytes }.

Record EncryptedStrings := mkEncryptedStrings {
  ciphertext64 : jsstring; iv64 : jsstring; tag64 : jsstring
}.

Definition generateSalt (g : Rng) : bytes * Rng := generateRandomBytes ARGON2_SALT_LENGTH g.
Definition generateMasterKey (g : Rng) : bytes * Rng := generateRandomBytes AES_KEY_LENGTH g.

Definition deriveKeyFromPassphrase `{Argon2id} (passphrase : jsstring) (salt : bytes)
    : option DerivedKey :=
  let passphraseBytes := Text.utf8_encode passphrase in
  match argon2id passphraseBytes salt ARGON2_ITERATIONS ARGON2_MEMORY ARGON2_PARALLELISM
          AES_KEY_LENGTH with
  | Some key => Some (mkDerivedKey key salt)
  | None => None
  end.

Definition deriveKeyFromRecoveryKey `{Argon2id} (recoveryKey : RecoveryKey) (salt : bytes)
    : option DerivedKey :=
  match argon2id (rk_bytes recoveryKey) salt ARGON2_ITERATIONS ARGON2_MEMORY
          ARGON2_PARALLELISM AES_KEY_LENGTH with
  | Some key => Some (mkDerivedKey key salt)
  | None => None
  end.

(** [encrypt]: a fresh 12-byte iv from the random source, then AES-256-GCM
    with a 16-byte tag.  [createCipheriv] throws when the key is not 32
    bytes long. *)
Definition encrypt (plaintext key : bytes) (g : Rng) : option (Encrypted * Rng) :=
  let '(iv, g') := generateRandomBytes AES_IV_LENGTH g in
  if (length key =? AES_KEY_LENGTH)%nat then
    let '(c, t) := GCM.encrypt key iv plaintext in
    Some (mkEncrypted c iv t, g')
  else None.

(** [decrypt]: [createDecipheriv] throws on a key that is not 32 bytes or an
    empty iv, [setAuthTag] on a tag that is not 16 bytes, and [final] when
    the tag does not fit; the plaintext is returned only after [final]. *)
Definition decrypt (ciphertext key iv tag : bytes) : option bytes :=
  if negb (length key =? AES_KEY_LENGTH)%nat then None
  else if (length iv =? 0)%nat then None
  else if negb (length tag =? AES_TAG_LENGTH)%nat then None
  else GCM.decrypt key iv ciphertext tag.

Definition toBase64 (bs : bytes) : jsstring := Base64.encode bs.
Definition fromBase64 (s : jsstring) : bytes := Base64.decode s.

Definition encryptString (plaintext : jsstring) (key : bytes) (g : Rng)
    : option (EncryptedStrings * Rng) :=
  let plaintextBytes := Text.utf8_encode plaintext in
  match encrypt plaintextBytes key g with
  | Some (e, g') =>
      Some (mkEncryptedStrings (Base64.encode (ciphertext e)) (Base64.encode (iv e))
              (Base64.encode (tag e)), g')
  | None => None
  end.

Definition decryptString (ciphertext : jsstring) (key : bytes) (iv tag : jsstring)
    : option jsstring :=
  let ciphertextBytes := Base64.decode ciphertext in
  let ivBytes := Base64.decode iv in
  let tagBytes := Base64.decode tag in
  match decrypt ciphertextBytes key ivBytes tagBytes with
  | Some decrypted => Some (Text.utf8_decode decrypted)
  | None => None
  end.

Record EncryptedMasterKey := mkEncryptedMasterKey {
  emk_encrypted : bytes; emk_iv : bytes; emk_tag : bytes
}.

Definition encryptMasterKey (masterKey derivedKey : bytes) (g : Rng)
    : option (EncryptedMasterKey * Rng) :=
  match encrypt masterKey derivedKey g with
  | Some (e, g') => Some (mkEncryptedMasterKey (ciphertext e) (iv e) (tag e), g')
  | None => None
  end.

Definition decryptMasterKey (encryptedMasterKey derivedKey iv tag : bytes) : option bytes :=
  decrypt encryptedMasterKey derivedKey iv tag.

(** [computeContentHash]: the first 8 hexadecimal digits of the SHA-256 of
    the content's UTF-8 bytes. *)
Definition computeFullHash (content : jsstring) : jsstring :=
  Text.hex_of_bytes (SHA256.digest (Text.utf8_encode content)).
Definition computeContentHash (content : jsstring) : jsstring :=
  firstn 8 (computeFullHash content).

(** ** skill.ts: skills, their key and their content hash *)

Module SkillType.
Inductive t := command | skill | agent.
End SkillType.
Abbreviation SkillType := SkillType.t.

Definition type_name (t : SkillType) : jsstring :=
  match t with
  | SkillType.command => js "command"
  | SkillType.skill => js "skill"
  | SkillType.agent => js "agent"
  end.

Record SkillFile := mkSkillFile { file_name : jsstring; file_content : jsstring }.

Inductive MetaValue := MetaString (s : jsstring) | MetaList (items : list jsstring).

Record Skill := mkSkill {
  skill_name : jsstring;
  skill_content : jsstring;
  skill_metadata : list (jsstring * option MetaValue);
  skill_path : jsstring;
  (** [modifiedAt], as [toISOString] writes it *)
  skill_modifiedAt : jsstring;
  skill_type : SkillType;
  (** [files] is [undefined] for a skill without supporting files *)
  skill_files : option (list SkillFile)
}.

Definition json_file (f : SkillFile) : jsstring :=
  Text.json_object [(js "name", Text.json_string (file_name f));
                    (js "content", Text.json_string (file_content f))].

Definition json_files (fs : list SkillFile) : jsstring :=
  Text.json_array (map json_file fs).

(** [skill.files?.map(...) ?? []] *)
Definition files_or_empty (s : Skill) : list SkillFile :=
  match skill_files s with
  | Some fs => fs
  | None => []
  end.

Definition canonical_json (s : Skill) : jsstring :=
  Text.json_object [(js "name", Text.json_string (skill_name s));
                    (js "type", Text.json_string (type_name (skill_type s)));
                    (js "content", Text.json_string (skill_content s));
                    (js "files", json_files (files_or_empty s))].

Definition computeSkillHash (s : Skill) : jsstring :=
  computeContentHash (canonical_json s).

Definition getSkillKey (s : Skill) : jsstring :=
  type_name (skill_type s) ++ js ":" ++ skill_name s.

(** ** sync.ts: the local sync index, push, pull and status

    The index file is a finite map from skill keys to entries (keys of the
    form "type:name" never meet the properties a JavaScript object inherits).
    The server is reached through three fallible calls; [Remote] is whatever
    state lies behind them.  The callbacks of [Promise.all] are run in the
    order of the array; every call that leaves the process is recorded in
    [cl_requests]. *)

Module Sync.

Record IndexEntry := mkIndexEntry {
  ie_hash : jsstring;
  ie_blobId : option jsstring;
  ie_localHash : jsstring;
  ie_remoteUpdatedAt : jsstring
}.

Record SyncIndex := mkSyncIndex {
  idx_skills : gmap jsstring IndexEntry;
  idx_lastSyncAt : jsstring
}.

(** [loadSyncIndex] when the file is missing or unreadable. *)
Definition empty_index : SyncIndex := mkSyncIndex ∅ [].

(** *** hashContent *)

Definition to_int32 (z : Z) : Z := (z + 2147483648) mod 4294967296 - 2147483648.

(** [Array.from(content)] iterates by code point; [charCodeAt(0)] is the
    first code unit of each element. *)
Fixpoint code_point_heads (s : jsstring) : list Z :=
  match s with
  | [] => []
  | c :: r =>
      if Text.is_high_surrogate c then
        match r with
        | lo :: r' =>
            if Text.is_low_surrogate lo then c :: code_point_heads r'
            else c :: code_point_heads r
        | [] => [c]
        end
      else c :: code_point_heads r
  end.

Definition hashContent (content : jsstring) : jsstring :=
  let hash :=
    fold_left (fun hash code => to_int32 (to_int32 (hash * 32) - hash + code))
              (code_point_heads content) 0 in
  Text.number_toString16 hash.

Definition localHash_of (content : jsstring) (files : option (list SkillFile)) : jsstring :=
  hashContent (content ++ json_files (match files with Some fs => fs | None => [] end)).

(** *** The API client's view of the server *)

Inductive ApiResponse (A : Type) : Type :=
| ApiOk (data : A)
| ApiFail (error : jsstring) (status : Z).
Arguments ApiOk {A} data.
Arguments ApiFail {A} error status.

Record PushVersionResponse := mkPushVersionResponse {
  pvr_skillId : jsstring;
  pvr_hash : jsstring;
  pvr_parentHash : option jsstring;
  pvr_createdAt : jsstring
}.

Record SkillListItem := mkSkillListItem {
  sli_id : jsstring;
  sli_skillKey : jsstring;
  sli_currentHash : option jsstring;
  sli_updatedAt : jsstring
}.

Record SkillResponse := mkSkillResponse {
  sr_skillKey : jsstring;
  sr_skillId : jsstring;
  sr_hash : jsstring;
  sr_encryptedData : jsstring;
  sr_iv : jsstring;
  sr_tag : jsstring;
  sr_parentHash : option jsstring;
  sr_message : option jsstring;
  sr_createdAt : jsstring
}.

Class Api (Remote : Type) := {
  pushSkillVersion : Remote -> jsstring -> jsstring -> jsstring -> jsstring -> jsstring ->
                     option jsstring -> ApiResponse PushVersionResponse * Remote;
  listSkills : Remote -> ApiResponse (list SkillListItem) * Remote;
  getSkill : Remote -> jsstring -> ApiResponse SkillResponse * Remote
}.

Inductive Request :=
| ReqPushVersion (skillKey hash : jsstring)
| ReqListSkills
| ReqGetSkill (skillKey : jsstring).

(** *** The local file system, as pull writes to it *)

Class FileSystem (FS : Type) := {
  fs_mkdir : FS -> jsstring -> option FS;
  fs_writeFile : FS -> jsstring -> jsstring -> option FS
}.

(** *** Encrypting and decrypting a skill *)

Record DecryptedSkillPayload := mkPayload {
  p_name : jsstring;
  p_content : jsstring;
  p_path : jsstring;
  p_modifiedAt : jsstring;
  p_type : option SkillType;
  p_files : option (list SkillFile)
}.

Definition payload_json (s : Skill) : jsstring :=
  Text.json_object
    ([(js "name", Text.json_string (skill_name s));
      (js "content", Text.json_string (skill_content s));
      (js "path", Text.json_string (skill_path s));
      (js "modifiedAt", Text.json_string (skill_modifiedAt s));
      (js "type", Text.json_string (type_name (skill_type s)))]
     ++ match skill_files s with
        | Some fs => [(js "files", json_files fs)]
        | None => []
        end).

Record EncryptedSkill := mkEncryptedSkill {
  es_encryptedData : jsstring; es_iv : jsstring; es_tag : jsstring
}.

Definition encryptSkill (s : Skill) (masterKey : bytes) (g : Rng)
    : option (EncryptedSkill * Rng) :=
  match encryptString (payload_json s) masterKey g with
  | Some (e, g') => Some (mkEncryptedSkill (ciphertext64 e) (iv64 e) (tag64 e), g')
  | None => None
  end.

(** What [JSON.parse] makes of a decrypted payload: it throws, or gives
    [null] (reading a field of it then throws outside any handler), or gives
    the payload object. *)
Inductive Parsed :=
| ParseThrows
| ParsedNull
| ParsedPayload (p : DecryptedSkillPayload).

Section Client.
Context {Remote : Type} `{Api Remote} {FS : Type} `{FileSystem FS}.
(** [JSON.parse] on payloads and [getClaudeDir()]. *)
Variable JSON_parse : jsstring -> Parsed.
Variable claudeDir : jsstring.

Record Client := mkClient {
  cl_index : SyncIndex;
  cl_rng : Rng;
  cl_remote : Remote;
  cl_fs : FS;
  cl_requests : list Request
}.

Definition log_request (c : Client) (r : Request) (remote : Remote) : Client :=
  mkClient (cl_index c) (cl_rng c) remote (cl_fs c) (cl_requests c ++ [r]).

Definition entry_hash_is (index : SyncIndex) (skillKey hash : jsstring) : bool :=
  match idx_skills index !! skillKey with
  | Some existing => jseqb (ie_hash existing) hash
  | None => false
  end.

(** *** pushSkills *)

Inductive PushResult :=
| PushSkipped
| PushSuccess (skillKey hash localHash remoteUpdatedAt : jsstring)
| PushError (message : jsstring).

(** One callback of [skills.map]; [None] is an exception that escapes it
    (the encryption throwing). *)
Definition push_one (masterKey : bytes) (message : option jsstring) (index : SyncIndex)
    (c : Client) (s : Skill) : option (PushResult * Client) :=
  let skillKey := getSkillKey s in
  let contentHash := computeSkillHash s in
  let localHash := localHash_of (skill_content s) (skill_files s) in
  if entry_hash_is index skillKey contentHash then Some (PushSkipped, c)
  else
    match encryptSkill s masterKey (cl_rng c) with
    | None => None
    | Some (encrypted, g') =>
        let '(result, remote') :=
          pushSkillVersion (cl_remote c) skillKey contentHash (es_encryptedData encrypted)
            (es_iv encrypted) (es_tag encrypted) message in
        let c' := mkClient (cl_index c) g' remote' (cl_fs c)
                    (cl_requests c ++ [ReqPushVersion skillKey contentHash]) in
        match result with
        | ApiOk data =>
            Some (PushSuccess skillKey contentHash localHash (pvr_createdAt data), c')
        | ApiFail error _ =>
            Some (PushError (js "Failed to push " ++ type_name (skill_type s) ++ js "/"
                             ++ skill_name s ++ js ": " ++ error), c')
        end
    end.

Fixpoint push_all (masterKey : bytes) (message : option jsstring) (index : SyncIndex)
    (c : Client) (skills : list Skill) : option (list PushResult * Client) :=
  match skills with
  | [] => Some ([], c)
  | s :: rest =>
      match push_one masterKey message index c s with
      | None => None
      | Some (r, c') =>
          match push_all masterKey message index c' rest with
          | None => None
          | Some (rs, c'') => Some (r :: rs, c'')
          end
      end
  end.

(** The [reduce] over the successful results. *)
Definition record_push (acc : gmap jsstring IndexEntry) (r : PushResult)
    : gmap jsstring IndexEntry :=
  match r with
  | PushSuccess skillKey hash localHash remoteUpdatedAt =>
      <[skillKey := mkIndexEntry hash None localHash remoteUpdatedAt]> acc
  | _ => acc
  end.

Definition push_is_success (r : PushResult) : bool :=
  match r with PushSuccess _ _ _ _ => true | _ => false end.

Definition push_errors (rs : list PushResult) : list jsstring :=
  flat_map (fun r => match r with PushError m => [m] | _ => [] end) rs.

Record PushOutcome := mkPushOutcome { pushed : nat; push_error_list : list jsstring }.

(** [pushSkills(masterKey, onProgress, message)], on the skills that
    [listAllSkills] found and at the time [now]; [None] when an exception
    escapes (nothing is saved then). *)
Definition pushSkills (masterKey : bytes) (message : option jsstring)
    (skills : list Skill) (now : jsstring) (c : Client) : option (PushOutcome * Client) :=
  let index := cl_index c in
  match push_all masterKey message index c skills with
  | None => None
  | Some (results, c') =>
      let skills' := fold_left record_push (List.filter push_is_success results)
                               (idx_skills index) in
      Some (mkPushOutcome (length (List.filter push_is_success results))
                          (push_errors results),
            mkClient (mkSyncIndex skills' now) (cl_rng c') (cl_remote c') (cl_fs c')
                     (cl_requests c'))
  end.

(** *** pullSkills *)

Definition decryptSkill (encryptedData iv tag : jsstring) (masterKey : bytes)
    : option Parsed :=
  match decryptString encryptedData masterKey iv tag with
  | Some payload => Some (JSON_parse payload)
  | None => None
  end.

Definition path_join (parts : list jsstring) : jsstring := join (js "/") parts.

Definition getSkillTypeDir (t : SkillType) : jsstring :=
  path_join [claudeDir;
             match t with
             | SkillType.command => js "commands"
             | SkillType.skill => js "skills"
             | SkillType.agent => js "agents"
             end].

Fixpoint write_files (fs : FS) (dir : jsstring) (files : list SkillFile) : option FS :=
  match files with
  | [] => Some fs
  | f :: rest =>
      match fs_writeFile fs (path_join [dir; file_name f]) (file_content f) with
      | Some fs' => write_files fs' dir rest
      | None => None
      end
  end.

Definition write_skill (fs : FS) (decrypted : DecryptedSkillPayload) : option FS :=
  let skillType := match p_type decrypted with Some t => t | None => SkillType.command end in
  let baseDir := getSkillTypeDir skillType in
  match skillType, p_files decrypted with
  | SkillType.skill, Some files =>
      let skillDir := path_join [baseDir; p_name decrypted] in
      match fs_mkdir fs skillDir with
      | None => None
      | Some fs1 =>
          match fs_writeFile fs1 (path_join [skillDir; js "SKILL.md"]) (p_content decrypted) with
          | None => None
          | Some fs2 => write_files fs2 skillDir files
          end
      end
  | _, _ =>
      match fs_mkdir fs baseDir with
      | None => None
      | Some fs1 =>
          fs_writeFile fs1 (path_join [baseDir; p_name decrypted ++ js ".md"])
                       (p_content decrypted)
      end
  end.

Inductive PullResult :=
| PullSkipped
| PullSuccess (skillKey hash content : jsstring) (files : option (list SkillFile))
              (updatedAt : jsstring)
| PullError (message : jsstring).

Definition remote_hash_is (index : SyncIndex) (skillKey : jsstring)
    (currentHash : option jsstring) : bool :=
  match idx_skills index !! skillKey, currentHash with
  | Some existing, Some h => jseqb (ie_hash existing) h
  | _, _ => false
  end.

Definition pull_one (masterKey : bytes) (index : SyncIndex) (c : Client)
    (remoteSkill : SkillListItem) : option (PullResult * Client) :=
  let skillKey := sli_skillKey remoteSkill in
  if remote_hash_is index skillKey (sli_currentHash remoteSkill) then Some (PullSkipped, c)
  else
    match sli_currentHash remoteSkill with
    | None => Some (PullSkipped, c)
    | Some currentHash =>
        if jseqb currentHash [] then Some (PullSkipped, c)
        else
          let '(skillResult, remote') := getSkill (cl_remote c) skillKey in
          let c1 := log_request c (ReqGetSkill skillKey) remote' in
          match skillResult with
          | ApiFail error _ =>
              Some (PullError (js "Failed to get " ++ skillKey ++ js ": " ++ error), c1)
          | ApiOk data =>
              match decryptSkill (sr_encryptedData data) (sr_iv data) (sr_tag data)
                      masterKey with
              | None | Some ParseThrows =>
                  Some (PullError (js "Failed to decrypt " ++ skillKey), c1)
              | Some ParsedNull => None
              | Some (ParsedPayload decrypted) =>
                  match write_skill (cl_fs c1) decrypted with
                  | None =>
                      Some (PullError (js "Failed to write " ++ p_name decrypted), c1)
                  | Some fs' =>
                      Some (PullSuccess skillKey currentHash (p_content decrypted)
                              (p_files decrypted) (sli_updatedAt remoteSkill),
                            mkClient (cl_index c1) (cl_rng c1) (cl_remote c1) fs'
                                     (cl_requests c1))
                  end
              end
          end
    end.

Fixpoint pull_all (masterKey : bytes) (index : SyncIndex) (c : Client)
    (remoteSkills : list SkillListItem) : option (list PullResult * Client) :=
  match remoteSkills with
  | [] => Some ([], c)
  | s :: rest =>
      match pull_one masterKey index c s with
      | None => None
      | Some (r, c') =>
          match pull_all masterKey index c' rest with
          | None => None
          | Some (rs, c'') => Some (r :: rs, c'')
          end
      end
  end.

Definition record_pull (acc : gmap jsstring IndexEntry) (r : PullResult)
    : gmap jsstring IndexEntry :=
  match r with
  | PullSuccess skillKey hash content files updatedAt =>
      <[skillKey := mkIndexEntry hash None (localHash_of content files) updatedAt]> acc
  | _ => acc
  end.

Definition pull_is_success (r : PullResult) : bool :=
  match r with PullSuccess _ _ _ _ _ => true | _ => false end.

Definition pull_errors (rs : list PullResult) : list jsstring :=
  flat_map (fun r => match r with PullError m => [m] | _ => [] end) rs.

Record PullOutcome := mkPullOutcome { pulled : nat; pull_error_list : list jsstring }.

Definition pullSkills (masterKey : bytes) (now : jsstring) (c : Client)
    : option (PullOutcome * Client) :=
  let index := cl_index c in
  let '(listResult, remote') := listSkills (cl_remote c) in
  let c0 := log_request c ReqListSkills remote' in
  match listResult with
  | ApiFail error _ =>
      Some (mkPullOutcome 0 [js "Failed to list skills: " ++ error], c0)
  | ApiOk remoteSkills =>
      match pull_all masterKey index c0 remoteSkills with
      | None => None
      | Some (results, c') =>
          let skills' := fold_left record_pull (List.filter pull_is_success results)
                                   (idx_skills index) in
          Some (mkPullOutcome (length (List.filter pull_is_success results))
                              (pull_errors results),
                mkClient (mkSyncIndex skills' now) (cl_rng c') (cl_remote c') (cl_fs c')
                         (cl_requests c'))
      end
  end.

(** *** getSyncStatus *)

Inductive SkillStatus := synced | pending.

Definition skill_status (index : SyncIndex) (s : Skill) : SkillStatus :=
  if entry_hash_is index (getSkillKey s) (computeSkillHash s) then synced else pending.

Definition is_synced (st : SkillStatus) : bool :=
  match st with synced => true | pending => false end.

Definition is_pending_pull (skills : list Skill) (r : SkillListItem) : bool :=
  match sli_currentHash r with
  | Some h => negb (jseqb h [])
              && negb (existsb (fun s => jseqb (getSkillKey s) (sli_skillKey r)) skills)
  | None => false
  end.

Record SyncStatus := mkSyncStatus {
  st_local : nat;
  st_synced : nat;
  st_pendingPush : nat;
  st_pendingPull : nat;
  st_lastSyncAt : option jsstring
}.

Definition getSyncStatus (skills : list Skill) (c : Client) : SyncStatus * Client :=
  let index := cl_index c in
  let skillStatuses := map (skill_status index) skills in
  let '(listResult, remote') := listSkills (cl_remote c) in
  let pendingPull :=
    match listResult with
    | ApiOk remoteSkills => length (List.filter (is_pending_pull skills) remoteSkills)
    | ApiFail _ _ => O
    end in
  (mkSyncStatus (length skills)
     (length (List.filter is_synced skillStatuses))
     (length (List.filter (fun s => negb (is_synced s)) skillStatuses))
     pendingPull
     (if jseqb (idx_lastSyncAt index) [] then None else Some (idx_lastSyncAt index)),
   log_request c ReqListSkills remote').

End Client.

End Sync.

(** ** The vault: the wrapped master key in the credentials file

    [runOnboarding] (onboarding.ts) wraps the master key under the key
    derived from the passphrase and stores iv, tag and ciphertext as one
    base64 string; [getMasterKey] (sync.ts) cuts that string up again and
    unwraps. *)

Module Vault.

(** credentials.json.  [saveCredentials] writes the object with
    [JSON.stringify] and [loadCredentials] reads it with [JSON.parse]; the
    model keeps the object.  [encryptedMasterKey] and [salt] may be
    missing. *)
Record Credentials := mkCredentials {
  accessToken : jsstring;
  refreshToken : jsstring;
  encryptedMasterKey : option jsstring;
  salt : option jsstring
}.

(** [new Uint8Array(n)]: [n] zero bytes. *)
Definition Uint8Array_new (n : nat) : bytes := repeat 0 n.

(** [target.set(source, offset)] throws a RangeError when the source does
    not fit. *)
Definition set (target source : bytes) (offset : nat) : option bytes :=
  if (offset + length source <=? length target)%nat then
    Some (firstn offset target ++ source ++ skipn (offset + length source) target)
  else None.

(** [bytes.slice(from, to)] and [bytes.slice(from)] for constant indices
    [from <= to]. *)
Definition slice (bs : bytes) (from to : nat) : bytes := firstn (to - from) (skipn from bs).
Definition slice_from (bs : bytes) (from : nat) : bytes := skipn from bs.

(** "Combine IV + tag + ciphertext for storage". *)
Definition combine (e : EncryptedMasterKey) : option bytes :=
  let full0 :=
    Uint8Array_new (length (emk_iv e) + length (emk_tag e) + length (emk_encrypted e)) in
  match set full0 (emk_iv e) 0 with
  | None => None
  | Some full1 =>
      match set full1 (emk_tag e) (length (emk_iv e)) with
      | None => None
      | Some full2 =>
          set full2 (emk_encrypted e) (length (emk_iv e) + length (emk_tag e))
      end
  end.

(** The part of [runOnboarding] from the derivation of the key to
    [saveCredentials], for a given salt and master key. *)
Definition wrap_and_store `{Argon2id} (passphrase : jsstring) (salt masterKey : bytes)
    (accessToken refreshToken : jsstring) (g : Rng) : option (Credentials * Rng) :=
  match deriveKeyFromPassphrase passphrase salt with
  | None => None
  | Some derivedKey =>
      match encryptMasterKey masterKey (dk_key derivedKey) g with
      | None => None
      | Some (encryptedMaster, g') =>
          match combine encryptedMaster with
          | None => None
          | Some encryptedMasterKeyFull =>
              Some (mkCredentials accessToken refreshToken
                      (Some (toBase64 encryptedMasterKeyFull)) (Some (toBase64 salt)),
                    g')
          end
      end
  end.

(** [runOnboarding], "Generate encryption keys": salt, master key and
    recovery key are drawn in this order; the result is the master key and
    the credentials that are saved. *)
Definition generate_keys `{Argon2id} (passphrase accessToken refreshToken : jsstring)
    (g : Rng) : option (bytes * Credentials * Rng) :=
  let '(salt, g1) := generateSalt g in
  let '(masterKey, g2) := generateMasterKey g1 in
  let '(recoveryKey, g3) := generateRecoveryKey g2 in
  match wrap_and_store passphrase salt masterKey accessToken refreshToken g3 with
  | Some (credentials, g4) => Some (masterKey, credentials, g4)
  | None => None
  end.

(** A string is falsy when it is empty. *)
Definition truthy (field : option jsstring) : option jsstring :=
  match field with
  | Some [] => None
  | other => other
  end.

(** [getMasterKey]: [None] is the [null] it returns without credentials and
    when anything inside the [try] throws. *)
Definition getMasterKey `{Argon2id} (passphrase : jsstring)
    (credentials : option Credentials) : option bytes :=
  match credentials with
  | None => None
  | Some c =>
      match truthy (encryptedMasterKey c), truthy (salt c) with
      | Some stored, Some stored_salt =>
          let salt := fromBase64 stored_salt in
          let encryptedMasterKey := fromBase64 stored in
          let iv := slice encryptedMasterKey 0 12 in
          let tag := slice encryptedMasterKey 12 28 in
          let ciphertext := slice_from encryptedMasterKey 28 in
          match deriveKeyFromPassphrase passphrase salt with
          | None => None
          | Some derivedKey => decryptMasterKey ciphertext (dk_key derivedKey) iv tag
          end
      | _, _ => None
      end
  end.

End Vault.

(** ** server/db: the skills and skill_versions tables

    Rows are records, tables are lists in insertion order.  [defaultNow()]
    and [new Date()] read [db_clock], which advances at every write;
    [defaultRandom()] takes the next unused identifier. *)

Module Server.

Record SkillRow := mkSkillRow {
  sk_id : Z;
  sk_userId : jsstring;
  sk_skillKey : jsstring;
  sk_currentHash : option jsstring;
  sk_createdAt : Z;
  sk_updatedAt : Z
}.

Record SkillVersionRow := mkSkillVersionRow {
  sv_hash : jsstring;
  sv_skillId : Z;
  sv_encryptedData : jsstring;
  sv_iv : jsstring;
  sv_tag : jsstring;
  sv_parentHash : option jsstring;
  sv_message : option jsstring;
  sv_createdAt : Z
}.

Record Db := mkDb {
  db_skills : list SkillRow;
  db_skillVersions : list SkillVersionRow;
  db_clock : Z;
  db_nextId : Z
}.

Definition empty_db : Db := mkDb [] [] 0 0.

Definition skill_matches (userId skillKey : jsstring) (r : SkillRow) : bool :=
  jseqb (sk_userId r) userId && jseqb (sk_skillKey r) skillKey.

Definition version_matches (skillId : Z) (hash : jsstring) (v : SkillVersionRow) : bool :=
  (sv_skillId v =? skillId) && jseqb (sv_hash v) hash.

(** [findSkillByKey]: [result[0]] of the select. *)
Definition findSkillByKey (db : Db) (userId skillKey : jsstring) : option SkillRow :=
  List.find (skill_matches userId skillKey) (db_skills db).

(** Insertion into a list kept in descending order of a time stamp. *)
Fixpoint insert_desc {A} (key : A -> Z) (x : A) (l : list A) : list A :=
  match l with
  | [] => [x]
  | y :: r => if key y <? key x then x :: l else y :: insert_desc key x r
  end.

Definition sort_desc {A} (key : A -> Z) (l : list A) : list A :=
  fold_right (insert_desc key) [] l.

(** [listUserSkills]: the user's rows, most recently updated first. *)
Definition listUserSkills (db : Db) (userId : jsstring) : list SkillRow :=
  sort_desc sk_updatedAt
    (List.filter (fun r => jseqb (sk_userId r) userId) (db_skills db)).

(** [createSkill]: the insert fails (the driver throws) when the unique index
    on (user_id, skill_key) already holds the pair. *)
Definition createSkill (db : Db) (userId skillKey : jsstring) : option (SkillRow * Db) :=
  match findSkillByKey db userId skillKey with
  | Some _ => None
  | None =>
      let row := mkSkillRow (db_nextId db) userId skillKey None (db_clock db) (db_clock db) in
      Some (row, mkDb (db_skills db ++ [row]) (db_skillVersions db)
                      (db_clock db + 1) (db_nextId db + 1))
  end.

Definition updateSkillCurrentHash (db : Db) (skillId : Z) (hash : jsstring) : Db :=
  mkDb (map (fun r =>
               if sk_id r =? skillId
               then mkSkillRow (sk_id r) (sk_userId r) (sk_skillKey r) (Some hash)
                               (sk_createdAt r) (db_clock db)
               else r) (db_skills db))
       (db_skillVersions db) (db_clock db + 1) (db_nextId db).

(** [createSkillVersion]: insert, or on a conflict on the primary key
    (skill_id, hash) set [encryptedData], [iv] and [tag] of the stored row.
    The foreign key makes the insert fail when the skill does not exist. *)
Definition createSkillVersion (db : Db) (skillId : Z) (hash encryptedData iv tag : jsstring)
    (parentHash message : option jsstring) : option (SkillVersionRow * Db) :=
  if existsb (version_matches skillId hash) (db_skillVersions db) then
    let upd v :=
      if version_matches skillId hash v
      then mkSkillVersionRow (sv_hash v) (sv_skillId v) encryptedData iv tag
                             (sv_parentHash v) (sv_message v) (sv_createdAt v)
      else v in
    let vs := map upd (db_skillVersions db) in
    match List.find (version_matches skillId hash) vs with
    | Some row => Some (row, mkDb (db_skills db) vs (db_clock db + 1) (db_nextId db))
    | None => None
    end
  else if existsb (fun r => sk_id r =? skillId) (db_skills db) then
    let row := mkSkillVersionRow hash skillId encryptedData iv tag parentHash message
                                 (db_clock db) in
    Some (row, mkDb (db_skills db) (db_skillVersions db ++ [row])
                    (db_clock db + 1) (db_nextId db))
  else None.

Definition findSkillVersion (db : Db) (skillId : Z) (hash : jsstring) : option SkillVersionRow :=
  List.find (version_matches skillId hash) (db_skillVersions db).

(** [listSkillVersions]: newest first by creation time, at most [limit]. *)
Definition listSkillVersions (db : Db) (skillId : Z) (limit : nat) : list SkillVersionRow :=
  firstn limit
    (sort_desc sv_createdAt
       (List.filter (fun v => sv_skillId v =? skillId) (db_skillVersions db))).

Definition countSkillVersions (db : Db) (skillId : Z) : nat :=
  length (List.filter (fun v => sv_skillId v =? skillId) (db_skillVersions db)).

(** ** server/routes/skills.ts *)

Record PushBody := mkPushBody {
  pb_hash : jsstring;
  pb_encryptedData : jsstring;
  pb_iv : jsstring;
  pb_tag : jsstring;
  pb_message : option jsstring
}.

Record PushVersionResponse := mkPushVersionResponse {
  pvr_skillId : Z;
  pvr_hash : jsstring;
  pvr_parentHash : option jsstring;
  pvr_createdAt : Z
}.

Record SkillListItem := mkSkillListItem {
  sli_id : Z;
  sli_skillKey : jsstring;
  sli_currentHash : option jsstring;
  sli_updatedAt : Z
}.

Record SkillResponse := mkSkillResponse {
  sr_skillKey : jsstring;
  sr_skillId : Z;
  sr_hash : jsstring;
  sr_encryptedData : jsstring;
  sr_iv : jsstring;
  sr_tag : jsstring;
  sr_parentHash : option jsstring;
  sr_message : option jsstring;
  sr_createdAt : Z
}.

(** A handler's answer: the JSON of a 200, an error with its status, or an
    exception that escaped the handler (a 500). *)
Inductive Response (A : Type) : Type :=
| Json (data : A)
| HttpError (status : Z) (error : jsstring)
| Crashed.
Arguments Json {A} data.
Arguments HttpError {A} status error.
Arguments Crashed {A}.

(** A JavaScript string is falsy when empty. *)
Definition falsy (s : jsstring) : bool := jseqb s [].
Definition falsy_opt (s : option jsstring) : bool :=
  match s with Some h => falsy h | None => true end.

(** GET /skills *)
Definition get_skills (db : Db) (userId : jsstring) : Response (list SkillListItem) :=
  Json (map (fun s => mkSkillListItem (sk_id s) (sk_skillKey s) (sk_currentHash s)
                                      (sk_updatedAt s))
            (listUserSkills db userId)).

(** POST /skills/:skillKey/versions *)
Definition post_version (db : Db) (userId skillKey : jsstring) (body : PushBody)
    : Response PushVersionResponse * Db :=
  if falsy (pb_hash body) || falsy (pb_encryptedData body)
     || falsy (pb_iv body) || falsy (pb_tag body)
  then (HttpError 400 (js "Missing required fields"), db)
  else
    let found :=
      match findSkillByKey db userId skillKey with
      | Some skill => Some (skill, db)
      | None => createSkill db userId skillKey
      end in
    match found with
    | None => (Crashed, db)
    | Some (skill, db1) =>
        let parentHash := sk_currentHash skill in
        match createSkillVersion db1 (sk_id skill) (pb_hash body) (pb_encryptedData body)
                (pb_iv body) (pb_tag body) parentHash (pb_message body) with
        | None => (Crashed, db1)
        | Some (version, db2) =>
            let db3 := updateSkillCurrentHash db2 (sk_id skill) (pb_hash body) in
            (Json (mkPushVersionResponse (sk_id skill) (sv_hash version)
                     (sv_parentHash version) (sv_createdAt version)), db3)
        end
    end.

(** The same request when the process dies between [createSkillVersion] and
    [updateSkillCurrentHash]: the version is stored, the pointer is not
    moved, and no answer is sent. *)
Definition post_version_crash (db : Db) (userId skillKey : jsstring) (body : PushBody) : Db :=
  if falsy (pb_hash body) || falsy (pb_encryptedData body)
     || falsy (pb_iv body) || falsy (pb_tag body)
  then db
  else
    let found :=
      match findSkillByKey db userId skillKey with
      | Some skill => Some (skill, db)
      | None => createSkill db userId skillKey
      end in
    match found with
    | None => db
    | Some (skill, db1) =>
        match createSkillVersion db1 (sk_id skill) (pb_hash body) (pb_encryptedData body)
                (pb_iv body) (pb_tag body) (sk_currentHash skill) (pb_message body) with
        | None => db1
        | Some (_, db2) => db2
        end
    end.

(** GET /skills/:skillKey *)
Definition get_skill (db : Db) (userId skillKey : jsstring) : Response SkillResponse :=
  match findSkillByKey db userId skillKey with
  | None => HttpError 404 (js "Skill not found")
  | Some skill =>
      match sk_currentHash skill with
      | None => HttpError 404 (js "Skill has no versions")
      | Some currentHash =>
          if falsy currentHash then HttpError 404 (js "Skill has no versions")
          else
            match findSkillVersion db (sk_id skill) currentHash with
            | None => HttpError 404 (js "Current version not found")
            | Some version =>
                Json (mkSkillResponse skillKey (sk_id skill) (sv_hash version)
                        (sv_encryptedData version) (sv_iv version) (sv_tag version)
                        (sv_parentHash version) (sv_message version)
                        (sv_createdAt version))
            end
      end
  end.

(** The hash the version list names as newest: the head of
    [listSkillVersions]. *)
Definition newest_version_hash (db : Db) (skillId : Z) : option jsstring :=
  match listSkillVersions db skillId 1 with
  | v :: _ => Some (sv_hash v)
  | [] => None
  end.

(** Well-formed databases: identifiers come from [db_nextId], time stamps
    from [db_clock], every version belongs to a skill, and the unique index
    and the primary key hold. *)
Definition version_key (v : SkillVersionRow) : Z * jsstring := (sv_skillId v, sv_hash v).
Definition skill_key_pair (r : SkillRow) : jsstring * jsstring := (sk_userId r, sk_skillKey r).

Record db_wf (db : Db) : Prop := mk_db_wf {
  wf_ids : Forall (fun r => sk_id r < db_nextId db) (db_skills db);
  wf_ids_nodup : List.NoDup (map sk_id (db_skills db));
  wf_skill_unique : List.NoDup (map skill_key_pair (db_skills db));
  wf_fk : Forall (fun v => In (sv_skillId v) (map sk_id (db_skills db))) (db_skillVersions db);
  wf_pk : List.NoDup (map version_key (db_skillVersions db));
  wf_times : Forall (fun v => sv_createdAt v < db_clock db) (db_skillVersions db)
}.

End Server.

(** ** server: the other skill routes

    [deleteSkill] of db/index.ts and the handlers
    GET /skills/:skillKey/versions/:hash and DELETE /skills/:skillKey. *)

Module ServerRoutes.
Import Server.

(** [deleteSkill]: the rows with this id and this user go, and with them,
    through [onDelete: "cascade"] on [skill_versions.skill_id], the versions
    that refer to them; the answer tells whether a row went. *)
Definition deleteSkill (db : Db) (id : Z) (userId : jsstring) : bool * Db :=
  let doomed r := (sk_id r =? id) && jseqb (sk_userId r) userId in
  if existsb doomed (db_skills db) then
    (true,
     mkDb (List.filter (fun r => negb (doomed r)) (db_skills db))
          (List.filter (fun v => negb (sv_skillId v =? id)) (db_skillVersions db))
          (db_clock db + 1) (db_nextId db))
  else (false, db).

Record VersionResponse := mkVersionResponse {
  vr_skillKey : jsstring;
  vr_hash : jsstring;
  vr_encryptedData : jsstring;
  vr_iv : jsstring;
  vr_tag : jsstring;
  vr_parentHash : option jsstring;
  vr_message : option jsstring;
  vr_createdAt : Z
}.

(** GET /skills/:skillKey/versions/:hash *)
Definition get_version (db : Db) (userId skillKey hash : jsstring)
    : Response VersionResponse :=
  match findSkillByKey db userId skillKey with
  | None => HttpError 404 (js "Skill not found")
  | Some skill =>
      match findSkillVersion db (sk_id skill) hash with
      | None => HttpError 404 (js "Version not found")
      | Some version =>
          Json (mkVersionResponse skillKey (sv_hash version) (sv_encryptedData version)
                  (sv_iv version) (sv_tag version) (sv_parentHash version)
                  (sv_message version) (sv_createdAt version))
      end
  end.

(** DELETE /skills/:skillKey; the answer [Json true] is [{ success: true }]. *)
Definition delete_skill (db : Db) (userId skillKey : jsstring) : Response bool * Db :=
  match findSkillByKey db userId skillKey with
  | None => (HttpError 404 (js "Skill not found"), db)
  | Some skill =>
      let '(deleted, db') := deleteSkill db (sk_id skill) userId in
      if deleted then (Json true, db')
      else (HttpError 500 (js "Failed to delete skill"), db')
  end.

End ServerRoutes.

(** ** The client talking to the server of this repository

    The API client's calls reach the route handlers; JSON carries
    identifiers and time stamps as text.  [render_id] and [render_time] stand
    for the text of a UUID and of a date. *)

Module World.

Definition render_id (id : Z) : jsstring := js "id-" ++ Text.number_toString16 id.
Definition render_time (t : Z) : jsstring := js "t-" ++ Text.number_toString16 t.

Record Session := mkSession { ss_db : Server.Db; ss_user : jsstring }.

Definition api_response {A B : Type} (f : A -> B) (r : Server.Response A)
    : Sync.ApiResponse B :=
  match r with
  | Server.Json data => Sync.ApiOk (f data)
  | Server.HttpError status error => Sync.ApiFail error status
  | Server.Crashed => Sync.ApiFail (js "Request failed") 500
  end.

Definition push_json (r : Server.PushVersionResponse) : Sync.PushVersionResponse :=
  Sync.mkPushVersionResponse (render_id (Server.pvr_skillId r)) (Server.pvr_hash r)
    (Server.pvr_parentHash r) (render_time (Server.pvr_createdAt r)).

Definition list_json (l : list Server.SkillListItem) : list Sync.SkillListItem :=
  map (fun i => Sync.mkSkillListItem (render_id (Server.sli_id i)) (Server.sli_skillKey i)
                  (Server.sli_currentHash i) (render_time (Server.sli_updatedAt i))) l.

Definition skill_json (r : Server.SkillResponse) : Sync.SkillResponse :=
  Sync.mkSkillResponse (Server.sr_skillKey r) (render_id (Server.sr_skillId r))
    (Server.sr_hash r) (Server.sr_encryptedData r) (Server.sr_iv r) (Server.sr_tag r)
    (Server.sr_parentHash r) (Server.sr_message r) (render_time (Server.sr_createdAt r)).

#[export] Instance server_api : Sync.Api Session := {
  Sync.pushSkillVersion s skillKey hash encryptedData iv tag message :=
    let '(r, db') := Server.post_version (ss_db s) (ss_user s) skillKey
                       (Server.mkPushBody hash encryptedData iv tag message) in
    (api_response push_json r, mkSession db' (ss_user s));
  Sync.listSkills s := (api_response list_json (Server.get_skills (ss_db s) (ss_user s)), s);
  Sync.getSkill s skillKey :=
    (api_response skill_json (Server.get_skill (ss_db s) (ss_user s) skillKey), s)
}.

(** A file system that accepts every write. *)
#[export] Instance map_fs : Sync.FileSystem (gmap jsstring jsstring) := {
  Sync.fs_mkdir fs _ := Some fs;
  Sync.fs_writeFile fs path content := Some (<[path := content]> fs)
}.

Definition new_session (user : jsstring) : Session := mkSession Server.empty_db user.

End World.

(** The primitives are never unfolded by [simpl] or [cbn]. *)
Arguments SHA256.digest : simpl never.
Arguments SHA256.compress : simpl never.
Arguments AES.encrypt_block : simpl never.
Arguments AES.decrypt_block : simpl never.
Arguments AES.round_keys : simpl never.
Arguments GCM.gf_mul : simpl never.
Arguments GCM.ghash : simpl never.
Arguments GCM.hash_subkey : simpl never.
Arguments GCM.J0 : simpl never.
Arguments GCM.ctr : simpl never.
Arguments GCM.tag : simpl never.
Arguments GCM.encrypt : simpl never.
Arguments GCM.decrypt : simpl never.
Arguments Text.json_string : simpl never.
Arguments Text.json_object : simpl never.
Arguments Text.json_array : simpl never.
Arguments Text.hex_of_bytes : simpl never.
Arguments Text.number_toString16 : simpl never.
Arguments computeContentHash : simpl never.
Arguments computeFullHash : simpl never.
Arguments computeSkillHash : simpl never.
Arguments canonical_json : simpl never.
Arguments getSkillKey : simpl never.
Arguments encrypt : simpl never.
Arguments decrypt : simpl never.
Arguments encryptString : simpl never.
Arguments decryptString : simpl never.
Arguments Sync.hashContent : simpl never.
Arguments Sync.localHash_of : simpl never.
Arguments Sync.payload_json : simpl never.
Arguments Sync.encryptSkill : simpl never.
Arguments WORDLIST : simpl never.
Arguments AES.sub_byte : simpl never.
Arguments AES.inv_sub_byte : simpl never.
Arguments AES.xtime : simpl never.
Arguments AES.SBOX : simpl never.
Arguments AES.INV_SBOX : simpl never.
Arguments SHA256.K : simpl never.
(* ===================================================================== *)
(** * Part II: properties                                                 *)
(* ===================================================================== *)

(** ** Recovery keys *)

Example format_example :
  formatRecoveryKey (mkRecoveryKey [js "apple"; js "maple"] [0; 255])
  = js "APPLE-MAPLE".
Proof. reflexivity. Qed.

Lemma jseqb_eq (a b : jsstring) : jseqb a b = true <-> a = b.
Proof.
  revert b; induction a as [|x a IH]; intros [|y b]; simpl; try easy.
  rewrite andb_true_iff, Z.eqb_eq, IH. split.
  - intros [-> ->]; reflexivity.
  - intros H; injection H; auto.
Qed.

Lemma jseqb_refl (a : jsstring) : jseqb a a = true.
Proof. apply jseqb_eq; reflexivity. Qed.

(** A word is clean when it is not empty, holds no separator, and is the
    lower-case form of its own upper-case form. *)
Definition clean_wordb (w : jsstring) : bool :=
  negb (jseqb w []) && forallb (fun c => negb (is_key_sep c)) w
  && jseqb (toLowerCase (toUpperCase w)) w.

Lemma WORDLIST_clean : forallb clean_wordb WORDLIST = true.
Proof. vm_compute. reflexivity. Qed.

Lemma WORDLIST_length : length WORDLIST = 256%nat.
Proof. reflexivity. Qed.

Lemma WORDLIST_indexOf_all :
  forallb (fun i => indexOf WORDLIST (word_at (Z.of_nat i)) =? Z.of_nat i)
          (seq 0 256) = true.
Proof. vm_compute. reflexivity. Qed.

Lemma indexOf_word_at (i : Z) :
  0 <= i < 256 -> indexOf WORDLIST (word_at i) = i.
Proof.
  intros Hi.
  pose proof WORDLIST_indexOf_all as H.
  rewrite forallb_forall in H.
  specialize (H (Z.to_nat i)).
  rewrite Z2Nat.id in H by lia.
  apply Z.eqb_eq, H, in_seq. lia.
Qed.

Lemma word_at_clean (i : Z) : 0 <= i < 256 -> clean_wordb (word_at i) = true.
Proof.
  intros Hi. pose proof WORDLIST_clean as H.
  rewrite forallb_forall in H. apply H.
  unfold word_at. apply nth_In. rewrite WORDLIST_length. lia.
Qed.

Lemma split_runs_from_word sep (w rest cur : jsstring) :
  forallb (fun c => negb (sep c)) w = true ->
  split_runs_from sep (w ++ rest) cur false
  = split_runs_from sep rest (rev w ++ cur) false.
Proof.
  revert cur; induction w as [|c w IH]; intros cur Hw; simpl in *.
  - reflexivity.
  - apply andb_true_iff in Hw as [Hc Hw].
    apply negb_true_iff in Hc. rewrite Hc, IH by assumption.
    now rewrite <- app_assoc.
Qed.

Lemma split_runs_from_start sep (c : Z) (r : jsstring) (b : bool) :
  sep c = false ->
  split_runs_from sep (c :: r) [] b = split_runs_from sep (c :: r) [] false.
Proof. intros H; simpl; now rewrite H. Qed.

Definition sep_free (sep : Z -> bool) (w : jsstring) : Prop :=
  w <> [] /\ forallb (fun c => negb (sep c)) w = true.

Lemma split_runs_join sep (d : Z) (w : jsstring) (ws : list jsstring) (cur : jsstring) :
  sep d = true -> sep_free sep w -> Forall (sep_free sep) ws ->
  split_runs_from sep (join [d] (w :: ws)) cur false
  = (rev cur ++ w) :: ws.
Proof.
  intros Hd. revert w cur.
  induction ws as [|w' ws IH]; intros w cur [Hne Hw] Hws.
  - simpl. rewrite <- (app_nil_r w) at 1.
    rewrite split_runs_from_word by assumption. simpl.
    now rewrite rev_app_distr, rev_involutive.
  - change (join [d] (w :: w' :: ws)) with (w ++ [d] ++ join [d] (w' :: ws)).
    rewrite split_runs_from_word by assumption.
    inversion Hws as [|? ? Hw' Hws']; subst.
    assert (Hhd : exists c r, join [d] (w' :: ws) = c :: r /\ sep c = false).
    { destruct Hw' as [Hne' Hf']. destruct w' as [|c r]; [congruence|].
      simpl in Hf'. apply andb_true_iff in Hf' as [Hc _].
      apply negb_true_iff in Hc.
      destruct ws; simpl; eauto. }
    destruct Hhd as (c & r & Heq & Hc).
    change ([d] ++ join [d] (w' :: ws)) with (d :: join [d] (w' :: ws)).
    cbn [split_runs_from]. rewrite Hd.
    rewrite rev_app_distr, rev_involutive. f_equal.
    rewrite Heq, split_runs_from_start, <- Heq by assumption.
    now rewrite IH.
Qed.

Lemma toLowerCase_join_upper (ws : list jsstring) :
  Forall (fun w => toLowerCase (toUpperCase w) = w) ws ->
  toLowerCase (join (js "-") (map toUpperCase ws)) = join (js "-") ws.
Proof.
  induction 1 as [|w ws Hw Hws IH]; [reflexivity|].
  destruct ws as [|w' ws]; [exact Hw|].
  change (map toUpperCase (w :: w' :: ws))
    with (toUpperCase w :: map toUpperCase (w' :: ws)).
  change (join (js "-") (toUpperCase w :: map toUpperCase (w' :: ws)))
    with (toUpperCase w ++ js "-" ++ join (js "-") (map toUpperCase (w' :: ws))).
  unfold toLowerCase in *. rewrite !map_app, IH.
  unfold toUpperCase in *. now rewrite Hw.
Qed.

Lemma clean_wordb_spec (w : jsstring) :
  clean_wordb w = true ->
  sep_free is_key_sep w /\ toLowerCase (toUpperCase w) = w.
Proof.
  unfold clean_wordb. rewrite !andb_true_iff, negb_true_iff.
  intros [[Hne Hsep] Hlow]. apply jseqb_eq in Hlow.
  repeat split; try assumption.
  intros ->. discriminate.
Qed.

Lemma filter_nonempty_id (ws : list jsstring) :
  Forall (fun w => w <> []) ws -> filter_nonempty ws = ws.
Proof.
  induction 1 as [|w ws Hw _ IH]; [reflexivity|].
  unfold filter_nonempty in *. simpl.
  destruct (jseqb w []) eqn:E.
  - apply jseqb_eq in E. contradiction.
  - simpl. now rewrite IH.
Qed.

Lemma generateRandomBytes_ok (n : nat) (g : Rng) :
  bytes_ok (generateRandomBytes n g).1.
Proof.
  unfold generateRandomBytes; simpl. apply Forall_forall.
  intros b Hb. apply list_elem_of_In, in_map_iff in Hb as (i & <- & _).
  unfold byte_ok. apply Z.mod_pos_bound. lia.
Qed.

Lemma generateRandomBytes_length (n : nat) (g : Rng) :
  length (generateRandomBytes n g).1 = n.
Proof. unfold generateRandomBytes; simpl. now rewrite length_map, length_seq. Qed.

(** C9.  For every recovery key [rk] that [generateRecoveryKey] can produce
    (whatever the random bytes drawn), parsing the displayed form returns
    [rk] itself: [parseRecoveryKey (formatRecoveryKey rk) = rk], with the same
    eight words and the same eight bytes. *)
Theorem recovery_key_roundtrip (g : Rng) :
  parseRecoveryKey (formatRecoveryKey (generateRecoveryKey g).1)
  = Some (generateRecoveryKey g).1.
Proof.
  unfold generateRecoveryKey.
  pose proof (generateRandomBytes_ok 8 g) as Hok. unfold bytes_ok in Hok.
  pose proof (generateRandomBytes_length 8 g) as Hlen.
  destruct (generateRandomBytes 8 g) as [bs g']. cbn [fst] in *.
  rewrite WORDLIST_length.
  set (ws := map (fun byte => word_at (byte mod Z.of_nat 256)) bs).
  assert (Hws : Forall (fun w => clean_wordb w = true) ws).
  { apply Forall_forall. intros w Hw.
    apply list_elem_of_In, in_map_iff in Hw as (b & <- & _).
    apply word_at_clean. apply Z.mod_pos_bound. lia. }
  assert (Hlenws : length ws = 8%nat) by (unfold ws; now rewrite length_map).
  unfold parseRecoveryKey, formatRecoveryKey. cbn [rk_words].
  rewrite toLowerCase_join_upper.
  2:{ eapply Forall_impl; [exact Hws|]. intros w Hw. now apply clean_wordb_spec. }
  assert (Hsplit : split_runs is_key_sep (join (js "-") ws) = ws).
  { destruct ws as [|w ws']; [discriminate|].
    inversion Hws as [|? ? Hw Hws']; subst.
    unfold split_runs. change (js "-") with [45].
    rewrite split_runs_join; try reflexivity.
    - now apply clean_wordb_spec.
    - eapply Forall_impl; [exact Hws'|]. intros w0 Hw0. now apply clean_wordb_spec. }
  rewrite Hsplit, filter_nonempty_id.
  2:{ eapply Forall_impl; [exact Hws|]. intros w Hw.
      apply clean_wordb_spec in Hw as [[Hne _] _]. exact Hne. }
  rewrite Hlenws. simpl negb.
  assert (Hidx : map (indexOf WORDLIST) ws = bs).
  { unfold ws. rewrite map_map. rewrite <- (map_id bs) at 2.
    apply map_ext_in. intros b Hb.
    rewrite Forall_forall in Hok. specialize (Hok b).
    assert (byte_ok b) as Hb' by (apply Hok, list_elem_of_In, Hb).
    unfold byte_ok in Hb'. change (Z.of_nat 256) with 256.
    rewrite Z.mod_small by lia. now apply indexOf_word_at. }
  rewrite Hidx.
  assert (Hex : existsb (fun index => index =? -1) bs = false).
  { apply not_true_is_false. intros H. apply existsb_exists in H as (b & Hb & Heq).
    rewrite Forall_forall in Hok. apply list_elem_of_In, Hok in Hb.
    unfold byte_ok in Hb. apply Z.eqb_eq in Heq. lia. }
  rewrite Hex. do 2 f_equal.
  unfold Uint8Array_of. rewrite <- (map_id bs) at 2.
  apply map_ext_in. intros b Hb.
  rewrite Forall_forall in Hok. apply list_elem_of_In, Hok in Hb.
  unfold byte_ok in Hb. apply Z.mod_small. lia.
Qed.

(** ** Bytes and bit operations *)

Module Bits.

Lemma byte_okb_spec (b : Z) : byte_okb b = true <-> byte_ok b.
Proof. unfold byte_okb, byte_ok. rewrite andb_true_iff, Z.leb_le, Z.ltb_lt. tauto. Qed.

Lemma bytes_okb_spec (bs : bytes) : bytes_okb bs = true <-> bytes_ok bs.
Proof.
  unfold bytes_okb, bytes_ok. rewrite forallb_forall, List.Forall_forall.
  split; intros Hb x Hx; apply byte_okb_spec, Hb, Hx.
Qed.

(** A number below [2^n] is its own [n] low bits. *)
Lemma land_ones_small (a n : Z) : 0 <= n -> 0 <= a < 2 ^ n -> Z.land a (Z.ones n) = a.
Proof. intros Hn Ha. rewrite Z.land_ones by assumption. now apply Z.mod_small. Qed.

Lemma land_ones_range (a n : Z) : 0 <= n -> 0 <= Z.land a (Z.ones n) < 2 ^ n.
Proof.
  intros Hn. rewrite Z.land_ones by assumption. apply Z.mod_pos_bound.
  now apply Z.pow_pos_nonneg.
Qed.

Lemma land_255_ok (a : Z) : byte_ok (Z.land a 255).
Proof. exact (land_ones_range a 8 ltac:(lia)). Qed.

Lemma land_lxor_distr (a b c : Z) :
  Z.land (Z.lxor a b) c = Z.lxor (Z.land a c) (Z.land b c).
Proof.
  apply Z.bits_inj'. intros i Hi.
  rewrite !Z.land_spec, !Z.lxor_spec, !Z.land_spec.
  now destruct (Z.testbit a i), (Z.testbit b i), (Z.testbit c i).
Qed.

Lemma lxor_range (a b n : Z) :
  0 <= n -> 0 <= a < 2 ^ n -> 0 <= b < 2 ^ n -> 0 <= Z.lxor a b < 2 ^ n.
Proof.
  intros Hn Ha Hb.
  rewrite <- (land_ones_small a n Hn Ha), <- (land_ones_small b n Hn Hb).
  rewrite <- land_lxor_distr. now apply land_ones_range.
Qed.

Lemma lxor_byte_ok (a b : Z) : byte_ok a -> byte_ok b -> byte_ok (Z.lxor a b).
Proof. apply (lxor_range a b 8). lia. Qed.

(** Two numbers without a common bit add up to their [lor]. *)
Lemma lor_add_disjoint (a b : Z) : Z.land a b = 0 -> Z.lor a b = a + b.
Proof.
  intros Hd. rewrite <- Z.lxor_lor by assumption.
  symmetry. now apply Z.add_nocarry_lxor.
Qed.

Lemma land_shiftl_small (y x k : Z) :
  0 <= k -> 0 <= x < 2 ^ k -> Z.land (Z.shiftl y k) x = 0.
Proof.
  intros Hk Hx. apply Z.bits_inj'. intros i Hi.
  rewrite Z.land_spec, Z.bits_0.
  destruct (Z.lt_ge_cases i k) as [Hlt|Hge].
  - rewrite Z.shiftl_spec_low by assumption. reflexivity.
  - rewrite <- (Z.mod_small x (2 ^ k)) by lia.
    rewrite Z.mod_pow2_bits_high by lia. apply andb_false_r.
Qed.

(** [(y << k) | x] is [y * 2^k + x] when [x] fits in [k] bits. *)
Lemma lor_shiftl_add (y x k : Z) :
  0 <= k -> 0 <= x < 2 ^ k -> Z.lor (Z.shiftl y k) x = y * 2 ^ k + x.
Proof.
  intros Hk Hx. rewrite lor_add_disjoint by now apply land_shiftl_small.
  now rewrite Z.shiftl_mul_pow2.
Qed.

(** A property of all bytes is checked on the 256 of them. *)
Lemma forall_bytes (P : Z -> bool) :
  forallb P (map Z.of_nat (seq 0 256)) = true ->
  forall b, byte_ok b -> P b = true.
Proof.
  intros Hall b Hb. rewrite forallb_forall in Hall. apply Hall.
  apply in_map_iff. exists (Z.to_nat b). split; [apply Z2Nat.id; apply Hb|].
  apply in_seq. unfold byte_ok in Hb. lia.
Qed.

Lemma forall_below (n : nat) (P : Z -> bool) :
  forallb P (map Z.of_nat (seq 0 n)) = true ->
  forall b, 0 <= b < Z.of_nat n -> P b = true.
Proof.
  intros Hall b Hb. rewrite forallb_forall in Hall. apply Hall.
  apply in_map_iff. exists (Z.to_nat b). split; [apply Z2Nat.id; apply Hb|].
  apply in_seq. lia.
Qed.

End Bits.

(** ** The AES state stays sixteen bytes *)

Module AESFacts.
Import AES Bits.

Definition block_ok (b : bytes) : Prop := length b = 16%nat /\ bytes_ok b.
Definition word_ok (w : bytes) : Prop := length w = 4%nat /\ bytes_ok w.

Lemma SBOX_ok : bytes_ok SBOX.
Proof. apply bytes_okb_spec. vm_compute. reflexivity. Qed.

Lemma INV_SBOX_ok : bytes_ok INV_SBOX.
Proof. apply bytes_okb_spec. vm_compute. reflexivity. Qed.

Lemma nth_bytes_ok (l : bytes) (i : nat) : bytes_ok l -> byte_ok (nth i l 0).
Proof.
  intros Hl. destruct (Nat.lt_ge_cases i (length l)) as [Hlt|Hge].
  - unfold bytes_ok in Hl. rewrite List.Forall_forall in Hl. apply Hl. now apply nth_In.
  - rewrite nth_overflow by assumption. unfold byte_ok. lia.
Qed.

Lemma sub_byte_ok (b : Z) : byte_ok (sub_byte b).
Proof. apply nth_bytes_ok, SBOX_ok. Qed.

Lemma inv_sub_byte_ok (b : Z) : byte_ok (inv_sub_byte b).
Proof. apply nth_bytes_ok, INV_SBOX_ok. Qed.

Lemma xtime_ok (a : Z) : byte_ok (xtime a).
Proof. apply land_255_ok. Qed.

Lemma xor_bytes_length (a b : bytes) :
  length (xor_bytes a b) = Nat.min (length a) (length b).
Proof.
  revert b; induction a as [|x a IH]; intros [|y b]; simpl; try reflexivity.
  now rewrite IH.
Qed.

Lemma xor_bytes_ok (a b : bytes) : bytes_ok a -> bytes_ok b -> bytes_ok (xor_bytes a b).
Proof.
  intros Ha. revert b. induction Ha as [|x a Hx Ha IH]; intros b Hb; [constructor|].
  destruct Hb as [|y b Hy Hb]; [constructor|]. simpl. constructor.
  - now apply lxor_byte_ok.
  - now apply IH.
Qed.

(** XOR with the same bytes twice gives the data back. *)
Lemma xor_bytes_cancel (p k : bytes) :
  (length p <= length k)%nat -> xor_bytes (xor_bytes p k) k = p.
Proof.
  revert k; induction p as [|x p IH]; intros [|y k] Hl; simpl in *; try reflexivity; try lia.
  rewrite IH by lia. f_equal.
  rewrite Z.lxor_assoc, Z.lxor_nilpotent. apply Z.lxor_0_r.
Qed.

Lemma xor_bytes_inj_r (s a b : bytes) :
  length a = length s -> length b = length s ->
  xor_bytes s a = xor_bytes s b -> a = b.
Proof.
  revert a b; induction s as [|x s IH]; intros [|y a] [|z b] Ha Hb; simpl in *;
    try reflexivity; try discriminate.
  intros H. injection H as Hx Hr. f_equal.
  - apply (f_equal (Z.lxor x)) in Hx.
    now rewrite <- !Z.lxor_assoc, Z.lxor_nilpotent, !Z.lxor_0_l in Hx.
  - apply IH; congruence.
Qed.

Lemma SubBytes_ok (s : bytes) : block_ok s -> block_ok (SubBytes s).
Proof.
  intros [Hl _]. split.
  - unfold SubBytes. now rewrite length_map.
  - unfold SubBytes. apply List.Forall_forall. intros x Hx.
    apply in_map_iff in Hx as (b & <- & _). apply sub_byte_ok.
Qed.

Lemma ShiftRows_ok (s : bytes) : bytes_ok s -> block_ok (ShiftRows s).
Proof.
  intros Hs. split; [reflexivity|].
  unfold ShiftRows. apply List.Forall_forall. intros x Hx.
  apply in_map_iff in Hx as (i & <- & _). now apply nth_bytes_ok.
Qed.

Lemma mul2_ok a : byte_ok (mul2 a).
Proof. apply xtime_ok. Qed.

Lemma mul3_ok a : byte_ok a -> byte_ok (mul3 a).
Proof. intros Ha. apply lxor_byte_ok; [apply xtime_ok | exact Ha]. Qed.

Lemma mix_column_ok a0 a1 a2 a3 :
  byte_ok a0 -> byte_ok a1 -> byte_ok a2 -> byte_ok a3 ->
  bytes_ok (mix_column a0 a1 a2 a3).
Proof.
  intros H0 H1 H2 H3. unfold mix_column.
  repeat constructor;
    repeat (apply lxor_byte_ok; try assumption);
    try apply mul2_ok; now apply mul3_ok.
Qed.

Ltac destruct_length H :=
  repeat match type of H with
         | length ?l = S _ => destruct l; [discriminate H|]; cbn [length] in H;
                              apply Nat.succ_inj in H
         | length ?l = O => destruct l; [clear H | discriminate H]
         end.

Lemma MixColumns_ok (s : bytes) : block_ok s -> block_ok (MixColumns s).
Proof.
  intros [Hl Hs]. split.
  - destruct_length Hl. reflexivity.
  - destruct_length Hl. unfold bytes_ok in Hs.
    repeat match goal with
           | H : Forall _ (_ :: _) |- _ => apply Forall_cons_1 in H as [? H]
           end.
    cbn [MixColumns]. unfold bytes_ok.
    repeat (apply Forall_app; split; [now apply mix_column_ok|]). constructor.
Qed.

Lemma AddRoundKey_ok (s rk : bytes) : block_ok s -> block_ok rk -> block_ok (AddRoundKey s rk).
Proof.
  intros [Hl Hs] [Hlk Hk]. split.
  - unfold AddRoundKey. rewrite xor_bytes_length. lia.
  - now apply xor_bytes_ok.
Qed.

Lemma rounds_ok (rks : list bytes) (s : bytes) :
  Forall block_ok rks -> block_ok s -> block_ok (rounds rks s).
Proof.
  intros Hr. revert s. induction Hr as [|rk rest Hrk Hrest IH]; intros s Hs; [exact Hs|].
  destruct rest as [|rk' rest'].
  - cbn [rounds]. apply AddRoundKey_ok; [|exact Hrk].
    apply ShiftRows_ok, SubBytes_ok, Hs.
  - change (rounds (rk :: rk' :: rest') s)
      with (rounds (rk' :: rest') (AddRoundKey (MixColumns (ShiftRows (SubBytes s))) rk)).
    apply IH. apply AddRoundKey_ok; [|exact Hrk].
    apply MixColumns_ok, ShiftRows_ok, SubBytes_ok, Hs.
Qed.

(** *** The key schedule *)

Lemma SubWord_ok (w : bytes) : length w = 4%nat -> word_ok (SubWord w).
Proof.
  intros Hl. split.
  - unfold SubWord. now rewrite length_map.
  - unfold SubWord. apply List.Forall_forall. intros x Hx.
    apply in_map_iff in Hx as (b & <- & _). apply sub_byte_ok.
Qed.

Lemma RotWord_length (w : bytes) : length w = 4%nat -> length (RotWord w) = 4%nat.
Proof. intros Hl. destruct_length Hl. reflexivity. Qed.

Lemma xor_word_ok (a b : bytes) : word_ok a -> word_ok b -> word_ok (xor_bytes a b).
Proof.
  intros [Hla Ha] [Hlb Hb]. split.
  - rewrite xor_bytes_length. lia.
  - now apply xor_bytes_ok.
Qed.

Lemma nth_word_ok (win : list bytes) (i : nat) :
  Forall word_ok win -> (i < length win)%nat -> word_ok (nth i win []).
Proof. intros Hw Hi. rewrite List.Forall_forall in Hw. apply Hw. now apply nth_In. Qed.

Lemma expand_ok (n : nat) (i rcon : Z) (win : list bytes) :
  byte_ok rcon -> length win = 8%nat -> Forall word_ok win ->
  Forall word_ok (expand n i rcon win) /\ length (expand n i rcon win) = n.
Proof.
  revert i rcon win. induction n as [|n IH]; intros i rcon win Hr Hl Hw.
  - split; [constructor | reflexivity].
  - cbn [expand].
    set (prev := nth 7 win []).
    set (temp := if i mod 8 =? 0 then _ else if i mod 8 =? 4 then _ else prev).
    assert (Hprev : word_ok prev) by (apply nth_word_ok; [assumption | lia]).
    assert (Htemp : word_ok temp).
    { unfold temp. destruct (i mod 8 =? 0).
      - apply xor_word_ok.
        + apply SubWord_ok, RotWord_length, Hprev.
        + split; [reflexivity|]. repeat constructor; unfold byte_ok; try lia; apply Hr.
      - destruct (i mod 8 =? 4); [apply SubWord_ok, Hprev | exact Hprev]. }
    set (w := xor_bytes (nth 0 win []) temp).
    assert (Hwok : word_ok w).
    { apply xor_word_ok; [|exact Htemp]. apply nth_word_ok; [assumption | lia]. }
    destruct (IH (i + 1) (if i mod 8 =? 0 then xtime rcon else rcon) (tl win ++ [w]))
      as [Hrest Hlen].
    + destruct (i mod 8 =? 0); [apply xtime_ok | exact Hr].
    + rewrite length_app. destruct win; [discriminate|]. simpl in *. lia.
    + apply Forall_app. split; [|constructor; [exact Hwok | constructor]].
      destruct win; [constructor|]. now inversion Hw.
    + split; [now constructor | simpl; now rewrite Hlen].
Qed.

Lemma words4_ok (bs : bytes) (n : nat) :
  length bs = (4 * n)%nat -> bytes_ok bs ->
  Forall word_ok (words4 bs) /\ length (words4 bs) = n.
Proof.
  revert bs. induction n as [|n IH]; intros bs Hl Hb.
  - destruct bs; [|discriminate]. split; [constructor | reflexivity].
  - replace (4 * S n)%nat with (S (S (S (S (4 * n))))) in Hl by lia.
    destruct bs as [|a [|b [|c [|d r]]]]; try discriminate.
    cbn [length] in Hl. unfold bytes_ok in Hb.
    apply Forall_cons_1 in Hb as [Ha Hb]. apply Forall_cons_1 in Hb as [Hb0 Hb].
    apply Forall_cons_1 in Hb as [Hc Hb]. apply Forall_cons_1 in Hb as [Hd Hb].
    destruct (IH r) as [Hr Hlen]; [lia | exact Hb |].
    cbn [words4]. split; [|simpl; now rewrite Hlen].
    constructor; [|exact Hr]. split; [reflexivity|].
    repeat (apply List.Forall_cons; [assumption|]). apply List.Forall_nil.
Qed.

Lemma group4_ok (ws : list bytes) : Forall word_ok ws -> Forall block_ok (group4 ws).
Proof.
  revert ws. fix IH 1. intros [|a [|b [|c [|d r]]]] Hw; try constructor.
  - apply Forall_cons_1 in Hw as [[Hla Ha] Hw]. apply Forall_cons_1 in Hw as [[Hlb Hb] Hw].
    apply Forall_cons_1 in Hw as [[Hlc Hc] Hw]. apply Forall_cons_1 in Hw as [[Hld Hd] Hw].
    split.
    + rewrite !length_app. lia.
    + unfold bytes_ok in *. now rewrite !Forall_app.
  - apply IH. do 4 apply Forall_cons_1 in Hw as [_ Hw]. exact Hw.
Qed.

Definition key_ok (key : bytes) : Prop := length key = 32%nat /\ bytes_ok key.

Lemma round_keys_ok (key : bytes) : key_ok key -> Forall block_ok (round_keys key).
Proof.
  intros [Hl Hk]. unfold round_keys, key_words. apply group4_ok.
  destruct (words4_ok key 8 Hl Hk) as [Hw Hlen].
  apply Forall_app. split; [exact Hw|].
  apply expand_ok; [unfold byte_ok; lia | exact Hlen | exact Hw].
Qed.

Lemma round_keys_length (key : bytes) : key_ok key -> length (round_keys key) = 15%nat.
Proof.
  intros [Hl Hk]. unfold round_keys, key_words.
  destruct (words4_ok key 8 Hl Hk) as [Hw Hlen].
  destruct (expand_ok 52 8 1 (words4 key)) as [_ Hlen2];
    [unfold byte_ok; lia | exact Hlen | exact Hw |].
  assert (Hl60 : length (words4 key ++ expand 52 8 1 (words4 key)) = 60%nat).
  { rewrite length_app. lia. }
  revert Hl60. generalize (words4 key ++ expand 52 8 1 (words4 key)). clear.
  intros ws Hl. destruct_length Hl. reflexivity.
Qed.

(** The block cipher maps blocks to blocks. *)
Lemma encrypt_block_ok (key block : bytes) :
  key_ok key -> block_ok block -> block_ok (encrypt_block key block).
Proof.
  intros Hk Hb. unfold encrypt_block, encrypt_block_with.
  pose proof (round_keys_ok key Hk) as Hr.
  destruct (round_keys key) as [|rk0 rest]; [exact Hb|].
  apply Forall_cons_1 in Hr as [Hrk0 Hrest].
  apply rounds_ok; [exact Hrest|]. now apply AddRoundKey_ok.
Qed.

End AESFacts.

(** ** Base64: decoding what was encoded *)

Module Base64Facts.
Import Base64 Bits.

Definition below (n : nat) : list Z := map Z.of_nat (seq 0 n).

Lemma forall_below2 (n m : nat) (P : Z -> Z -> bool) :
  forallb (fun a => forallb (P a) (below m)) (below n) = true ->
  forall a b, 0 <= a < Z.of_nat n -> 0 <= b < Z.of_nat m -> P a b = true.
Proof.
  intros Hall a b Ha Hb.
  pose proof (forall_below n _ Hall a Ha) as Hrow. cbv beta in Hrow.
  exact (forall_below m _ Hrow b Hb).
Qed.

(** Every sextet has its own character, which is not the padding. *)
Lemma unbase64_char_of (v : Z) :
  0 <= v < 64 -> unbase64 (char_of v) = Some v /\ (char_of v =? 61) = false.
Proof.
  intros Hv.
  assert (H : (match unbase64 (char_of v) with Some w => w =? v | None => false end
               && negb (char_of v =? 61)) = true).
  { revert v Hv. apply (forall_below 64). vm_compute. reflexivity. }
  apply andb_true_iff in H as [H1 H2]. apply negb_true_iff in H2.
  split; [|exact H2].
  destruct (unbase64 (char_of v)) as [w|]; [|discriminate].
  apply Z.eqb_eq in H1. now subst.
Qed.

Lemma sextets_valid (v : Z) (r : jsstring) :
  0 <= v < 64 -> sextets (char_of v :: r) = v :: sextets r.
Proof.
  intros Hv. destruct (unbase64_char_of v Hv) as [Hu Hp].
  cbn [sextets]. now rewrite Hp, Hu.
Qed.

(** The four sextets of three bytes, and the bytes read back from them. *)
Definition s0 (a : Z) : Z := Z.shiftr a 2.
Definition s1 (x b4 : Z) : Z := Z.lor (Z.shiftl x 4) b4.
Definition s2 (x c2 : Z) : Z := Z.lor (Z.shiftl x 2) c2.
Definition s3 (c : Z) : Z := Z.land c 63.
Definition d0 (u v : Z) : Z := Z.land (Z.lor (Z.shiftl u 2) (Z.shiftr v 4)) 255.
Definition d1 (u v : Z) : Z := Z.land (Z.lor (Z.shiftl u 4) (Z.shiftr v 2)) 255.
Definition d2 (u v : Z) : Z := Z.land (Z.lor (Z.shiftl u 6) v) 255.

Definition in64 (v : Z) : bool := (0 <=? v) && (v <? 64).

Lemma in64_spec v : in64 v = true -> 0 <= v < 64.
Proof. unfold in64. rewrite andb_true_iff, Z.leb_le, Z.ltb_lt. tauto. Qed.

Lemma first_byte (a b4 : Z) :
  byte_ok a -> 0 <= b4 < 16 ->
  0 <= s0 a < 64 /\ 0 <= s1 (Z.land a 3) b4 < 64 /\ d0 (s0 a) (s1 (Z.land a 3) b4) = a.
Proof.
  intros Ha Hb.
  assert (H : (in64 (s0 a) && in64 (s1 (Z.land a 3) b4)
               && (d0 (s0 a) (s1 (Z.land a 3) b4) =? a)) = true).
  { revert a b4 Ha Hb. apply (forall_below2 256 16). vm_compute. reflexivity. }
  apply andb_true_iff in H as [H H3]. apply andb_true_iff in H as [H1 H2].
  apply in64_spec in H1, H2. apply Z.eqb_eq in H3. auto.
Qed.

Lemma second_byte (x b y : Z) :
  0 <= x < 4 -> byte_ok b -> 0 <= y < 4 ->
  0 <= s2 (Z.land b 15) y < 64
  /\ d1 (s1 x (Z.shiftr b 4)) (s2 (Z.land b 15) y) = b.
Proof.
  intros Hx Hb Hy.
  assert (H : forallb (fun y => in64 (s2 (Z.land b 15) y)
                && (d1 (s1 x (Z.shiftr b 4)) (s2 (Z.land b 15) y) =? b)) (below 4) = true).
  { revert x b Hx Hb. apply (forall_below2 4 256). vm_compute. reflexivity. }
  pose proof (forall_below 4 _ H y Hy) as H'. cbv beta in H'.
  apply andb_true_iff in H' as [H1 H2].
  apply in64_spec in H1. apply Z.eqb_eq in H2. auto.
Qed.

Lemma third_byte (x c : Z) :
  0 <= x < 16 -> byte_ok c ->
  0 <= s3 c < 64 /\ d2 (s2 x (Z.shiftr c 6)) (s3 c) = c.
Proof.
  intros Hx Hc.
  assert (H : (in64 (s3 c) && (d2 (s2 x (Z.shiftr c 6)) (s3 c) =? c)) = true).
  { revert x c Hx Hc. apply (forall_below2 16 256). vm_compute. reflexivity. }
  apply andb_true_iff in H as [H1 H2].
  apply in64_spec in H1. apply Z.eqb_eq in H2. auto.
Qed.

Lemma byte_parts (b : Z) :
  byte_ok b ->
  0 <= Z.land b 3 < 4 /\ 0 <= Z.land b 15 < 16
  /\ 0 <= Z.shiftr b 4 < 16 /\ 0 <= Z.shiftr b 6 < 4.
Proof.
  intros Hb.
  assert (H : ((Z.land b 3 <? 4) && (0 <=? Z.land b 3) && (Z.land b 15 <? 16)
               && (0 <=? Z.land b 15) && (Z.shiftr b 4 <? 16) && (0 <=? Z.shiftr b 4)
               && (Z.shiftr b 6 <? 4) && (0 <=? Z.shiftr b 6)) = true).
  { revert b Hb. apply forall_bytes. vm_compute. reflexivity. }
  rewrite !andb_true_iff, !Z.ltb_lt, !Z.leb_le in H. lia.
Qed.

(** [Buffer.from(buf.toString("base64"), "base64")] is [buf]. *)
Theorem decode_encode (bs : bytes) : bytes_ok bs -> decode (encode bs) = bs.
Proof.
  unfold decode. revert bs. fix IH 1. intros [|a [|b [|c r]]] Hbs.
  - reflexivity.
  - apply Forall_cons_1 in Hbs as [Ha _].
    destruct (byte_parts a Ha) as (Ha3 & _).
    destruct (first_byte a 0 Ha ltac:(lia)) as (H0 & H1 & Hd).
    cbn [encode].
    change (Z.shiftr a 2) with (s0 a).
    replace (Z.shiftl (Z.land a 3) 4) with (s1 (Z.land a 3) 0)
      by (unfold s1; apply Z.lor_0_r).
    rewrite !sextets_valid by assumption. cbn [sextets]. cbn [Z.eqb Pos.eqb].
    cbn [decode_sextets]. fold (d0 (s0 a) (s1 (Z.land a 3) 0)). now rewrite Hd.
  - apply Forall_cons_1 in Hbs as [Ha Hbs]. apply Forall_cons_1 in Hbs as [Hb _].
    destruct (byte_parts a Ha) as (Ha3 & _).
    destruct (byte_parts b Hb) as (_ & Hb15 & Hb4 & _).
    destruct (first_byte a (Z.shiftr b 4) Ha Hb4) as (H0 & H1 & Hd0).
    destruct (second_byte (Z.land a 3) b 0 Ha3 Hb ltac:(lia)) as (H2 & Hd1).
    cbn [encode].
    change (Z.shiftr a 2) with (s0 a).
    change (Z.lor (Z.shiftl (Z.land a 3) 4) (Z.shiftr b 4)) with (s1 (Z.land a 3) (Z.shiftr b 4)).
    replace (Z.shiftl (Z.land b 15) 2) with (s2 (Z.land b 15) 0)
      by (unfold s2; apply Z.lor_0_r).
    rewrite !sextets_valid by assumption. cbn [sextets]. cbn [Z.eqb Pos.eqb].
    cbn [decode_sextets].
    fold (d0 (s0 a) (s1 (Z.land a 3) (Z.shiftr b 4))).
    fold (d1 (s1 (Z.land a 3) (Z.shiftr b 4)) (s2 (Z.land b 15) 0)).
    now rewrite Hd0, Hd1.
  - apply Forall_cons_1 in Hbs as [Ha Hbs]. apply Forall_cons_1 in Hbs as [Hb Hbs].
    apply Forall_cons_1 in Hbs as [Hc Hr].
    destruct (byte_parts a Ha) as (Ha3 & _).
    destruct (byte_parts b Hb) as (_ & Hb15 & Hb4 & _).
    destruct (byte_parts c Hc) as (_ & _ & _ & Hc6).
    destruct (first_byte a (Z.shiftr b 4) Ha Hb4) as (H0 & H1 & Hd0).
    destruct (second_byte (Z.land a 3) b (Z.shiftr c 6) Ha3 Hb Hc6) as (H2 & Hd1).
    destruct (third_byte (Z.land b 15) c Hb15 Hc) as (H3 & Hd2).
    change (encode (a :: b :: c :: r))
      with ([char_of (s0 a); char_of (s1 (Z.land a 3) (Z.shiftr b 4));
             char_of (s2 (Z.land b 15) (Z.shiftr c 6)); char_of (s3 c)] ++ encode r).
    cbn [app]. rewrite !sextets_valid by assumption.
    cbn [decode_sextets].
    fold (d0 (s0 a) (s1 (Z.land a 3) (Z.shiftr b 4))).
    fold (d1 (s1 (Z.land a 3) (Z.shiftr b 4)) (s2 (Z.land b 15) (Z.shiftr c 6))).
    fold (d2 (s2 (Z.land b 15) (Z.shiftr c 6)) (s3 c)).
    rewrite Hd0, Hd1, Hd2. cbn [app]. do 3 f_equal. apply IH, Hr.
Qed.

Lemma encode_nonempty (bs : bytes) : bs <> [] -> encode bs <> [].
Proof. destruct bs as [|a [|b [|c r]]]; [congruence| | |]; discriminate. Qed.

End Base64Facts.

(** ** UTF-8: decoding what was encoded *)

Module TextFacts.
Import Text Bits.

(** Unicode scalar values: code points that are not surrogates. *)
Definition scalar (cp : Z) : Prop :=
  0 <= cp < 0xD800 \/ 0xE000 <= cp < 0x110000.

Ltac to_arith :=
  repeat first
    [ rewrite Z.shiftr_div_pow2 by lia
    | rewrite Z.shiftl_mul_pow2 by lia
    | match goal with
      | |- context [Z.land ?a 0x3F] => change (Z.land a 0x3F) with (Z.land a (Z.ones 6))
      | |- context [Z.land ?a 0x3FF] => change (Z.land a 0x3FF) with (Z.land a (Z.ones 10))
      end
    | rewrite Z.land_ones by lia ].

Ltac seq_step :=
  repeat match goal with
  | |- context [?a + 1 =? ?b] =>
      let v := eval vm_compute in (a + 1 =? b) in change (a + 1 =? b) with v
  end;
  cbn [fst snd app];
  try change (0 + 1) with 1; try change (1 + 1) with 2.

(** The lead and continuation bytes. *)
Lemma lead2 (y : Z) : 2 <= y < 32 ->
  decode_first (Z.lor 0xC0 y) = ([], mkDstate y 0 1 0x80 0xBF).
Proof.
  intros Hy.
  assert (H : (2 <=? y) && (y <? 32) = true) by (rewrite andb_true_iff, Z.leb_le, Z.ltb_lt; lia).
  revert H. generalize dependent y. intros y _.
  assert (Hall : forallb (fun y => implb ((2 <=? y) && (y <? 32))
            (match decode_first (Z.lor 0xC0 y) with
             | ([], st) => (d_cp st =? y) && (d_seen st =? 0) && (d_needed st =? 1)
                           && (d_lower st =? 0x80) && (d_upper st =? 0xBF)
             | _ => false
             end)) (map Z.of_nat (seq 0 32)) = true) by (vm_compute; reflexivity).
  intros Hr. assert (Hy : 0 <= y < Z.of_nat 32).
  { apply andb_true_iff in Hr as [H1 H2]. apply Z.leb_le in H1. apply Z.ltb_lt in H2. lia. }
  pose proof (forall_below 32 _ Hall y Hy) as H. cbv beta in H. rewrite Hr in H. cbn [implb] in H.
  destruct (decode_first (Z.lor 192 y)) as [[|? ?] [c s n lo hi]]; [|discriminate].
  cbn [d_cp d_seen d_needed d_lower d_upper] in H.
  rewrite !andb_true_iff, !Z.eqb_eq in H. destruct H as ((((-> & ->) & ->) & ->) & ->).
  reflexivity.
Qed.

Lemma lead3 (z : Z) : 0 <= z < 16 ->
  decode_first (Z.lor 0xE0 z)
  = ([], mkDstate z 0 2 (if z =? 0 then 0xA0 else 0x80) (if z =? 13 then 0x9F else 0xBF)).
Proof.
  intros Hz.
  assert (Hall : forallb (fun z =>
            match decode_first (Z.lor 0xE0 z) with
            | ([], st) => (d_cp st =? z) && (d_seen st =? 0) && (d_needed st =? 2)
                          && (d_lower st =? (if z =? 0 then 0xA0 else 0x80))
                          && (d_upper st =? (if z =? 13 then 0x9F else 0xBF))
            | _ => false
            end) (map Z.of_nat (seq 0 16)) = true) by (vm_compute; reflexivity).
  pose proof (forall_below 16 _ Hall z Hz) as H. cbv beta in H.
  destruct (decode_first (Z.lor 224 z)) as [[|? ?] [c s n lo hi]]; [|discriminate].
  cbn [d_cp d_seen d_needed d_lower d_upper] in H.
  rewrite !andb_true_iff, !Z.eqb_eq in H. destruct H as ((((-> & ->) & ->) & ->) & ->).
  reflexivity.
Qed.

Lemma lead4 (u : Z) : 0 <= u < 5 ->
  decode_first (Z.lor 0xF0 u)
  = ([], mkDstate u 0 3 (if u =? 0 then 0x90 else 0x80) (if u =? 4 then 0x8F else 0xBF)).
Proof.
  intros Hu.
  assert (Hall : forallb (fun u =>
            match decode_first (Z.lor 0xF0 u) with
            | ([], st) => (d_cp st =? u) && (d_seen st =? 0) && (d_needed st =? 3)
                          && (d_lower st =? (if u =? 0 then 0x90 else 0x80))
                          && (d_upper st =? (if u =? 4 then 0x8F else 0xBF))
            | _ => false
            end) (map Z.of_nat (seq 0 5)) = true) by (vm_compute; reflexivity).
  pose proof (forall_below 5 _ Hall u Hu) as H. cbv beta in H.
  destruct (decode_first (Z.lor 240 u)) as [[|? ?] [c s n lo hi]]; [|discriminate].
  cbn [d_cp d_seen d_needed d_lower d_upper] in H.
  rewrite !andb_true_iff, !Z.eqb_eq in H. destruct H as ((((-> & ->) & ->) & ->) & ->).
  reflexivity.
Qed.

Lemma continuation (x : Z) : 0 <= x < 64 ->
  Z.lor 0x80 x = 128 + x /\ Z.land (Z.lor 0x80 x) 0x3F = x.
Proof.
  intros Hx.
  assert (Hall : forallb (fun x => (Z.lor 0x80 x =? 128 + x)
                                   && (Z.land (Z.lor 0x80 x) 0x3F =? x))
                         (map Z.of_nat (seq 0 64)) = true) by (vm_compute; reflexivity).
  pose proof (forall_below 64 _ Hall x Hx) as H. cbv beta in H.
  rewrite andb_true_iff, !Z.eqb_eq in H. exact H.
Qed.

(** One continuation byte in its window. *)
Lemma decode_step_continue (c seen needed lo hi x : Z) :
  needed <> 0 -> 0 <= x < 64 -> lo <= 128 + x <= hi ->
  decode_step (mkDstate c seen needed lo hi) (Z.lor 0x80 x)
  = if seen + 1 =? needed then ([c * 64 + x], d_init)
    else ([], mkDstate (c * 64 + x) (seen + 1) needed 0x80 0xBF).
Proof.
  intros Hn Hx Hw. destruct (continuation x Hx) as [Hb Hm].
  unfold decode_step. cbn [d_needed d_lower d_upper d_cp d_seen].
  apply Z.eqb_neq in Hn. rewrite Hn, Hm, Hb.
  assert (H1 : (128 + x <? lo) = false) by (apply Z.ltb_ge; lia).
  assert (H2 : (hi <? 128 + x) = false) by (apply Z.ltb_ge; lia).
  rewrite H1, H2. cbn [orb].
  rewrite (lor_shiftl_add c x 6) by lia. reflexivity.
Qed.

Lemma decode_from_cons (st : dstate) (b : Z) (r : bytes) :
  decode_from st (b :: r) = (decode_step st b).1 ++ decode_from (decode_step st b).2 r.
Proof. cbn [decode_from]. now destruct (decode_step st b). Qed.

Lemma decode_init_first (b : Z) : decode_step d_init b = decode_first b.
Proof. reflexivity. Qed.

(** The decoder reads back each encoded scalar value. *)
Lemma decode_utf8_bytes (cp : Z) (rest : bytes) :
  scalar cp ->
  decode_from d_init (utf8_bytes cp ++ rest) = cp :: decode_from d_init rest.
Proof.
  intros Hcp. unfold utf8_bytes.
  destruct (cp <? 0x80) eqn:E1; [|destruct (cp <? 0x800) eqn:E2;
                                   [|destruct (cp <? 0x10000) eqn:E3]].
  - apply Z.ltb_lt in E1. cbn [app]. rewrite decode_from_cons, decode_init_first.
    unfold decode_first.
    assert (H : (0 <=? cp) && (cp <=? 127) = true)
      by (rewrite andb_true_iff, !Z.leb_le; unfold scalar in Hcp; lia).
    now rewrite H.
  - apply Z.ltb_ge in E1. apply Z.ltb_lt in E2. cbn [app].
    set (y := Z.shiftr cp 6). set (x := Z.land cp 0x3F).
    assert (Hxy : 2 <= y < 32 /\ 0 <= x < 64 /\ cp = y * 64 + x).
    { unfold x, y. to_arith. change (2 ^ 6) with 64.
      pose proof (Z.div_mod cp 64 ltac:(lia)). pose proof (Z.mod_pos_bound cp 64 ltac:(lia)).
      lia. }
    destruct Hxy as (Hy & Hx & Heq).
    rewrite decode_from_cons, decode_init_first, (lead2 y Hy). cbn [fst snd app].
    rewrite decode_from_cons, decode_step_continue by lia.
    seq_step. now rewrite <- Heq.
  - apply Z.ltb_ge in E2. apply Z.ltb_lt in E3. cbn [app].
    set (z := Z.shiftr cp 12). set (y := Z.land (Z.shiftr cp 6) 0x3F).
    set (x := Z.land cp 0x3F).
    assert (Hxyz : 0 <= z < 16 /\ 0 <= y < 64 /\ 0 <= x < 64
                   /\ cp = (z * 64 + y) * 64 + x).
    { unfold x, y, z. to_arith. change (2 ^ 6) with 64. change (2 ^ 12) with 4096.
      pose proof (Z.div_mod cp 64 ltac:(lia)). pose proof (Z.mod_pos_bound cp 64 ltac:(lia)).
      pose proof (Z.div_mod (cp / 64) 64 ltac:(lia)).
      pose proof (Z.mod_pos_bound (cp / 64) 64 ltac:(lia)).
      assert (cp / 4096 = cp / 64 / 64) by (rewrite Z.div_div by lia; reflexivity).
      lia. }
    destruct Hxyz as (Hz & Hy & Hx & Heq).
    rewrite decode_from_cons, decode_init_first, (lead3 z Hz). cbn [fst snd app].
    rewrite decode_from_cons, decode_step_continue.
    + seq_step.
      rewrite decode_from_cons, decode_step_continue by lia.
      seq_step. now rewrite <- Heq.
    + lia.
    + lia.
    + unfold scalar in Hcp.
      destruct (z =? 0) eqn:Ez0; destruct (z =? 13) eqn:Ez13;
        rewrite ?Z.eqb_eq, ?Z.eqb_neq in *; lia.
  - apply Z.ltb_ge in E3. cbn [app].
    set (u := Z.shiftr cp 18). set (z := Z.land (Z.shiftr cp 12) 0x3F).
    set (y := Z.land (Z.shiftr cp 6) 0x3F). set (x := Z.land cp 0x3F).
    assert (Hxyzu : 0 <= u < 5 /\ 0 <= z < 64 /\ 0 <= y < 64 /\ 0 <= x < 64
                    /\ cp = ((u * 64 + z) * 64 + y) * 64 + x).
    { unfold x, y, z, u. to_arith.
      change (2 ^ 6) with 64. change (2 ^ 12) with 4096. change (2 ^ 18) with 262144.
      pose proof (Z.div_mod cp 64 ltac:(lia)). pose proof (Z.mod_pos_bound cp 64 ltac:(lia)).
      pose proof (Z.div_mod (cp / 64) 64 ltac:(lia)).
      pose proof (Z.mod_pos_bound (cp / 64) 64 ltac:(lia)).
      pose proof (Z.div_mod (cp / 64 / 64) 64 ltac:(lia)).
      pose proof (Z.mod_pos_bound (cp / 64 / 64) 64 ltac:(lia)).
      assert (cp / 4096 = cp / 64 / 64) as -> by (rewrite Z.div_div by lia; reflexivity).
      assert (cp / 262144 = cp / 64 / 64 / 64) as ->
        by (rewrite !Z.div_div by lia; reflexivity).
      unfold scalar in Hcp. lia. }
    destruct Hxyzu as (Hu & Hz & Hy & Hx & Heq).
    rewrite decode_from_cons, decode_init_first, (lead4 u Hu). cbn [fst snd app].
    rewrite decode_from_cons, decode_step_continue.
    + seq_step.
      rewrite decode_from_cons, decode_step_continue by lia.
      seq_step.
      rewrite decode_from_cons, decode_step_continue by lia.
      seq_step. now rewrite <- Heq.
    + lia.
    + lia.
    + unfold scalar in Hcp.
      destruct (u =? 0) eqn:Eu0; destruct (u =? 4) eqn:Eu4;
        rewrite ?Z.eqb_eq, ?Z.eqb_neq in *; lia.
Qed.

Lemma decode_encode_scalars (cps : list Z) :
  Forall scalar cps -> decode_from d_init (flat_map utf8_bytes cps) = cps.
Proof.
  induction 1 as [|cp cps Hcp _ IH]; [reflexivity|].
  cbn [flat_map]. rewrite decode_utf8_bytes by assumption. now rewrite IH.
Qed.

(** *** UTF-16 *)

Lemma surrogate_tests (c : Z) :
  (is_high_surrogate c = true <-> 0xD800 <= c <= 0xDBFF)
  /\ (is_low_surrogate c = true <-> 0xDC00 <= c <= 0xDFFF).
Proof.
  unfold is_high_surrogate, is_low_surrogate.
  rewrite !andb_true_iff, !Z.leb_le. tauto.
Qed.

Lemma pair_units (hi lo : Z) :
  0xD800 <= hi <= 0xDBFF -> 0xDC00 <= lo <= 0xDFFF ->
  scalar (pair_code_point hi lo)
  /\ 0x10000 <= pair_code_point hi lo
  /\ utf16_units (pair_code_point hi lo) = [hi; lo].
Proof.
  intros Hh Hl. unfold pair_code_point. rewrite Z.shiftl_mul_pow2 by lia.
  change (2 ^ 10) with 1024.
  set (cp := 0x10000 + (hi - 0xD800) * 1024 + (lo - 0xDC00)).
  assert (Hcp : 0x10000 <= cp < 0x110000) by (unfold cp; lia).
  split; [right; lia|]. split; [lia|].
  unfold utf16_units.
  assert (E : (cp <? 0x10000) = false) by (apply Z.ltb_ge; lia). rewrite E.
  to_arith. change (2 ^ 10) with 1024.
  pose proof (Z.div_mod (cp - 0x10000) 1024 ltac:(lia)).
  pose proof (Z.mod_pos_bound (cp - 0x10000) 1024 ltac:(lia)).
  assert ((cp - 0x10000) / 1024 = hi - 0xD800 /\ (cp - 0x10000) mod 1024 = lo - 0xDC00)
    as [-> ->].
  { unfold cp in *. lia. }
  f_equal; [lia|]. f_equal. lia.
Qed.

(** A well-formed string is the UTF-16 of its scalar values, and they are
    scalar values. *)
Lemma scalar_values_well_formed (s : jsstring) :
  well_formed s = true ->
  Forall scalar (scalar_values s) /\ flat_map utf16_units (scalar_values s) = s.
Proof.
  revert s. fix IH 1. intros [|c r] Hwf; [split; [constructor | reflexivity]|].
  cbn [well_formed scalar_values] in *.
  destruct (is_high_surrogate c) eqn:Eh.
  - destruct r as [|lo r']; [discriminate|].
    apply andb_true_iff in Hwf as [El Hwf]. rewrite El.
    apply surrogate_tests in Eh. apply surrogate_tests in El.
    destruct (pair_units c lo Eh El) as (Hs & _ & Hu).
    destruct (IH r' Hwf) as [Hr Hf].
    split; [now constructor|]. cbn [flat_map]. now rewrite Hu, Hf.
  - destruct (is_low_surrogate c) eqn:El; [discriminate|].
    apply andb_true_iff in Hwf as [Hc Hwf]. apply andb_true_iff in Hc as [Hc0 Hc1].
    apply Z.leb_le in Hc0. apply Z.ltb_lt in Hc1.
    destruct (IH r Hwf) as [Hr Hf].
    assert (Hns : ~ (0xD800 <= c <= 0xDBFF) /\ ~ (0xDC00 <= c <= 0xDFFF)).
    { split; intros Hx; apply surrogate_tests in Hx; congruence. }
    split.
    + constructor; [|exact Hr]. unfold scalar. lia.
    + cbn [flat_map]. rewrite Hf. unfold utf16_units.
      assert (E : (c <? 0x10000) = true) by (apply Z.ltb_lt; lia). now rewrite E.
Qed.

(** *** The byte order mark *)

Definition starts_with_bom (s : jsstring) : bool :=
  match s with
  | c :: _ => c =? 0xFEFF
  | [] => false
  end.

Lemma utf8_bytes_head (cp : Z) :
  scalar cp -> cp <> 0xFEFF ->
  exists b0 r, utf8_bytes cp = b0 :: r
    /\ (b0 <> 0xEF \/ exists b1 b2, r = [b1; b2] /\ (b1 <> 0xBB \/ b2 <> 0xBF)).
Proof.
  intros Hcp Hne. unfold utf8_bytes.
  destruct (cp <? 0x80) eqn:E1; [|destruct (cp <? 0x800) eqn:E2;
                                   [|destruct (cp <? 0x10000) eqn:E3]].
  - apply Z.ltb_lt in E1. eexists _, _. split; [reflexivity|]. left. lia.
  - apply Z.ltb_ge in E1. apply Z.ltb_lt in E2.
    eexists _, _. split; [reflexivity|]. left.
    assert (Hy : 0 <= Z.shiftr cp 6 < 32).
    { rewrite Z.shiftr_div_pow2 by lia. change (2 ^ 6) with 64.
      pose proof (Z.div_mod cp 64 ltac:(lia)). pose proof (Z.mod_pos_bound cp 64 ltac:(lia)).
      lia. }
    change 0xC0 with (Z.shiftl 6 5). rewrite (lor_shiftl_add 6 _ 5) by lia. lia.
  - apply Z.ltb_ge in E2. apply Z.ltb_lt in E3.
    eexists _, _. split; [reflexivity|].
    set (z := Z.shiftr cp 12). set (y := Z.land (Z.shiftr cp 6) 0x3F).
    set (x := Z.land cp 0x3F).
    assert (Hxyz : 0 <= z < 16 /\ 0 <= y < 64 /\ 0 <= x < 64
                   /\ cp = (z * 64 + y) * 64 + x).
    { unfold x, y, z. to_arith. change (2 ^ 6) with 64. change (2 ^ 12) with 4096.
      pose proof (Z.div_mod cp 64 ltac:(lia)). pose proof (Z.mod_pos_bound cp 64 ltac:(lia)).
      pose proof (Z.div_mod (cp / 64) 64 ltac:(lia)).
      pose proof (Z.mod_pos_bound (cp / 64) 64 ltac:(lia)).
      assert (cp / 4096 = cp / 64 / 64) by (rewrite Z.div_div by lia; reflexivity).
      lia. }
    destruct Hxyz as (Hz & Hy & Hx & Heq).
    destruct (continuation y Hy) as [Hby _]. destruct (continuation x Hx) as [Hbx _].
    change 0xE0 with (Z.shiftl 14 4). rewrite (lor_shiftl_add 14 z 4) by lia.
    rewrite Hby, Hbx.
    destruct (Z.eq_dec z 15) as [->|Hz15]; [|left; lia].
    right. eexists _, _. split; [reflexivity|]. lia.
  - apply Z.ltb_ge in E3. eexists _, _. split; [reflexivity|]. left.
    assert (Hu : 0 <= Z.shiftr cp 18 < 8).
    { rewrite Z.shiftr_div_pow2 by lia. change (2 ^ 18) with 262144.
      pose proof (Z.div_mod cp 262144 ltac:(lia)).
      pose proof (Z.mod_pos_bound cp 262144 ltac:(lia)).
      unfold scalar in Hcp. lia. }
    change 0xF0 with (Z.shiftl 30 3). rewrite (lor_shiftl_add 30 _ 3) by lia. lia.
Qed.

Lemma strip_bom_no_bom (s : jsstring) :
  well_formed s = true -> starts_with_bom s = false ->
  strip_bom (utf8_encode s) = utf8_encode s.
Proof.
  intros Hwf Hb. unfold utf8_encode.
  destruct (scalar_values_well_formed s Hwf) as [Hs _].
  assert (Hhead : match scalar_values s with cp :: _ => cp <> 0xFEFF | [] => True end).
  { destruct s as [|c r]; [exact I|]. cbn [starts_with_bom] in Hb.
    apply Z.eqb_neq in Hb. cbn [well_formed scalar_values] in *.
    destruct (is_high_surrogate c) eqn:Eh.
    - destruct r as [|lo r']; [discriminate|].
      apply andb_true_iff in Hwf as [El _]. rewrite El.
      apply surrogate_tests in Eh. apply surrogate_tests in El.
      destruct (pair_units c lo Eh El) as (_ & Hge & _). lia.
    - destruct (is_low_surrogate c); [discriminate | exact Hb]. }
  destruct (scalar_values s) as [|cp cps]; [reflexivity|].
  apply Forall_cons_1 in Hs as [Hcp _].
  destruct (utf8_bytes_head cp Hcp Hhead) as (b0 & r & Hbytes & Hcase).
  cbn [flat_map]. rewrite Hbytes. cbn [app].
  destruct Hcase as [Hb0|(b1 & b2 & -> & Hb12)].
  - unfold strip_bom. destruct (r ++ flat_map utf8_bytes cps) as [|b1 [|b2 r']];
      try reflexivity.
    apply Z.eqb_neq in Hb0. now rewrite Hb0.
  - cbn [app]. unfold strip_bom.
    destruct Hb12 as [H1|H2].
    + apply Z.eqb_neq in H1. now rewrite H1, andb_false_r.
    + apply Z.eqb_neq in H2. now rewrite H2, andb_false_r.
Qed.

(** [new TextDecoder().decode(new TextEncoder().encode(s))] is [s] for a
    well-formed string that does not begin with U+FEFF. *)
Theorem utf8_decode_encode (s : jsstring) :
  well_formed s = true -> starts_with_bom s = false ->
  utf8_decode (utf8_encode s) = s.
Proof.
  intros Hwf Hb. unfold utf8_decode. rewrite strip_bom_no_bom by assumption.
  destruct (scalar_values_well_formed s Hwf) as [Hs Hf].
  unfold utf8_encode. now rewrite decode_encode_scalars.
Qed.

Lemma utf8_bytes_ok (cp : Z) : scalar cp -> bytes_ok (utf8_bytes cp).
Proof.
  intros Hcp. destruct (decode_utf8_bytes cp [] Hcp) as [].
  unfold utf8_bytes.
  assert (Hc : forall v, byte_ok (Z.lor 0x80 (Z.land v 0x3F))).
  { intros v. destruct (continuation (Z.land v 0x3F)) as [-> _].
    - exact (land_ones_range v 6 ltac:(lia)).
    - pose proof (land_ones_range v 6 ltac:(lia)) as Hr.
      change (Z.ones 6) with 63 in Hr. change (2 ^ 6) with 64 in Hr.
      unfold byte_ok. lia. }
  destruct (cp <? 0x80) eqn:E1; [|destruct (cp <? 0x800) eqn:E2;
                                   [|destruct (cp <? 0x10000) eqn:E3]];
    rewrite ?Z.ltb_lt, ?Z.ltb_ge in *; unfold scalar in Hcp.
  - repeat constructor; lia.
  - constructor; [|constructor; [apply Hc | constructor]].
    assert (Hy : 0 <= Z.shiftr cp 6 < 32).
    { rewrite Z.shiftr_div_pow2 by lia. change (2 ^ 6) with 64.
      pose proof (Z.div_mod cp 64 ltac:(lia)). pose proof (Z.mod_pos_bound cp 64 ltac:(lia)).
      lia. }
    change 0xC0 with (Z.shiftl 6 5). rewrite (lor_shiftl_add 6 _ 5) by lia.
    unfold byte_ok. lia.
  - constructor; [|constructor; [apply Hc | constructor; [apply Hc | constructor]]].
    assert (Hz : 0 <= Z.shiftr cp 12 < 16).
    { rewrite Z.shiftr_div_pow2 by lia. change (2 ^ 12) with 4096.
      pose proof (Z.div_mod cp 4096 ltac:(lia)).
      pose proof (Z.mod_pos_bound cp 4096 ltac:(lia)). lia. }
    change 0xE0 with (Z.shiftl 14 4). rewrite (lor_shiftl_add 14 _ 4) by lia.
    unfold byte_ok. lia.
  - constructor;
      [|constructor; [apply Hc | constructor; [apply Hc | constructor; [apply Hc | constructor]]]].
    assert (Hu : 0 <= Z.shiftr cp 18 < 8).
    { rewrite Z.shiftr_div_pow2 by lia. change (2 ^ 18) with 262144.
      pose proof (Z.div_mod cp 262144 ltac:(lia)).
      pose proof (Z.mod_pos_bound cp 262144 ltac:(lia)). lia. }
    change 0xF0 with (Z.shiftl 30 3). rewrite (lor_shiftl_add 30 _ 3) by lia.
    unfold byte_ok. lia.
Qed.

Lemma utf8_encode_ok (s : jsstring) : well_formed s = true -> bytes_ok (utf8_encode s).
Proof.
  intros Hwf. destruct (scalar_values_well_formed s Hwf) as [Hs _].
  unfold utf8_encode, bytes_ok. induction Hs as [|cp cps Hcp _ IH]; [constructor|].
  cbn [flat_map]. apply Forall_app. split; [now apply utf8_bytes_ok | exact IH].
Qed.

End TextFacts.

(** ** Galois/Counter Mode: lengths, ranges and the round trip *)

Module GCMFacts.
Import GCM AES AESFacts Bits.

Lemma bytes_of_block_length (n : nat) (x : Z) : length (bytes_of_block n x) = n.
Proof. unfold bytes_of_block. now rewrite length_map, length_seq. Qed.

Lemma bytes_of_block_ok (n : nat) (x : Z) : bytes_ok (bytes_of_block n x).
Proof.
  unfold bytes_of_block. apply List.Forall_forall. intros b Hb.
  apply in_map_iff in Hb as (i & <- & _). apply land_255_ok.
Qed.

Lemma bytes_of_block_16_ok (x : Z) : block_ok (bytes_of_block 16 x).
Proof. split; [apply bytes_of_block_length | apply bytes_of_block_ok]. Qed.

Lemma bytes_eqb_eq (a b : bytes) : bytes_eqb a b = true <-> a = b.
Proof.
  revert b; induction a as [|x a IH]; intros [|y b]; simpl; try easy.
  rewrite andb_true_iff, Z.eqb_eq, IH. split.
  - now intros [-> ->].
  - intros H; injection H; auto.
Qed.

Lemma bytes_eqb_refl (a : bytes) : bytes_eqb a a = true.
Proof. now apply bytes_eqb_eq. Qed.

Lemma J0_ok (key iv : bytes) : bytes_ok iv -> block_ok (J0 key iv).
Proof.
  intros Hiv. unfold J0. destruct (length iv =? 12)%nat eqn:E.
  - apply Nat.eqb_eq in E. split.
    + rewrite length_app, E. reflexivity.
    + unfold bytes_ok. apply Forall_app. split; [exact Hiv|].
      repeat (apply List.Forall_cons; [unfold byte_ok; lia|]). apply List.Forall_nil.
  - apply bytes_of_block_16_ok.
Qed.

Lemma inc32_ok (cb : bytes) : block_ok cb -> block_ok (inc32 cb).
Proof.
  intros [Hl Hb]. unfold inc32. split.
  - rewrite length_app, length_firstn, bytes_of_block_length, Hl. reflexivity.
  - unfold bytes_ok in *. apply Forall_app. split.
    + now apply Forall_take.
    + apply bytes_of_block_ok.
Qed.

Lemma keystream_ok (key cb : bytes) (n : nat) :
  key_ok key -> block_ok cb ->
  length (keystream key cb n) = (16 * n)%nat /\ bytes_ok (keystream key cb n).
Proof.
  intros Hk. revert cb. induction n as [|n IH]; intros cb Hcb.
  - split; [reflexivity | constructor].
  - cbn [keystream].
    pose proof (inc32_ok cb Hcb) as Hinc.
    destruct (encrypt_block_ok key (inc32 cb) Hk Hinc) as [Hl Hb].
    destruct (IH (inc32 cb) Hinc) as [Hl' Hb'].
    split.
    + rewrite length_app, Hl, Hl'. lia.
    + unfold bytes_ok in *. apply Forall_app. now split.
Qed.

Lemma blocks_needed (len : nat) : (len <= 16 * ((len + 15) / 16))%nat.
Proof.
  pose proof (Nat.div_mod_eq (len + 15) 16) as Hd.
  pose proof (Nat.mod_upper_bound (len + 15) 16) as Hm. lia.
Qed.

Lemma ctr_length (key iv data : bytes) :
  key_ok key -> bytes_ok iv -> length (ctr key iv data) = length data.
Proof.
  intros Hk Hiv. unfold ctr. rewrite xor_bytes_length.
  destruct (keystream_ok key (J0 key iv) ((length data + 15) / 16) Hk (J0_ok key iv Hiv))
    as [Hl _].
  rewrite Hl. pose proof (blocks_needed (length data)). lia.
Qed.

Lemma ctr_ok (key iv data : bytes) :
  key_ok key -> bytes_ok iv -> bytes_ok data -> bytes_ok (ctr key iv data).
Proof.
  intros Hk Hiv Hd. unfold ctr. apply xor_bytes_ok; [exact Hd|].
  now apply keystream_ok; [|apply J0_ok].
Qed.

(** Counter mode is its own inverse. *)
Lemma ctr_involutive (key iv data : bytes) :
  key_ok key -> bytes_ok iv -> ctr key iv (ctr key iv data) = data.
Proof.
  intros Hk Hiv.
  pose proof (ctr_length key iv data Hk Hiv) as Hlen.
  unfold ctr at 1. rewrite Hlen. unfold ctr.
  apply xor_bytes_cancel.
  destruct (keystream_ok key (J0 key iv) ((length data + 15) / 16) Hk (J0_ok key iv Hiv))
    as [Hl _].
  rewrite Hl. apply blocks_needed.
Qed.

Lemma tag_ok (key iv c : bytes) : key_ok key -> bytes_ok iv -> block_ok (tag key iv c).
Proof.
  intros Hk Hiv. unfold tag.
  apply (AddRoundKey_ok _ _ (bytes_of_block_16_ok _)).
  apply encrypt_block_ok; [exact Hk | now apply J0_ok].
Qed.

(** Decrypting what was encrypted, with the tag that came with it. *)
Lemma decrypt_encrypt (key iv p : bytes) :
  key_ok key -> bytes_ok iv ->
  decrypt key iv (GCM.encrypt key iv p).1 (GCM.encrypt key iv p).2 = Some p.
Proof.
  intros Hk Hiv. unfold GCM.encrypt, decrypt. cbn [fst snd].
  rewrite bytes_eqb_refl. f_equal. now apply ctr_involutive.
Qed.

(** Any other tag is refused. *)
Lemma decrypt_wrong_tag (key iv c t : bytes) :
  t <> tag key iv c -> decrypt key iv c t = None.
Proof.
  intros Ht. unfold decrypt.
  destruct (bytes_eqb (tag key iv c) t) eqn:E; [|reflexivity].
  apply bytes_eqb_eq in E. congruence.
Qed.

(** What decryption returns, when it returns, has the length of the
    ciphertext: all of the plaintext or nothing. *)
Lemma decrypt_all_or_nothing (key iv c t p : bytes) :
  key_ok key -> bytes_ok iv ->
  decrypt key iv c t = Some p -> t = tag key iv c /\ p = ctr key iv c /\ length p = length c.
Proof.
  intros Hk Hiv. unfold decrypt.
  destruct (bytes_eqb (tag key iv c) t) eqn:E; [|discriminate].
  apply bytes_eqb_eq in E. intros [= <-].
  split; [congruence|]. split; [reflexivity|]. now apply ctr_length.
Qed.

End GCMFacts.

(** ** AES: the inverse cipher undoes the cipher *)

Module AESInverse.
Import AES Bits AESFacts.

(** Equalities between XORs of the same terms, bit by bit. *)
Ltac xor_ac :=
  rewrite ?Z.lxor_0_r, ?Z.lxor_0_l;
  apply Z.bits_inj'; intros ?n ?Hn; rewrite !Z.lxor_spec; btauto.

(** *** SubBytes and ShiftRows *)

Lemma inv_sub_byte_sub_byte (b : Z) : byte_ok b -> inv_sub_byte (sub_byte b) = b.
Proof.
  intros Hb. apply Z.eqb_eq. revert b Hb. apply forall_bytes. vm_compute. reflexivity.
Qed.

Lemma InvSubBytes_SubBytes (s : bytes) : bytes_ok s -> InvSubBytes (SubBytes s) = s.
Proof.
  unfold bytes_ok, InvSubBytes, SubBytes.
  induction 1 as [|b s Hb _ IH]; [reflexivity|].
  cbn [map]. now rewrite inv_sub_byte_sub_byte, IH.
Qed.

Lemma InvShiftRows_ShiftRows (s : bytes) :
  length s = 16%nat -> InvShiftRows (ShiftRows s) = s.
Proof. intros Hl. destruct_length Hl. reflexivity. Qed.

(** *** MixColumns: the column map is linear over XOR *)

Lemma xtime_lxor (x y : Z) : xtime (Z.lxor x y) = Z.lxor (xtime x) (xtime y).
Proof.
  unfold xtime. rewrite Z.shiftl_lxor, Z.lxor_spec, <- land_lxor_distr. f_equal.
  destruct (Z.testbit x 7), (Z.testbit y 7); cbn [xorb]; xor_ac.
Qed.

Lemma mul2_lxor x y : mul2 (Z.lxor x y) = Z.lxor (mul2 x) (mul2 y).
Proof. apply xtime_lxor. Qed.

Lemma mul3_lxor x y : mul3 (Z.lxor x y) = Z.lxor (mul3 x) (mul3 y).
Proof. unfold mul3. rewrite !xtime_lxor. xor_ac. Qed.

Lemma mul9_lxor x y : mul9 (Z.lxor x y) = Z.lxor (mul9 x) (mul9 y).
Proof. unfold mul9. rewrite !xtime_lxor. xor_ac. Qed.

Lemma mul11_lxor x y : mul11 (Z.lxor x y) = Z.lxor (mul11 x) (mul11 y).
Proof. unfold mul11. rewrite !xtime_lxor. xor_ac. Qed.

Lemma mul13_lxor x y : mul13 (Z.lxor x y) = Z.lxor (mul13 x) (mul13 y).
Proof. unfold mul13. rewrite !xtime_lxor. xor_ac. Qed.

Lemma mul14_lxor x y : mul14 (Z.lxor x y) = Z.lxor (mul14 x) (mul14 y).
Proof. unfold mul14. rewrite !xtime_lxor. xor_ac. Qed.

(** A column through MixColumns and back. *)
Definition there_and_back (a0 a1 a2 a3 : Z) : bytes :=
  InvMixColumns (mix_column a0 a1 a2 a3).

Lemma there_and_back_lxor (a0 a1 a2 a3 b0 b1 b2 b3 : Z) :
  there_and_back (Z.lxor a0 b0) (Z.lxor a1 b1) (Z.lxor a2 b2) (Z.lxor a3 b3)
  = xor_bytes (there_and_back a0 a1 a2 a3) (there_and_back b0 b1 b2 b3).
Proof.
  unfold there_and_back, mix_column.
  cbn [InvMixColumns inv_mix_column app xor_bytes].
  rewrite !mul2_lxor, !mul3_lxor.
  rewrite !mul9_lxor, !mul11_lxor, !mul13_lxor, !mul14_lxor.
  repeat (f_equal; [xor_ac|]). f_equal. xor_ac.
Qed.

Definition unit_column_back (a : Z) : bool :=
  GCM.bytes_eqb (there_and_back a 0 0 0) [a; 0; 0; 0]
  && GCM.bytes_eqb (there_and_back 0 a 0 0) [0; a; 0; 0]
  && GCM.bytes_eqb (there_and_back 0 0 a 0) [0; 0; a; 0]
  && GCM.bytes_eqb (there_and_back 0 0 0 a) [0; 0; 0; a].

Lemma unit_columns (a : Z) :
  byte_ok a ->
  there_and_back a 0 0 0 = [a; 0; 0; 0] /\ there_and_back 0 a 0 0 = [0; a; 0; 0]
  /\ there_and_back 0 0 a 0 = [0; 0; a; 0] /\ there_and_back 0 0 0 a = [0; 0; 0; a].
Proof.
  intros Ha.
  assert (H : unit_column_back a = true).
  { revert a Ha. apply forall_bytes. vm_compute. reflexivity. }
  unfold unit_column_back in H. rewrite !andb_true_iff in H.
  destruct H as (((H0 & H1) & H2) & H3).
  repeat split; now apply GCMFacts.bytes_eqb_eq.
Qed.

Lemma InvMixColumns_mix_column (a0 a1 a2 a3 : Z) :
  byte_ok a0 -> byte_ok a1 -> byte_ok a2 -> byte_ok a3 ->
  InvMixColumns (mix_column a0 a1 a2 a3) = [a0; a1; a2; a3].
Proof.
  intros H0 H1 H2 H3. fold (there_and_back a0 a1 a2 a3).
  replace (there_and_back a0 a1 a2 a3)
    with (there_and_back (Z.lxor (Z.lxor a0 0) (Z.lxor 0 0)) (Z.lxor (Z.lxor 0 a1) (Z.lxor 0 0))
            (Z.lxor (Z.lxor 0 0) (Z.lxor a2 0)) (Z.lxor (Z.lxor 0 0) (Z.lxor 0 a3)))
    by (now rewrite ?Z.lxor_0_r, ?Z.lxor_0_l).
  rewrite !there_and_back_lxor.
  destruct (unit_columns a0 H0) as (-> & _).
  destruct (unit_columns a1 H1) as (_ & -> & _).
  destruct (unit_columns a2 H2) as (_ & _ & -> & _).
  destruct (unit_columns a3 H3) as (_ & _ & _ & ->).
  cbn [xor_bytes]. now rewrite ?Z.lxor_0_r, ?Z.lxor_0_l.
Qed.

Lemma InvMixColumns_app (a0 a1 a2 a3 : Z) (rest : bytes) :
  InvMixColumns (mix_column a0 a1 a2 a3 ++ rest)
  = InvMixColumns (mix_column a0 a1 a2 a3) ++ InvMixColumns rest.
Proof. reflexivity. Qed.

Lemma InvMixColumns_MixColumns (s : bytes) :
  block_ok s -> InvMixColumns (MixColumns s) = s.
Proof.
  intros [Hl Hs]. destruct_length Hl. unfold bytes_ok in Hs.
  repeat match goal with
         | H : Forall _ (_ :: _) |- _ => apply Forall_cons_1 in H as [? H]
         end.
  cbn [MixColumns].
  rewrite !InvMixColumns_app, !InvMixColumns_mix_column by assumption. reflexivity.
Qed.

(** *** The rounds *)

(** SubBytes then ShiftRows, and one inner round. *)
Definition sub_shift (s : bytes) : bytes := ShiftRows (SubBytes s).
Definition inner_round (s k : bytes) : bytes := AddRoundKey (MixColumns (sub_shift s)) k.

Lemma sub_shift_ok (s : bytes) : block_ok s -> block_ok (sub_shift s).
Proof. intros Hs. apply ShiftRows_ok, SubBytes_ok, Hs. Qed.

Lemma inner_round_ok (s k : bytes) : block_ok s -> block_ok k -> block_ok (inner_round s k).
Proof.
  intros Hs Hk. apply AddRoundKey_ok; [|exact Hk]. now apply MixColumns_ok, sub_shift_ok.
Qed.

Lemma inner_rounds_ok (mid : list bytes) (s : bytes) :
  Forall block_ok mid -> block_ok s -> block_ok (fold_left inner_round mid s).
Proof.
  intros Hm. revert s. induction Hm as [|k mid Hk _ IH]; intros s Hs; [exact Hs|].
  cbn [fold_left]. now apply IH, inner_round_ok.
Qed.

Lemma inv_sub_shift (s : bytes) : block_ok s -> InvSubBytes (InvShiftRows (sub_shift s)) = s.
Proof.
  intros Hs. unfold sub_shift.
  rewrite InvShiftRows_ShiftRows by apply (SubBytes_ok s Hs).
  apply InvSubBytes_SubBytes, Hs.
Qed.

Lemma AddRoundKey_twice (s k : bytes) :
  block_ok s -> block_ok k -> AddRoundKey (AddRoundKey s k) k = s.
Proof. intros [Hs _] [Hk _]. apply xor_bytes_cancel. lia. Qed.

Lemma rounds_snoc (mid : list bytes) (last s : bytes) :
  rounds (mid ++ [last]) s = AddRoundKey (sub_shift (fold_left inner_round mid s)) last.
Proof.
  revert s. induction mid as [|k mid IH]; intros s; [reflexivity|].
  cbn [fold_left]. rewrite <- IH. destruct mid; reflexivity.
Qed.

Lemma inv_rounds_cons (k k' : bytes) (rest : list bytes) (s : bytes) :
  inv_rounds (k :: k' :: rest) s
  = inv_rounds (k' :: rest) (InvMixColumns (AddRoundKey (InvSubBytes (InvShiftRows s)) k)).
Proof. reflexivity. Qed.

Lemma inv_rounds_snoc (mid : list bytes) (k0 s : bytes) :
  Forall block_ok mid -> block_ok s ->
  inv_rounds (rev mid ++ [k0]) (sub_shift (fold_left inner_round mid s)) = AddRoundKey s k0.
Proof.
  revert s. induction mid as [|k mid IH] using rev_ind; intros s Hm Hs.
  - cbn [rev app fold_left inv_rounds]. now rewrite inv_sub_shift.
  - apply Forall_app in Hm as [Hm Hk]. apply Forall_cons_1 in Hk as [Hk _].
    rewrite rev_unit, fold_left_app. cbn [fold_left app].
    pose proof (inner_rounds_ok mid s Hm Hs) as Hs'.
    set (s' := fold_left inner_round mid s) in *.
    assert (E : exists k' rest, rev mid ++ [k0] = k' :: rest)
      by (destruct (rev mid); cbn [app]; eauto).
    destruct E as (k' & rest & E). rewrite E.
    rewrite inv_rounds_cons, inv_sub_shift by now apply inner_round_ok.
    unfold inner_round. rewrite AddRoundKey_twice.
    + rewrite InvMixColumns_MixColumns by now apply sub_shift_ok.
      rewrite <- E. now apply IH.
    + now apply MixColumns_ok, sub_shift_ok.
    + exact Hk.
Qed.

Lemma decrypt_encrypt_with (k0 last : bytes) (mid : list bytes) (b : bytes) :
  block_ok k0 -> Forall block_ok mid -> block_ok last -> block_ok b ->
  decrypt_block_with (k0 :: mid ++ [last]) (encrypt_block_with (k0 :: mid ++ [last]) b) = b.
Proof.
  intros H0 Hm Hl Hb. unfold decrypt_block_with, encrypt_block_with.
  cbn [rev]. rewrite rev_unit. cbn [app].
  rewrite rounds_snoc.
  pose proof (AddRoundKey_ok b k0 Hb H0) as Hs.
  rewrite AddRoundKey_twice.
  - rewrite inv_rounds_snoc by assumption. now apply AddRoundKey_twice.
  - now apply sub_shift_ok, inner_rounds_ok.
  - exact Hl.
Qed.

Lemma first_mid_last {A : Type} (l : list A) :
  (2 <= length l)%nat -> exists x mid y, l = x :: mid ++ [y].
Proof.
  destruct l as [|x l]; cbn [length]; [lia|]. intros Hl.
  destruct (exists_last (l := l)) as (mid & y & ->).
  - intros ->. cbn in Hl. lia.
  - now exists x, mid, y.
Qed.

(** Decrypting a block gives back what was encrypted. *)
Theorem decrypt_block_encrypt_block (key b : bytes) :
  key_ok key -> block_ok b -> decrypt_block key (encrypt_block key b) = b.
Proof.
  intros Hk Hb. unfold decrypt_block, encrypt_block.
  pose proof (round_keys_ok key Hk) as Hr.
  destruct (first_mid_last (round_keys key)) as (k0 & mid & last & E).
  - rewrite (round_keys_length key Hk). lia.
  - rewrite E in *. apply Forall_cons_1 in Hr as [H0 Hr].
    apply Forall_app in Hr as [Hm Hl]. apply Forall_cons_1 in Hl as [Hl _].
    now apply decrypt_encrypt_with.
Qed.

(** Under one key, different blocks have different images. *)
Corollary encrypt_block_inj (key a b : bytes) :
  key_ok key -> block_ok a -> block_ok b ->
  encrypt_block key a = encrypt_block key b -> a = b.
Proof.
  intros Hk Ha Hb E.
  rewrite <- (decrypt_block_encrypt_block key a Hk Ha), E.
  now apply decrypt_block_encrypt_block.
Qed.

End AESInverse.

(** ** GHASH: linearity, and what one changed block does *)

Module GHashFacts.
Import GCM AES Bits AESFacts GCMFacts.
Import AESInverse.

(** A field element is a 128-bit number. *)
Definition in_field (x : Z) : Prop := 0 <= x < 2 ^ 128.

Lemma in_field_lxor (a b : Z) : in_field a -> in_field b -> in_field (Z.lxor a b).
Proof. apply lxor_range. lia. Qed.

Lemma in_field_0 : in_field 0.
Proof. unfold in_field. lia. Qed.

Lemma lxor_cancel_r (a b c : Z) : Z.lxor a c = Z.lxor b c -> a = b.
Proof.
  intros E. apply (f_equal (fun t => Z.lxor t c)) in E.
  now rewrite !Z.lxor_assoc, Z.lxor_nilpotent, !Z.lxor_0_r in E.
Qed.

Lemma lxor_cancel_l (a b c : Z) : Z.lxor c a = Z.lxor c b -> a = b.
Proof. rewrite !(Z.lxor_comm c). apply lxor_cancel_r. Qed.

(** *** A product that is linear in its first factor

    What follows needs two facts only about the product, so it is proved
    for any [mul] that has them. *)

Section LinearProduct.
Variable mul : Z -> Z -> Z.
Hypothesis mul_lxor : forall x y h, mul (Z.lxor x y) h = Z.lxor (mul x h) (mul y h).
Hypothesis mul_in_field : forall x h, in_field h -> in_field (mul x h).
Hypothesis mul_low : forall x h, mul x h = mul (Z.land x (Z.ones 128)) h.

(** [h] is regular when no other element than 0 has product 0 with
    it. *)
Definition regular_for (h : Z) : Prop := forall x, in_field x -> mul x h = 0 -> x = 0.

Lemma mul_0_l (h : Z) : mul 0 h = 0.
Proof.
  pose proof (mul_lxor 0 0 h) as H. rewrite Z.lxor_nilpotent in H.
  apply (lxor_cancel_l _ _ (mul 0 h)). now rewrite Z.lxor_0_r.
Qed.

Lemma mul_inj (h a b : Z) :
  regular_for h -> in_field a -> in_field b -> mul a h = mul b h -> a = b.
Proof.
  intros Hr Ha Hb E. apply Z.lxor_eq, Hr; [now apply in_field_lxor|].
  rewrite mul_lxor, E. apply Z.lxor_nilpotent.
Qed.

(** An element with an inverse is regular.  The inverse is checked on
    the 128 powers of two, and linearity does the rest. *)
Definition inverse_on_units_for (h h' : Z) : bool :=
  forallb (fun i => mul (mul (2 ^ i) h) h' =? 2 ^ i) (map Z.of_nat (seq 0 128)).

Lemma inverse_on_units_spec (h h' i : Z) :
  inverse_on_units_for h h' = true -> 0 <= i < 128 -> mul (mul (2 ^ i) h) h' = 2 ^ i.
Proof.
  unfold inverse_on_units_for. intros Hu Hi. apply Z.eqb_eq.
  exact (forall_below 128 (fun i => mul (mul (2 ^ i) h) h' =? 2 ^ i) Hu i Hi).
Qed.

Lemma inverse_below (h h' : Z) (n : nat) :
  inverse_on_units_for h h' = true -> (n <= 128)%nat ->
  forall x, 0 <= x < 2 ^ Z.of_nat n -> mul (mul x h) h' = x.
Proof.
  intros Hu. induction n as [|n IH]; intros Hn x Hx.
  - assert (x = 0) as -> by (cbn in Hx; lia). now rewrite !mul_0_l.
  - destruct (Z.lt_ge_cases x (2 ^ Z.of_nat n)) as [Hlt|Hge]; [apply IH; lia|].
    rewrite Nat2Z.inj_succ, Z.pow_succ_r in Hx by lia.
    set (x' := x - 2 ^ Z.of_nat n).
    assert (Hx' : 0 <= x' < 2 ^ Z.of_nat n) by (unfold x'; lia).
    assert (E : x = Z.lxor (2 ^ Z.of_nat n) x').
    { rewrite <- Z.add_nocarry_lxor; [unfold x'; lia|].
      rewrite <- (Z.mul_1_l (2 ^ Z.of_nat n)), <- Z.shiftl_mul_pow2 by lia.
      apply land_shiftl_small; lia. }
    rewrite E at 1. rewrite !mul_lxor, (IH ltac:(lia) x' Hx').
    rewrite (inverse_on_units_spec h h' (Z.of_nat n) Hu) by lia.
    symmetry. exact E.
Qed.

Lemma regular_of_inverse_for (h h' : Z) :
  inverse_on_units_for h h' = true -> regular_for h.
Proof.
  intros Hu x Hx E.
  rewrite <- (inverse_below h h' 128 Hu ltac:(lia) x Hx), E. apply mul_0_l.
Qed.

(** The GHASH recurrence over two block lists that differ in one
    block. *)
Definition hash_from (h : Z) (blocks : list Z) (y : Z) : Z :=
  fold_left (fun y b => mul (Z.lxor y b) h) blocks y.

Lemma hash_from_in_field (h : Z) (blocks : list Z) (y : Z) :
  in_field h -> in_field y -> in_field (hash_from h blocks y).
Proof.
  intros Hh. revert y. induction blocks as [|b blocks IH]; intros y Hy; [exact Hy|].
  cbn [hash_from fold_left]. apply IH. now apply mul_in_field.
Qed.

Lemma low_in_field (x : Z) : in_field (Z.land x (Z.ones 128)).
Proof. apply land_ones_range. lia. Qed.

Lemma low_of_in_field (x : Z) : in_field x -> Z.land x (Z.ones 128) = x.
Proof. apply land_ones_small. lia. Qed.

(** Blocks of any size: only their low 128 bits count. *)
Lemma step_inj (h y1 y2 b : Z) :
  regular_for h -> in_field y1 -> in_field y2 ->
  mul (Z.lxor y1 b) h = mul (Z.lxor y2 b) h -> y1 = y2.
Proof.
  intros Hr H1 H2 E.
  rewrite (mul_low (Z.lxor y1 b)), (mul_low (Z.lxor y2 b)) in E.
  apply (mul_inj h) in E; try assumption; try apply low_in_field.
  rewrite !land_lxor_distr in E.
  rewrite (low_of_in_field y1 H1), (low_of_in_field y2 H2) in E.
  exact (lxor_cancel_r _ _ _ E).
Qed.

Lemma hash_from_inj (h : Z) (blocks : list Z) (y1 y2 : Z) :
  regular_for h -> in_field h ->
  in_field y1 -> in_field y2 -> y1 <> y2 ->
  hash_from h blocks y1 <> hash_from h blocks y2.
Proof.
  intros Hr Hh. revert y1 y2.
  induction blocks as [|b blocks IH]; intros y1 y2 H1 H2 Hne; [exact Hne|].
  cbn [hash_from fold_left]. apply IH; try now apply mul_in_field.
  intros E. apply Hne. now apply (step_inj h y1 y2 b).
Qed.

Lemma hash_one_block (h : Z) (pre post : list Z) (x x' : Z) :
  regular_for h -> in_field h ->
  in_field x -> in_field x' -> x <> x' ->
  hash_from h (pre ++ x :: post) 0 <> hash_from h (pre ++ x' :: post) 0.
Proof.
  intros Hr Hh Hx Hx' Hne. unfold hash_from.
  rewrite !fold_left_app. cbn [fold_left].
  pose proof (hash_from_in_field h pre 0 Hh in_field_0) as Hy.
  unfold hash_from in Hy.
  set (y := fold_left (fun y b => mul (Z.lxor y b) h) pre 0) in *.
  apply hash_from_inj; try assumption; try now apply mul_in_field.
  intros E. apply Hne, (lxor_cancel_l x x' y).
  apply (mul_inj h); try assumption; now apply in_field_lxor.
Qed.

(** With the hash subkey 0 every hash is 0. *)
Lemma hash_from_zero (blocks : list Z) :
  (forall x, mul x 0 = 0) -> hash_from 0 blocks 0 = 0.
Proof.
  intros H0. induction blocks as [|b blocks IH]; [reflexivity|].
  cbn [hash_from fold_left]. rewrite H0. exact IH.
Qed.

End LinearProduct.

(** *** The product of GCM is linear in its first factor *)

Lemma gf_mul_loop_lxor (n : nat) (i x y z1 z2 v : Z) :
  gf_mul_loop n i (Z.lxor x y) (Z.lxor z1 z2) v
  = Z.lxor (gf_mul_loop n i x z1 v) (gf_mul_loop n i y z2 v).
Proof.
  revert i z1 z2 v. induction n as [|n IH]; intros i z1 z2 v; [reflexivity|].
  cbn [gf_mul_loop]. rewrite Z.lxor_spec.
  destruct (Z.testbit x (127 - i)), (Z.testbit y (127 - i)); cbn [xorb];
    rewrite <- IH; f_equal; xor_ac.
Qed.

Lemma gf_mul_lxor (x y h : Z) : gf_mul (Z.lxor x y) h = Z.lxor (gf_mul x h) (gf_mul y h).
Proof. unfold gf_mul. now rewrite <- gf_mul_loop_lxor. Qed.

Lemma in_field_R : in_field R.
Proof. split; [apply Z.leb_le | apply Z.ltb_lt]; vm_compute; reflexivity. Qed.

Lemma in_field_shiftr (v : Z) : in_field v -> in_field (Z.shiftr v 1).
Proof.
  unfold in_field. intros Hv. rewrite Z.shiftr_div_pow2 by lia.
  change (2 ^ 1) with 2. split; [apply Z.div_pos; lia|].
  apply Z.div_lt_upper_bound; lia.
Qed.

Lemma gf_mul_loop_in_field (n : nat) (i x z v : Z) :
  in_field z -> in_field v -> in_field (gf_mul_loop n i x z v).
Proof.
  revert i z v. induction n as [|n IH]; intros i z v Hz Hv; [exact Hz|].
  cbn [gf_mul_loop]. apply IH.
  - destruct (Z.testbit x (127 - i)); [now apply in_field_lxor | exact Hz].
  - destruct (Z.testbit v 0).
    + apply in_field_lxor; [now apply in_field_shiftr | apply in_field_R].
    + now apply in_field_shiftr.
Qed.

Lemma gf_mul_in_field (x h : Z) : in_field h -> in_field (gf_mul x h).
Proof.
  intros Hh. unfold gf_mul.
  exact (gf_mul_loop_in_field 128 0 x 0 h in_field_0 Hh).
Qed.

Lemma gf_mul_loop_low (n : nat) (i x z v : Z) :
  0 <= i -> i + Z.of_nat n <= 128 ->
  gf_mul_loop n i x z v = gf_mul_loop n i (Z.land x (Z.ones 128)) z v.
Proof.
  revert i z v. induction n as [|n IH]; intros i z v Hi Hn; [reflexivity|].
  cbn [gf_mul_loop].
  rewrite Z.land_spec, Z.ones_spec_low, andb_true_r by lia.
  apply IH; lia.
Qed.

Lemma gf_mul_low (x h : Z) : gf_mul x h = gf_mul (Z.land x (Z.ones 128)) h.
Proof. unfold gf_mul. exact (gf_mul_loop_low 128 0 x 0 h ltac:(lia) ltac:(lia)). Qed.

Lemma gf_mul_loop_0_r (n : nat) (i x : Z) : gf_mul_loop n i x 0 0 = 0.
Proof.
  revert i. induction n as [|n IH]; intros i; [reflexivity|].
  cbn [gf_mul_loop].
  change (Z.testbit 0 0) with false. change (Z.shiftr 0 1) with 0.
  change (Z.lxor 0 0) with 0. cbv iota.
  destruct (Z.testbit x (127 - i)); apply IH.
Qed.

Lemma gf_mul_0_r (x : Z) : gf_mul x 0 = 0.
Proof. unfold gf_mul. exact (gf_mul_loop_0_r 128 0 x). Qed.

(** *** Regular hash subkeys *)

Definition regular (h : Z) : Prop := regular_for gf_mul h.
Definition inverse_on_units (h h' : Z) : bool := inverse_on_units_for gf_mul h h'.

Lemma regular_of_inverse (h h' : Z) : inverse_on_units h h' = true -> regular h.
Proof. exact (regular_of_inverse_for gf_mul gf_mul_lxor h h'). Qed.

Lemma ghash_hash_from (h : Z) (blocks : list Z) : ghash h blocks = hash_from gf_mul h blocks 0.
Proof. reflexivity. Qed.

Lemma ghash_zero_subkey (blocks : list Z) : ghash 0 blocks = 0.
Proof. rewrite ghash_hash_from. exact (hash_from_zero gf_mul blocks gf_mul_0_r). Qed.

Lemma ghash_in_field (h : Z) (blocks : list Z) : in_field h -> in_field (ghash h blocks).
Proof.
  intros Hh. rewrite ghash_hash_from.
  exact (hash_from_in_field gf_mul gf_mul_in_field h blocks 0 Hh in_field_0).
Qed.

Lemma ghash_one_block (h : Z) (pre post : list Z) (x x' : Z) :
  regular h -> in_field h ->
  in_field x -> in_field x' -> x <> x' ->
  ghash h (pre ++ x :: post) <> ghash h (pre ++ x' :: post).
Proof.
  rewrite !ghash_hash_from.
  exact (hash_one_block gf_mul gf_mul_lxor gf_mul_in_field gf_mul_low h pre post x x').
Qed.

(** *** Blocks and bytes *)

Lemma block_of_bytes_snoc (bs : bytes) (b : Z) :
  block_of_bytes (bs ++ [b]) = block_of_bytes bs * 256 + b.
Proof. unfold block_of_bytes. now rewrite fold_left_app. Qed.

Lemma block_of_bytes_range (bs : bytes) :
  bytes_ok bs -> 0 <= block_of_bytes bs < 256 ^ Z.of_nat (length bs).
Proof.
  induction bs as [|b bs IH] using rev_ind; intros Hb; [cbn; lia|].
  apply Forall_app in Hb as [Hbs Hb]. apply Forall_cons_1 in Hb as [Hb _].
  rewrite block_of_bytes_snoc, length_app, Nat2Z.inj_add. cbn [length].
  rewrite Z.pow_add_r by lia. change (256 ^ Z.of_nat 1) with 256.
  specialize (IH Hbs). unfold byte_ok in Hb. nia.
Qed.

Lemma block_of_bytes_in_field (bs : bytes) :
  length bs = 16%nat -> bytes_ok bs -> in_field (block_of_bytes bs).
Proof.
  intros Hl Hb. pose proof (block_of_bytes_range bs Hb) as H. rewrite Hl in H. exact H.
Qed.

Lemma block_of_bytes_inj (a b : bytes) :
  length a = length b -> bytes_ok a -> bytes_ok b ->
  block_of_bytes a = block_of_bytes b -> a = b.
Proof.
  revert b. induction a as [|x a IH] using rev_ind; intros b Hl Ha Hb E.
  - destruct b; [reflexivity | discriminate Hl].
  - destruct b as [|y b _] using rev_ind.
    { rewrite length_app in Hl. cbn in Hl. lia. }
    rewrite !length_app in Hl. cbn [length] in Hl.
    apply Forall_app in Ha as [Ha Hx]. apply Forall_cons_1 in Hx as [Hx _].
    apply Forall_app in Hb as [Hb Hy]. apply Forall_cons_1 in Hy as [Hy _].
    rewrite !block_of_bytes_snoc in E. unfold byte_ok in Hx, Hy.
    assert (block_of_bytes a = block_of_bytes b /\ x = y) as [E' ->] by lia.
    f_equal. apply IH; [lia | assumption | assumption | exact E'].
Qed.

Lemma nth_map_seq {A : Type} (f : nat -> A) (n i : nat) (d : A) :
  (i < n)%nat -> nth i (map f (seq 0 n)) d = f i.
Proof.
  intros Hi. rewrite (nth_indep _ d (f 0%nat)) by (rewrite length_map, length_seq; lia).
  rewrite map_nth, seq_nth by lia. reflexivity.
Qed.

(** The bytes of a field element determine it. *)
Lemma bytes_of_block_inj (x y : Z) :
  in_field x -> in_field y -> bytes_of_block 16 x = bytes_of_block 16 y -> x = y.
Proof.
  intros Hx Hy E. unfold in_field in *.
  apply Z.bits_inj'. intros n Hn.
  destruct (Z.lt_ge_cases n 128) as [Hlt|Hge].
  - set (k := n / 8).
    assert (Hk : 0 <= k < 16) by (unfold k; split; [apply Z.div_pos; lia|
                                  apply Z.div_lt_upper_bound; lia]).
    assert (Hbyte : Z.land (Z.shiftr x (8 * k)) 255 = Z.land (Z.shiftr y (8 * k)) 255).
    { unfold bytes_of_block in E.
      assert (Hi : (15 - Z.to_nat k < 16)%nat) by lia.
      pose proof (f_equal (fun l => nth (15 - Z.to_nat k) l 0) E) as Hn'. cbv beta in Hn'.
      rewrite !nth_map_seq in Hn' by exact Hi.
      replace (8 * Z.of_nat (16 - 1 - (15 - Z.to_nat k))) with (8 * k) in Hn' by lia.
      exact Hn'. }
    apply (f_equal (fun t => Z.testbit t (n mod 8))) in Hbyte. cbv beta in Hbyte.
    change 255 with (Z.ones 8) in Hbyte.
    pose proof (Z.mod_pos_bound n 8 ltac:(lia)) as Hm.
    rewrite !Z.land_spec, !Z.ones_spec_low, !andb_true_r, !Z.shiftr_spec in Hbyte by lia.
    replace (n mod 8 + 8 * k) with n in Hbyte; [exact Hbyte|].
    unfold k. pose proof (Z.div_mod n 8 ltac:(lia)). lia.
  - rewrite <- (Z.mod_small x (2 ^ 128)), <- (Z.mod_small y (2 ^ 128)) by lia.
    now rewrite !Z.mod_pow2_bits_high by lia.
Qed.

End GHashFacts.

(** ** Tampering: what a changed bit does to the tag *)

Module Tamper.
Import GCM AES Bits AESFacts GCMFacts AESInverse GHashFacts.

(** Bit [i] of a byte string is bit [i mod 8] of byte [i / 8]. *)
Definition flip_bit (bs : bytes) (i : nat) : bytes :=
  firstn (i / 8) bs ++
  match skipn (i / 8) bs with
  | b :: r => Z.lxor b (2 ^ Z.of_nat (i mod 8)) :: r
  | [] => []
  end.

(** Two byte strings that differ in one byte. *)
Definition one_byte_changed (a a' : bytes) : Prop :=
  exists pre b b' post,
    a = pre ++ b :: post /\ a' = pre ++ b' :: post /\ b <> b' /\ byte_ok b'.

Lemma flip_bit_changes_one_byte (bs : bytes) (i : nat) :
  bytes_ok bs -> (i < 8 * length bs)%nat -> one_byte_changed bs (flip_bit bs i).
Proof.
  intros Hb Hi. unfold flip_bit.
  assert (Hk : (i / 8 < length bs)%nat) by (apply Nat.Div0.div_lt_upper_bound; lia).
  pose proof (firstn_skipn (i / 8) bs) as Hsplit.
  destruct (skipn (i / 8) bs) as [|b r] eqn:E.
  { apply (f_equal (@length Z)) in E. rewrite length_skipn in E. cbn [length] in E. lia. }
  assert (Hbr : byte_ok b).
  { rewrite <- Hsplit in Hb. apply Forall_app in Hb as [_ Hb].
    now apply Forall_cons_1 in Hb as [Hb _]. }
  assert (Hm : 0 < 2 ^ Z.of_nat (i mod 8) < 256).
  { pose proof (Nat.mod_upper_bound i 8 ltac:(lia)) as Hlt. split; [lia|].
    change 256 with (2 ^ 8). apply Z.pow_lt_mono_r; lia. }
  exists (firstn (i / 8) bs), b, (Z.lxor b (2 ^ Z.of_nat (i mod 8))), r.
  split; [now symmetry|]. split; [reflexivity|]. split.
  - intros Heq. symmetry in Heq. rewrite <- (Z.lxor_0_r b) in Heq at 2.
    apply lxor_cancel_l in Heq. lia.
  - apply lxor_byte_ok; [exact Hbr | unfold byte_ok; lia].
Qed.

Lemma one_byte_changed_length (a a' : bytes) :
  one_byte_changed a a' -> length a' = length a.
Proof. intros (pre & b & b' & post & -> & -> & _). now rewrite !length_app. Qed.

Lemma one_byte_changed_ok (a a' : bytes) :
  one_byte_changed a a' -> bytes_ok a -> bytes_ok a'.
Proof.
  intros (pre & b & b' & post & -> & -> & _ & Hb'). unfold bytes_ok.
  rewrite !Forall_app, !Forall_cons. tauto.
Qed.

Lemma one_byte_changed_neq (a a' : bytes) : one_byte_changed a a' -> a' <> a.
Proof.
  intros (pre & b & b' & post & -> & -> & Hne & _) E.
  apply app_inv_head in E. injection E as E. congruence.
Qed.

(** *** The blocks of a ciphertext with one byte changed *)

Lemma blocks_of_fuel_S (f : nat) (bs : bytes) :
  bs <> [] ->
  blocks_of_fuel (S f) bs
  = block_of_bytes (firstn 16 (bs ++ repeat 0 15)) :: blocks_of_fuel f (skipn 16 bs).
Proof. destruct bs; [congruence | reflexivity]. Qed.

Lemma zeros_ok (n : nat) : bytes_ok (repeat 0 n).
Proof. apply List.Forall_forall. intros x Hx. apply repeat_spec in Hx as ->. unfold byte_ok. lia. Qed.

Lemma first_block_in_field (bs : bytes) :
  bs <> [] -> bytes_ok bs -> in_field (block_of_bytes (firstn 16 (bs ++ repeat 0 15))).
Proof.
  intros Hne Hb. apply block_of_bytes_in_field.
  - rewrite length_firstn, length_app, repeat_length.
    destruct bs; [congruence|]. cbn [length]. lia.
  - apply Forall_take. apply Forall_app. split; [exact Hb | apply zeros_ok].
Qed.

Lemma skipn_past (n : nat) (pre post : bytes) (b : Z) :
  (length pre < n)%nat -> skipn n (pre ++ b :: post) = skipn (n - length pre - 1) post.
Proof.
  intros Hl. rewrite drop_app_ge by lia.
  destruct (n - length pre)%nat as [|m] eqn:E; [lia|].
  cbn [skipn]. now rewrite Nat.sub_succ, Nat.sub_0_r.
Qed.

Lemma firstn_past (n : nat) (pre rest : bytes) (b : Z) :
  (length pre < n)%nat ->
  firstn n (pre ++ b :: rest) = pre ++ b :: firstn (n - length pre - 1) rest.
Proof.
  intros Hl. rewrite take_app_ge by lia.
  destruct (n - length pre)%nat as [|m] eqn:E; [lia|].
  cbn [firstn]. now rewrite Nat.sub_succ, Nat.sub_0_r.
Qed.

Lemma blocks_of_fuel_one_byte (f : nat) (pre post : bytes) (b b' : Z) :
  (length pre < 16 * f)%nat ->
  bytes_ok (pre ++ b :: post) -> byte_ok b' -> b <> b' ->
  exists bpre x x' bpost,
    blocks_of_fuel f (pre ++ b :: post) = bpre ++ x :: bpost
    /\ blocks_of_fuel f (pre ++ b' :: post) = bpre ++ x' :: bpost
    /\ x <> x' /\ in_field x /\ in_field x'.
Proof.
  revert pre. induction f as [|f IH]; intros pre Hl Hb Hb' Hne; [lia|].
  assert (Hb2 : bytes_ok (pre ++ b' :: post)).
  { unfold bytes_ok in *. rewrite Forall_app, Forall_cons in *. tauto. }
  assert (Hn : pre ++ b :: post <> []) by (destruct pre; discriminate).
  assert (Hn' : pre ++ b' :: post <> []) by (destruct pre; discriminate).
  rewrite !blocks_of_fuel_S by assumption.
  destruct (Nat.lt_ge_cases (length pre) 16) as [Hlt|Hge].
  - exists [], (block_of_bytes (firstn 16 ((pre ++ b :: post) ++ repeat 0 15))),
      (block_of_bytes (firstn 16 ((pre ++ b' :: post) ++ repeat 0 15))),
      (blocks_of_fuel f (skipn (16 - length pre - 1) post)).
    rewrite !skipn_past by assumption. cbn [app].
    split; [reflexivity|]. split; [reflexivity|].
    split; [|split; now apply first_block_in_field].
    rewrite <- !app_assoc. cbn [app]. rewrite !firstn_past by assumption.
    set (rest := firstn (16 - length pre - 1) (post ++ repeat 0 15)).
    assert (Hrest : bytes_ok rest).
    { apply Forall_take. apply Forall_app. split; [|apply zeros_ok].
      unfold bytes_ok in Hb. rewrite Forall_app, Forall_cons in Hb. tauto. }
    assert (Hpre : bytes_ok pre) by (unfold bytes_ok in Hb; rewrite Forall_app in Hb; tauto).
    assert (Hbb : byte_ok b).
    { unfold bytes_ok in Hb. rewrite Forall_app, Forall_cons in Hb. tauto. }
    intros E. apply block_of_bytes_inj in E.
    + apply app_inv_head in E. injection E as E. congruence.
    + now rewrite !length_app.
    + unfold bytes_ok. rewrite Forall_app, Forall_cons. tauto.
    + unfold bytes_ok. rewrite Forall_app, Forall_cons. tauto.
  - destruct (IH (skipn 16 pre)) as (bpre & x & x' & bpost & E1 & E2 & Hx);
      try assumption.
    + rewrite length_skipn. lia.
    + rewrite <- drop_app_le by lia. now apply Forall_drop.
    + exists (block_of_bytes (firstn 16 pre) :: bpre), x, x', bpost.
      rewrite <- !app_assoc, !(take_app_le pre) by lia.
      rewrite !drop_app_le by lia. rewrite E1, E2. auto.
Qed.

Lemma blocks_of_one_byte (c c' : bytes) :
  bytes_ok c -> one_byte_changed c c' ->
  exists bpre x x' bpost,
    blocks_of c = bpre ++ x :: bpost /\ blocks_of c' = bpre ++ x' :: bpost
    /\ x <> x' /\ in_field x /\ in_field x'.
Proof.
  intros Hc (pre & b & b' & post & -> & -> & Hne & Hb'). unfold blocks_of.
  replace (length (pre ++ b' :: post)) with (length (pre ++ b :: post))
    by (now rewrite !length_app).
  apply blocks_of_fuel_one_byte; try assumption.
  rewrite length_app. cbn [length]. lia.
Qed.

(** *** The tag *)

Lemma hash_subkey_in_field (key : bytes) : key_ok key -> in_field (hash_subkey key).
Proof.
  intros Hk. unfold hash_subkey.
  assert (H0 : block_ok (repeat 0 16)) by (split; [reflexivity | apply zeros_ok]).
  destruct (encrypt_block_ok key (repeat 0 16) Hk H0) as [Hl Hb].
  now apply block_of_bytes_in_field.
Qed.

Lemma xor_bytes_comm (a b : bytes) : xor_bytes a b = xor_bytes b a.
Proof.
  revert b. induction a as [|x a IH]; intros [|y b]; cbn [xor_bytes]; try reflexivity.
  now rewrite Z.lxor_comm, IH.
Qed.

(** A regular hash subkey: one changed byte of the ciphertext changes the
    tag. *)
Lemma tag_one_byte (key iv c c' : bytes) :
  key_ok key -> bytes_ok iv -> regular (hash_subkey key) ->
  bytes_ok c -> one_byte_changed c c' ->
  tag key iv c' <> tag key iv c.
Proof.
  intros Hk Hiv Hr Hc Hch. unfold tag.
  pose proof (hash_subkey_in_field key Hk) as Hh.
  destruct (blocks_of_one_byte c c' Hc Hch) as (bpre & x & x' & bpost & E & E' & Hne & Hx & Hx').
  unfold bit_length. rewrite (one_byte_changed_length c c' Hch), E, E'.
  rewrite <- !app_assoc. cbn [app].
  set (len := 8 * Z.of_nat (length c)).
  pose proof (ghash_one_block (hash_subkey key) bpre (bpost ++ [len]) x x' Hr Hh Hx Hx' Hne)
    as Hg.
  pose proof (ghash_in_field (hash_subkey key) (bpre ++ x :: bpost ++ [len]) Hh) as H1.
  pose proof (ghash_in_field (hash_subkey key) (bpre ++ x' :: bpost ++ [len]) Hh) as H2.
  set (g := ghash (hash_subkey key) (bpre ++ x :: bpost ++ [len])) in *.
  set (g' := ghash (hash_subkey key) (bpre ++ x' :: bpost ++ [len])) in *.
  destruct (encrypt_block_ok key (J0 key iv) Hk (J0_ok key iv Hiv)) as [Hel _].
  intros Eq. apply Hg. symmetry.
  apply bytes_of_block_inj; try assumption.
  rewrite !(xor_bytes_comm (bytes_of_block 16 _)) in Eq.
  apply xor_bytes_inj_r in Eq; [exact Eq | |]; now rewrite bytes_of_block_length.
Qed.

(** Another 12-byte iv changes the tag. *)
Lemma tag_other_iv (key iv iv' c : bytes) :
  key_ok key -> length iv = 12%nat -> length iv' = 12%nat ->
  bytes_ok iv -> bytes_ok iv' -> iv' <> iv ->
  tag key iv' c <> tag key iv c.
Proof.
  intros Hk Hl Hl' Hb Hb' Hne. unfold tag. intros Eq.
  destruct (encrypt_block_ok key (J0 key iv) Hk (J0_ok key iv Hb)) as [Hel _].
  destruct (encrypt_block_ok key (J0 key iv') Hk (J0_ok key iv' Hb')) as [Hel' _].
  apply xor_bytes_inj_r in Eq; try now rewrite bytes_of_block_length.
  apply encrypt_block_inj in Eq; try assumption; try now apply J0_ok.
  unfold J0 in Eq. rewrite Hl, Hl' in Eq. cbn [Nat.eqb] in Eq.
  now apply app_inv_tail in Eq.
Qed.

(** A hash subkey that is 0 gives every ciphertext the same tag. *)
Lemma zero_subkey_same_tag (key iv c c' : bytes) :
  hash_subkey key = 0 -> tag key iv c' = tag key iv c.
Proof. intros H0. unfold tag. now rewrite H0, !ghash_zero_subkey. Qed.

End Tamper.

(** ** crypto.ts: the envelope *)

(** A key and a random source for the examples. *)
Definition key32 : bytes := map Z.of_nat (seq 1 32).
Definition rng0 : Rng := mkRng (fun i => Z.of_nat (7 * i + 3)) 0.

Module CryptoFacts.
Import AESFacts GCMFacts Base64Facts TextFacts.

Lemma key32_ok : key_ok key32.
Proof. split; [reflexivity | apply Bits.bytes_okb_spec; vm_compute; reflexivity]. Qed.

(** What [encrypt] returns under a 32-byte key. *)
Lemma encrypt_spec (P K : bytes) (g : Rng) :
  length K = 32%nat ->
  let iv0 := (generateRandomBytes AES_IV_LENGTH g).1 in
  encrypt P K g
  = Some (mkEncrypted (GCM.ctr K iv0 P) iv0 (GCM.tag K iv0 (GCM.ctr K iv0 P)),
          (generateRandomBytes AES_IV_LENGTH g).2).
Proof.
  intros Hl iv0. unfold encrypt, GCM.encrypt.
  destruct (generateRandomBytes AES_IV_LENGTH g) as [i g'] eqn:E. subst iv0. cbn [fst snd].
  rewrite Hl. reflexivity.
Qed.

Lemma fresh_iv (g : Rng) :
  length (generateRandomBytes AES_IV_LENGTH g).1 = 12%nat
  /\ bytes_ok (generateRandomBytes AES_IV_LENGTH g).1.
Proof. split; [apply generateRandomBytes_length | apply generateRandomBytes_ok]. Qed.

(** [decrypt] under a 32-byte key, a 12-byte iv and the tag of the
    ciphertext. *)
Lemma decrypt_spec (C K i : bytes) :
  key_ok K -> length i = 12%nat -> bytes_ok i ->
  decrypt C K i (GCM.tag K i C) = Some (GCM.ctr K i C).
Proof.
  intros Hk Hl Hi. unfold decrypt.
  destruct (tag_ok K i C Hk Hi) as [Ht _]. destruct Hk as [Hkl Hkb].
  rewrite Hkl, Hl, Ht. cbn [Nat.eqb AES_KEY_LENGTH AES_TAG_LENGTH negb].
  unfold GCM.decrypt. now rewrite bytes_eqb_refl.
Qed.

Lemma decrypt_encrypt_bytes (P K : bytes) (g : Rng) :
  key_ok K ->
  exists e g', encrypt P K g = Some (e, g')
               /\ decrypt (ciphertext e) K (iv e) (tag e) = Some P.
Proof.
  intros Hk. destruct (fresh_iv g) as [Hl Hi].
  eexists _, _. split; [apply encrypt_spec, Hk|]. cbn [ciphertext iv tag].
  rewrite decrypt_spec by assumption. f_equal. now apply ctr_involutive.
Qed.

Lemma decryptString_encryptString (s : jsstring) (K : bytes) (g : Rng) :
  key_ok K -> Text.well_formed s = true ->
  exists e g', encryptString s K g = Some (e, g')
               /\ decryptString (ciphertext64 e) K (iv64 e) (tag64 e)
                  = Some (Text.utf8_decode (Text.utf8_encode s)).
Proof.
  intros Hk Hwf. destruct (fresh_iv g) as [Hl Hi].
  unfold encryptString. rewrite encrypt_spec by apply Hk.
  eexists _, _. split; [reflexivity|]. cbn [ciphertext64 iv64 tag64 ciphertext iv tag].
  unfold decryptString.
  rewrite !decode_encode.
  - rewrite decrypt_spec by assumption. now rewrite ctr_involutive.
  - now apply tag_ok.
  - exact Hi.
  - apply ctr_ok; [exact Hk | exact Hi | now apply utf8_encode_ok].
Qed.

End CryptoFacts.

Module CryptoClaims.
Import AESFacts CryptoFacts TextFacts.

(** C1, as far as it holds.  Under every 32-byte key [K] and whatever iv
    the random source yields, [decrypt] gives back every plaintext [P] from
    the ciphertext, iv and tag that [encrypt P K] returned; and
    [decryptString] gives back [s] from the base64 fields that
    [encryptString s K] returned, for every string [s] whose surrogates are
    paired and which does not begin with U+FEFF. *)
Theorem encrypt_decrypt_round_trip (K : bytes) (g : Rng) :
  key_ok K ->
  (forall P : bytes,
     exists e g', encrypt P K g = Some (e, g')
                  /\ decrypt (ciphertext e) K (iv e) (tag e) = Some P)
  /\ (forall s : jsstring,
        Text.well_formed s = true -> starts_with_bom s = false ->
        exists e g', encryptString s K g = Some (e, g')
                     /\ decryptString (ciphertext64 e) K (iv64 e) (tag64 e) = Some s).
Proof.
  intros Hk. split.
  - intros P. now apply decrypt_encrypt_bytes.
  - intros s Hwf Hb.
    destruct (decryptString_encryptString s K g Hk Hwf) as (e & g' & He & Hd).
    exists e, g'. split; [exact He|]. rewrite Hd. f_equal.
    now apply utf8_decode_encode.
Qed.

Lemma encrypt_decrypt_round_trip_witness :
  key_ok key32
  /\ (exists e g', encrypt [104; 105] key32 rng0 = Some (e, g')
                   /\ decrypt (ciphertext e) key32 (iv e) (tag e) = Some [104; 105])
  /\ (exists e g', encryptString (js "hi") key32 rng0 = Some (e, g')
                   /\ decryptString (ciphertext64 e) key32 (iv64 e) (tag64 e)
                      = Some (js "hi")).
Proof.
  split; [exact key32_ok|].
  destruct (encrypt_decrypt_round_trip key32 rng0 key32_ok) as [Hbytes Hstring].
  split; [apply Hbytes | apply Hstring; reflexivity].
Defined.

(** C1 as stated fails for a string that begins with U+FEFF: [TextEncoder]
    writes the character as EF BB BF and [TextDecoder] drops these three
    bytes as a byte order mark, so the string comes back without its first
    character. *)
Lemma leading_bom_is_lost :
  let s := 0xFEFF :: js "hi" in
  option_map (fun r => decryptString (ciphertext64 r.1) key32 (iv64 r.1) (tag64 r.1))
    (encryptString s key32 rng0)
  = Some (Some (js "hi"))
  /\ Text.well_formed s = true
  /\ length s = 3%nat.
Proof. vm_compute. repeat split; reflexivity. Qed.

End CryptoClaims.

(** ** crypto.ts: what [decrypt] does with a tampered envelope *)

Module TamperClaims.
Import AESFacts GCMFacts GHashFacts Tamper CryptoFacts.

(** The hash subkey of a key is the encryption of the zero block; it is
    regular when it is no zero divisor in the field of GHASH. *)
Definition subkey_regular (K : bytes) : Prop := regular (GCM.hash_subkey K).

(** A tag that is not the tag of the ciphertext under key and iv: nothing
    is returned. *)
Lemma decrypt_tag_mismatch (c k i t : bytes) :
  t <> GCM.tag k i c -> decrypt c k i t = None.
Proof.
  intros Ht. unfold decrypt.
  destruct (negb (length k =? AES_KEY_LENGTH)%nat); [reflexivity|].
  destruct (length i =? 0)%nat; [reflexivity|].
  destruct (negb (length t =? AES_TAG_LENGTH)%nat); [reflexivity|].
  now apply decrypt_wrong_tag.
Qed.

Lemma decrypt_Some (c k i t p : bytes) :
  decrypt c k i t = Some p -> t = GCM.tag k i c /\ p = GCM.ctr k i c.
Proof.
  unfold decrypt.
  destruct (negb (length k =? AES_KEY_LENGTH)%nat); [discriminate|].
  destruct (length i =? 0)%nat; [discriminate|].
  destruct (negb (length t =? AES_TAG_LENGTH)%nat); [discriminate|].
  unfold GCM.decrypt. destruct (GCM.bytes_eqb (GCM.tag k i c) t) eqn:E; [|discriminate].
  apply bytes_eqb_eq in E. intros [= <-]. now split.
Qed.

(** What a changed bit of the envelope of [encrypt P K] does. *)
Lemma tamper_facts (P K : bytes) (g : Rng) :
  key_ok K -> bytes_ok P ->
  exists e g',
    encrypt P K g = Some (e, g')
    /\ length (tag e) = 16%nat /\ length (iv e) = 12%nat
    /\ length (ciphertext e) = length P
    /\ (forall i, (i < 8 * length (tag e))%nat ->
          decrypt (ciphertext e) K (iv e) (flip_bit (tag e) i) = None)
    /\ (forall i, (i < 8 * length (iv e))%nat ->
          decrypt (ciphertext e) K (flip_bit (iv e) i) (tag e) = None)
    /\ (subkey_regular K ->
        forall i, (i < 8 * length (ciphertext e))%nat ->
          decrypt (flip_bit (ciphertext e) i) K (iv e) (tag e) = None)
    /\ (forall K', GCM.tag K' (iv e) (ciphertext e) <> tag e ->
          decrypt (ciphertext e) K' (iv e) (tag e) = None).
Proof.
  intros Hk HP. destruct (fresh_iv g) as [Hil Hib].
  eexists _, _. split; [apply encrypt_spec, Hk|]. cbn [ciphertext iv tag].
  set (i0 := (generateRandomBytes AES_IV_LENGTH g).1) in *.
  set (c := GCM.ctr K i0 P).
  pose proof (tag_ok K i0 c Hk Hib) as [Htl Htb].
  assert (Hcb : bytes_ok c) by now apply ctr_ok.
  split; [exact Htl|]. split; [exact Hil|]. split; [now apply ctr_length|].
  split; [|split; [|split]].
  - intros i Hi. apply decrypt_tag_mismatch.
    now apply one_byte_changed_neq, flip_bit_changes_one_byte.
  - intros i Hi.
    pose proof (flip_bit_changes_one_byte i0 i Hib Hi) as Hch.
    apply decrypt_tag_mismatch. apply not_eq_sym, tag_other_iv; try assumption.
    + now rewrite (one_byte_changed_length _ _ Hch).
    + now apply (one_byte_changed_ok _ _ Hch).
    + now apply one_byte_changed_neq.
  - intros Hr i Hi.
    pose proof (flip_bit_changes_one_byte c i Hcb Hi) as Hch.
    apply decrypt_tag_mismatch. apply not_eq_sym. now apply tag_one_byte.
  - intros K' HK'. apply decrypt_tag_mismatch. now apply not_eq_sym.
Qed.

(** C2, as far as it holds.  For every plaintext [P] and every 32-byte key
    [K], with the ciphertext, iv and tag that [encrypt P K] returned:
    [decrypt] returns nothing when one bit of the tag is flipped, and
    nothing when one bit of the iv is flipped; it returns nothing when one
    bit of the ciphertext is flipped, provided the hash subkey of [K] is
    regular; under another key it returns nothing unless that key gives the
    ciphertext the same tag; and on no input at all does [decrypt] return
    anything when the tag is not the one of the ciphertext, while what it
    returns when it is has the length of the ciphertext. *)
Theorem tampering_is_detected (P K : bytes) (g : Rng) :
  key_ok K -> bytes_ok P ->
  exists e g',
    encrypt P K g = Some (e, g')
    /\ length (tag e) = 16%nat /\ length (iv e) = 12%nat
    /\ length (ciphertext e) = length P
    /\ (forall i, (i < 8 * length (tag e))%nat ->
          decrypt (ciphertext e) K (iv e) (flip_bit (tag e) i) = None)
    /\ (forall i, (i < 8 * length (iv e))%nat ->
          decrypt (ciphertext e) K (flip_bit (iv e) i) (tag e) = None)
    /\ (subkey_regular K ->
        forall i, (i < 8 * length (ciphertext e))%nat ->
          decrypt (flip_bit (ciphertext e) i) K (iv e) (tag e) = None)
    /\ (forall K', GCM.tag K' (iv e) (ciphertext e) <> tag e ->
          decrypt (ciphertext e) K' (iv e) (tag e) = None)
    /\ (forall c k i t, t <> GCM.tag k i c -> decrypt c k i t = None)
    /\ (forall c k i t p, key_ok k -> bytes_ok i ->
          decrypt c k i t = Some p -> length p = length c).
Proof.
  intros Hk HP.
  destruct (tamper_facts P K g Hk HP) as (e & g' & He & H1 & H2 & H3 & H4 & H5 & H6 & H7).
  exists e, g'. do 8 (split; [assumption|]). split.
  - apply decrypt_tag_mismatch.
  - intros c k i t p Hk' Hi Hd. apply decrypt_Some in Hd as [_ ->].
    now apply ctr_length.
Qed.

(** Why the ciphertext part has its proviso: under a key whose hash subkey
    is 0, [decrypt] accepts any other ciphertext with the iv and tag of
    [encrypt P K]. *)
Lemma zero_subkey_accepts_any_ciphertext (P K c' : bytes) (g : Rng) :
  key_ok K -> GCM.hash_subkey K = 0 ->
  exists e g',
    encrypt P K g = Some (e, g')
    /\ decrypt c' K (iv e) (tag e) = Some (GCM.ctr K (iv e) c').
Proof.
  intros Hk H0. destruct (fresh_iv g) as [Hil Hib].
  eexists _, _. split; [apply encrypt_spec, Hk|]. cbn [ciphertext iv tag].
  rewrite (zero_subkey_same_tag K _ c' _ H0). now apply decrypt_spec.
Qed.

(** The hash subkey of the key of the examples has an inverse. *)
Lemma key32_regular : subkey_regular key32.
Proof.
  apply (regular_of_inverse _ 0xf3d9d6ea79775ed790f3a6a52c6b005c).
  vm_compute. reflexivity.
Qed.

Definition attack_at_dawn : bytes := js "attack at dawn, not at dusk".

Lemma tampering_is_detected_witness :
  exists e g',
    encrypt attack_at_dawn key32 rng0 = Some (e, g')
    /\ decrypt (ciphertext e) key32 (iv e) (flip_bit (tag e) 127) = None
    /\ decrypt (ciphertext e) key32 (flip_bit (iv e) 0) (tag e) = None
    /\ decrypt (flip_bit (ciphertext e) 130) key32 (iv e) (tag e) = None.
Proof.
  assert (HP : bytes_ok attack_at_dawn)
    by (apply Bits.bytes_okb_spec; vm_compute; reflexivity).
  destruct (tampering_is_detected attack_at_dawn key32 rng0 key32_ok HP)
    as (e & g' & He & Ht & Hi & Hc & Ftag & Fiv & Fct & _).
  exists e, g'. split; [exact He|]. split; [|split].
  - apply Ftag. rewrite Ht. cbn. lia.
  - apply Fiv. rewrite Hi. cbn. lia.
  - apply Fct; [exact key32_regular|]. rewrite Hc. cbn. lia.
Defined.

(** C2 as stated fails for "a different key": GCM does not bind the
    ciphertext to the key.  For this 16-byte plaintext, the envelope that
    [encrypt] makes under the key 1..32 carries a tag that is also the tag
    of the ciphertext under the key 2..33; [decrypt] under that other key
    accepts it and returns 16 bytes that are not the plaintext. *)
Definition other_key : bytes := map Z.of_nat (seq 2 32).
Definition two_key_plaintext : bytes :=
  [102; 56; 163; 82; 43; 80; 187; 62; 50; 96; 186; 68; 36; 160; 94; 252].

Lemma other_key_is_accepted :
  option_map
    (fun r => (tag r.1, decrypt (ciphertext r.1) other_key (iv r.1) (tag r.1)))
    (encrypt two_key_plaintext key32 rng0)
  = Some ([14; 39; 151; 10; 107; 133; 8; 122; 137; 71; 159; 181; 61; 183; 110; 224],
          Some [23; 219; 240; 247; 106; 9; 193; 244; 98; 107; 205; 242; 185; 134; 108; 112])
  /\ GCM.bytes_eqb other_key key32 = false
  /\ length other_key = 32%nat.
Proof. vm_compute. repeat split; reflexivity. Qed.

End TamperClaims.

(** ** skill.ts: the content hash of a skill *)

Module SkillHashClaims.

(** The serialization that is hashed reads four things of a skill. *)
Lemma canonical_json_fields (a b : Skill) :
  skill_name a = skill_name b ->
  skill_type a = skill_type b ->
  skill_content a = skill_content b ->
  files_or_empty a = files_or_empty b ->
  canonical_json a = canonical_json b.
Proof. intros Hn Ht Hc Hf. unfold canonical_json. now rewrite Hn, Ht, Hc, Hf. Qed.

(** C4, as far as it holds.  Two skills with the same name, type and body
    content and the same supporting files (names and contents) listed in the
    same order have the same content hash, whatever their metadata, path
    and modification time, and whether a skill without supporting files has
    an empty list or none. *)
Theorem computeSkillHash_same_fields (a b : Skill) :
  skill_name a = skill_name b ->
  skill_type a = skill_type b ->
  skill_content a = skill_content b ->
  files_or_empty a = files_or_empty b ->
  computeSkillHash a = computeSkillHash b.
Proof.
  intros Hn Ht Hc Hf. unfold computeSkillHash.
  now rewrite (canonical_json_fields a b).
Qed.

Definition a_md : SkillFile := mkSkillFile (js "a.md") (js "A").
Definition b_md : SkillFile := mkSkillFile (js "b.md") (js "B").

(** The skill "deploy" with body "X" and the given supporting files. *)
Definition deploy_with (files : option (list SkillFile)) (path modifiedAt : string)
    (metadata : list (jsstring * option MetaValue)) : Skill :=
  mkSkill (js "deploy") (js "X") metadata (js path) (js modifiedAt) SkillType.skill files.

Lemma computeSkillHash_same_fields_witness :
  computeSkillHash
    (deploy_with (Some [a_md; b_md]) "/home/u/.claude/skills/deploy"
       "2024-05-01T10:00:00.000Z" [])
  = computeSkillHash
      (deploy_with (Some [a_md; b_md]) "/home/v/.claude/skills/deploy"
         "2024-06-11T07:45:10.000Z"
         [(js "description", Some (MetaString (js "ship it")))]).
Proof. apply computeSkillHash_same_fields; reflexivity. Defined.

(** C4 as stated fails: the files are serialized in the order in which the
    skill lists them, and nothing sorts them, so the same two files in the
    other order give another hash. *)
Lemma file_order_changes_hash :
  let a := deploy_with (Some [a_md; b_md]) "/home/u/.claude/skills/deploy"
             "2024-05-01T10:00:00.000Z" [] in
  let a' := deploy_with (Some [b_md; a_md]) "/home/u/.claude/skills/deploy"
              "2024-05-01T10:00:00.000Z" [] in
  skill_name a = skill_name a'
  /\ skill_type a = skill_type a'
  /\ skill_content a = skill_content a'
  /\ computeSkillHash a = js "5e4cb373"
  /\ computeSkillHash a' = js "64753820".
Proof. vm_compute. repeat split; reflexivity. Qed.

End SkillHashClaims.

(** ** Push, pull and status *)

Module SyncFacts.
Import Sync.

Lemma encrypt_total (plaintext key : bytes) (g : Rng) :
  length key = AES_KEY_LENGTH ->
  exists e g', encrypt plaintext key g = Some (e, g').
Proof.
  intros Hk. unfold encrypt.
  destruct (generateRandomBytes AES_IV_LENGTH g) as [iv0 g'].
  rewrite Hk, Nat.eqb_refl.
  destruct (GCM.encrypt key iv0 plaintext) as [c t]. eauto.
Qed.

Lemma encryptString_total (plaintext : jsstring) (key : bytes) (g : Rng) :
  length key = AES_KEY_LENGTH ->
  exists e g', encryptString plaintext key g = Some (e, g').
Proof.
  intros Hk. unfold encryptString.
  destruct (encrypt_total (Text.utf8_encode plaintext) key g Hk) as (e & g' & ->). eauto.
Qed.

Section ClientFacts.
Context {Remote : Type} `{Api Remote} {FS : Type} `{FileSystem FS}.
Variable JSON_parse : jsstring -> Parsed.
Variable claudeDir : jsstring.

Local Abbreviation Client := (@Client Remote FS).

(** *** One skill of a push *)

Lemma push_one_skip masterKey message index (c : Client) s :
  entry_hash_is index (getSkillKey s) (computeSkillHash s) = true ->
  push_one masterKey message index c s = Some (PushSkipped, c).
Proof. intros Hh. unfold push_one. now rewrite Hh. Qed.

(** The result of a skill that is not skipped, and the request it
    costs. *)
Definition sent (s : Skill) (r : PushResult) : Prop :=
  (exists remoteUpdatedAt,
      r = PushSuccess (getSkillKey s) (computeSkillHash s)
            (localHash_of (skill_content s) (skill_files s)) remoteUpdatedAt)
  \/ (exists m, r = PushError m).

Lemma push_one_send masterKey message index (c : Client) s :
  length masterKey = AES_KEY_LENGTH ->
  entry_hash_is index (getSkillKey s) (computeSkillHash s) = false ->
  exists r c', push_one masterKey message index c s = Some (r, c')
    /\ sent s r
    /\ cl_index c' = cl_index c
    /\ cl_requests c'
       = cl_requests c ++ [ReqPushVersion (getSkillKey s) (computeSkillHash s)].
Proof.
  intros Hk Hh. unfold push_one. rewrite Hh. unfold encryptSkill.
  destruct (encryptString_total (payload_json s) masterKey (cl_rng c) Hk)
    as (e & g' & ->).
  cbn [es_encryptedData es_iv es_tag].
  destruct (pushSkillVersion _ _ _ _ _ _ _) as [[data|err st] remote'].
  - eexists _, _. split; [reflexivity|]. split; [left; eauto|]. split; reflexivity.
  - eexists _, _. split; [reflexivity|]. split; [right; eauto|]. split; reflexivity.
Qed.

(** What a result says about its skill. *)
Definition push_result_for (index : SyncIndex) (s : Skill) (r : PushResult) : Prop :=
  if entry_hash_is index (getSkillKey s) (computeSkillHash s)
  then r = PushSkipped
  else sent s r.

Lemma push_all_total masterKey message index (c : Client) skills :
  length masterKey = AES_KEY_LENGTH ->
  exists rs c', push_all masterKey message index c skills = Some (rs, c')
    /\ Forall2 (push_result_for index) skills rs
    /\ cl_index c' = cl_index c.
Proof.
  intros Hk. revert c. induction skills as [|s skills IH]; intros c.
  - exists [], c. simpl. auto.
  - cbn [push_all].
    destruct (entry_hash_is index (getSkillKey s) (computeSkillHash s)) eqn:Hh.
    + rewrite push_one_skip by assumption.
      destruct (IH c) as (rs & c' & -> & Hrs & Hidx).
      eexists _, _. split; [reflexivity|]. split; [|assumption].
      constructor; [|assumption]. unfold push_result_for. now rewrite Hh.
    + destruct (push_one_send masterKey message index c s Hk Hh)
        as (r & c1 & -> & Hsent & Hidx1 & _).
      destruct (IH c1) as (rs & c' & -> & Hrs & Hidx).
      eexists _, _. split; [reflexivity|]. split; [|congruence].
      constructor; [|assumption]. unfold push_result_for. now rewrite Hh.
Qed.

Lemma push_all_skipped masterKey message index (c : Client) skills :
  Forall (fun s => entry_hash_is index (getSkillKey s) (computeSkillHash s) = true) skills ->
  push_all masterKey message index c skills
  = Some (map (fun _ => PushSkipped) skills, c).
Proof.
  induction 1 as [|s skills Hs _ IH]; [reflexivity|].
  cbn [push_all]. rewrite push_one_skip by assumption. now rewrite IH.
Qed.

(** *** The merge into the index *)

Definition push_success_key (r : PushResult) : option jsstring :=
  match r with PushSuccess k _ _ _ => Some k | _ => None end.

Definition pull_success_key (r : PullResult) : option jsstring :=
  match r with PullSuccess k _ _ _ _ => Some k | _ => None end.

(** *** What each result owes to the server and the disk *)

(** The clients that the callbacks of a batch run on, one for each element
    of the batch: the first runs on [c], each other one on the client that
    the callback before it left. *)
Fixpoint clients_seen {A R : Type} (step : Client -> A -> option (R * Client))
    (c : Client) (l : list A) : list Client :=
  match l with
  | [] => []
  | a :: rest =>
      c :: match step c a with
           | Some (_, c') => clients_seen step c' rest
           | None => []
           end
  end.

(** The answer of the server to the request that the callback of [s] sends
    from the client [c]. *)
Definition push_answer (masterKey : bytes) (message : option jsstring) (c : Client)
    (s : Skill) : option (ApiResponse PushVersionResponse) :=
  match encryptSkill s masterKey (cl_rng c) with
  | Some (e, _) =>
      Some (pushSkillVersion (cl_remote c) (getSkillKey s) (computeSkillHash s)
              (es_encryptedData e) (es_iv e) (es_tag e) message).1
  | None => None
  end.

(** The result of [s] on the client [c]: skipped when the index has its
    hash; else a success with the time of the server's answer when the
    server accepted the version, and an error with the server's message
    when it refused. *)
Definition push_outcome (masterKey : bytes) (message : option jsstring)
    (index : SyncIndex) (s : Skill) (c : Client) (r : PushResult) : Prop :=
  if entry_hash_is index (getSkillKey s) (computeSkillHash s) then r = PushSkipped
  else
    match push_answer masterKey message c s with
    | Some (ApiOk data) =>
        r = PushSuccess (getSkillKey s) (computeSkillHash s)
              (localHash_of (skill_content s) (skill_files s)) (pvr_createdAt data)
    | Some (ApiFail error _) =>
        r = PushError (js "Failed to push " ++ type_name (skill_type s) ++ js "/"
                       ++ skill_name s ++ js ": " ++ error)
    | None => False
    end.

(** [s] is skipped, or the server refuses its version. *)
Definition push_skipped_or_refused (masterKey : bytes) (message : option jsstring)
    (index : SyncIndex) (s : Skill) (c : Client) : Prop :=
  entry_hash_is index (getSkillKey s) (computeSkillHash s) = true
  \/ exists error status, push_answer masterKey message c s = Some (ApiFail error status).

(** Pull skips a remote skill whose current hash the index has, and one
    without a current hash. *)
Definition pull_skips (index : SyncIndex) (item : SkillListItem) : bool :=
  remote_hash_is index (sli_skillKey item) (sli_currentHash item)
  || match sli_currentHash item with
     | Some h => jseqb h []
     | None => true
     end.

(** The result of the remote skill [item] on the client [c]: skipped; or an
    error, when the download is refused, the envelope does not decrypt or
    parse, or the disk refuses a write; or else a success that carries the
    listed hash and time and the decrypted content and files. *)
Definition pull_outcome (masterKey : bytes) (index : SyncIndex) (item : SkillListItem)
    (c : Client) (r : PullResult) : Prop :=
  if pull_skips index item then r = PullSkipped
  else
    match (getSkill (cl_remote c) (sli_skillKey item)).1 with
    | ApiFail error _ =>
        r = PullError (js "Failed to get " ++ sli_skillKey item ++ js ": " ++ error)
    | ApiOk data =>
        match decryptSkill JSON_parse (sr_encryptedData data) (sr_iv data) (sr_tag data)
                masterKey with
        | Some (ParsedPayload p) =>
            match write_skill claudeDir (cl_fs c) p with
            | Some _ =>
                exists h, sli_currentHash item = Some h
                  /\ r = PullSuccess (sli_skillKey item) h (p_content p) (p_files p)
                           (sli_updatedAt item)
            | None => exists m, r = PullError m
            end
        | Some ParsedNull => False
        | Some ParseThrows | None => exists m, r = PullError m
        end
    end.

(** [item] is skipped, or its download, its decryption or its write
    fails. *)
Definition pull_skipped_or_failed (masterKey : bytes) (index : SyncIndex)
    (item : SkillListItem) (c : Client) : Prop :=
  pull_skips index item = true
  \/ match (getSkill (cl_remote c) (sli_skillKey item)).1 with
     | ApiFail _ _ => True
     | ApiOk data =>
         match decryptSkill JSON_parse (sr_encryptedData data) (sr_iv data) (sr_tag data)
                 masterKey with
         | Some (ParsedPayload p) => write_skill claudeDir (cl_fs c) p = None
         | Some ParsedNull => False
         | Some ParseThrows | None => True
         end
     end.

Lemma push_one_outcome masterKey message index (c : Client) s r c1 :
  push_one masterKey message index c s = Some (r, c1) ->
  push_outcome masterKey message index s c r /\ cl_index c1 = cl_index c.
Proof.
  unfold push_one, push_outcome, push_answer.
  destruct (entry_hash_is _ _ _); [now intros [= <- <-]|].
  destruct (encryptSkill s masterKey (cl_rng c)) as [[e g']|]; [|discriminate].
  destruct (pushSkillVersion _ _ _ _ _ _ _) as [[data|err st] remote']; cbn [fst];
    now intros [= <- <-].
Qed.

Lemma push_all_outcomes masterKey message index (c : Client) skills rs c' :
  push_all masterKey message index c skills = Some (rs, c') ->
  Forall3 (push_outcome masterKey message index) skills
          (clients_seen (push_one masterKey message index) c skills) rs
  /\ cl_index c' = cl_index c.
Proof.
  revert c rs c'. induction skills as [|s rest IH]; intros c rs c'.
  - intros [= <- <-]. split; [constructor | reflexivity].
  - cbn [push_all clients_seen].
    destruct (push_one masterKey message index c s) as [[r c1]|] eqn:H1; [|discriminate].
    destruct (push_all masterKey message index c1 rest) as [[rs' c2]|] eqn:H2;
      [|discriminate].
    intros [= <- <-].
    apply push_one_outcome in H1 as [Ho Hi1]. apply IH in H2 as [Hrs Hi2].
    split; [constructor; assumption | congruence].
Qed.

(** No skill with the key [k] is among the successes when each of them
    was skipped or refused. *)
Lemma push_refused_not_recorded masterKey message index k skills cs rs :
  Forall3 (push_outcome masterKey message index) skills cs rs ->
  Forall2 (fun s ci => getSkillKey s = k ->
                       push_skipped_or_refused masterKey message index s ci) skills cs ->
  Forall (fun r => push_success_key r <> Some k) rs.
Proof.
  induction 1 as [|s ci r skills cs rs Ho _ IH]; intros Hl; [constructor|].
  inversion Hl as [|? ? ? ? Hs Hrest]; subst. constructor; [|now apply IH].
  unfold push_outcome in Ho. unfold push_skipped_or_refused in Hs. intros Hk.
  destruct (entry_hash_is index (getSkillKey s) (computeSkillHash s)) eqn:Hh;
    [now subst r|].
  destruct (push_answer masterKey message ci s) as [[data|err st]|] eqn:Ha;
    [| |contradiction].
  - subst r. cbn in Hk. injection Hk as Hk.
    destruct (Hs Hk) as [Hskip|(e' & st' & Hf)]; congruence.
  - now subst r.
Qed.

Lemma pull_one_outcome masterKey index (c : Client) item r c1 :
  pull_one JSON_parse claudeDir masterKey index c item = Some (r, c1) ->
  pull_outcome masterKey index item c r /\ cl_index c1 = cl_index c.
Proof.
  unfold pull_one, pull_outcome, pull_skips.
  destruct (remote_hash_is _ _ _); cbn [orb]; [now intros [= <- <-]|].
  destruct (sli_currentHash item) as [h|]; [|now intros [= <- <-]].
  destruct (jseqb h []); [now intros [= <- <-]|].
  destruct (getSkill (cl_remote c) (sli_skillKey item)) as [[data|err st] remote'];
    cbn [fst]; [|now intros [= <- <-]].
  destruct (decryptSkill _ _ _ _ _) as [[| |p]|].
  - intros [= <- <-]. split; [eauto | reflexivity].
  - discriminate.
  - cbn [log_request cl_fs].
    destruct (write_skill claudeDir (cl_fs c) p) as [fs'|]; intros [= <- <-].
    + split; [eauto | reflexivity].
    + split; [eauto | reflexivity].
  - intros [= <- <-]. split; [eauto | reflexivity].
Qed.

Lemma pull_all_outcomes masterKey index (c : Client) remoteSkills rs c' :
  pull_all JSON_parse claudeDir masterKey index c remoteSkills = Some (rs, c') ->
  Forall3 (pull_outcome masterKey index) remoteSkills
          (clients_seen (pull_one JSON_parse claudeDir masterKey index) c remoteSkills) rs
  /\ cl_index c' = cl_index c.
Proof.
  revert c rs c'. induction remoteSkills as [|item rest IH]; intros c rs c'.
  - intros [= <- <-]. split; [constructor | reflexivity].
  - cbn [pull_all clients_seen].
    destruct (pull_one JSON_parse claudeDir masterKey index c item) as [[r c1]|] eqn:H1;
      [|discriminate].
    destruct (pull_all JSON_parse claudeDir masterKey index c1 rest) as [[rs' c2]|] eqn:H2;
      [|discriminate].
    intros [= <- <-].
    apply pull_one_outcome in H1 as [Ho Hi1]. apply IH in H2 as [Hrs Hi2].
    split; [constructor; assumption | congruence].
Qed.

Lemma pull_failed_not_recorded masterKey index k items cs rs :
  Forall3 (pull_outcome masterKey index) items cs rs ->
  Forall2 (fun item ci => sli_skillKey item = k ->
                          pull_skipped_or_failed masterKey index item ci) items cs ->
  Forall (fun r => pull_success_key r <> Some k) rs.
Proof.
  induction 1 as [|item ci r items cs rs Ho _ IH]; intros Hl; [constructor|].
  inversion Hl as [|? ? ? ? Hs Hrest]; subst. constructor; [|now apply IH].
  unfold pull_outcome in Ho. unfold pull_skipped_or_failed in Hs. intros Hk.
  destruct (pull_skips index item); [now subst r|].
  destruct (getSkill (cl_remote ci) (sli_skillKey item)).1 as [data|err st];
    [|now subst r].
  destruct (decryptSkill _ _ _ _ _) as [[| |p]|];
    [now destruct Ho as [m ->] | contradiction | | now destruct Ho as [m ->]].
  destruct (write_skill claudeDir (cl_fs ci) p) as [fs'|];
    [|now destruct Ho as [m ->]].
  destruct Ho as (h & _ & ->). cbn in Hk. injection Hk as Hk.
  destruct (Hs Hk) as [Hskip|Hfail]; discriminate.
Qed.

(** Where no payload parses to [null], every callback of a pull
    returns. *)
Lemma pull_all_total masterKey index (c : Client) remoteSkills :
  (forall payload, JSON_parse payload <> ParsedNull) ->
  exists rs c', pull_all JSON_parse claudeDir masterKey index c remoteSkills = Some (rs, c').
Proof.
  intros Hparse. revert c. induction remoteSkills as [|item rest IH]; intros c.
  - now exists [], c.
  - cbn [pull_all].
    assert (H1 : exists r c1,
               pull_one JSON_parse claudeDir masterKey index c item = Some (r, c1)).
    { unfold pull_one.
      destruct (remote_hash_is _ _ _); [eauto|].
      destruct (sli_currentHash item) as [h|]; [|eauto].
      destruct (jseqb h []); [eauto|].
      destruct (getSkill (cl_remote c) (sli_skillKey item)) as [[data|err st] remote'];
        [|eauto].
      unfold decryptSkill.
      destruct (decryptString _ _ _ _) as [payload|]; [|eauto].
      destruct (JSON_parse payload) as [| |p] eqn:Hp; [eauto | now apply Hparse in Hp |].
      destruct (write_skill _ _ _); eauto. }
    destruct H1 as (r & c1 & ->). destruct (IH c1) as (rs & c' & ->). eauto.
Qed.

Lemma record_push_frame (rs : list PushResult) (m : gmap jsstring IndexEntry) (k : jsstring) :
  Forall (fun r => push_success_key r <> Some k) rs ->
  fold_left record_push rs m !! k = m !! k.
Proof.
  intros Hrs. revert m. induction Hrs as [|r rs Hr _ IH]; intros m; [reflexivity|].
  cbn [fold_left]. rewrite IH.
  destruct r as [|k' h lh t|msg]; cbn [record_push]; try reflexivity.
  apply lookup_insert_ne. cbn in Hr. congruence.
Qed.

Lemma record_pull_frame (rs : list PullResult) (m : gmap jsstring IndexEntry) (k : jsstring) :
  Forall (fun r => pull_success_key r <> Some k) rs ->
  fold_left record_pull rs m !! k = m !! k.
Proof.
  intros Hrs. revert m. induction Hrs as [|r rs Hr _ IH]; intros m; [reflexivity|].
  cbn [fold_left]. rewrite IH.
  destruct r as [|k' h ct fs t|msg]; cbn [record_pull]; try reflexivity.
  apply lookup_insert_ne. cbn in Hr. congruence.
Qed.

(** The entry of a key after the merge is the one of the last success
    with that key. *)
Lemma record_push_last (rs1 rs2 : list PushResult) (m : gmap jsstring IndexEntry)
    k h lh t :
  Forall (fun r => push_success_key r <> Some k) rs2 ->
  fold_left record_push (rs1 ++ PushSuccess k h lh t :: rs2) m !! k
  = Some (mkIndexEntry h None lh t).
Proof.
  intros Hrs2. rewrite fold_left_app. cbn [fold_left record_push].
  rewrite record_push_frame by assumption. apply lookup_insert_eq.
Qed.

Lemma record_pull_last (rs1 rs2 : list PullResult) (m : gmap jsstring IndexEntry)
    k h ct fs t :
  Forall (fun r => pull_success_key r <> Some k) rs2 ->
  fold_left record_pull (rs1 ++ PullSuccess k h ct fs t :: rs2) m !! k
  = Some (mkIndexEntry h None (localHash_of ct fs) t).
Proof.
  intros Hrs2. rewrite fold_left_app. cbn [fold_left record_pull].
  rewrite record_pull_frame by assumption. apply lookup_insert_eq.
Qed.

Lemma Forall_filter_weaken {A} (P : A -> Prop) (f : A -> bool) (l : list A) :
  Forall P l -> Forall P (List.filter f l).
Proof.
  induction 1 as [|x l Hx _ IH]; simpl; [constructor|].
  destruct (f x); [constructor|]; assumption.
Qed.

Definition hash_is (m : gmap jsstring IndexEntry) (k h : jsstring) : bool :=
  match m !! k with
  | Some e => jseqb (ie_hash e) h
  | None => false
  end.

(** After a push without errors over skills with distinct keys, every
    skill's entry carries the skill's hash. *)
Lemma record_push_all_synced (skills : list Skill) (rs : list PushResult)
    (m : gmap jsstring IndexEntry) :
  List.NoDup (map getSkillKey skills) ->
  Forall2 (fun s r =>
             (r = PushSkipped /\ hash_is m (getSkillKey s) (computeSkillHash s) = true)
             \/ exists lh t, r = PushSuccess (getSkillKey s) (computeSkillHash s) lh t)
          skills rs ->
  Forall (fun s => hash_is (fold_left record_push (List.filter push_is_success rs) m)
                           (getSkillKey s) (computeSkillHash s) = true) skills.
Proof.
  intros Hnd Hrs. revert rs m Hrs Hnd.
  induction skills as [|s skills IH]; intros rs m Hrs Hnd; [constructor|].
  inversion Hrs as [|? r ? rs' Hr Hrs']; subst.
  cbn [map] in Hnd. apply NoDup_cons_iff in Hnd as [Hs Hnd].
  assert (Hkeys : Forall (fun r => push_success_key r <> Some (getSkillKey s)) rs').
  { clear - Hrs' Hs. induction Hrs' as [|s' r' skills' rs' Hr' _ IH']; [constructor|].
    constructor.
    - destruct Hr' as [[-> _]|(lh & t & ->)]; cbn; [discriminate|].
      intros Heq. injection Heq as Heq. apply Hs. left. congruence.
    - apply IH'. intros Hin. apply Hs. now right. }
  destruct Hr as [[-> Hh]|(lh & t & ->)]; cbn [List.filter push_is_success fold_left].
  - constructor.
    + unfold hash_is in *. rewrite record_push_frame; [exact Hh|].
      now apply Forall_filter_weaken.
    + now apply IH.
  - cbn [record_push]. constructor.
    + unfold hash_is. rewrite record_push_frame by now apply Forall_filter_weaken.
      rewrite lookup_insert_eq. cbn [ie_hash]. apply jseqb_refl.
    + apply IH; [|assumption].
      clear - Hrs' Hs.
      induction Hrs' as [|s' r' skills' rs' Hr' _ IH']; constructor.
      * destruct Hr' as [[-> Hh]|Hok]; [left|now right].
        split; [reflexivity|]. unfold hash_is in *.
        rewrite lookup_insert_ne; [exact Hh|].
        intros Heq. apply Hs. left. congruence.
      * apply IH'. intros Hin. apply Hs. now right.
Qed.

Lemma push_errors_nil (rs : list PushResult) :
  push_errors rs = [] -> Forall (fun r => forall m, r <> PushError m) rs.
Proof.
  induction rs as [|r rs IH]; [constructor|].
  unfold push_errors. cbn [flat_map].
  destruct r; cbn; try discriminate; intros Hn; constructor;
    try (intros ? ?; discriminate); now apply IH.
Qed.

(** *** Status *)

Lemma skill_status_synced index s :
  skill_status index s = synced
  <-> entry_hash_is index (getSkillKey s) (computeSkillHash s) = true.
Proof. unfold skill_status. destruct (entry_hash_is _ _ _); split; easy. Qed.

Lemma entry_hash_is_spec index k h :
  entry_hash_is index k h = true
  <-> exists e, idx_skills index !! k = Some e /\ ie_hash e = h.
Proof.
  unfold entry_hash_is. destruct (idx_skills index !! k) as [e|].
  - rewrite jseqb_eq. split; [eauto|]. now intros (e' & [= <-] & ?).
  - split; [discriminate|]. now intros (e' & [=] & _).
Qed.

Lemma count_pending_zero (index : SyncIndex) (skills : list Skill) :
  Forall (fun s => entry_hash_is index (getSkillKey s) (computeSkillHash s) = true) skills ->
  length (List.filter (fun st => negb (is_synced st)) (map (skill_status index) skills)) = O.
Proof.
  induction 1 as [|s skills Hs _ IH]; [reflexivity|].
  cbn. unfold skill_status at 1. now rewrite Hs.
Qed.

Lemma is_pending_pull_spec (skills : list Skill) (r : SkillListItem) :
  is_pending_pull skills r = true
  <-> (exists h, sli_currentHash r = Some h /\ h <> [])
      /\ ~ In (sli_skillKey r) (map getSkillKey skills).
Proof.
  unfold is_pending_pull. destruct (sli_currentHash r) as [h|].
  - rewrite andb_true_iff, !negb_true_iff. split.
    + intros [Hh Hex]. split.
      * exists h. split; [reflexivity|]. intros ->. discriminate.
      * intros Hin. apply in_map_iff in Hin as (s & Hs & Hin).
        assert (existsb (fun s => jseqb (getSkillKey s) (sli_skillKey r)) skills = true).
        { apply existsb_exists. exists s. split; [assumption|]. now apply jseqb_eq. }
        congruence.
    + intros [(h' & [= <-] & Hne) Hnin]. split.
      * destruct (jseqb h []) eqn:E; [|reflexivity]. apply jseqb_eq in E. contradiction.
      * apply not_true_is_false. intros Hex.
        apply existsb_exists in Hex as (s & Hin & Heq). apply jseqb_eq in Heq.
        apply Hnin. apply in_map_iff. eauto.
  - split; [discriminate|]. now intros [(h & [=] & _) _].
Qed.

End ClientFacts.
End SyncFacts.

(** *** The claims about push, pull and status *)

Module SyncClaims.
Import Sync SyncFacts.

Section Claims.
Context {Remote : Type} `{Api Remote} {FS : Type} `{FileSystem FS}.
Variable JSON_parse : jsstring -> Parsed.
Variable claudeDir : jsstring.

Local Abbreviation Client := (@Client Remote FS).

(** C10 (as amended).  Push and pull modify the local sync index only at
    the keys of the skills that succeeded in that batch, and a skill
    succeeds only when the server and the disk let it.

    Push always completes under a 32-byte master key.  Its results are
    fixed by the index and the server: a skill whose hash the index has is
    skipped; any other is a success exactly when the server accepted its
    version and an error, with the server's message, when the server
    refused it.  The counts and messages returned are those of these
    results.  If every skill of the batch with the key k was skipped or
    refused, the entry of k is after the batch exactly the entry it was
    before; so is the entry of every key that is the key of no success.
    The entry of a key with a success is the entry of the last success
    with that key.  The batch also sets lastSyncAt.

    The same holds of every pull that completes, where a remote skill
    fails when its download is refused, its envelope does not decrypt or
    parse, or the disk refuses a write; a pull whose listing fails leaves
    the index as it was.  A pull completes whenever no payload parses to
    null.

    (A skipped or failed skill that shares its key with a successful one
    sees the shared entry overwritten.) *)
Theorem index_changes_only_at_successes :
  (forall masterKey message skills now (c : Client),
      length masterKey = AES_KEY_LENGTH ->
      exists rs out c',
        pushSkills masterKey message skills now c = Some (out, c')
        /\ Forall3 (push_outcome masterKey message (cl_index c)) skills
             (clients_seen (push_one masterKey message (cl_index c)) c skills) rs
        /\ pushed out = length (List.filter push_is_success rs)
        /\ push_error_list out = push_errors rs
        /\ idx_lastSyncAt (cl_index c') = now
        /\ (forall k,
              Forall2 (fun s ci => getSkillKey s = k ->
                         push_skipped_or_refused masterKey message (cl_index c) s ci)
                skills (clients_seen (push_one masterKey message (cl_index c)) c skills) ->
              idx_skills (cl_index c') !! k = idx_skills (cl_index c) !! k)
        /\ (forall k, Forall (fun r => push_success_key r <> Some k) rs ->
              idx_skills (cl_index c') !! k = idx_skills (cl_index c) !! k)
        /\ (forall rs1 rs2 k h lh t,
              rs = rs1 ++ PushSuccess k h lh t :: rs2 ->
              Forall (fun r => push_success_key r <> Some k) rs2 ->
              idx_skills (cl_index c') !! k = Some (mkIndexEntry h None lh t)))
  /\ (forall masterKey now (c : Client) out c',
        pullSkills JSON_parse claudeDir masterKey now c = Some (out, c') ->
        match listSkills (cl_remote c) with
        | (ApiFail _ _, _) => cl_index c' = cl_index c /\ pulled out = O
        | (ApiOk remoteSkills, remote') =>
            exists rs,
              Forall3 (pull_outcome JSON_parse claudeDir masterKey (cl_index c))
                remoteSkills
                (clients_seen (pull_one JSON_parse claudeDir masterKey (cl_index c))
                   (log_request c ReqListSkills remote') remoteSkills) rs
              /\ pulled out = length (List.filter pull_is_success rs)
              /\ pull_error_list out = pull_errors rs
              /\ idx_lastSyncAt (cl_index c') = now
              /\ (forall k,
                    Forall2 (fun item ci => sli_skillKey item = k ->
                               pull_skipped_or_failed JSON_parse claudeDir masterKey
                                 (cl_index c) item ci)
                      remoteSkills
                      (clients_seen (pull_one JSON_parse claudeDir masterKey (cl_index c))
                         (log_request c ReqListSkills remote') remoteSkills) ->
                    idx_skills (cl_index c') !! k = idx_skills (cl_index c) !! k)
              /\ (forall k, Forall (fun r => pull_success_key r <> Some k) rs ->
                    idx_skills (cl_index c') !! k = idx_skills (cl_index c) !! k)
              /\ (forall rs1 rs2 k h ct fs t,
                    rs = rs1 ++ PullSuccess k h ct fs t :: rs2 ->
                    Forall (fun r => pull_success_key r <> Some k) rs2 ->
                    idx_skills (cl_index c') !! k
                    = Some (mkIndexEntry h None (localHash_of ct fs) t))
        end)
  /\ (forall masterKey now (c : Client),
        (forall payload, JSON_parse payload <> ParsedNull) ->
        exists out c', pullSkills JSON_parse claudeDir masterKey now c = Some (out, c')).
Proof.
  split; [|split].
  - intros masterKey message skills now c Hk.
    destruct (push_all_total masterKey message (cl_index c) c skills Hk)
      as (rs & c1 & Hall & _ & _).
    destruct (push_all_outcomes _ _ _ _ _ _ _ Hall) as [Hrs _].
    unfold pushSkills. rewrite Hall.
    assert (Hframe : forall k, Forall (fun r => push_success_key r <> Some k) rs ->
              fold_left record_push (List.filter push_is_success rs)
                (idx_skills (cl_index c)) !! k = idx_skills (cl_index c) !! k).
    { intros k Hkeys. apply record_push_frame. now apply Forall_filter_weaken. }
    eexists rs, _, _. split; [reflexivity|].
    split; [exact Hrs|]. split; [reflexivity|]. split; [reflexivity|].
    split; [reflexivity|]. cbn [cl_index idx_skills].
    split; [|split; [exact Hframe|]].
    + intros k Hleft. apply Hframe.
      exact (push_refused_not_recorded _ _ _ _ _ _ _ Hrs Hleft).
    + intros rs1 rs2 k h lh t -> Hrs2.
      rewrite List.filter_app. cbn [List.filter push_is_success].
      apply record_push_last. now apply Forall_filter_weaken.
  - intros masterKey now c out c'. unfold pullSkills.
    destruct (listSkills (cl_remote c)) as [[remoteSkills|err st] remote'].
    + destruct (pull_all _ _ _ _ _ _) as [[rs c1]|] eqn:Hall; [|discriminate].
      intros [= <- <-].
      destruct (pull_all_outcomes _ _ _ _ _ _ _ _ Hall) as [Hrs _].
      assert (Hframe : forall k, Forall (fun r => pull_success_key r <> Some k) rs ->
                fold_left record_pull (List.filter pull_is_success rs)
                  (idx_skills (cl_index c)) !! k = idx_skills (cl_index c) !! k).
      { intros k Hkeys. apply record_pull_frame. now apply Forall_filter_weaken. }
      exists rs. split; [exact Hrs|]. split; [reflexivity|]. split; [reflexivity|].
      split; [reflexivity|]. cbn [cl_index idx_skills].
      split; [|split; [exact Hframe|]].
      * intros k Hleft. apply Hframe.
        exact (pull_failed_not_recorded _ _ _ _ _ _ _ _ Hrs Hleft).
      * intros rs1 rs2 k h ct fs t -> Hrs2.
        rewrite List.filter_app. cbn [List.filter pull_is_success].
        apply record_pull_last. now apply Forall_filter_weaken.
    + intros [= <- <-]. split; reflexivity.
  - intros masterKey now c Hparse. unfold pullSkills.
    destruct (listSkills (cl_remote c)) as [[remoteSkills|err st] remote']; [|eauto].
    destruct (pull_all_total JSON_parse claudeDir masterKey (cl_index c)
                (log_request c ReqListSkills remote') remoteSkills Hparse)
      as (rs & c1 & ->).
    eauto.
Qed.

(** C7 (as amended).  A local skill whose content hash equals the hash
    recorded for its key in the sync index is skipped by push with no
    network call (the client state, its request log included, is
    unchanged) and is classified synced by status; a skill absent from the
    index or with another hash is classified pending and counted in
    pendingPush, and push sends exactly one request for it; a remote entry
    is counted in pendingPull exactly when it has a current hash and its
    key is the key of no local skill.  When the local skills have pairwise
    distinct skill keys, running push again after a push without errors,
    with the same skills, sends no request and pushes nothing, and status
    then reports pendingPush = 0. *)
Theorem push_skips_what_is_synced masterKey message skills now (c : Client) :
  length masterKey = AES_KEY_LENGTH ->
  (forall s, entry_hash_is (cl_index c) (getSkillKey s) (computeSkillHash s) = true ->
      push_one masterKey message (cl_index c) c s = Some (PushSkipped, c)
      /\ skill_status (cl_index c) s = synced)
  /\ (forall s, entry_hash_is (cl_index c) (getSkillKey s) (computeSkillHash s) = false ->
        skill_status (cl_index c) s = pending
        /\ exists r c', push_one masterKey message (cl_index c) c s = Some (r, c')
             /\ cl_requests c'
                = cl_requests c ++ [ReqPushVersion (getSkillKey s) (computeSkillHash s)])
  /\ (let st := (getSyncStatus skills c).1 in
      st_synced st
      = length (List.filter
                  (fun s => entry_hash_is (cl_index c) (getSkillKey s) (computeSkillHash s))
                  skills)
      /\ st_pendingPush st
         = length (List.filter
                     (fun s => negb (entry_hash_is (cl_index c) (getSkillKey s)
                                       (computeSkillHash s))) skills)
      /\ match (listSkills (cl_remote c)).1 with
         | ApiOk remoteSkills =>
             st_pendingPull st = length (List.filter (is_pending_pull skills) remoteSkills)
         | ApiFail _ _ => st_pendingPull st = O
         end)
  /\ (forall r, is_pending_pull skills r = true
                <-> (exists h, sli_currentHash r = Some h /\ h <> [])
                    /\ ~ In (sli_skillKey r) (map getSkillKey skills))
  /\ (List.NoDup (map getSkillKey skills) ->
      exists out c1,
        pushSkills masterKey message skills now c = Some (out, c1)
        /\ (push_error_list out = [] ->
            forall message' now',
              exists c2,
                pushSkills masterKey message' skills now' c1
                = Some (mkPushOutcome 0 [], c2)
                /\ cl_requests c2 = cl_requests c1
                /\ cl_remote c2 = cl_remote c1
                /\ st_pendingPush (getSyncStatus skills c1).1 = O)).
Proof.
  intros Hk. split; [|split; [|split; [|split]]].
  - intros s Hs. split; [now apply push_one_skip | now apply skill_status_synced].
  - intros s Hs. split.
    + unfold skill_status. now rewrite Hs.
    + destruct (push_one_send masterKey message (cl_index c) c s Hk Hs)
        as (r & c' & Hp & _ & _ & Hreq). eauto.
  - cbv zeta. unfold getSyncStatus.
    destruct (listSkills (cl_remote c)) as [[remoteSkills|err st] remote'];
      cbn [fst st_synced st_pendingPush st_pendingPull];
      (split; [|split; [|reflexivity]]);
      induction skills as [|s rest IH]; try reflexivity;
      cbn [map List.filter]; unfold skill_status at 1;
      destruct (entry_hash_is _ _ _); cbn [is_synced negb length];
      now rewrite ?IH.
  - intros r. apply is_pending_pull_spec.
  - intros Hnd.
    destruct (push_all_total masterKey message (cl_index c) c skills Hk)
      as (rs & c1 & Hall & Hrs & Hidx).
    unfold pushSkills at 1. rewrite Hall.
    eexists _, _. split; [reflexivity|].
    cbn [push_error_list]. intros Herr message' now'.
    set (index1 := mkSyncIndex _ now).
    assert (Hsynced : Forall (fun s => entry_hash_is index1 (getSkillKey s)
                                         (computeSkillHash s) = true) skills).
    { apply push_errors_nil in Herr.
      apply (record_push_all_synced skills rs (idx_skills (cl_index c)) Hnd).
      clear - Hrs Herr. induction Hrs as [|s r skills rs Hr _ IH]; constructor.
      - inversion Herr as [|? ? Hne _]; subst. unfold push_result_for in Hr.
        unfold hash_is. unfold entry_hash_is in Hr.
        destruct (match idx_skills (cl_index c) !! getSkillKey s with
                  | Some existing => jseqb (ie_hash existing) (computeSkillHash s)
                  | None => false
                  end) eqn:E.
        + left. split; [exact Hr | reflexivity].
        + destruct Hr as [(t & ->)|(m & ->)]; [right; eauto|]. now destruct (Hne m).
      - apply IH. now inversion Herr. }
    unfold pushSkills. cbn [cl_index].
    rewrite push_all_skipped by exact Hsynced.
    assert (Hnone : List.filter push_is_success
                      (map (fun _ : Skill => PushSkipped) skills) = []).
    { clear. induction skills; [reflexivity | assumption]. }
    assert (Hnoerr : push_errors (map (fun _ : Skill => PushSkipped) skills) = []).
    { clear. induction skills; [reflexivity | assumption]. }
    rewrite Hnone, Hnoerr. eexists. split; [reflexivity|].
    split; [reflexivity|]. split; [reflexivity|].
    unfold getSyncStatus. cbn [cl_index].
    destruct (listSkills _) as [lr remote']. cbn [fst st_pendingPush].
    now apply count_pending_zero.
Qed.

End Claims.

(** *** One directory, two files with one name *)

Import World.

(** ~/.claude/commands/deploy.md and ~/.claude/commands/deploy.txt are both
    read as the command "deploy". *)
Definition deploy_md : Skill :=
  mkSkill (js "deploy") (js "echo A") [] (js "/home/u/.claude/commands/deploy.md")
          (js "2024-05-01T10:00:00.000Z") SkillType.command None.
Definition deploy_txt : Skill :=
  mkSkill (js "deploy") (js "echo B") [] (js "/home/u/.claude/commands/deploy.txt")
          (js "2024-05-01T10:00:00.000Z") SkillType.command None.
Definition review_md : Skill :=
  mkSkill (js "review") (js "review the diff") [] (js "/home/u/.claude/agents/review.md")
          (js "2024-05-02T08:30:00.000Z") SkillType.agent None.

Definition fresh_client : @Client Session (gmap jsstring jsstring) :=
  mkClient empty_index rng0 (new_session (js "user-1")) ∅ [].

Definition no_parse (payload : jsstring) : Parsed := ParseThrows.

Definition after_push (skills : list Skill) (now : string)
    (c : @Client Session (gmap jsstring jsstring))
    : @Client Session (gmap jsstring jsstring) :=
  match pushSkills key32 None skills (js now) c with
  | Some (_, c') => c'
  | None => c
  end.

Lemma index_changes_only_at_successes_witness :
  exists rs out c',
    pushSkills key32 None [deploy_md; review_md] (js "2024-05-03") fresh_client
    = Some (out, c')
    /\ Forall3 (push_outcome key32 None (cl_index fresh_client)) [deploy_md; review_md]
         (clients_seen (push_one key32 None (cl_index fresh_client)) fresh_client
            [deploy_md; review_md]) rs
    /\ pushed out = length (List.filter push_is_success rs)
    /\ push_error_list out = push_errors rs
    /\ idx_lastSyncAt (cl_index c') = js "2024-05-03"
    /\ (forall k,
          Forall2 (fun s ci => getSkillKey s = k ->
                     push_skipped_or_refused key32 None (cl_index fresh_client) s ci)
            [deploy_md; review_md]
            (clients_seen (push_one key32 None (cl_index fresh_client)) fresh_client
               [deploy_md; review_md]) ->
          idx_skills (cl_index c') !! k = idx_skills (cl_index fresh_client) !! k)
    /\ (forall k, Forall (fun r => push_success_key r <> Some k) rs ->
          idx_skills (cl_index c') !! k = idx_skills (cl_index fresh_client) !! k)
    /\ (forall rs1 rs2 k h lh t,
          rs = rs1 ++ PushSuccess k h lh t :: rs2 ->
          Forall (fun r => push_success_key r <> Some k) rs2 ->
          idx_skills (cl_index c') !! k = Some (mkIndexEntry h None lh t)).
Proof.
  apply (proj1 (index_changes_only_at_successes no_parse (js "/home/u/.claude"))
           key32 None [deploy_md; review_md] (js "2024-05-03") fresh_client).
  reflexivity.
Defined.

(** *** A push that is refused, a pull that cannot be decrypted *)

(** When [fetch] throws, the API client answers every call with the message
    of the exception and the status 0. *)
#[local] Instance unreachable : Api unit := {
  pushSkillVersion _ _ _ _ _ _ _ := (ApiFail (js "fetch failed") 0, tt);
  listSkills _ := (ApiFail (js "fetch failed") 0, tt);
  getSkill _ _ := (ApiFail (js "fetch failed") 0, tt)
}.

Definition stale_entry : IndexEntry :=
  mkIndexEntry (js "0badc0de") None (js "5d41402a") (js "2024-04-01T09:00:00.000Z").

Definition stale_client : @Client unit (gmap jsstring jsstring) :=
  mkClient (mkSyncIndex {[ js "command:deploy" := stale_entry ]}
                        (js "2024-04-01T09:00:01.000Z"))
           rng0 tt ∅ [].

(** deploy.md has changed since the last sync and the server cannot be
    reached: the push reports the error, counts nothing, and the entry of
    "command:deploy" is the one it was. *)
Lemma refused_push_keeps_entry :
  option_map (fun r => (pushed r.1, push_error_list r.1,
                        idx_skills (cl_index r.2) !! js "command:deploy",
                        idx_lastSyncAt (cl_index r.2)))
    (pushSkills key32 None [deploy_md] (js "2024-05-03") stale_client)
  = Some (0%nat, [js "Failed to push command/deploy: fetch failed"], Some stale_entry,
          js "2024-05-03").
Proof. vm_compute. reflexivity. Qed.

Definition wrong_key : bytes := repeat 7 32%nat.

(** A parser that reads every payload as deploy.md. *)
Definition parse_deploy (payload : jsstring) : Parsed :=
  ParsedPayload (mkPayload (skill_name deploy_md) (skill_content deploy_md)
                   (skill_path deploy_md) (skill_modifiedAt deploy_md)
                   (Some SkillType.command) None).

(** A second machine of the same user with an empty index. *)
Definition other_machine (c : @Client Session (gmap jsstring jsstring))
    : @Client Session (gmap jsstring jsstring) :=
  mkClient empty_index (cl_rng c) (cl_remote c) ∅ [].

(** The second machine pulls with another master key: the envelope of
    deploy.md does not decrypt, the pull reports one error and counts
    nothing, nothing is written, and "command:deploy" gets no entry.  With
    the right key the same pull records it. *)
Lemma undecryptable_pull_keeps_entry :
  let c1 := other_machine (after_push [deploy_md] "2024-05-03" fresh_client) in
  let report (r : PullOutcome * @Client Session (gmap jsstring jsstring)) :=
    (pulled r.1, length (pull_error_list r.1),
     option_map ie_hash (idx_skills (cl_index r.2) !! js "command:deploy"),
     cl_fs r.2 !! js "/home/u/.claude/commands/deploy.md") in
  option_map report
    (pullSkills parse_deploy (js "/home/u/.claude") wrong_key (js "2024-05-04") c1)
  = Some (0%nat, 1%nat, None, None)
  /\ option_map report
       (pullSkills parse_deploy (js "/home/u/.claude") key32 (js "2024-05-04") c1)
     = Some (1%nat, 0%nat, Some (js "cf5a3136"), Some (js "echo A")).
Proof. vm_compute. split; reflexivity. Qed.

(** C10 as stated fails for a skipped skill that shares its key with a
    successful one: with deploy.md already synced and deploy.txt not,
    deploy.md is skipped, deploy.txt is pushed, and the entry of
    "command:deploy" -- the entry of the skipped skill -- now carries the hash
    of deploy.txt. *)
Lemma skipped_skill_entry_overwritten :
  let c1 := after_push [deploy_md] "2024-05-03" fresh_client in
  let c2 := after_push [deploy_md; deploy_txt] "2024-05-04" c1 in
  getSkillKey deploy_md = js "command:deploy"
  /\ getSkillKey deploy_txt = js "command:deploy"
  /\ push_one key32 None (cl_index c1) c1 deploy_md = Some (PushSkipped, c1)
  /\ option_map ie_hash (idx_skills (cl_index c1) !! js "command:deploy")
     = Some (js "cf5a3136")
  /\ option_map ie_hash (idx_skills (cl_index c2) !! js "command:deploy")
     = Some (js "a37f40aa")
  /\ computeSkillHash deploy_md = js "cf5a3136"
  /\ computeSkillHash deploy_txt = js "a37f40aa".
Proof. vm_compute. repeat split; reflexivity. Qed.

Lemma push_skips_what_is_synced_witness :
  exists out c1,
    pushSkills key32 None [deploy_md; review_md] (js "2024-05-03") fresh_client
    = Some (out, c1)
    /\ (push_error_list out = [] ->
        forall message' now',
          exists c2,
            pushSkills key32 message' [deploy_md; review_md] now' c1
            = Some (mkPushOutcome 0 [], c2)
            /\ cl_requests c2 = cl_requests c1
            /\ cl_remote c2 = cl_remote c1
            /\ st_pendingPush (getSyncStatus [deploy_md; review_md] c1).1 = O).
Proof.
  apply (push_skips_what_is_synced key32 None [deploy_md; review_md] (js "2024-05-03")
           fresh_client).
  - reflexivity.
  - vm_compute. repeat constructor; simpl; intuition discriminate.
Defined.

(** C7 as stated fails when two local skills share a key: after a push in
    which both deploy.md and deploy.txt succeed, pushing again with nothing
    changed sends one more request, and status reports one pending push. *)
Lemma second_push_sends_again :
  let c1 := after_push [deploy_md; deploy_txt] "2024-05-03" fresh_client in
  let c2 := after_push [deploy_md; deploy_txt] "2024-05-04" c1 in
  option_map (fun r => (pushed r.1, push_error_list r.1))
    (pushSkills key32 None [deploy_md; deploy_txt] (js "2024-05-03") fresh_client)
  = Some (2%nat, [])
  /\ option_map (fun r => (pushed r.1, push_error_list r.1))
       (pushSkills key32 None [deploy_md; deploy_txt] (js "2024-05-04") c1)
     = Some (1%nat, [])
  /\ length (cl_requests c1) = 2%nat
  /\ length (cl_requests c2) = 3%nat
  /\ st_pendingPush (getSyncStatus [deploy_md; deploy_txt] c1).1 = 1%nat.
Proof. vm_compute. repeat split; reflexivity. Qed.

End SyncClaims.

(** ** The vault: unlocking what onboarding stored *)

Module VaultFacts.
Import Vault AESFacts GCMFacts Base64Facts CryptoFacts.

(** Writing [s] right behind [x] into a buffer that has room for it. *)
Lemma set_zeros (x s : bytes) (n : nat) :
  set (x ++ repeat 0 (length s + n)) s (length x) = Some (x ++ s ++ repeat 0 n).
Proof.
  unfold set. rewrite length_app, repeat_length.
  assert (E : (length x + length s <=? length x + (length s + n))%nat = true)
    by (apply Nat.leb_le; lia).
  rewrite E, take_app_length, drop_app_add, repeat_app.
  rewrite drop_app_length' by (now rewrite repeat_length). reflexivity.
Qed.

(** The stored blob is iv, then tag, then ciphertext. *)
Lemma combine_spec (e : EncryptedMasterKey) :
  combine e = Some (emk_iv e ++ emk_tag e ++ emk_encrypted e).
Proof.
  unfold combine, Uint8Array_new.
  destruct e as [ct i t]. cbn [emk_iv emk_tag emk_encrypted].
  rewrite <- Nat.add_assoc.
  pose proof (set_zeros [] i (length t + length ct)) as H1. cbn [app length] in H1.
  rewrite H1.
  rewrite (set_zeros i t (length ct)).
  pose proof (set_zeros (i ++ t) ct 0) as H3.
  rewrite length_app, Nat.add_0_r in H3. cbn [repeat] in H3.
  rewrite <- !app_assoc, app_nil_r in H3. exact H3.
Qed.

Lemma blob_slices (i t ct : bytes) :
  length i = 12%nat -> length t = 16%nat ->
  slice (i ++ t ++ ct) 0 12 = i
  /\ slice (i ++ t ++ ct) 12 28 = t
  /\ slice_from (i ++ t ++ ct) 28 = ct.
Proof.
  intros Hi Ht. unfold slice, slice_from. cbn [Nat.sub skipn].
  split; [|split].
  - rewrite drop_0. now apply take_app_length'.
  - rewrite drop_app_length' by lia. now apply take_app_length'.
  - rewrite app_assoc. apply drop_app_length'. rewrite length_app. lia.
Qed.

Lemma derive_total `{Argon2id} (passphrase : jsstring) (salt : bytes) :
  (8 <= length salt)%nat ->
  exists key, deriveKeyFromPassphrase passphrase salt = Some (mkDerivedKey key salt)
              /\ key_ok key.
Proof.
  intros Hs. unfold deriveKeyFromPassphrase.
  destruct (argon2id_length (Text.utf8_encode passphrase) salt ARGON2_ITERATIONS
              ARGON2_MEMORY ARGON2_PARALLELISM AES_KEY_LENGTH Hs)
    as (key & Hk & Hl); try (unfold ARGON2_ITERATIONS, ARGON2_MEMORY, ARGON2_PARALLELISM,
                               AES_KEY_LENGTH; lia).
  exists key. rewrite Hk. split; [reflexivity|].
  split; [exact Hl | exact (argon2id_bytes _ _ _ _ _ _ _ Hk)].
Qed.

Lemma truthy_encode (bs : bytes) : bs <> [] -> truthy (Some (toBase64 bs)) = Some (toBase64 bs).
Proof.
  intros Hne. unfold truthy, toBase64.
  pose proof (encode_nonempty bs Hne). now destruct (Base64.encode bs).
Qed.

(** Wrapping under the derived key, the stored layout, and unlocking. *)
Lemma wrap_then_unlock `{Argon2id} (passphrase : jsstring)
    (salt masterKey : bytes) (access refresh : jsstring) (g : Rng) :
  length salt = 16%nat -> bytes_ok salt ->
  length masterKey = 32%nat -> bytes_ok masterKey ->
  exists derivedKey e blob credentials g',
    deriveKeyFromPassphrase passphrase salt = Some derivedKey
    /\ encryptMasterKey masterKey (dk_key derivedKey) g = Some (e, g')
    /\ wrap_and_store passphrase salt masterKey access refresh g = Some (credentials, g')
    /\ encryptedMasterKey credentials = Some (toBase64 blob)
    /\ Vault.salt credentials = Some (toBase64 salt)
    /\ blob = emk_iv e ++ emk_tag e ++ emk_encrypted e
    /\ slice blob 0 12 = emk_iv e
    /\ slice blob 12 28 = emk_tag e
    /\ slice_from blob 28 = emk_encrypted e
    /\ getMasterKey passphrase (Some credentials) = Some masterKey.
Proof.
  intros Hsl Hsb Hml Hmb.
  destruct (derive_total passphrase salt ltac:(lia)) as (key & Hd & Hk).
  destruct (fresh_iv g) as [Hil Hib].
  set (i := (generateRandomBytes AES_IV_LENGTH g).1) in *.
  set (ct := GCM.ctr key i masterKey).
  set (t := GCM.tag key i ct).
  destruct (tag_ok key i ct Hk Hib) as [Htl Htb].
  assert (Hcb : bytes_ok ct) by (now apply ctr_ok).
  assert (He : encryptMasterKey masterKey key g
               = Some (mkEncryptedMasterKey ct i t, (generateRandomBytes AES_IV_LENGTH g).2)).
  { unfold encryptMasterKey. now rewrite encrypt_spec by apply Hk. }
  destruct (blob_slices i t ct Hil Htl) as (S1 & S2 & S3).
  exists (mkDerivedKey key salt), (mkEncryptedMasterKey ct i t), (i ++ t ++ ct).
  eexists _, _.
  split; [exact Hd|]. split; [exact He|].
  split; [unfold wrap_and_store; rewrite Hd; cbn [dk_key]; rewrite He, combine_spec;
          reflexivity|].
  cbn [encryptedMasterKey Vault.salt emk_iv emk_tag emk_encrypted].
  do 6 (split; [reflexivity || assumption|]).
  unfold getMasterKey. cbn [encryptedMasterKey Vault.salt].
  rewrite !truthy_encode.
  - unfold fromBase64, toBase64. rewrite !decode_encode.
    + rewrite Hd, S1, S2, S3. cbn [dk_key]. unfold decryptMasterKey.
      subst t. rewrite decrypt_spec by assumption. f_equal. now apply ctr_involutive.
    + unfold bytes_ok in *. rewrite !Forall_app. auto.
    + exact Hsb.
  - intros ->. discriminate.
  - destruct i; [discriminate|]. discriminate.
Qed.

End VaultFacts.

Module VaultClaims.
Import Vault AESFacts GCMFacts Base64Facts CryptoFacts VaultFacts.

(** C3.  For every passphrase, every 16-byte salt and every 32-byte master
    key: onboarding derives a key from passphrase and salt, wraps the master
    key under it and stores the base64 of one blob, which is the iv in
    bytes [0,12), the tag in bytes [12,28) and the ciphertext from byte 28
    on; [getMasterKey] with the same passphrase, reading the stored salt
    and slicing the stored blob at these offsets, returns the master
    key. *)
Theorem unlock_returns_master_key `{Argon2id} (passphrase : jsstring)
    (salt masterKey : bytes) (access refresh : jsstring) (g : Rng) :
  length salt = 16%nat -> bytes_ok salt ->
  length masterKey = 32%nat -> bytes_ok masterKey ->
  exists derivedKey e blob credentials g',
    deriveKeyFromPassphrase passphrase salt = Some derivedKey
    /\ encryptMasterKey masterKey (dk_key derivedKey) g = Some (e, g')
    /\ wrap_and_store passphrase salt masterKey access refresh g = Some (credentials, g')
    /\ encryptedMasterKey credentials = Some (toBase64 blob)
    /\ Vault.salt credentials = Some (toBase64 salt)
    /\ blob = emk_iv e ++ emk_tag e ++ emk_encrypted e
    /\ slice blob 0 12 = emk_iv e
    /\ slice blob 12 28 = emk_tag e
    /\ slice_from blob 28 = emk_encrypted e
    /\ getMasterKey passphrase (Some credentials) = Some masterKey.
Proof. apply wrap_then_unlock. Qed.

(** X19.  With the salt and the master key that onboarding draws itself:
    whatever the random source yields, the key generation of
    [runOnboarding] completes, the master key it draws has 32 bytes, and
    [getMasterKey] with the same passphrase returns that master key from
    the credentials that were saved. *)
Corollary generated_vault_unlocks `{Argon2id} (passphrase access refresh : jsstring)
    (g : Rng) :
  exists masterKey credentials g',
    generate_keys passphrase access refresh g = Some (masterKey, credentials, g')
    /\ length masterKey = 32%nat
    /\ getMasterKey passphrase (Some credentials) = Some masterKey.
Proof.
  unfold generate_keys, generateSalt, generateMasterKey.
  pose proof (generateRandomBytes_length ARGON2_SALT_LENGTH g) as Hsl.
  pose proof (generateRandomBytes_ok ARGON2_SALT_LENGTH g) as Hsb.
  destruct (generateRandomBytes ARGON2_SALT_LENGTH g) as [salt g1]. cbn [fst] in *.
  pose proof (generateRandomBytes_length AES_KEY_LENGTH g1) as Hml.
  pose proof (generateRandomBytes_ok AES_KEY_LENGTH g1) as Hmb.
  destruct (generateRandomBytes AES_KEY_LENGTH g1) as [masterKey g2]. cbn [fst] in *.
  destruct (generateRecoveryKey g2) as [recoveryKey g3].
  destruct (wrap_then_unlock passphrase salt masterKey access refresh g3
              Hsl Hsb Hml Hmb)
    as (dk & e & blob & credentials & g4 & _ & _ & Hw & _ & _ & _ & _ & _ & _ & Hu).
  exists masterKey, credentials, g4. now rewrite Hw.
Qed.

(** A key derivation to run the examples with.  It is not Argon2id; it only
    obeys the same interface: no key for a salt under 8 bytes, otherwise
    [dkLen] bytes taken from the SHA-256 of password and salt. *)
Definition example_kdf (password salt : bytes) (t m p : Z) (dkLen : nat) : option bytes :=
  if (length salt <? 8)%nat then None
  else
    let d := SHA256.digest (password ++ salt) in
    Some (map (fun i => nth (i mod 32) d 0 mod 256) (seq 0 dkLen)).

Lemma example_kdf_length password salt t m p dkLen :
  (8 <= length salt)%nat -> 1 <= t -> 1 <= p -> 8 * p <= m -> (4 <= dkLen)%nat ->
  exists key, example_kdf password salt t m p dkLen = Some key /\ length key = dkLen.
Proof.
  intros Hs _ _ _ _. unfold example_kdf.
  assert (E : (length salt <? 8)%nat = false) by (apply Nat.ltb_ge; lia). rewrite E.
  eexists. split; [reflexivity|]. now rewrite length_map, length_seq.
Qed.

Lemma example_kdf_bytes password salt t m p dkLen key :
  example_kdf password salt t m p dkLen = Some key -> bytes_ok key.
Proof.
  unfold example_kdf. destruct (length salt <? 8)%nat; [discriminate|].
  intros [= <-]. apply List.Forall_forall. intros b Hb.
  apply in_map_iff in Hb as (i & <- & _). unfold byte_ok.
  apply Z.mod_pos_bound. lia.
Qed.

Definition example_argon2id : Argon2id :=
  Build_Argon2id example_kdf example_kdf_length example_kdf_bytes.

Definition salt16 : bytes := map Z.of_nat (seq 100 16).

Lemma unlock_returns_master_key_witness :
  exists derivedKey e blob credentials g',
    @deriveKeyFromPassphrase example_argon2id (js "correct horse") salt16 = Some derivedKey
    /\ encryptMasterKey key32 (dk_key derivedKey) rng0 = Some (e, g')
    /\ @wrap_and_store example_argon2id (js "correct horse") salt16 key32
         (js "access") (js "refresh") rng0 = Some (credentials, g')
    /\ encryptedMasterKey credentials = Some (toBase64 blob)
    /\ Vault.salt credentials = Some (toBase64 salt16)
    /\ blob = emk_iv e ++ emk_tag e ++ emk_encrypted e
    /\ slice blob 0 12 = emk_iv e
    /\ slice blob 12 28 = emk_tag e
    /\ slice_from blob 28 = emk_encrypted e
    /\ @getMasterKey example_argon2id (js "correct horse") (Some credentials) = Some key32.
Proof.
  apply (@unlock_returns_master_key example_argon2id (js "correct horse") salt16 key32
           (js "access") (js "refresh") rng0).
  - reflexivity.
  - apply Bits.bytes_okb_spec. vm_compute. reflexivity.
  - reflexivity.
  - apply Bits.bytes_okb_spec. vm_compute. reflexivity.
Defined.

End VaultClaims.

(** ** The version chain on the server *)

Module ServerFacts.
Import Server.

Definition current_pointer (db : Db) (userId skillKey : jsstring) : option jsstring :=
  match findSkillByKey db userId skillKey with
  | Some s => sk_currentHash s
  | None => None
  end.

Definition stored_version (db : Db) (userId skillKey hash : jsstring)
    : option SkillVersionRow :=
  match findSkillByKey db userId skillKey with
  | Some s => findSkillVersion db (sk_id s) hash
  | None => None
  end.

Definition count_versions (db : Db) (skillId : Z) (hash : jsstring) : nat :=
  length (List.filter (version_matches skillId hash) (db_skillVersions db)).

Definition valid_body (b : PushBody) : Prop :=
  pb_hash b <> [] /\ pb_encryptedData b <> [] /\ pb_iv b <> [] /\ pb_tag b <> [].

Lemma falsy_false (s : jsstring) : s <> [] -> falsy s = false.
Proof.
  intros H. unfold falsy. destruct (jseqb s []) eqn:E; [|reflexivity].
  apply jseqb_eq in E. contradiction.
Qed.

Lemma valid_body_check (b : PushBody) :
  valid_body b ->
  falsy (pb_hash b) || falsy (pb_encryptedData b) || falsy (pb_iv b) || falsy (pb_tag b)
  = false.
Proof. intros (H1 & H2 & H3 & H4). now rewrite !falsy_false. Qed.

Lemma version_matches_key (id : Z) (h : jsstring) (v : SkillVersionRow) :
  version_matches id h v = true <-> version_key v = (id, h).
Proof.
  unfold version_matches, version_key.
  rewrite andb_true_iff, Z.eqb_eq, jseqb_eq. split.
  - now intros [-> ->].
  - intros H; injection H; auto.
Qed.

Lemma version_matches_refl (v : SkillVersionRow) :
  version_matches (sv_skillId v) (sv_hash v) v = true.
Proof. now apply version_matches_key. Qed.

Lemma skill_matches_spec (u k : jsstring) (r : SkillRow) :
  skill_matches u k r = true <-> skill_key_pair r = (u, k).
Proof.
  unfold skill_matches, skill_key_pair.
  rewrite andb_true_iff, !jseqb_eq. split.
  - now intros [-> ->].
  - intros H; injection H; auto.
Qed.

Section ListFacts.
Context {A : Type}.

Lemma find_none_existsb (f : A -> bool) (l : list A) :
  List.find f l = None <-> existsb f l = false.
Proof.
  induction l as [|x l IH]; simpl; [easy|].
  destruct (f x); simpl; [easy | exact IH].
Qed.

Lemma find_app_none (f : A -> bool) (l1 l2 : list A) :
  List.find f l1 = None -> List.find f (l1 ++ l2) = List.find f l2.
Proof.
  induction l1 as [|x l1 IH]; simpl; [easy|].
  destruct (f x); [discriminate | exact IH].
Qed.

Lemma find_app_some (f : A -> bool) (l1 l2 : list A) (x : A) :
  List.find f l1 = Some x -> List.find f (l1 ++ l2) = Some x.
Proof.
  induction l1 as [|y l1 IH]; simpl; [discriminate|].
  destruct (f y); [easy | exact IH].
Qed.

(** A map that keeps what the predicate reads commutes with [find]. *)
Lemma find_map_same (f : A -> bool) (g : A -> A) (l : list A) :
  (forall x, f (g x) = f x) ->
  List.find f (map g l) = option_map g (List.find f l).
Proof.
  intros Hg. induction l as [|x l IH]; simpl; [reflexivity|].
  rewrite Hg. destruct (f x); [reflexivity | exact IH].
Qed.

Lemma filter_map_same (f : A -> bool) (g : A -> A) (l : list A) :
  (forall x, f (g x) = f x) ->
  List.filter f (map g l) = map g (List.filter f l).
Proof.
  intros Hg. induction l as [|x l IH]; simpl; [reflexivity|].
  rewrite Hg. destruct (f x); simpl; now rewrite IH.
Qed.

Lemma filter_none (f : A -> bool) (l : list A) :
  existsb f l = false -> List.filter f l = [].
Proof.
  induction l as [|x l IH]; simpl; [reflexivity|].
  destruct (f x); simpl; [discriminate | exact IH].
Qed.

(** With distinct keys, at most one element carries a given key. *)
Lemma filter_key_le_1 {K : Type} (key : A -> K) (f : A -> bool) (k : K) (l : list A) :
  (forall x, f x = true <-> key x = k) ->
  List.NoDup (map key l) ->
  (length (List.filter f l) <= 1)%nat.
Proof.
  intros Hf. induction l as [|x l IH]; simpl; intros Hnd; [lia|].
  apply NoDup_cons_iff in Hnd as [Hx Hnd]. specialize (IH Hnd).
  destruct (f x) eqn:E; [|exact IH]. simpl.
  apply Hf in E.
  assert (existsb f l = false) as Hno.
  { apply not_true_is_false. intros Hex.
    apply existsb_exists in Hex as (y & Hy & Hfy).
    apply Hf in Hfy. apply Hx. rewrite E, <- Hfy. now apply in_map. }
  rewrite filter_none by assumption. simpl. lia.
Qed.

Lemma filter_existsb_pos (f : A -> bool) (l : list A) :
  existsb f l = true -> (1 <= length (List.filter f l))%nat.
Proof.
  induction l as [|x l IH]; simpl; [discriminate|].
  destruct (f x); simpl; [lia | exact IH].
Qed.
End ListFacts.

(** *** The three writes, one at a time *)

Definition set_pointer (skillId : Z) (hash : jsstring) (now : Z) (r : SkillRow) : SkillRow :=
  if sk_id r =? skillId
  then mkSkillRow (sk_id r) (sk_userId r) (sk_skillKey r) (Some hash) (sk_createdAt r) now
  else r.

Lemma set_pointer_keeps_key id h now u k r :
  skill_matches u k (set_pointer id h now r) = skill_matches u k r.
Proof. unfold set_pointer. now destruct (sk_id r =? id). Qed.

Lemma set_pointer_keeps_id id h now r : sk_id (set_pointer id h now r) = sk_id r.
Proof. unfold set_pointer. now destruct (sk_id r =? id). Qed.

Lemma set_pointer_keeps_pair id h now r :
  skill_key_pair (set_pointer id h now r) = skill_key_pair r.
Proof. unfold set_pointer. now destruct (sk_id r =? id). Qed.

Lemma updateSkillCurrentHash_find db id h u k :
  findSkillByKey (updateSkillCurrentHash db id h) u k
  = option_map (set_pointer id h (db_clock db)) (findSkillByKey db u k).
Proof.
  unfold findSkillByKey, updateSkillCurrentHash. cbn [db_skills].
  apply (find_map_same _ (set_pointer id h (db_clock db))).
  intros x. apply set_pointer_keeps_key.
Qed.

Lemma updateSkillCurrentHash_pointer db (s : SkillRow) h u k :
  findSkillByKey db u k = Some s ->
  current_pointer (updateSkillCurrentHash db (sk_id s) h) u k = Some h.
Proof.
  intros Hs. unfold current_pointer.
  rewrite updateSkillCurrentHash_find, Hs. simpl.
  unfold set_pointer. now rewrite Z.eqb_refl.
Qed.

Definition set_envelope (skillId : Z) (hash e i t : jsstring) (v : SkillVersionRow)
    : SkillVersionRow :=
  if version_matches skillId hash v
  then mkSkillVersionRow (sv_hash v) (sv_skillId v) e i t
                         (sv_parentHash v) (sv_message v) (sv_createdAt v)
  else v.

Lemma set_envelope_keeps_key id h e i t v :
  version_key (set_envelope id h e i t v) = version_key v.
Proof. unfold set_envelope. now destruct (version_matches id h v). Qed.

Lemma set_envelope_keeps_match id h e i t id' h' v :
  version_matches id' h' (set_envelope id h e i t v) = version_matches id' h' v.
Proof. unfold set_envelope. now destruct (version_matches id h v). Qed.

(** What [createSkillVersion] does, case by case. *)
Lemma createSkillVersion_conflict db id h e i t p m v0 :
  findSkillVersion db id h = Some v0 ->
  createSkillVersion db id h e i t p m
  = Some (set_envelope id h e i t v0,
          mkDb (db_skills db) (map (set_envelope id h e i t) (db_skillVersions db))
               (db_clock db + 1) (db_nextId db)).
Proof.
  intros Hv. unfold createSkillVersion, findSkillVersion in *.
  assert (existsb (version_matches id h) (db_skillVersions db) = true) as ->.
  { destruct (existsb _ _) eqn:E; [reflexivity|].
    apply find_none_existsb in E. congruence. }
  change (fun v => if version_matches id h v then _ else v) with (set_envelope id h e i t).
  rewrite (find_map_same _ (set_envelope id h e i t)), Hv; [reflexivity|].
  intros x. apply set_envelope_keeps_match.
Qed.

Lemma createSkillVersion_insert db id h e i t p m :
  findSkillVersion db id h = None ->
  In id (map sk_id (db_skills db)) ->
  createSkillVersion db id h e i t p m
  = Some (mkSkillVersionRow h id e i t p m (db_clock db),
          mkDb (db_skills db)
               (db_skillVersions db ++ [mkSkillVersionRow h id e i t p m (db_clock db)])
               (db_clock db + 1) (db_nextId db)).
Proof.
  intros Hv Hid. unfold createSkillVersion, findSkillVersion in *.
  apply find_none_existsb in Hv. rewrite Hv.
  assert (existsb (fun r => sk_id r =? id) (db_skills db) = true) as ->; [|reflexivity].
  apply existsb_exists. apply in_map_iff in Hid as (r & Hr & Hin).
  exists r. split; [assumption|]. now apply Z.eqb_eq.
Qed.

Lemma count_after_conflict db id h e i t :
  length (List.filter (version_matches id h)
            (map (set_envelope id h e i t) (db_skillVersions db)))
  = count_versions db id h.
Proof.
  unfold count_versions.
  rewrite (filter_map_same _ (set_envelope id h e i t)).
  - apply length_map.
  - intros x. apply set_envelope_keeps_match.
Qed.

Lemma count_le_1 db id h :
  List.NoDup (map version_key (db_skillVersions db)) -> (count_versions db id h <= 1)%nat.
Proof.
  apply (filter_key_le_1 version_key _ (id, h)). intros x. apply version_matches_key.
Qed.

Lemma count_of_found db id h v0 :
  List.NoDup (map version_key (db_skillVersions db)) ->
  findSkillVersion db id h = Some v0 -> count_versions db id h = 1%nat.
Proof.
  intros Hnd Hv. pose proof (count_le_1 db id h Hnd) as Hle.
  assert (existsb (version_matches id h) (db_skillVersions db) = true) as Hex.
  { destruct (existsb _ _) eqn:E; [reflexivity|].
    apply find_none_existsb in E. unfold findSkillVersion in Hv. congruence. }
  apply filter_existsb_pos in Hex. unfold count_versions in *. lia.
Qed.

End ServerFacts.

(** *** Well-formedness is kept by every write *)

Module ServerInvariant.
Import Server ServerFacts.

Lemma empty_db_wf : db_wf empty_db.
Proof. split; simpl; constructor. Qed.

Lemma createSkill_result db u k :
  findSkillByKey db u k = None ->
  let row := mkSkillRow (db_nextId db) u k None (db_clock db) (db_clock db) in
  createSkill db u k
  = Some (row, mkDb (db_skills db ++ [row]) (db_skillVersions db)
                    (db_clock db + 1) (db_nextId db + 1)).
Proof. intros H. unfold createSkill. now rewrite H. Qed.

Lemma createSkill_wf db u k row db' :
  db_wf db -> createSkill db u k = Some (row, db') -> db_wf db'.
Proof.
  intros [Hids Hnd Hun Hfk Hpk Htm] Hc. unfold createSkill in Hc.
  destruct (findSkillByKey db u k) eqn:Hf; [discriminate|].
  injection Hc as <- <-. split; cbn [db_skills db_skillVersions db_clock db_nextId].
  - apply Forall_app. split.
    + eapply List.Forall_impl; [|exact Hids]. simpl. intros. lia.
    + repeat constructor. simpl. lia.
  - rewrite map_app. simpl. apply List.NoDup_app.
    + exact Hnd.
    + repeat constructor. intros [].
    + intros x Hx [Hy|[]]. subst x.
      apply in_map_iff in Hx as (r & Hr & Hin).
      rewrite List.Forall_forall in Hids. apply Hids in Hin. lia.
  - rewrite map_app. simpl. apply List.NoDup_app.
    + exact Hun.
    + repeat constructor. intros [].
    + intros x Hx [Hy|[]]. subst x.
      apply in_map_iff in Hx as (r & Hr & Hin).
      unfold findSkillByKey in Hf.
      apply (find_none _ _ Hf) in Hin.
      unfold skill_key_pair in Hr at 2. cbn in Hr.
      apply (proj2 (skill_matches_spec _ _ _)) in Hr. congruence.
  - eapply List.Forall_impl; [|exact Hfk]. simpl. intros v Hv.
    rewrite map_app. apply in_or_app. now left.
  - exact Hpk.
  - eapply List.Forall_impl; [|exact Htm]. simpl. intros. lia.
Qed.

Lemma map_set_pointer_ids id h now l :
  map sk_id (map (set_pointer id h now) l) = map sk_id l.
Proof. rewrite map_map. apply map_ext. intros. apply set_pointer_keeps_id. Qed.

Lemma map_set_pointer_pairs id h now l :
  map skill_key_pair (map (set_pointer id h now) l) = map skill_key_pair l.
Proof. rewrite map_map. apply map_ext. intros. apply set_pointer_keeps_pair. Qed.

Lemma updateSkillCurrentHash_eq db id h :
  updateSkillCurrentHash db id h
  = mkDb (map (set_pointer id h (db_clock db)) (db_skills db))
         (db_skillVersions db) (db_clock db + 1) (db_nextId db).
Proof. reflexivity. Qed.

Lemma updateSkillCurrentHash_wf db id h :
  db_wf db -> db_wf (updateSkillCurrentHash db id h).
Proof.
  intros [Hids Hnd Hun Hfk Hpk Htm]. rewrite updateSkillCurrentHash_eq.
  split; cbn [db_skills db_skillVersions db_clock db_nextId].
  - apply Forall_map. eapply List.Forall_impl; [|exact Hids].
    simpl. intros r Hr. now rewrite set_pointer_keeps_id.
  - now rewrite map_set_pointer_ids.
  - now rewrite map_set_pointer_pairs.
  - now rewrite map_set_pointer_ids.
  - exact Hpk.
  - eapply List.Forall_impl; [|exact Htm]. simpl. intros. lia.
Qed.

Lemma map_set_envelope_keys id h e i t l :
  map version_key (map (set_envelope id h e i t) l) = map version_key l.
Proof. rewrite map_map. apply map_ext. intros. apply set_envelope_keeps_key. Qed.

Lemma set_envelope_keeps_skillId id h e i t v :
  sv_skillId (set_envelope id h e i t v) = sv_skillId v.
Proof. unfold set_envelope. now destruct (version_matches id h v). Qed.

Lemma set_envelope_keeps_createdAt id h e i t v :
  sv_createdAt (set_envelope id h e i t v) = sv_createdAt v.
Proof. unfold set_envelope. now destruct (version_matches id h v). Qed.

Lemma set_envelope_keeps_parent id h e i t v :
  sv_parentHash (set_envelope id h e i t v) = sv_parentHash v.
Proof. unfold set_envelope. now destruct (version_matches id h v). Qed.

Lemma set_envelope_keeps_message id h e i t v :
  sv_message (set_envelope id h e i t v) = sv_message v.
Proof. unfold set_envelope. now destruct (version_matches id h v). Qed.

Lemma createSkillVersion_wf db id h e i t p m row db' :
  db_wf db -> createSkillVersion db id h e i t p m = Some (row, db') -> db_wf db'.
Proof.
  intros [Hids Hnd Hun Hfk Hpk Htm] Hc.
  destruct (findSkillVersion db id h) as [v0|] eqn:Hv.
  - rewrite (createSkillVersion_conflict _ _ _ _ _ _ _ _ _ Hv) in Hc.
    injection Hc as <- <-.
    split; cbn [db_skills db_skillVersions db_clock db_nextId]; try assumption.
    + apply Forall_map. eapply List.Forall_impl; [|exact Hfk].
      simpl. intros v Hin. now rewrite set_envelope_keeps_skillId.
    + now rewrite map_set_envelope_keys.
    + apply Forall_map. eapply List.Forall_impl; [|exact Htm].
      simpl. intros v Hlt. rewrite set_envelope_keeps_createdAt. lia.
  - unfold createSkillVersion in Hc. unfold findSkillVersion in Hv.
    pose proof Hv as Hex. apply find_none_existsb in Hex. rewrite Hex in Hc.
    destruct (existsb (fun r => sk_id r =? id) (db_skills db)) eqn:Hsk; [|discriminate].
    injection Hc as <- <-.
    split; cbn [db_skills db_skillVersions db_clock db_nextId]; try assumption.
    + apply Forall_app. split; [exact Hfk|]. repeat constructor. simpl.
      apply existsb_exists in Hsk as (r & Hr & Heq). apply Z.eqb_eq in Heq.
      apply in_map_iff. now exists r.
    + rewrite map_app. simpl. apply List.NoDup_app.
      * exact Hpk.
      * repeat constructor. intros [].
      * intros x Hx [Hy|[]]. subst x.
        apply in_map_iff in Hx as (v & Hk & Hin).
        apply (find_none _ _ Hv) in Hin.
        unfold version_key in Hk at 2. cbn in Hk.
        apply (proj2 (version_matches_key _ _ _)) in Hk. congruence.
    + apply Forall_app. split.
      * eapply List.Forall_impl; [|exact Htm]. simpl. intros. lia.
      * repeat constructor. simpl. lia.
Qed.

Lemma post_version_wf db u k b :
  db_wf db -> db_wf (post_version db u k b).2.
Proof.
  intros Hwf. unfold post_version.
  destruct (_ || _ || _ || _); [exact Hwf|].
  destruct (findSkillByKey db u k) as [s|] eqn:Hs.
  - destruct (createSkillVersion _ _ _ _ _ _ _ _) as [[v db2]|] eqn:Hc; [|exact Hwf].
    apply updateSkillCurrentHash_wf. eapply createSkillVersion_wf; eauto.
  - destruct (createSkill db u k) as [[s db1]|] eqn:Hcs; [|exact Hwf].
    pose proof (createSkill_wf _ _ _ _ _ Hwf Hcs) as Hwf1.
    destruct (createSkillVersion _ _ _ _ _ _ _ _) as [[v db2]|] eqn:Hc; [|exact Hwf1].
    apply updateSkillCurrentHash_wf. eapply createSkillVersion_wf; eauto.
Qed.

Lemma post_version_crash_wf db u k b :
  db_wf db -> db_wf (post_version_crash db u k b).
Proof.
  intros Hwf. unfold post_version_crash.
  destruct (_ || _ || _ || _); [exact Hwf|].
  destruct (findSkillByKey db u k) as [s|] eqn:Hs.
  - destruct (createSkillVersion _ _ _ _ _ _ _ _) as [[v db2]|] eqn:Hc; [|exact Hwf].
    eapply createSkillVersion_wf; eauto.
  - destruct (createSkill db u k) as [[s db1]|] eqn:Hcs; [|exact Hwf].
    pose proof (createSkill_wf _ _ _ _ _ Hwf Hcs) as Hwf1.
    destruct (createSkillVersion _ _ _ _ _ _ _ _) as [[v db2]|] eqn:Hc; [|exact Hwf1].
    eapply createSkillVersion_wf; eauto.
Qed.

End ServerInvariant.

(** *** createSkillVersion and POST /skills/:skillKey/versions *)

Module VersionChain.
Import Server ServerFacts ServerInvariant.

(** What one call of [createSkillVersion] stores. *)
Record version_written (db db' : Db) (id : Z) (h e i t : jsstring)
    (p m : option jsstring) (v : SkillVersionRow) : Prop := mk_version_written {
  vw_stored : findSkillVersion db' id h = Some v;
  vw_hash : sv_hash v = h;
  vw_skill : sv_skillId v = id;
  vw_data : sv_encryptedData v = e;
  vw_iv : sv_iv v = i;
  vw_tag : sv_tag v = t;
  vw_first :
    match findSkillVersion db id h with
    | None => sv_parentHash v = p /\ sv_message v = m /\ sv_createdAt v = db_clock db
    | Some v0 => sv_parentHash v = sv_parentHash v0 /\ sv_message v = sv_message v0
                 /\ sv_createdAt v = sv_createdAt v0
    end;
  vw_count :
    List.NoDup (map version_key (db_skillVersions db)) -> count_versions db' id h = 1%nat;
  vw_skills : db_skills db' = db_skills db;
  vw_frame : forall id' h', (id', h') <> (id, h) ->
    findSkillVersion db' id' h' = findSkillVersion db id' h'
}.

Lemma createSkillVersion_spec db id h e i t p m :
  In id (map sk_id (db_skills db)) ->
  exists v db', createSkillVersion db id h e i t p m = Some (v, db')
    /\ version_written db db' id h e i t p m v.
Proof.
  intros Hid. destruct (findSkillVersion db id h) as [v0|] eqn:Hv.
  - rewrite (createSkillVersion_conflict _ _ _ _ _ _ _ _ _ Hv).
    eexists _, _. split; [reflexivity|].
    pose proof Hv as Hm. unfold findSkillVersion in Hm.
    apply find_some in Hm as [Hin Hm].
    assert (Hse : set_envelope id h e i t v0
                  = mkSkillVersionRow (sv_hash v0) (sv_skillId v0) e i t
                      (sv_parentHash v0) (sv_message v0) (sv_createdAt v0)).
    { unfold set_envelope. now rewrite Hm. }
    apply version_matches_key in Hm. unfold version_key in Hm.
    injection Hm as Hm1 Hm2.
    split; rewrite ?Hv; try (rewrite Hse; cbn; easy).
    + unfold findSkillVersion. cbn [db_skillVersions].
      rewrite (find_map_same _ (set_envelope id h e i t)).
      * unfold findSkillVersion in Hv. now rewrite Hv.
      * intros x. apply set_envelope_keeps_match.
    + intros Hnd. unfold count_versions at 1. cbn [db_skillVersions].
      rewrite count_after_conflict. eapply count_of_found; eauto.
    + reflexivity.
    + intros id' h' Hne. unfold findSkillVersion. cbn [db_skillVersions].
      rewrite (find_map_same _ (set_envelope id h e i t)).
      2:{ intros x. apply set_envelope_keeps_match. }
      destruct (List.find _ _) as [v'|] eqn:Hv'; [|reflexivity].
      simpl. f_equal. apply find_some in Hv' as [_ Hm'].
      apply version_matches_key in Hm'. unfold set_envelope.
      destruct (version_matches id h v') eqn:Hmm; [|reflexivity].
      apply version_matches_key in Hmm. congruence.
  - rewrite (createSkillVersion_insert _ _ _ _ _ _ _ _ Hv Hid).
    eexists _, _. split; [reflexivity|].
    unfold findSkillVersion in Hv.
    split; try reflexivity.
    + unfold findSkillVersion. cbn [db_skillVersions].
      rewrite find_app_none by assumption. simpl.
      unfold version_matches. cbn. now rewrite Z.eqb_refl, jseqb_refl.
    + unfold findSkillVersion. rewrite Hv. cbn. easy.
    + intros _. unfold count_versions. cbn [db_skillVersions].
      rewrite List.filter_app, filter_none by now apply find_none_existsb.
      simpl. unfold version_matches. cbn. now rewrite Z.eqb_refl, jseqb_refl.
    + intros id' h' Hne. unfold findSkillVersion. cbn [db_skillVersions].
      destruct (List.find (version_matches id' h') (db_skillVersions db)) eqn:Hv'.
      * now apply find_app_some.
      * rewrite find_app_none by assumption. simpl.
        destruct (version_matches id' h' _) eqn:Hmm; [|reflexivity].
        apply version_matches_key in Hmm. unfold version_key in Hmm. cbn in Hmm.
        congruence.
Qed.

(** The skill that the handler finds or creates. *)
Lemma resolve_skill db u k :
  db_wf db ->
  exists s db1,
    match findSkillByKey db u k with
    | Some skill => Some (skill, db)
    | None => createSkill db u k
    end = Some (s, db1)
    /\ findSkillByKey db1 u k = Some s
    /\ db_wf db1
    /\ sk_currentHash s = current_pointer db u k
    /\ (forall h, findSkillVersion db1 (sk_id s) h
                  = stored_version db u k h).
Proof.
  intros Hwf. unfold current_pointer, stored_version.
  destruct (findSkillByKey db u k) as [s|] eqn:Hs.
  - exists s, db. split; [reflexivity|]. split; [exact Hs|].
    split; [exact Hwf|]. split; reflexivity.
  - rewrite createSkill_result by assumption. cbv zeta.
    eexists _, _. split; [reflexivity|].
    assert (Hc := createSkill_result db u k Hs). cbv zeta in Hc.
    split; [|split; [|split; [reflexivity|]]].
    + unfold findSkillByKey in *. cbn [db_skills].
      rewrite find_app_none by assumption. simpl.
      unfold skill_matches. cbn. now rewrite !jseqb_refl.
    + eapply createSkill_wf; eauto.
    + intros h. cbn [sk_id]. unfold findSkillVersion. cbn [db_skillVersions].
      apply find_none_existsb. apply not_true_is_false. intros Hex.
      apply existsb_exists in Hex as (v & Hin & Hm).
      apply version_matches_key in Hm. unfold version_key in Hm.
      injection Hm as Hid _.
      destruct Hwf as [Hids _ _ Hfk _ _].
      rewrite List.Forall_forall in Hfk, Hids.
      apply Hfk in Hin. apply in_map_iff in Hin as (r & Hr & Hin).
      apply Hids in Hin. lia.
Qed.

(** A push whose body has its four fields: the answer, the pointer and the
    stored version. *)
Lemma post_version_spec db u k b :
  db_wf db -> valid_body b ->
  exists s db1 v db2,
    post_version db u k b
    = (Json (mkPushVersionResponse (sk_id s) (sv_hash v) (sv_parentHash v) (sv_createdAt v)),
       updateSkillCurrentHash db2 (sk_id s) (pb_hash b))
    /\ findSkillByKey db1 u k = Some s
    /\ sk_currentHash s = current_pointer db u k
    /\ (forall h, findSkillVersion db1 (sk_id s) h = stored_version db u k h)
    /\ db_wf db1
    /\ version_written db1 db2 (sk_id s) (pb_hash b) (pb_encryptedData b) (pb_iv b)
         (pb_tag b) (sk_currentHash s) (pb_message b) v.
Proof.
  intros Hwf Hb. unfold post_version. rewrite valid_body_check by assumption.
  destruct (resolve_skill db u k Hwf) as (s & db1 & -> & Hs & Hwf1 & Hp & Hst).
  pose proof Hs as Hin. unfold findSkillByKey in Hin.
  apply find_some in Hin as [Hin _].
  destruct (createSkillVersion_spec db1 (sk_id s) (pb_hash b) (pb_encryptedData b)
              (pb_iv b) (pb_tag b) (sk_currentHash s) (pb_message b))
    as (v & db2 & -> & Hw).
  { now apply in_map. }
  exists s, db1, v, db2. split; [reflexivity|]. auto 10.
Qed.

Lemma pointer_after_push db1 db2 u k s h :
  findSkillByKey db1 u k = Some s -> db_skills db2 = db_skills db1 ->
  current_pointer (updateSkillCurrentHash db2 (sk_id s) h) u k = Some h.
Proof.
  intros Hs Hsk. apply updateSkillCurrentHash_pointer.
  unfold findSkillByKey in *. now rewrite Hsk.
Qed.

Lemma stored_after_push db1 db2 u k s h h' :
  findSkillByKey db1 u k = Some s -> db_skills db2 = db_skills db1 ->
  stored_version (updateSkillCurrentHash db2 (sk_id s) h) u k h'
  = findSkillVersion db2 (sk_id s) h'.
Proof.
  intros Hs Hsk. unfold stored_version.
  rewrite updateSkillCurrentHash_find.
  unfold findSkillByKey in *. rewrite Hsk, Hs. simpl.
  now rewrite set_pointer_keeps_id.
Qed.

End VersionChain.

(** *** The claims about the version chain *)

Module VersionChainClaims.
Import Server ServerFacts ServerInvariant VersionChain.

Definition user1 : jsstring := js "user-1".
Definition deploy_key : jsstring := js "skill:deploy".
Definition body_of (hash data : string) (message : option jsstring) : PushBody :=
  mkPushBody (js hash) (js data) (js "aXYxMjM0NTY3ODkw") (js "dGFnMTIzNDU2Nzg5MDEyMw==") message.




(** C6 (as amended).  [createSkillVersion] is idempotent on the pair
    (skillId, hash): calling it twice for the same skill and hash succeeds
    both times and leaves exactly one stored version for that hash; the
    second call replaces the stored envelope (encryptedData, iv, tag), while
    message, parentHash and createdAt stay as first stored, and every other
    version is untouched. *)
Theorem createSkillVersion_idempotent (db : Db) (id : Z) (h e1 i1 t1 e2 i2 t2 : jsstring)
    (p1 m1 p2 m2 : option jsstring) :
  db_wf db -> In id (map sk_id (db_skills db)) ->
  exists v1 db1 v2 db2,
    createSkillVersion db id h e1 i1 t1 p1 m1 = Some (v1, db1)
    /\ createSkillVersion db1 id h e2 i2 t2 p2 m2 = Some (v2, db2)
    /\ count_versions db2 id h = 1%nat
    /\ findSkillVersion db2 id h = Some v2
    /\ (sv_encryptedData v2 = e2 /\ sv_iv v2 = i2 /\ sv_tag v2 = t2)
    /\ (sv_message v2 = sv_message v1 /\ sv_parentHash v2 = sv_parentHash v1
        /\ sv_createdAt v2 = sv_createdAt v1)
    /\ (forall id' h', (id', h') <> (id, h) ->
          findSkillVersion db2 id' h' = findSkillVersion db1 id' h').
Proof.
  intros Hwf Hid.
  destruct (createSkillVersion_spec db id h e1 i1 t1 p1 m1 Hid) as (v1 & db1 & Hc1 & Hw1).
  assert (Hwf1 : db_wf db1) by (eapply createSkillVersion_wf; eauto).
  destruct Hw1 as [Hst1 _ _ _ _ _ _ _ Hsk1 _].
  destruct (createSkillVersion_spec db1 id h e2 i2 t2 p2 m2) as (v2 & db2 & Hc2 & Hw2).
  { now rewrite Hsk1. }
  destruct Hw2 as [Hst2 _ _ Hd2 Hi2 Ht2 Hfirst2 Hcount2 _ Hframe2].
  rewrite Hst1 in Hfirst2.
  exists v1, db1, v2, db2. repeat split; try tauto.
  apply Hcount2. apply Hwf1.
Qed.

Definition one_skill_db : Db :=
  match createSkill empty_db user1 deploy_key with
  | Some (_, db) => db
  | None => empty_db
  end.

Lemma one_skill_db_wf : db_wf one_skill_db.
Proof.
  unfold one_skill_db.
  destruct (createSkill empty_db user1 deploy_key) as [[s db]|] eqn:E.
  - eapply createSkill_wf; [exact empty_db_wf | exact E].
  - exact empty_db_wf.
Qed.

Lemma createSkillVersion_idempotent_witness :
  exists v1 db1 v2 db2,
    createSkillVersion one_skill_db 0 (js "aaaaaaaa") (js "QQ==") (js "aXYx") (js "dGFnMQ==")
      None (Some (js "first")) = Some (v1, db1)
    /\ createSkillVersion db1 0 (js "aaaaaaaa") (js "Qg==") (js "aXYy") (js "dGFnMg==")
         (Some (js "aaaaaaaa")) (Some (js "retry")) = Some (v2, db2)
    /\ count_versions db2 0 (js "aaaaaaaa") = 1%nat
    /\ findSkillVersion db2 0 (js "aaaaaaaa") = Some v2
    /\ (sv_encryptedData v2 = js "Qg==" /\ sv_iv v2 = js "aXYy" /\ sv_tag v2 = js "dGFnMg==")
    /\ (sv_message v2 = sv_message v1 /\ sv_parentHash v2 = sv_parentHash v1
        /\ sv_createdAt v2 = sv_createdAt v1)
    /\ (forall id' h', (id', h') <> (0, js "aaaaaaaa") ->
          findSkillVersion db2 id' h' = findSkillVersion db1 id' h').
Proof.
  apply (createSkillVersion_idempotent one_skill_db 0 (js "aaaaaaaa")).
  - exact one_skill_db_wf.
  - simpl. left. reflexivity.
Defined.

(** C6 as stated fails on the message: after a second push of the same hash
    with another message, the stored message is still the first one. *)
Lemma second_push_keeps_first_message :
  let first := createSkillVersion one_skill_db 0 (js "aaaaaaaa") (js "QQ==") (js "aXYx")
                 (js "dGFnMQ==") None (Some (js "first")) in
  let db1 := match first with Some (_, d) => d | None => one_skill_db end in
  let second := createSkillVersion db1 0 (js "aaaaaaaa") (js "Qg==") (js "aXYy")
                  (js "dGFnMg==") None (Some (js "retry")) in
  let db2 := match second with Some (_, d) => d | None => db1 end in
  option_map sv_message (findSkillVersion db2 0 (js "aaaaaaaa")) = Some (Some (js "first"))
  /\ option_map sv_encryptedData (findSkillVersion db2 0 (js "aaaaaaaa")) = Some (js "Qg==")
  /\ option_map (fun r => sv_message r.1) second = Some (Some (js "first"))
  /\ count_versions db2 0 (js "aaaaaaaa") = 1%nat.
Proof. vm_compute. repeat split; reflexivity. Qed.

(** GET /skills/:skillKey answers with the version the pointer names. *)
Lemma get_skill_follows_pointer (db : Db) (u k : jsstring) (r : SkillResponse) :
  get_skill db u k = Json r -> current_pointer db u k = Some (sr_hash r).
Proof.
  unfold get_skill, current_pointer.
  destruct (findSkillByKey db u k) as [s|]; [|discriminate].
  destruct (sk_currentHash s) as [c|]; [|discriminate].
  destruct (falsy c); [discriminate|].
  destruct (findSkillVersion db (sk_id s) c) as [v|] eqn:Hv; [|discriminate].
  intros H. injection H as <-. cbn.
  unfold findSkillVersion in Hv. apply find_some in Hv as [_ Hm].
  apply version_matches_key in Hm. unfold version_key in Hm. congruence.
Qed.

(** A crashed push stores the version and leaves the pointer where it was. *)
Lemma post_version_crash_spec db u k b :
  db_wf db -> valid_body b ->
  current_pointer (post_version_crash db u k b) u k = current_pointer db u k
  /\ exists s v,
       findSkillByKey (post_version_crash db u k b) u k = Some s
       /\ findSkillVersion (post_version_crash db u k b) (sk_id s) (pb_hash b) = Some v.
Proof.
  intros Hwf Hb. unfold post_version_crash. rewrite valid_body_check by assumption.
  destruct (resolve_skill db u k Hwf) as (s & db1 & -> & Hs & Hwf1 & Hp & Hst).
  pose proof Hs as Hin. unfold findSkillByKey in Hin. apply find_some in Hin as [Hin _].
  destruct (createSkillVersion_spec db1 (sk_id s) (pb_hash b) (pb_encryptedData b)
              (pb_iv b) (pb_tag b) (sk_currentHash s) (pb_message b))
    as (v & db2 & -> & Hw); [now apply in_map|].
  destruct Hw as [Hstored _ _ _ _ _ _ _ Hsk _].
  assert (Hs2 : findSkillByKey db2 u k = Some s).
  { unfold findSkillByKey in *. now rewrite Hsk. }
  split.
  - unfold current_pointer at 1. now rewrite Hs2.
  - exists s, v. split; assumption.
Qed.

(** C8 (as amended).  When a crash between version creation and the pointer
    update leaves a version recorded but not current, the read paths keep
    following the pointer: GET /skills/:skillKey answers with the version the
    pointer names, and the pointer is where it was before the crashed push.
    Nothing recomputes the pointer from the version list.  The inconsistency
    ends when the push is sent again: the retry of the same hash succeeds,
    keeps one stored version for it, and moves the pointer to it. *)
Theorem crashed_push_heals_on_retry (db : Db) (u k : jsstring) (b b' : PushBody) :
  db_wf db -> valid_body b -> valid_body b' -> pb_hash b' = pb_hash b ->
  let dbc := post_version_crash db u k b in
  current_pointer dbc u k = current_pointer db u k
  /\ (exists v, stored_version dbc u k (pb_hash b) = Some v)
  /\ (forall r, get_skill dbc u k = Json r -> current_pointer db u k = Some (sr_hash r))
  /\ exists r db' s,
       post_version dbc u k b' = (Json r, db')
       /\ findSkillByKey db' u k = Some s
       /\ sk_currentHash s = Some (pb_hash b)
       /\ count_versions db' (sk_id s) (pb_hash b) = 1%nat.
Proof.
  intros Hwf Hb Hb' Hh dbc.
  destruct (post_version_crash_spec db u k b Hwf Hb) as (Hptr & s & v & Hs & Hv).
  fold dbc in Hptr, Hs, Hv.
  assert (Hwfc : db_wf dbc) by now apply post_version_crash_wf.
  split; [exact Hptr|].
  split; [exists v; unfold stored_version; now rewrite Hs|].
  split.
  { intros r Hr. rewrite <- Hptr. now apply get_skill_follows_pointer. }
  destruct (post_version_spec dbc u k b' Hwfc Hb')
    as (s' & db1 & v' & db2 & -> & Hs' & Hp' & Hst' & Hwf1 & Hw).
  destruct Hw as [_ _ _ _ _ _ _ Hcount Hsk _].
  eexists _, _, _. split; [reflexivity|].
  rewrite updateSkillCurrentHash_find.
  assert (Hs2 : findSkillByKey db2 u k = Some s').
  { unfold findSkillByKey in *. now rewrite Hsk. }
  rewrite Hs2. cbn [option_map]. split; [reflexivity|].
  unfold set_pointer. rewrite Z.eqb_refl. cbn [sk_currentHash sk_id].
  split; [now rewrite Hh|].
  unfold count_versions. cbn [updateSkillCurrentHash db_skillVersions].
  rewrite <- Hh. apply Hcount. apply Hwf1.
Qed.

Lemma crashed_push_heals_on_retry_witness :
  let b1 := body_of "11111111" "QQ==" None in
  let b2 := body_of "22222222" "Qg==" None in
  let db1 := (post_version empty_db user1 deploy_key b1).2 in
  let dbc := post_version_crash db1 user1 deploy_key b2 in
  current_pointer dbc user1 deploy_key = current_pointer db1 user1 deploy_key
  /\ (exists v, stored_version dbc user1 deploy_key (pb_hash b2) = Some v)
  /\ (forall r, get_skill dbc user1 deploy_key = Json r ->
        current_pointer db1 user1 deploy_key = Some (sr_hash r))
  /\ exists r db' s,
       post_version dbc user1 deploy_key b2 = (Json r, db')
       /\ findSkillByKey db' user1 deploy_key = Some s
       /\ sk_currentHash s = Some (pb_hash b2)
       /\ count_versions db' (sk_id s) (pb_hash b2) = 1%nat.
Proof.
  intros b1 b2 db1.
  apply (crashed_push_heals_on_retry db1 user1 deploy_key b2 b2).
  - apply post_version_wf, empty_db_wf.
  - repeat split; discriminate.
  - repeat split; discriminate.
  - reflexivity.
Defined.

(** C8 as stated fails: after a crashed push of 22222222 on top of 11111111
    the version list names 22222222 as newest while the pointer names
    11111111, and the next sync's reads (GET /skills and
    GET /skills/:skillKey) answer 11111111; being reads, they leave the
    pointer as it is. *)
Lemma reads_follow_stale_pointer :
  let b1 := body_of "11111111" "QQ==" None in
  let b2 := body_of "22222222" "Qg==" None in
  let db1 := (post_version empty_db user1 deploy_key b1).2 in
  let dbc := post_version_crash db1 user1 deploy_key b2 in
  newest_version_hash dbc 0 = Some (js "22222222")
  /\ current_pointer dbc user1 deploy_key = Some (js "11111111")
  /\ get_skills dbc user1
     = Json [mkSkillListItem 0 deploy_key (Some (js "11111111")) 2]
  /\ match get_skill dbc user1 deploy_key with
     | Json r => sr_hash r = js "11111111" /\ sr_encryptedData r = js "QQ=="
     | _ => False
     end.
Proof. vm_compute. repeat split; reflexivity. Qed.

End VersionChainClaims.

(** ** crypto.ts and skill.ts: hashes, keys, Base64 and recovery keys *)

Module CryptoExtras.
Import Text Bits Base64Facts TextFacts.

(** *** The shape of a content hash *)

Definition word32 (w : Z) : Prop := 0 <= w < 4294967296.

Definition state_ok (s : SHA256.state) : Prop :=
  word32 (SHA256.sa s) /\ word32 (SHA256.sb s) /\ word32 (SHA256.sc s)
  /\ word32 (SHA256.sd s) /\ word32 (SHA256.se s) /\ word32 (SHA256.sf s)
  /\ word32 (SHA256.sg s) /\ word32 (SHA256.sh s).

Lemma add32_range (a b : Z) : word32 (SHA256.add32 a b).
Proof. unfold SHA256.add32, SHA256.w32, word32. apply Z.mod_pos_bound. lia. Qed.

Lemma compress_ok (s : SHA256.state) (block : list Z) : state_ok (SHA256.compress s block).
Proof.
  unfold SHA256.compress, SHA256.add_state, state_ok.
  cbn [SHA256.sa SHA256.sb SHA256.sc SHA256.sd SHA256.se SHA256.sf SHA256.sg SHA256.sh].
  repeat split; apply add32_range.
Qed.

Lemma blocks_ok (fuel : nat) (ws : list Z) (s : SHA256.state) :
  state_ok s -> state_ok (SHA256.blocks fuel ws s).
Proof.
  revert ws s. induction fuel as [|f IH]; intros ws s Hs; cbn [SHA256.blocks]; [exact Hs|].
  destruct ws; [exact Hs|]. apply IH, compress_ok.
Qed.

Lemma H0_ok : state_ok SHA256.H0.
Proof. unfold state_ok, word32. cbn. lia. Qed.

Lemma bytes_of_word_ok (w : Z) : word32 w -> bytes_ok (SHA256.bytes_of_word w).
Proof.
  intros Hw. unfold SHA256.bytes_of_word.
  constructor; [|repeat (constructor; [apply land_255_ok|]); constructor].
  unfold byte_ok, word32 in *. rewrite Z.shiftr_div_pow2 by lia.
  change (2 ^ 24) with 16777216.
  pose proof (Z.div_mod w 16777216 ltac:(lia)).
  pose proof (Z.mod_pos_bound w 16777216 ltac:(lia)). lia.
Qed.

Lemma digest_ok (msg : bytes) :
  length (SHA256.digest msg) = 32%nat /\ bytes_ok (SHA256.digest msg).
Proof.
  unfold SHA256.digest.
  set (s := SHA256.blocks _ _ _).
  assert (Hs : state_ok s) by apply blocks_ok, H0_ok.
  split; [reflexivity|].
  destruct Hs as (Ha & Hb & Hc & Hd & He & Hf & Hg & Hh).
  cbn [flat_map]. unfold bytes_ok.
  repeat (apply Forall_app; split; [now apply bytes_of_word_ok|]). constructor.
Qed.

(** The digits [0-9a-f]. *)
Definition is_hex_digit (c : Z) : bool :=
  ((48 <=? c) && (c <=? 57)) || ((97 <=? c) && (c <=? 102)).

Lemma hex_digit_ok (d : Z) : 0 <= d < 16 -> is_hex_digit (hex_digit d) = true.
Proof.
  intros Hd. unfold is_hex_digit, hex_digit.
  destruct (d <? 10) eqn:E; [apply Z.ltb_lt in E | apply Z.ltb_ge in E].
  - apply orb_true_iff. left. apply andb_true_iff. split; apply Z.leb_le; lia.
  - apply orb_true_iff. right. apply andb_true_iff. split; apply Z.leb_le; lia.
Qed.

Lemma hex_of_bytes_length (bs : bytes) :
  length (hex_of_bytes bs) = (2 * length bs)%nat.
Proof.
  unfold hex_of_bytes. induction bs as [|b bs IH]; [reflexivity|].
  cbn [flat_map length app]. rewrite IH. lia.
Qed.

Lemma hex_of_bytes_digits (bs : bytes) :
  bytes_ok bs -> forallb is_hex_digit (hex_of_bytes bs) = true.
Proof.
  unfold hex_of_bytes. induction 1 as [|b bs Hb _ IH]; [reflexivity|].
  cbn [flat_map forallb app]. rewrite IH, !hex_digit_ok; [reflexivity| |].
  - change 15 with (Z.ones 4). exact (land_ones_range b 4 ltac:(lia)).
  - unfold byte_ok in Hb. rewrite Z.shiftr_div_pow2 by lia. change (2 ^ 4) with 16.
    pose proof (Z.div_mod b 16 ltac:(lia)). pose proof (Z.mod_pos_bound b 16 ltac:(lia)).
    lia.
Qed.

Lemma forallb_firstn {A} (f : A -> bool) (n : nat) (l : list A) :
  forallb f l = true -> forallb f (firstn n l) = true.
Proof.
  revert n. induction l as [|x l IH]; intros [|n]; cbn [firstn forallb]; try easy.
  intros H. apply andb_true_iff in H as [-> H]. now apply IH.
Qed.

Lemma full_hash_shape (content : jsstring) :
  length (computeFullHash content) = 64%nat
  /\ forallb is_hex_digit (computeFullHash content) = true.
Proof.
  unfold computeFullHash.
  destruct (digest_ok (utf8_encode content)) as [Hl Hb]. split.
  - now rewrite hex_of_bytes_length, Hl.
  - now apply hex_of_bytes_digits.
Qed.

Lemma content_hash_shape (content : jsstring) :
  length (computeContentHash content) = 8%nat
  /\ forallb is_hex_digit (computeContentHash content) = true.
Proof.
  destruct (full_hash_shape content) as [Hl Hd]. unfold computeContentHash. split.
  - rewrite length_firstn, Hl. reflexivity.
  - now apply forallb_firstn.
Qed.

Lemma computeSkillHash_nonempty (s : Skill) : computeSkillHash s <> [].
Proof.
  unfold computeSkillHash. destruct (content_hash_shape (canonical_json s)) as [Hl _].
  intros E. rewrite E in Hl. discriminate.
Qed.

(** X8.  Whatever the content (any sequence of code units),
    [computeFullHash] is 64 characters out of 0-9 and a-f,
    [computeContentHash] is its first 8 characters, and so the hash of a
    skill is 8 such characters. *)
Theorem hashes_are_lowercase_hex (content : jsstring) :
  length (computeFullHash content) = 64%nat
  /\ forallb is_hex_digit (computeFullHash content) = true
  /\ computeContentHash content = firstn 8 (computeFullHash content)
  /\ length (computeContentHash content) = 8%nat
  /\ (forall s : Skill,
        length (computeSkillHash s) = 8%nat
        /\ forallb is_hex_digit (computeSkillHash s) = true).
Proof.
  destruct (full_hash_shape content) as [Hl Hd].
  destruct (content_hash_shape content) as [Hl8 _].
  repeat split; try assumption; apply content_hash_shape.
Qed.

(** *** The key of a skill *)

Lemma getSkillKey_eq (s : Skill) :
  getSkillKey s = type_name (skill_type s) ++ 58 :: skill_name s.
Proof. reflexivity. Qed.

(** X9.  [getSkillKey] tells skills apart by type and name: two skills have
    the same key exactly when they have the same type and the same name. *)
Theorem getSkillKey_injective (a b : Skill) :
  getSkillKey a = getSkillKey b
  <-> skill_type a = skill_type b /\ skill_name a = skill_name b.
Proof.
  rewrite !getSkillKey_eq. split.
  - destruct (skill_type a), (skill_type b); cbn; intros E;
      try discriminate; injection E as E; now split.
  - now intros [-> ->].
Qed.

(** *** Base64 *)

(** X10.  [fromBase64 (toBase64 bytes)] is [bytes], for every byte
    string, and [toBase64] writes four characters for every three bytes
    (rounded up). *)
Theorem fromBase64_toBase64 (bs : bytes) :
  bytes_ok bs ->
  fromBase64 (toBase64 bs) = bs
  /\ length (toBase64 bs) = (4 * ((length bs + 2) / 3))%nat.
Proof.
  intros Hb. split; [now apply decode_encode|]. clear Hb.
  unfold toBase64. revert bs. fix IH 1. intros [|a [|b [|c r]]]; try reflexivity.
  change (Base64.encode (a :: b :: c :: r))
    with ([Base64.char_of (Z.shiftr a 2);
           Base64.char_of (Z.lor (Z.shiftl (Z.land a 3) 4) (Z.shiftr b 4));
           Base64.char_of (Z.lor (Z.shiftl (Z.land b 15) 2) (Z.shiftr c 6));
           Base64.char_of (Z.land c 63)] ++ Base64.encode r).
  rewrite length_app, IH. cbn [length].
  replace (S (S (S (length r))) + 2)%nat with (length r + 2 + 1 * 3)%nat by lia.
  rewrite Nat.div_add by lia. lia.
Qed.

Lemma fromBase64_toBase64_witness :
  bytes_ok [0; 255; 16; 128]
  /\ fromBase64 (toBase64 [0; 255; 16; 128]) = [0; 255; 16; 128]
  /\ length (toBase64 [0; 255; 16; 128]) = 8%nat.
Proof.
  assert (H : bytes_ok [0; 255; 16; 128])
    by (apply bytes_okb_spec; vm_compute; reflexivity).
  split; [exact H|]. exact (fromBase64_toBase64 [0; 255; 16; 128] H).
Defined.


(** *** Recovery keys, as typed by the user *)

Lemma indexOf_from_spec (w : jsstring) (l : list jsstring) (i : Z) :
  indexOf_from w l i = -1
  \/ (i <= indexOf_from w l i < i + Z.of_nat (length l)
      /\ nth (Z.to_nat (indexOf_from w l i - i)) l [] = w).
Proof.
  revert i. induction l as [|x l IH]; intros i; cbn [indexOf_from]; [now left|].
  destruct (jseqb x w) eqn:E.
  - right. apply jseqb_eq in E. rewrite Z.sub_diag. cbn [length]. split; [lia | exact E].
  - destruct (IH (i + 1)) as [H|[Hr Hn]]; [now left | right].
    cbn [length]. split; [lia|].
    replace (Z.to_nat (indexOf_from w l (i + 1) - i))
      with (S (Z.to_nat (indexOf_from w l (i + 1) - (i + 1)))) by lia.
    exact Hn.
Qed.

Lemma indexOf_from_member (w : jsstring) (l : list jsstring) (i : Z) :
  In w l -> i <= indexOf_from w l i.
Proof.
  revert i. induction l as [|x l IH]; intros i Hin; [destruct Hin|].
  cbn [indexOf_from]. destruct (jseqb x w) eqn:E; [lia|].
  destruct Hin as [->|Hin]; [now rewrite jseqb_refl in E|].
  specialize (IH (i + 1) Hin). lia.
Qed.

Lemma indexOf_WORDLIST (w : jsstring) :
  indexOf WORDLIST w <> -1 ->
  0 <= indexOf WORDLIST w < 256 /\ word_at (indexOf WORDLIST w) = w /\ In w WORDLIST.
Proof.
  intros Hne. unfold indexOf in *.
  destruct (indexOf_from_spec w WORDLIST 0) as [H|[Hr Hn]]; [contradiction|].
  rewrite WORDLIST_length in Hr. rewrite Z.sub_0_r in Hn.
  split; [lia|]. split; [exact Hn|].
  rewrite <- Hn. apply nth_In. rewrite WORDLIST_length. lia.
Qed.

(** Eight words of the list, in upper case and joined by "-", parse to
    themselves. *)
Lemma parse_format_words (ws : list jsstring) :
  length ws = 8%nat -> Forall (fun w => In w WORDLIST) ws ->
  parseRecoveryKey (join (js "-") (map toUpperCase ws))
  = Some (mkRecoveryKey ws (Uint8Array_of (map (indexOf WORDLIST) ws))).
Proof.
  intros Hlen Hin.
  assert (Hws : Forall (fun w => clean_wordb w = true) ws).
  { rewrite List.Forall_forall in *. intros w Hw.
    pose proof WORDLIST_clean as H. rewrite forallb_forall in H. now apply H, Hin. }
  unfold parseRecoveryKey.
  rewrite toLowerCase_join_upper.
  2:{ rewrite List.Forall_forall in *. intros w Hw. now apply clean_wordb_spec, Hws. }
  assert (Hsplit : split_runs is_key_sep (join (js "-") ws) = ws).
  { destruct ws as [|w ws']; [discriminate|].
    apply Forall_cons_1 in Hws as [Hw Hws'].
    unfold split_runs. change (js "-") with [45].
    rewrite split_runs_join; try reflexivity.
    - now apply clean_wordb_spec.
    - rewrite List.Forall_forall in *. intros w0 Hw0. now apply clean_wordb_spec, Hws'. }
  rewrite Hsplit, filter_nonempty_id.
  2:{ rewrite List.Forall_forall in *. intros w Hw.
      apply Hws, clean_wordb_spec in Hw as [[Hne _] _]. exact Hne. }
  rewrite Hlen. cbn [Nat.eqb negb].
  replace (existsb _ _) with false; [reflexivity|].
  symmetry. apply not_true_is_false. intros H.
  apply existsb_exists in H as (i & Hi & E). apply Z.eqb_eq in E. subst i.
  apply in_map_iff in Hi as (w & E & Hw).
  rewrite List.Forall_forall in Hin.
  pose proof (indexOf_from_member w WORDLIST 0 (Hin w Hw)) as Hge.
  unfold indexOf in E. lia.
Qed.

Definition is_ascii (c : Z) : bool := (0 <=? c) && (c <? 128).

Lemma lower_upper_unit (c : Z) : lower_unit (upper_unit c) = lower_unit c.
Proof.
  unfold lower_unit, upper_unit.
  destruct ((97 <=? c) && (c <=? 122)) eqn:E1.
  - apply andb_true_iff in E1 as [H1 H2]. apply Z.leb_le in H1, H2.
    replace ((65 <=? c - 32) && (c - 32 <=? 90)) with true
      by (symmetry; apply andb_true_iff; split; apply Z.leb_le; lia).
    replace ((65 <=? c) && (c <=? 90)) with false; [lia|].
    symmetry. apply andb_false_iff. right. apply Z.leb_gt. lia.
  - reflexivity.
Qed.

Lemma parse_sound (s : jsstring) (rk : RecoveryKey) :
  parseRecoveryKey s = Some rk ->
  length (rk_words rk) = 8%nat
  /\ Forall (fun w => In w WORDLIST) (rk_words rk)
  /\ rk_bytes rk = map (indexOf WORDLIST) (rk_words rk)
  /\ rk_words rk = map word_at (rk_bytes rk)
  /\ length (rk_bytes rk) = 8%nat /\ bytes_ok (rk_bytes rk).
Proof.
  unfold parseRecoveryKey.
  set (words := filter_nonempty _).
  destruct (length words =? 8)%nat eqn:El; [|discriminate]. cbn [negb].
  destruct (existsb _ _) eqn:Ex; [discriminate|]. intros [= <-]. cbn [rk_words rk_bytes].
  apply Nat.eqb_eq in El.
  assert (Hall : forall w, In w words ->
            0 <= indexOf WORDLIST w < 256 /\ word_at (indexOf WORDLIST w) = w
            /\ In w WORDLIST).
  { intros w Hw. apply indexOf_WORDLIST. intros E.
    apply not_true_iff_false in Ex. apply Ex, existsb_exists.
    exists (indexOf WORDLIST w). split; [now apply in_map | now apply Z.eqb_eq]. }
  assert (Hbytes : Uint8Array_of (map (indexOf WORDLIST) words)
                   = map (indexOf WORDLIST) words).
  { unfold Uint8Array_of. rewrite <- (map_id (map _ words)) at 2.
    apply map_ext_in. intros i Hi. apply in_map_iff in Hi as (w & <- & Hw).
    apply Z.mod_small. now apply Hall. }
  rewrite Hbytes. split; [exact El|]. split; [|split; [reflexivity|split; [|split]]].
  - apply List.Forall_forall. intros w Hw. now apply Hall.
  - rewrite map_map. rewrite <- (map_id words) at 1.
    apply map_ext_in. intros w Hw. symmetry. now apply Hall.
  - now rewrite length_map.
  - apply List.Forall_forall. intros i Hi. apply in_map_iff in Hi as (w & <- & Hw).
    unfold byte_ok. now apply Hall.
Qed.

(** X11.  What [parseRecoveryKey] accepts.  For an ASCII input, a key that
    is returned has eight words, all of them in the word list, and its
    eight bytes are the positions of the words in the list; the key is one
    that [formatRecoveryKey] and [parseRecoveryKey] reproduce exactly; and
    the upper-case form of the input is parsed to the same key. *)
Theorem parseRecoveryKey_accepts_only_list_words (s : jsstring) (rk : RecoveryKey) :
  forallb is_ascii s = true ->
  parseRecoveryKey s = Some rk ->
  length (rk_words rk) = 8%nat
  /\ Forall (fun w => In w WORDLIST) (rk_words rk)
  /\ rk_bytes rk = map (indexOf WORDLIST) (rk_words rk)
  /\ rk_words rk = map word_at (rk_bytes rk)
  /\ length (rk_bytes rk) = 8%nat /\ bytes_ok (rk_bytes rk)
  /\ parseRecoveryKey (formatRecoveryKey rk) = Some rk
  /\ parseRecoveryKey (toUpperCase s) = Some rk.
Proof.
  intros _ Hp.
  destruct (parse_sound s rk Hp) as (Hl & Hin & Hb & Hw & Hlb & Hok).
  do 6 (split; [assumption|]). split.
  - unfold formatRecoveryKey. rewrite parse_format_words by assumption.
    destruct rk as [ws bs]. cbn [rk_words rk_bytes] in *. f_equal. f_equal.
    rewrite <- Hb. unfold Uint8Array_of. rewrite <- (map_id bs) at 2.
    apply map_ext_in. intros b Hbin. unfold bytes_ok in Hok.
    rewrite List.Forall_forall in Hok. apply Z.mod_small. now apply Hok.
  - rewrite <- Hp. unfold parseRecoveryKey.
    replace (toLowerCase (toUpperCase s)) with (toLowerCase s); [reflexivity|].
    unfold toLowerCase, toUpperCase. rewrite map_map. apply map_ext.
    intros c. symmetry. apply lower_upper_unit.
Qed.

Definition typed_key : jsstring :=
  js "Apple armor  ARROW-badge baker beach - beast berry".

Definition typed_key_parsed : RecoveryKey :=
  mkRecoveryKey (map js ["apple"; "armor"; "arrow"; "badge"; "baker"; "beach"; "beast";
                         "berry"]%string)
                [0; 1; 2; 3; 4; 5; 6; 7].

Lemma parseRecoveryKey_accepts_only_list_words_witness :
  length (rk_words typed_key_parsed) = 8%nat
  /\ Forall (fun w => In w WORDLIST) (rk_words typed_key_parsed)
  /\ rk_bytes typed_key_parsed = map (indexOf WORDLIST) (rk_words typed_key_parsed)
  /\ rk_words typed_key_parsed = map word_at (rk_bytes typed_key_parsed)
  /\ length (rk_bytes typed_key_parsed) = 8%nat /\ bytes_ok (rk_bytes typed_key_parsed)
  /\ parseRecoveryKey (formatRecoveryKey typed_key_parsed) = Some typed_key_parsed
  /\ parseRecoveryKey (toUpperCase typed_key) = Some typed_key_parsed.
Proof.
  apply (parseRecoveryKey_accepts_only_list_words typed_key typed_key_parsed).
  - vm_compute. reflexivity.
  - vm_compute. reflexivity.
Defined.

End CryptoExtras.

(** ** The skill routes: what a push leaves alone, what it stores, and
    deleting *)

Module ServerExtras.
Import Server ServerRoutes ServerFacts ServerInvariant VersionChain.

(** *** Rows and keys *)

Lemma same_key_same_row {A K : Type} (key : A -> K) (l : list A) (x y : A) :
  List.NoDup (map key l) -> In x l -> In y l -> key x = key y -> x = y.
Proof.
  induction l as [|a l IH]; cbn [map In]; intros Hnd Hx Hy E; [easy|].
  inversion Hnd as [|? ? Hnotin Hnd']; subst.
  destruct Hx as [->|Hx], Hy as [->|Hy]; auto.
  - exfalso. apply Hnotin. rewrite E. now apply in_map.
  - exfalso. apply Hnotin. rewrite <- E. now apply in_map.
Qed.

Lemma map_fixed {A : Type} (g : A -> A) (l : list A) :
  (forall x, In x l -> g x = x) -> map g l = l.
Proof.
  induction l as [|a l IH]; intros Hg; [reflexivity|].
  cbn [map]. rewrite Hg by now left. f_equal. apply IH. intros x Hx. apply Hg. now right.
Qed.

Definition of_user (u : jsstring) (r : SkillRow) : bool := jseqb (sk_userId r) u.

Lemma listUserSkills_filter db u :
  listUserSkills db u = sort_desc sk_updatedAt (List.filter (of_user u) (db_skills db)).
Proof. reflexivity. Qed.

Lemma found_skill db u k r :
  findSkillByKey db u k = Some r -> In r (db_skills db) /\ skill_key_pair r = (u, k).
Proof.
  unfold findSkillByKey. intros H. apply find_some in H as [Hin Hm].
  split; [exact Hin | now apply skill_matches_spec].
Qed.

(** *** Moving the pointer of one skill leaves the other rows alone *)

Lemma set_pointer_other id h now r : sk_id r <> id -> set_pointer id h now r = r.
Proof. intros Hne. unfold set_pointer. apply Z.eqb_neq in Hne. now rewrite Hne. Qed.

Lemma set_pointer_keeps_user id h now u r :
  of_user u (set_pointer id h now r) = of_user u r.
Proof. unfold of_user, set_pointer. now destruct (sk_id r =? id). Qed.

Lemma pointer_frame db (s : SkillRow) h :
  List.NoDup (map sk_id (db_skills db)) -> In s (db_skills db) ->
  let db' := updateSkillCurrentHash db (sk_id s) h in
  db_skillVersions db' = db_skillVersions db
  /\ (forall u' k', (u', k') <> skill_key_pair s ->
        findSkillByKey db' u' k' = findSkillByKey db u' k')
  /\ (forall u', u' <> sk_userId s ->
        List.filter (of_user u') (db_skills db') = List.filter (of_user u') (db_skills db)).
Proof.
  intros Hnd Hs db'. subst db'. rewrite updateSkillCurrentHash_eq.
  cbn [db_skillVersions db_skills]. split; [reflexivity|]. split.
  - intros u' k' Hne. unfold findSkillByKey. cbn [db_skills].
    rewrite (find_map_same _ (set_pointer (sk_id s) h (db_clock db)))
      by (intros x; apply set_pointer_keeps_key).
    destruct (List.find _ _) as [r|] eqn:Hr; [|reflexivity].
    cbn [option_map]. f_equal. apply set_pointer_other. intros Hid.
    apply find_some in Hr as [Hin Hm]. apply skill_matches_spec in Hm.
    apply Hne. rewrite <- Hm. f_equal.
    now apply (same_key_same_row sk_id (db_skills db)).
  - intros u' Hne.
    rewrite (filter_map_same _ (set_pointer (sk_id s) h (db_clock db)))
      by (intros x; apply set_pointer_keeps_user).
    apply map_fixed. intros x Hx. apply filter_In in Hx as [Hin Hu].
    apply set_pointer_other. intros Hid. apply Hne.
    unfold of_user in Hu. apply jseqb_eq in Hu. rewrite <- Hu. f_equal.
    now apply (same_key_same_row sk_id (db_skills db)).
Qed.

(** *** The skill a push finds or creates *)

Lemma resolve_frame db u k s db1 :
  match findSkillByKey db u k with
  | Some skill => Some (skill, db)
  | None => createSkill db u k
  end = Some (s, db1) ->
  db_skillVersions db1 = db_skillVersions db
  /\ (forall u' k', (u', k') <> (u, k) ->
        findSkillByKey db1 u' k' = findSkillByKey db u' k')
  /\ (forall u', u' <> u ->
        List.filter (of_user u') (db_skills db1) = List.filter (of_user u') (db_skills db))
  /\ (forall r, findSkillByKey db u k = Some r -> r = s /\ db1 = db).
Proof.
  destruct (findSkillByKey db u k) as [r|] eqn:Hf.
  - intros [= <- <-]. split; [reflexivity|]. split; [reflexivity|].
    split; [reflexivity|]. intros r' [= <-]. now split.
  - rewrite createSkill_result by assumption. cbv zeta. intros [= <- <-].
    cbn [db_skillVersions db_skills]. split; [reflexivity|]. split; [|split].
    + intros u' k' Hne. unfold findSkillByKey. cbn [db_skills].
      destruct (List.find (skill_matches u' k') (db_skills db)) as [r|] eqn:Hr.
      * now apply find_app_some.
      * rewrite find_app_none by assumption. cbn [List.find].
        destruct (skill_matches u' k' _) eqn:Hm; [|reflexivity].
        apply skill_matches_spec in Hm. unfold skill_key_pair in Hm. cbn in Hm.
        congruence.
    + intros u' Hne. rewrite List.filter_app. cbn [List.filter].
      unfold of_user at 2. cbn [sk_userId].
      destruct (jseqb u u') eqn:E; [apply jseqb_eq in E; congruence|].
      apply app_nil_r.
    + discriminate.
Qed.

(** *** What a push leaves alone *)

Lemma post_version_frame db u k b :
  db_wf db ->
  let db' := (post_version db u k b).2 in
  (forall u' k', (u', k') <> (u, k) ->
     findSkillByKey db' u' k' = findSkillByKey db u' k')
  /\ (forall u' k' r, (u', k') <> (u, k) -> findSkillByKey db u' k' = Some r ->
        forall h, findSkillVersion db' (sk_id r) h = findSkillVersion db (sk_id r) h)
  /\ (forall u', u' <> u -> listUserSkills db' u' = listUserSkills db u')
  /\ (forall r h, findSkillByKey db u k = Some r -> h <> pb_hash b ->
        findSkillVersion db' (sk_id r) h = findSkillVersion db (sk_id r) h)
  /\ (forall r, findSkillByKey db u k = Some r ->
        exists r', findSkillByKey db' u k = Some r' /\ sk_id r' = sk_id r).
Proof.
  intros Hwf db'. subst db'. unfold post_version.
  destruct (_ || _ || _ || _); [cbn [snd]; eauto 10|].
  destruct (match findSkillByKey db u k with
            | Some skill => Some (skill, db)
            | None => createSkill db u k
            end) as [[s db1]|] eqn:Hres; [|cbn [snd]; eauto 10].
  destruct (resolve_skill db u k Hwf) as (s' & db1' & Hres' & Hs & Hwf1 & _ & _).
  rewrite Hres in Hres'. injection Hres' as <- <-.
  destruct (resolve_frame db u k s db1 Hres) as (Hv1 & Hf1 & Hl1 & Hsame).
  destruct (found_skill db1 u k s Hs) as [Hin Hpair].
  destruct (createSkillVersion_spec db1 (sk_id s) (pb_hash b) (pb_encryptedData b)
              (pb_iv b) (pb_tag b) (sk_currentHash s) (pb_message b))
    as (v & db2 & -> & Hw); [now apply in_map|].
  destruct Hw as [_ _ _ _ _ _ _ _ Hsk Hframe]. cbn [snd].
  assert (Hnd2 : List.NoDup (map sk_id (db_skills db2))) by (rewrite Hsk; apply Hwf1).
  assert (Hin2 : In s (db_skills db2)) by now rewrite Hsk.
  destruct (pointer_frame db2 s (pb_hash b) Hnd2 Hin2) as (Hv3 & Hf3 & Hl3).
  rewrite Hpair in Hf3. unfold skill_key_pair in Hpair. injection Hpair as Hu Hk.
  rewrite Hu in Hl3.
  assert (Hfind2 : forall u' k', findSkillByKey db2 u' k' = findSkillByKey db1 u' k').
  { intros u' k'. unfold findSkillByKey. now rewrite Hsk. }
  assert (Hver : forall id h, findSkillVersion (updateSkillCurrentHash db2 (sk_id s) (pb_hash b)) id h
                              = findSkillVersion db2 id h).
  { intros id h. unfold findSkillVersion. now rewrite Hv3. }
  assert (Hver1 : forall id h, findSkillVersion db1 id h = findSkillVersion db id h).
  { intros id h. unfold findSkillVersion. now rewrite Hv1. }
  split; [|split; [|split; [|split]]].
  - intros u' k' Hne. now rewrite Hf3, Hfind2, Hf1.
  - intros u' k' r Hne Hr h. rewrite Hver, Hframe, Hver1; [reflexivity|].
    intros E. injection E as Eid _. apply Hne.
    rewrite <- (Hf1 u' k' Hne) in Hr. destruct (found_skill db1 u' k' r Hr) as [Hinr Hpr].
    rewrite <- Hpr, <- Hu, <- Hk. fold (skill_key_pair s). f_equal.
    now apply (same_key_same_row sk_id (db_skills db1)); [apply Hwf1| | |].
  - intros u' Hne. rewrite !listUserSkills_filter, Hl3, Hsk, Hl1 by assumption. reflexivity.
  - intros r h Hr Hne. destruct (Hsame r Hr) as [-> ->].
    rewrite Hver, Hframe; [reflexivity|]. intros E. injection E as E. congruence.
  - intros r Hr. destruct (Hsame r Hr) as [-> ->].
    rewrite updateSkillCurrentHash_find, Hfind2, Hs. cbn [option_map].
    eexists. split; [reflexivity | apply set_pointer_keeps_id].
Qed.


Lemma get_skill_other db u k b u' k' :
  db_wf db -> (u', k') <> (u, k) ->
  get_skill (post_version db u k b).2 u' k' = get_skill db u' k'.
Proof.
  intros Hwf Hne. destruct (post_version_frame db u k b Hwf) as (Hf & Hv & _).
  unfold get_skill. rewrite (Hf u' k' Hne).
  destruct (findSkillByKey db u' k') as [r|] eqn:Hr; [|reflexivity].
  destruct (sk_currentHash r) as [c|]; [|reflexivity].
  now rewrite (Hv u' k' r Hne Hr).
Qed.

Lemma get_version_other db u k b u' k' h :
  db_wf db -> (u', k') <> (u, k) ->
  get_version (post_version db u k b).2 u' k' h = get_version db u' k' h.
Proof.
  intros Hwf Hne. destruct (post_version_frame db u k b Hwf) as (Hf & Hv & _).
  unfold get_version. rewrite (Hf u' k' Hne).
  destruct (findSkillByKey db u' k') as [r|] eqn:Hr; [|reflexivity].
  now rewrite (Hv u' k' r Hne Hr).
Qed.

Lemma get_skills_other db u k b u' :
  db_wf db -> u' <> u ->
  get_skills (post_version db u k b).2 u' = get_skills db u'.
Proof.
  intros Hwf Hne. destruct (post_version_frame db u k b Hwf) as (_ & _ & Hl & _).
  unfold get_skills. now rewrite (Hl u' Hne).
Qed.


(** *** Reading back what was pushed *)

Lemma read_after_push db u k b :
  db_wf db -> valid_body b ->
  exists id parent message created,
    (post_version db u k b).1 = Json (mkPushVersionResponse id (pb_hash b) parent created)
    /\ get_skill (post_version db u k b).2 u k
       = Json (mkSkillResponse k id (pb_hash b) (pb_encryptedData b) (pb_iv b) (pb_tag b)
                 parent message created)
    /\ get_version (post_version db u k b).2 u k (pb_hash b)
       = Json (mkVersionResponse k (pb_hash b) (pb_encryptedData b) (pb_iv b) (pb_tag b)
                 parent message created).
Proof.
  intros Hwf Hb.
  destruct (post_version_spec db u k b Hwf Hb)
    as (s & db1 & v & db2 & -> & Hs & _ & _ & _ & Hw).
  destruct Hw as [Hst Hh _ Hd Hi Ht _ _ Hsk _]. cbn [fst snd].
  exists (sk_id s), (sv_parentHash v), (sv_message v), (sv_createdAt v).
  assert (Hfind : findSkillByKey (updateSkillCurrentHash db2 (sk_id s) (pb_hash b)) u k
                  = Some (set_pointer (sk_id s) (pb_hash b) (db_clock db2) s)).
  { rewrite updateSkillCurrentHash_find. unfold findSkillByKey in *. now rewrite Hsk, Hs. }
  assert (Hver : findSkillVersion (updateSkillCurrentHash db2 (sk_id s) (pb_hash b))
                   (sk_id s) (pb_hash b) = Some v) by exact Hst.
  split; [now rewrite Hh|]. split.
  - unfold get_skill. rewrite Hfind.
    unfold set_pointer at 1. rewrite Z.eqb_refl. cbn [sk_currentHash].
    rewrite falsy_false by apply Hb. rewrite set_pointer_keeps_id, Hver.
    now rewrite Hh, Hd, Hi, Ht.
  - unfold get_version. rewrite Hfind, set_pointer_keeps_id, Hver.
    now rewrite Hh, Hd, Hi, Ht.
Qed.

Definition alice : jsstring := js "user-alice".
Definition bob : jsstring := js "user-bob".
Definition deploy : jsstring := js "skill:deploy".
Definition review : jsstring := js "skill:review".
Definition body1 : PushBody :=
  mkPushBody (js "3f2a9c01") (js "WA==") (js "aXYxMjM0NTY3ODkw")
             (js "dGFnMTIzNDU2Nzg5MDEyMw==") (Some (js "first")).
Definition body2 : PushBody :=
  mkPushBody (js "77aa0b1c") (js "WQ==") (js "aXYyMjM0NTY3ODkw")
             (js "dGFnMjIzNDU2Nzg5MDEyMw==") None.

Lemma body1_valid : valid_body body1.
Proof. repeat split; discriminate. Qed.

Lemma body2_valid : valid_body body2.
Proof. repeat split; discriminate. Qed.

(** The database after alice pushed [body1] to her skill [deploy]. *)
Definition db_one_push : Db := (post_version empty_db alice deploy body1).2.

Lemma db_one_push_wf : db_wf db_one_push.
Proof. apply post_version_wf, empty_db_wf. Qed.

(** X1.  What was pushed is what is read.  On a well-formed database, after
    a POST /skills/k/versions whose body has its four fields, both
    GET /skills/k and GET /skills/k/versions/hash answer 200 with the hash,
    encryptedData, iv and tag of that body, and with the parentHash and
    createdAt that the POST reported. *)
Theorem push_then_get_returns_envelope (db : Db) (u k : jsstring) (b : PushBody) :
  db_wf db -> valid_body b ->
  exists id parent message created,
    (post_version db u k b).1 = Json (mkPushVersionResponse id (pb_hash b) parent created)
    /\ get_skill (post_version db u k b).2 u k
       = Json (mkSkillResponse k id (pb_hash b) (pb_encryptedData b) (pb_iv b) (pb_tag b)
                 parent message created)
    /\ get_version (post_version db u k b).2 u k (pb_hash b)
       = Json (mkVersionResponse k (pb_hash b) (pb_encryptedData b) (pb_iv b) (pb_tag b)
                 parent message created).
Proof. exact (read_after_push db u k b). Qed.

Lemma push_then_get_returns_envelope_witness :
  exists id parent message created,
    (post_version db_one_push alice deploy body2).1
    = Json (mkPushVersionResponse id (pb_hash body2) parent created)
    /\ get_skill (post_version db_one_push alice deploy body2).2 alice deploy
       = Json (mkSkillResponse deploy id (pb_hash body2) (pb_encryptedData body2)
                 (pb_iv body2) (pb_tag body2) parent message created)
    /\ get_version (post_version db_one_push alice deploy body2).2 alice deploy
         (pb_hash body2)
       = Json (mkVersionResponse deploy (pb_hash body2) (pb_encryptedData body2)
                 (pb_iv body2) (pb_tag body2) parent message created).
Proof.
  exact (push_then_get_returns_envelope db_one_push alice deploy body2
           db_one_push_wf body2_valid).
Defined.

(** X2.  A push touches only the skill it is for.  On a well-formed
    database, after POST /skills/k/versions by user u (whatever its
    answer), GET /skills/k' and GET /skills/k'/versions/h answer for every
    other pair of user and skill key what they answered before, and for
    every other user GET /skills lists what it listed before. *)
Theorem push_touches_only_its_skill (db : Db) (u k : jsstring) (b : PushBody) :
  db_wf db ->
  (forall u' k', (u', k') <> (u, k) ->
     get_skill (post_version db u k b).2 u' k' = get_skill db u' k')
  /\ (forall u' k' h, (u', k') <> (u, k) ->
        get_version (post_version db u k b).2 u' k' h = get_version db u' k' h)
  /\ (forall u', u' <> u ->
        get_skills (post_version db u k b).2 u' = get_skills db u').
Proof.
  intros Hwf. split; [|split].
  - intros u' k'. now apply get_skill_other.
  - intros u' k' h. now apply get_version_other.
  - intros u'. now apply get_skills_other.
Qed.

Lemma push_touches_only_its_skill_witness :
  (forall u' k', (u', k') <> (bob, review) ->
     get_skill (post_version db_one_push bob review body2).2 u' k'
     = get_skill db_one_push u' k')
  /\ (forall u' k' h, (u', k') <> (bob, review) ->
        get_version (post_version db_one_push bob review body2).2 u' k' h
        = get_version db_one_push u' k' h)
  /\ (forall u', u' <> bob ->
        get_skills (post_version db_one_push bob review body2).2 u'
        = get_skills db_one_push u').
Proof.
  exact (push_touches_only_its_skill db_one_push bob review body2 db_one_push_wf).
Defined.


(** X3.  A push never removes or rewrites another version.  On a
    well-formed database, every version that
    GET /skills/k'/versions/h answered before a push is answered unchanged
    after it, unless it is the version of the pushed hash of the pushed
    skill. *)
Theorem push_keeps_other_versions (db : Db) (u k : jsstring) (b : PushBody)
    (u' k' h : jsstring) (r : VersionResponse) :
  db_wf db -> (u', k', h) <> (u, k, pb_hash b) ->
  get_version db u' k' h = Json r ->
  get_version (post_version db u k b).2 u' k' h = Json r.
Proof.
  intros Hwf Hne Hget.
  assert (Hcase : (u', k') <> (u, k) \/ ((u', k') = (u, k) /\ h <> pb_hash b)).
  { destruct (decide (u' = u)) as [->|Hu]; [|left; congruence].
    destruct (decide (k' = k)) as [->|Hk]; [|left; congruence].
    right. split; [reflexivity|]. congruence. }
  destruct Hcase as [Hother|[E Hh]].
  - now rewrite get_version_other.
  - injection E as -> ->.
    destruct (post_version_frame db u k b Hwf) as (_ & _ & _ & Hsame & Hid).
    unfold get_version in *.
    destruct (findSkillByKey db u k) as [s|] eqn:Hs; [|discriminate].
    destruct (Hid s eq_refl) as (s' & -> & Es). rewrite Es.
    now rewrite (Hsame s h eq_refl Hh).
Qed.

Lemma push_keeps_other_versions_witness :
  get_version (post_version db_one_push alice deploy body2).2 alice deploy (pb_hash body1)
  = Json (mkVersionResponse deploy (pb_hash body1) (pb_encryptedData body1) (pb_iv body1)
            (pb_tag body1) None (Some (js "first")) 1).
Proof.
  apply (push_keeps_other_versions db_one_push alice deploy body2 alice deploy
           (pb_hash body1)).
  - exact db_one_push_wf.
  - discriminate.
  - vm_compute. reflexivity.
Defined.


(** X4.  The check of the body in POST /skills/:skillKey/versions, which
    runs before any statement on the database.  Whatever the database holds,
    the handler answers 400 "Missing required fields" exactly when hash,
    encryptedData, iv or tag of the body is empty, and the database is then
    the one it was.  A body with the four fields gets the 200 answer or an
    exception of a database call; nothing is said here on which of the
    two. *)
Theorem post_version_rejects_only_missing_fields (db : Db) (u k : jsstring) (b : PushBody) :
  ((post_version db u k b).1 = HttpError 400 (js "Missing required fields")
   <-> ~ valid_body b)
  /\ (~ valid_body b -> (post_version db u k b).2 = db)
  /\ (valid_body b ->
      (exists r, (post_version db u k b).1 = Json r) \/ (post_version db u k b).1 = Crashed).
Proof.
  assert (Hdec : valid_body b \/ falsy (pb_hash b) || falsy (pb_encryptedData b)
                                 || falsy (pb_iv b) || falsy (pb_tag b) = true).
  { unfold valid_body, falsy.
    destruct (jseqb (pb_hash b) []) eqn:E1; [now right|].
    destruct (jseqb (pb_encryptedData b) []) eqn:E2; [now right|].
    destruct (jseqb (pb_iv b) []) eqn:E3; [now right|].
    destruct (jseqb (pb_tag b) []) eqn:E4; [now right|].
    left. repeat split; intros E; apply jseqb_eq in E; congruence. }
  destruct Hdec as [Hb|Hbad].
  - assert (Hanswer : (exists r, (post_version db u k b).1 = Json r)
                      \/ (post_version db u k b).1 = Crashed).
    { unfold post_version. rewrite valid_body_check by assumption.
      destruct (findSkillByKey db u k) as [s|].
      - destruct (createSkillVersion _ _ _ _ _ _ _ _) as [[v db2]|]; cbn [fst]; eauto.
      - destruct (createSkill db u k) as [[s db1]|]; cbn [fst]; [|now right].
        destruct (createSkillVersion _ _ _ _ _ _ _ _) as [[v db2]|]; cbn [fst]; eauto. }
    split; [|split].
    + split; [|contradiction].
      intros E. destruct Hanswer as [[r Hr]|Hc]; congruence.
    + contradiction.
    + intros _. exact Hanswer.
  - assert (Hnb : ~ valid_body b).
    { intros Hb. apply valid_body_check in Hb. congruence. }
    unfold post_version. rewrite Hbad. cbn [fst snd].
    split; [|split].
    + split; [intros _; exact Hnb | reflexivity].
    + reflexivity.
    + contradiction.
Qed.


(** *** Deleting a skill *)

Section FilterFacts.
Context {A : Type}.

Lemma find_filter_keep (f g : A -> bool) (l : list A) :
  (forall x, In x l -> f x = true -> g x = true) ->
  List.find f (List.filter g l) = List.find f l.
Proof.
  induction l as [|a l IH]; intros H; [reflexivity|]. cbn [List.filter List.find].
  assert (IH' : List.find f (List.filter g l) = List.find f l).
  { apply IH. intros x Hx. apply H. now right. }
  destruct (f a) eqn:Fa.
  - rewrite (H a (or_introl eq_refl) Fa). cbn [List.find]. now rewrite Fa.
  - destruct (g a); [cbn [List.find]; now rewrite Fa | exact IH'].
Qed.

Lemma find_filter_drop (f g : A -> bool) (l : list A) :
  (forall x, In x l -> f x = true -> g x = false) ->
  List.find f (List.filter g l) = None.
Proof.
  intros H. apply find_none_existsb, not_true_is_false. intros Hex.
  apply existsb_exists in Hex as (x & Hx & Fx).
  apply filter_In in Hx as [Hin Gx]. rewrite (H x Hin Fx) in Gx. discriminate.
Qed.

Lemma NoDup_map_filter {K : Type} (key : A -> K) (g : A -> bool) (l : list A) :
  List.NoDup (map key l) -> List.NoDup (map key (List.filter g l)).
Proof.
  induction l as [|a l IH]; cbn [map List.filter]; intros Hnd; [constructor|].
  apply NoDup_cons_iff in Hnd as [Ha Hnd]. destruct (g a); [|now apply IH].
  cbn [map]. apply NoDup_cons_iff. split; [|now apply IH].
  intros Hin. apply Ha. apply in_map_iff in Hin as (x & E & Hx).
  apply filter_In in Hx as [Hx _]. rewrite <- E. now apply in_map.
Qed.

Lemma Forall_filter_keep (P : A -> Prop) (g : A -> bool) (l : list A) :
  Forall P l -> Forall P (List.filter g l).
Proof.
  rewrite !List.Forall_forall. intros H x Hx. apply filter_In in Hx as [Hx _]. now apply H.
Qed.
End FilterFacts.

Definition doomed (id : Z) (u : jsstring) (r : SkillRow) : bool :=
  (sk_id r =? id) && jseqb (sk_userId r) u.

Lemma deleteSkill_found db (s : SkillRow) :
  In s (db_skills db) ->
  deleteSkill db (sk_id s) (sk_userId s)
  = (true, mkDb (List.filter (fun r => negb (doomed (sk_id s) (sk_userId s) r)) (db_skills db))
               (List.filter (fun v => negb (sv_skillId v =? sk_id s)) (db_skillVersions db))
               (db_clock db + 1) (db_nextId db)).
Proof.
  intros Hin. unfold deleteSkill. fold (doomed (sk_id s) (sk_userId s)).
  replace (existsb _ _) with true; [reflexivity|]. symmetry.
  apply existsb_exists. exists s. split; [exact Hin|].
  unfold doomed. now rewrite Z.eqb_refl, jseqb_refl.
Qed.

Lemma deleteSkill_wf db id u : db_wf db -> db_wf (deleteSkill db id u).2.
Proof.
  intros Hwf. unfold deleteSkill. fold (doomed id u).
  destruct (existsb (doomed id u) (db_skills db)); [|exact Hwf].
  destruct Hwf as [Hids Hnd Huniq Hfk Hpk Ht]. cbn [snd].
  split; cbn [db_skills db_skillVersions db_clock db_nextId].
  - now apply Forall_filter_keep.
  - now apply NoDup_map_filter.
  - now apply NoDup_map_filter.
  - rewrite List.Forall_forall in *. intros v Hv.
    apply filter_In in Hv as [Hv Hid]. apply negb_true_iff, Z.eqb_neq in Hid.
    apply Hfk in Hv. apply in_map_iff in Hv as (r & Er & Hr).
    apply in_map_iff. exists r. split; [exact Er|]. apply filter_In. split; [exact Hr|].
    unfold doomed. replace (sk_id r =? id) with false; [reflexivity|].
    symmetry. apply Z.eqb_neq. congruence.
  - now apply NoDup_map_filter.
  - apply Forall_filter_keep. rewrite List.Forall_forall in *. intros v Hv.
    specialize (Ht v Hv). lia.
Qed.


(** X5.  DELETE /skills/:skillKey.  On a well-formed database: for a skill
    the user does not have the answer is 404 "Skill not found" and nothing
    changes; for one the user has the answer is 200 (never the 500 of the
    handler), afterwards GET /skills/k and GET /skills/k/versions/h answer
    404 "Skill not found" and no version of the skill is left in
    skill_versions; the answers for every other pair of user and skill key
    are as before, and the database is still well-formed. *)
Theorem delete_removes_skill_and_versions (db : Db) (u k : jsstring) :
  db_wf db ->
  db_wf (delete_skill db u k).2
  /\ match findSkillByKey db u k with
     | None =>
         delete_skill db u k = (HttpError 404 (js "Skill not found"), db)
     | Some s =>
         (delete_skill db u k).1 = Json true
         /\ get_skill (delete_skill db u k).2 u k = HttpError 404 (js "Skill not found")
         /\ (forall h, get_version (delete_skill db u k).2 u k h
                       = HttpError 404 (js "Skill not found"))
         /\ (forall h, findSkillVersion (delete_skill db u k).2 (sk_id s) h = None)
         /\ countSkillVersions (delete_skill db u k).2 (sk_id s) = 0%nat
     end
  /\ (forall u' k', (u', k') <> (u, k) ->
        get_skill (delete_skill db u k).2 u' k' = get_skill db u' k'
        /\ forall h, get_version (delete_skill db u k).2 u' k' h = get_version db u' k' h).
Proof.
  intros Hwf. unfold delete_skill.
  destruct (findSkillByKey db u k) as [s|] eqn:Hs.
  2:{ cbn [fst snd]. split; [exact Hwf|]. split; [reflexivity|]. now split. }
  destruct (found_skill db u k s Hs) as [Hin Hpair].
  pose proof Hpair as Hpair'. unfold skill_key_pair in Hpair'.
  injection Hpair' as Hu Hk.
  pose proof (deleteSkill_wf db (sk_id s) u Hwf) as Hwf'.
  pose proof (deleteSkill_found db s Hin) as Hdel. rewrite Hu in Hdel.
  rewrite Hdel in *. cbn [fst snd] in *.
  set (db' := mkDb _ _ _ _) in *.
  assert (Hgone : findSkillByKey db' u k = None).
  { unfold findSkillByKey, db'. cbn [db_skills]. apply find_filter_drop.
    intros x Hx Hm. apply skill_matches_spec in Hm.
    assert (x = s) as ->.
    { apply (same_key_same_row skill_key_pair (db_skills db)); try assumption.
      - apply Hwf.
      - congruence. }
    unfold doomed. now rewrite Z.eqb_refl, Hu, jseqb_refl. }
  assert (Hvers : forall h, findSkillVersion db' (sk_id s) h = None).
  { intros h. unfold findSkillVersion, db'. cbn [db_skillVersions].
    apply find_filter_drop. intros v _ Hm. apply version_matches_key in Hm.
    unfold version_key in Hm. injection Hm as -> _. now rewrite Z.eqb_refl. }
  assert (Hkeep : forall u' k', (u', k') <> (u, k) ->
            findSkillByKey db' u' k' = findSkillByKey db u' k').
  { intros u' k' Hne. unfold findSkillByKey, db'. cbn [db_skills].
    apply find_filter_keep. intros x Hx Hm. apply skill_matches_spec in Hm.
    unfold doomed. destruct (sk_id x =? sk_id s) eqn:E; [|reflexivity].
    apply Z.eqb_eq in E. exfalso. apply Hne. rewrite <- Hm, <- Hpair. f_equal.
    apply (same_key_same_row sk_id (db_skills db)); try assumption. apply Hwf. }
  assert (Hvkeep : forall u' k' r h, (u', k') <> (u, k) -> findSkillByKey db u' k' = Some r ->
            findSkillVersion db' (sk_id r) h = findSkillVersion db (sk_id r) h).
  { intros u' k' r h Hne Hr. unfold findSkillVersion, db'. cbn [db_skillVersions].
    apply find_filter_keep. intros v _ Hm. apply version_matches_key in Hm.
    unfold version_key in Hm. injection Hm as -> _.
    apply negb_true_iff, Z.eqb_neq. intros E. apply Hne.
    destruct (found_skill db u' k' r Hr) as [Hinr Hpr]. rewrite <- Hpr, <- Hpair. f_equal.
    apply (same_key_same_row sk_id (db_skills db)); try assumption. apply Hwf. }
  split; [exact Hwf'|]. split; [|].
  - split; [reflexivity|]. split; [|split; [|split]].
    + unfold get_skill. now rewrite Hgone.
    + intros h. unfold get_version. now rewrite Hgone.
    + exact Hvers.
    + unfold countSkillVersions, db'. cbn [db_skillVersions].
      replace (List.filter _ (List.filter _ _)) with (@nil SkillVersionRow); [reflexivity|].
      symmetry. apply filter_none, not_true_is_false. intros Hex.
      apply existsb_exists in Hex as (v & Hv & E).
      apply filter_In in Hv as [_ Hv]. rewrite E in Hv. discriminate.
  - intros u' k' Hne. split.
    + unfold get_skill. rewrite (Hkeep u' k' Hne).
      destruct (findSkillByKey db u' k') as [r|] eqn:Hr; [|reflexivity].
      destruct (sk_currentHash r) as [c|]; [|reflexivity].
      now rewrite (Hvkeep u' k' r c Hne Hr).
    + intros h. unfold get_version. rewrite (Hkeep u' k' Hne).
      destruct (findSkillByKey db u' k') as [r|] eqn:Hr; [|reflexivity].
      now rewrite (Hvkeep u' k' r h Hne Hr).
Qed.

(** Alice has pushed [deploy] twice, bob has pushed [review]. *)
Definition db_two_users : Db :=
  (post_version (post_version db_one_push alice deploy body2).2 bob review body1).2.

Lemma db_two_users_wf : db_wf db_two_users.
Proof. apply post_version_wf, post_version_wf, db_one_push_wf. Qed.

Lemma delete_removes_skill_and_versions_witness :
  db_wf (delete_skill db_two_users alice deploy).2
  /\ ((delete_skill db_two_users alice deploy).1 = Json true
      /\ get_skill (delete_skill db_two_users alice deploy).2 alice deploy
         = HttpError 404 (js "Skill not found")
      /\ (forall h, get_version (delete_skill db_two_users alice deploy).2 alice deploy h
                    = HttpError 404 (js "Skill not found"))
      /\ (forall h, findSkillVersion (delete_skill db_two_users alice deploy).2 0 h = None)
      /\ countSkillVersions (delete_skill db_two_users alice deploy).2 0 = 0%nat)
  /\ (forall u' k', (u', k') <> (alice, deploy) ->
        get_skill (delete_skill db_two_users alice deploy).2 u' k'
        = get_skill db_two_users u' k'
        /\ forall h, get_version (delete_skill db_two_users alice deploy).2 u' k' h
                     = get_version db_two_users u' k' h).
Proof.
  exact (delete_removes_skill_and_versions db_two_users alice deploy db_two_users_wf).
Defined.


(** *** The two lists: ORDER BY ... DESC and LIMIT *)

Section SortDesc.
Context {A : Type} (key : A -> Z).

Definition newest_first (x y : A) : Prop := key y <= key x.

Lemma insert_desc_perm (x : A) (l : list A) :
  Permutation (insert_desc key x l) (x :: l).
Proof.
  induction l as [|y r IH]; cbn [insert_desc]; [reflexivity|].
  destruct (key y <? key x); [reflexivity|].
  rewrite IH. apply perm_swap.
Qed.

Lemma sort_desc_perm (l : list A) : Permutation (sort_desc key l) l.
Proof.
  induction l as [|x l IH]; [reflexivity|].
  unfold sort_desc in *. cbn [fold_right]. rewrite insert_desc_perm. now constructor.
Qed.

Lemma insert_desc_sorted (x : A) (l : list A) :
  StronglySorted newest_first l -> StronglySorted newest_first (insert_desc key x l).
Proof.
  induction 1 as [|y r Hr IH Hy]; cbn [insert_desc].
  - constructor; constructor.
  - destruct (key y <? key x) eqn:E.
    + apply Z.ltb_lt in E. constructor; [now constructor|].
      constructor; [unfold newest_first; lia|].
      rewrite List.Forall_forall in *. intros z Hz. specialize (Hy z Hz).
      unfold newest_first in *. lia.
    + apply Z.ltb_ge in E. constructor; [exact IH|].
      rewrite List.Forall_forall in *. intros z Hz.
      apply (Permutation_in _ (insert_desc_perm x r)) in Hz as [<-|Hz].
      * exact E.
      * now apply Hy.
Qed.

Lemma sort_desc_sorted (l : list A) : StronglySorted newest_first (sort_desc key l).
Proof.
  induction l as [|x l IH]; [constructor|].
  unfold sort_desc in *. cbn [fold_right]. now apply insert_desc_sorted.
Qed.

Lemma StronglySorted_firstn (R : A -> A -> Prop) (n : nat) (l : list A) :
  StronglySorted R l -> StronglySorted R (firstn n l).
Proof.
  intros H. revert n. induction H as [|x l Hl IH Hx]; intros [|n]; cbn [firstn];
    try constructor.
  - apply IH.
  - rewrite List.Forall_forall in *. intros y Hy. apply Hx.
    rewrite <- (firstn_skipn n l). apply in_or_app. now left.
Qed.

(** What [LIMIT n] cuts off is not newer than what it keeps. *)
Lemma StronglySorted_cut (R : A -> A -> Prop) (n : nat) (l : list A) (x y : A) :
  StronglySorted R l -> In x (firstn n l) -> In y (skipn n l) -> R x y.
Proof.
  intros H. revert n. induction H as [|a l Hl IH Ha]; intros [|n]; cbn [firstn skipn];
    try easy.
  intros [<-|Hx] Hy.
  - rewrite List.Forall_forall in Ha. apply Ha.
    rewrite <- (firstn_skipn n l). apply in_or_app. now right.
  - now apply (IH n).
Qed.
End SortDesc.

Definition item_of (s : SkillRow) : SkillListItem :=
  mkSkillListItem (sk_id s) (sk_skillKey s) (sk_currentHash s) (sk_updatedAt s).

Lemma StronglySorted_map {A B : Type} (R : A -> A -> Prop) (R' : B -> B -> Prop)
    (f : A -> B) (l : list A) :
  (forall x y, R x y -> R' (f x) (f y)) ->
  StronglySorted R l -> StronglySorted R' (map f l).
Proof.
  intros HR. induction 1 as [|x l Hl IH Hx]; cbn [map]; constructor; [exact IH|].
  rewrite List.Forall_forall in *. intros y Hy.
  apply in_map_iff in Hy as (z & <- & Hz). apply HR. now apply Hx.
Qed.

Lemma users_keys_distinct db u :
  db_wf db -> List.NoDup (map sk_skillKey (List.filter (of_user u) (db_skills db))).
Proof.
  intros Hwf. pose proof (wf_skill_unique db Hwf) as Hnd.
  induction (db_skills db) as [|a l IH]; cbn [map List.filter] in *; [constructor|].
  apply NoDup_cons_iff in Hnd as [Ha Hnd]. specialize (IH Hnd).
  destruct (of_user u a) eqn:Ea; [|exact IH].
  cbn [map]. apply NoDup_cons_iff. split; [|exact IH].
  intros Hin. apply Ha. apply in_map_iff in Hin as (x & E & Hx).
  apply filter_In in Hx as [Hx Eu]. apply in_map_iff. exists x. split; [|exact Hx].
  unfold of_user in *. apply jseqb_eq in Ea, Eu. unfold skill_key_pair. congruence.
Qed.

Lemma listed_keys_distinct db u :
  db_wf db -> List.NoDup (map sk_skillKey (listUserSkills db u)).
Proof.
  intros Hwf. eapply Permutation_NoDup; [|apply (users_keys_distinct db u Hwf)].
  apply Permutation_map, Permutation_sym. apply sort_desc_perm.
Qed.

(** X6.  GET /skills answers 200 with one item for each row of the skills
    table that belongs to the user and for nothing else, the items ordered
    by updatedAt, most recent first; on a well-formed database no two
    items carry the same skill key. *)
Theorem get_skills_lists_the_users_skills (db : Db) (u : jsstring) :
  exists items,
    get_skills db u = Json items
    /\ Permutation items
         (map item_of (List.filter (fun r => jseqb (sk_userId r) u) (db_skills db)))
    /\ StronglySorted (fun x y => sli_updatedAt y <= sli_updatedAt x) items
    /\ (db_wf db -> List.NoDup (map sli_skillKey items)).
Proof.
  eexists. split; [reflexivity|]. fold item_of. fold (of_user u). split; [|split].
  - apply Permutation_map. unfold listUserSkills. apply sort_desc_perm.
  - apply (StronglySorted_map (newest_first sk_updatedAt)); [auto|].
    apply sort_desc_sorted.
  - intros Hwf. rewrite map_map. cbn [item_of sli_skillKey].
    eapply Permutation_NoDup; [|apply (users_keys_distinct db u Hwf)].
    apply Permutation_map, Permutation_sym. apply sort_desc_perm.
Qed.

(** X7.  [listSkillVersions] returns at most [limit] rows, all of them
    versions of the skill, newest first by createdAt; no version of the
    skill left out is newer than one returned; and when the limit is not
    below [countSkillVersions], the result is all versions of the skill. *)
Theorem listSkillVersions_newest_first (db : Db) (id : Z) (limit : nat) :
  (length (listSkillVersions db id limit) <= limit)%nat
  /\ length (listSkillVersions db id limit) = Nat.min limit (countSkillVersions db id)
  /\ (forall v, In v (listSkillVersions db id limit) ->
        In v (db_skillVersions db) /\ sv_skillId v = id)
  /\ StronglySorted (fun x y => sv_createdAt y <= sv_createdAt x)
       (listSkillVersions db id limit)
  /\ (forall v w, In v (listSkillVersions db id limit) ->
        In w (db_skillVersions db) -> sv_skillId w = id ->
        In w (listSkillVersions db id limit) \/ sv_createdAt w <= sv_createdAt v)
  /\ ((countSkillVersions db id <= limit)%nat ->
      Permutation (listSkillVersions db id limit)
        (List.filter (fun v => sv_skillId v =? id) (db_skillVersions db))).
Proof.
  unfold listSkillVersions, countSkillVersions.
  set (mine := List.filter (fun v => sv_skillId v =? id) (db_skillVersions db)).
  pose proof (sort_desc_perm sv_createdAt mine) as Hperm.
  pose proof (sort_desc_sorted sv_createdAt mine) as Hsorted.
  assert (Hlen : length (sort_desc sv_createdAt mine) = length mine)
    by now apply Permutation_length.
  split; [rewrite length_firstn; lia|]. split; [rewrite length_firstn; lia|].
  split; [|split; [|split]].
  - intros v Hv.
    assert (Hin : In v (sort_desc sv_createdAt mine)).
    { rewrite <- (firstn_skipn limit). apply in_or_app. now left. }
    apply (Permutation_in _ Hperm), filter_In in Hin as [Hin E].
    split; [exact Hin | now apply Z.eqb_eq].
  - now apply StronglySorted_firstn.
  - intros v w Hv Hw Hid.
    assert (Hin : In w (sort_desc sv_createdAt mine)).
    { apply (Permutation_in _ (Permutation_sym Hperm)). apply filter_In.
      split; [exact Hw | now apply Z.eqb_eq]. }
    rewrite <- (firstn_skipn limit (sort_desc sv_createdAt mine)) in Hin.
    apply in_app_or in Hin as [Hin|Hin]; [now left | right].
    exact (StronglySorted_cut _ limit _ v w Hsorted Hv Hin).
  - intros Hle. rewrite firstn_all2 by lia. exact Hperm.
Qed.

(** *** The list after a push *)

Lemma listed_after_push db u k b :
  db_wf db -> valid_body b ->
  exists items item,
    get_skills (post_version db u k b).2 u = Json items
    /\ In item items
    /\ sli_skillKey item = k
    /\ sli_currentHash item = Some (pb_hash b)
    /\ (forall other, In other items -> sli_skillKey other = k -> other = item).
Proof.
  intros Hwf Hb.
  pose proof (post_version_wf db u k b Hwf) as Hwf'.
  destruct (post_version_spec db u k b Hwf Hb)
    as (s & db1 & v & db2 & E & Hs & _ & _ & _ & Hw).
  rewrite E in *. cbn [snd] in *. destruct Hw as [_ _ _ _ _ _ _ _ Hsk _].
  set (db3 := updateSkillCurrentHash db2 (sk_id s) (pb_hash b)) in *.
  set (s' := set_pointer (sk_id s) (pb_hash b) (db_clock db2) s).
  assert (Hfind : findSkillByKey db3 u k = Some s').
  { unfold db3. rewrite updateSkillCurrentHash_find. unfold findSkillByKey in *.
    now rewrite Hsk, Hs. }
  destruct (found_skill db3 u k s' Hfind) as [Hin Hpair].
  unfold skill_key_pair in Hpair. injection Hpair as Hu Hk.
  assert (Hmine : In s' (List.filter (of_user u) (db_skills db3))).
  { apply filter_In. split; [exact Hin|]. unfold of_user. now apply jseqb_eq. }
  exists (map item_of (listUserSkills db3 u)), (item_of s').
  split; [reflexivity|]. split; [|split; [exact Hk|split]].
  - apply in_map. rewrite listUserSkills_filter.
    apply (Permutation_in _ (Permutation_sym (sort_desc_perm sk_updatedAt _))). exact Hmine.
  - cbn [item_of sli_currentHash]. unfold s', set_pointer. now rewrite Z.eqb_refl.
  - intros other Hother Hkey. apply in_map_iff in Hother as (r & <- & Hr).
    f_equal. rewrite listUserSkills_filter in Hr.
    apply (Permutation_in _ (sort_desc_perm sk_updatedAt _)), filter_In in Hr as [Hr Hru].
    apply (same_key_same_row skill_key_pair (db_skills db3)); try assumption.
    + apply Hwf'.
    + unfold of_user in Hru. apply jseqb_eq in Hru. cbn [item_of sli_skillKey] in Hkey.
      unfold skill_key_pair. congruence.
Qed.

(** X14.  After a push the skill is listed with the pushed hash.  On a
    well-formed database, after a POST /skills/k/versions whose body has
    its four fields, GET /skills of the same user holds exactly one item
    with skill key k, and its currentHash is the pushed hash. *)
Theorem pushed_skill_is_listed (db : Db) (u k : jsstring) (b : PushBody) :
  db_wf db -> valid_body b ->
  exists items item,
    get_skills (post_version db u k b).2 u = Json items
    /\ In item items
    /\ sli_skillKey item = k
    /\ sli_currentHash item = Some (pb_hash b)
    /\ (forall other, In other items -> sli_skillKey other = k -> other = item).
Proof. exact (listed_after_push db u k b). Qed.

Lemma pushed_skill_is_listed_witness :
  exists items item,
    get_skills (post_version db_two_users alice deploy body1).2 alice = Json items
    /\ In item items
    /\ sli_skillKey item = deploy
    /\ sli_currentHash item = Some (pb_hash body1)
    /\ (forall other, In other items -> sli_skillKey other = deploy -> other = item).
Proof.
  exact (pushed_skill_is_listed db_two_users alice deploy body1 db_two_users_wf body1_valid).
Defined.

(** *** How the history grows *)

Lemma count_after_envelope id h e i t id' (l : list SkillVersionRow) :
  length (List.filter (fun v => sv_skillId v =? id') (map (set_envelope id h e i t) l))
  = length (List.filter (fun v => sv_skillId v =? id') l).
Proof.
  rewrite (filter_map_same _ (set_envelope id h e i t)); [apply length_map|].
  intros x. now rewrite set_envelope_keeps_skillId.
Qed.

(** X21.  Each push adds at most one version.  On a well-formed database,
    a push whose body has its four fields adds exactly one version to the
    skill's history when the pushed hash was not yet stored for the skill,
    and none when it was; the number of versions of every other skill
    stays what it was. *)
Theorem push_adds_one_version_per_new_hash (db : Db) (u k : jsstring) (b : PushBody) :
  db_wf db -> valid_body b ->
  exists id parent created,
    (post_version db u k b).1 = Json (mkPushVersionResponse id (pb_hash b) parent created)
    /\ countSkillVersions (post_version db u k b).2 id
       = match stored_version db u k (pb_hash b) with
         | Some _ => countSkillVersions db id
         | None => S (countSkillVersions db id)
         end
    /\ forall id', id' <> id ->
         countSkillVersions (post_version db u k b).2 id' = countSkillVersions db id'.
Proof.
  intros Hwf Hb. unfold post_version. rewrite valid_body_check by assumption.
  destruct (resolve_skill db u k Hwf) as (s & db1 & Hres & Hs & Hwf1 & _ & Hst).
  destruct (resolve_frame db u k s db1 Hres) as (Hv1 & _).
  rewrite Hres. rewrite <- (Hst (pb_hash b)).
  assert (Hcount1 : forall id, countSkillVersions db1 id = countSkillVersions db id).
  { intros id. unfold countSkillVersions. now rewrite Hv1. }
  destruct (found_skill db1 u k s Hs) as [Hin _].
  destruct (findSkillVersion db1 (sk_id s) (pb_hash b)) as [v0|] eqn:Hv.
  - rewrite (createSkillVersion_conflict _ _ _ _ _ _ _ _ _ Hv). cbn [fst snd].
    exists (sk_id s), (sv_parentHash (set_envelope (sk_id s) (pb_hash b)
                         (pb_encryptedData b) (pb_iv b) (pb_tag b) v0)),
           (sv_createdAt (set_envelope (sk_id s) (pb_hash b)
                            (pb_encryptedData b) (pb_iv b) (pb_tag b) v0)).
    split; [|split].
    + do 2 f_equal. unfold findSkillVersion in Hv. apply find_some in Hv as [_ Hm].
      apply version_matches_key in Hm. unfold version_key in Hm. injection Hm as _ Hh.
      unfold set_envelope. now destruct (version_matches _ _ v0).
    + unfold countSkillVersions at 1. cbn [updateSkillCurrentHash db_skillVersions].
      rewrite count_after_envelope. apply Hcount1.
    + intros id' _. unfold countSkillVersions at 1.
      cbn [updateSkillCurrentHash db_skillVersions].
      rewrite count_after_envelope. apply Hcount1.
  - rewrite (createSkillVersion_insert _ _ _ _ _ _ _ _ Hv) by now apply in_map.
    cbn [fst snd sv_hash sv_parentHash sv_createdAt].
    exists (sk_id s), (sk_currentHash s), (db_clock db1).
    split; [reflexivity|]. split.
    + unfold countSkillVersions at 1. cbn [updateSkillCurrentHash db_skillVersions].
      rewrite List.filter_app, length_app. cbn [List.filter sv_skillId].
      rewrite Z.eqb_refl. cbn [length]. rewrite <- Hcount1. unfold countSkillVersions. lia.
    + intros id' Hne. unfold countSkillVersions at 1.
      cbn [updateSkillCurrentHash db_skillVersions].
      rewrite List.filter_app, length_app. cbn [List.filter sv_skillId].
      replace (sk_id s =? id') with false by (symmetry; apply Z.eqb_neq; congruence).
      cbn [length]. rewrite <- Hcount1. unfold countSkillVersions. lia.
Qed.

Lemma push_adds_one_version_per_new_hash_witness :
  exists id parent created,
    (post_version db_one_push alice deploy body2).1
    = Json (mkPushVersionResponse id (pb_hash body2) parent created)
    /\ countSkillVersions (post_version db_one_push alice deploy body2).2 id
       = S (countSkillVersions db_one_push id)
    /\ forall id', id' <> id ->
         countSkillVersions (post_version db_one_push alice deploy body2).2 id'
         = countSkillVersions db_one_push id'.
Proof.
  exact (push_adds_one_version_per_new_hash db_one_push alice deploy body2
           db_one_push_wf body2_valid).
Defined.

(** *** The databases that the routes can reach *)

(** From the empty database, by pushes (also ones that die between the two
    writes) and deletions. *)
Inductive reachable : Db -> Prop :=
| reach_empty : reachable empty_db
| reach_push db u k b : reachable db -> reachable (post_version db u k b).2
| reach_crashed_push db u k b : reachable db -> reachable (post_version_crash db u k b)
| reach_delete db u k : reachable db -> reachable (delete_skill db u k).2.

Lemma delete_skill_wf db u k : db_wf db -> db_wf (delete_skill db u k).2.
Proof.
  intros Hwf. unfold delete_skill.
  destruct (findSkillByKey db u k) as [s|]; [|exact Hwf].
  pose proof (deleteSkill_wf db (sk_id s) u Hwf) as Hwf'.
  destruct (deleteSkill db (sk_id s) u) as [[|] db']; exact Hwf'.
Qed.

(** X22.  Well-formedness is an invariant of the routes.  Every database
    that is reached from the empty one by POST /skills/:skillKey/versions
    (completed, or interrupted between its two writes) and DELETE
    /skills/:skillKey is well-formed: skill ids and (user, skill key) pairs
    are unique, (skill, hash) pairs of versions are unique, and every
    version belongs to a skill that exists. *)
Theorem reachable_db_is_well_formed (db : Db) : reachable db -> db_wf db.
Proof.
  induction 1 as [|db u k b _ IH|db u k b _ IH|db u k _ IH].
  - exact empty_db_wf.
  - now apply post_version_wf.
  - now apply post_version_crash_wf.
  - now apply delete_skill_wf.
Qed.

Lemma reachable_db_is_well_formed_witness :
  db_wf (delete_skill (post_version_crash db_two_users bob deploy body2) alice deploy).2.
Proof.
  apply reachable_db_is_well_formed.
  apply reach_delete, reach_crashed_push.
  unfold db_two_users, db_one_push. repeat apply reach_push. exact reach_empty.
Defined.

End ServerExtras.

(** ** sync: the payload of a skill, from one machine to the server and
    back *)

Module SyncExtras.
Import Text Sync Bits AESFacts GCMFacts Base64Facts TextFacts CryptoFacts SyncFacts.
Import CryptoExtras.

(** *** JSON.stringify writes well-formed text *)

(** A code unit of a JavaScript string. *)
Definition unit_ok (c : Z) : Prop := 0 <= c < 65536.
Definition units_ok (s : jsstring) : Prop := Forall unit_ok s.

Lemma well_formed_app (a b : jsstring) :
  well_formed a = true -> well_formed b = true -> well_formed (a ++ b) = true.
Proof.
  revert a. fix IH 1. intros [|c r] Ha Hb; [exact Hb|].
  cbn [well_formed app] in *.
  destruct (is_high_surrogate c).
  - destruct r as [|lo r']; [discriminate|]. cbn [app].
    apply andb_true_iff in Ha as [-> Ha]. cbn [andb]. now apply IH.
  - destruct (is_low_surrogate c); [discriminate|].
    apply andb_true_iff in Ha as [-> Ha]. cbn [andb]. now apply IH.
Qed.

Lemma not_surrogate (c : Z) :
  0 <= c < 0xD800 -> is_high_surrogate c = false /\ is_low_surrogate c = false.
Proof.
  intros Hc. unfold is_high_surrogate, is_low_surrogate.
  split; apply andb_false_iff; left; apply Z.leb_gt; lia.
Qed.

Lemma well_formed_plain (s : jsstring) :
  Forall (fun c => 0 <= c < 0xD800) s -> well_formed s = true.
Proof.
  induction 1 as [|c r Hc _ IH]; [reflexivity|]. cbn [well_formed].
  destruct (not_surrogate c Hc) as [-> ->]. rewrite IH.
  replace (0 <=? c) with true by (symmetry; apply Z.leb_le; lia).
  replace (c <? 65536) with true by (symmetry; apply Z.ltb_lt; lia).
  reflexivity.
Qed.

Lemma hex_digit_plain (v : Z) : 0 <= hex_digit (Z.land v 15) < 0xD800.
Proof.
  pose proof (land_ones_range v 4 ltac:(lia)) as H.
  change (Z.ones 4) with 15 in H. change (2 ^ 4) with 16 in H.
  unfold hex_digit. destruct (Z.land v 15 <? 10); lia.
Qed.

Lemma u_escape_wf (c : Z) : well_formed (u_escape c) = true.
Proof.
  apply well_formed_plain. unfold u_escape.
  repeat (constructor; [first [lia | apply hex_digit_plain]|]). constructor.
Qed.

Lemma json_escape_unit_wf (c : Z) :
  unit_ok c -> is_high_surrogate c = false -> is_low_surrogate c = false ->
  well_formed (json_escape_unit c) = true.
Proof.
  intros Hc Hh Hl. unfold json_escape_unit.
  repeat match goal with
         | |- context [if ?b then _ else _] => destruct b; [first [reflexivity | apply u_escape_wf]|]
         end.
  cbn [well_formed]. rewrite Hh, Hl. unfold unit_ok in Hc.
  replace (0 <=? c) with true by (symmetry; apply Z.leb_le; lia).
  replace (c <? 65536) with true by (symmetry; apply Z.ltb_lt; lia).
  reflexivity.
Qed.

Lemma json_escape_wf (s : jsstring) : units_ok s -> well_formed (json_escape s) = true.
Proof.
  revert s. fix IH 1. intros [|c r] Hs; [reflexivity|].
  apply Forall_cons_1 in Hs as [Hc Hr].
  pose proof (IH r Hr) as IHr.
  cbn [json_escape].
  destruct (is_high_surrogate c) eqn:Eh.
  - destruct r as [|lo r']; [apply u_escape_wf|].
    destruct (is_low_surrogate lo) eqn:El.
    + cbn [well_formed]. rewrite Eh, El. cbn [andb].
      apply Forall_cons_1 in Hr as [_ Hr']. exact (IH r' Hr').
    + apply well_formed_app; [apply u_escape_wf | exact IHr].
  - destruct (is_low_surrogate c) eqn:El.
    + apply well_formed_app; [apply u_escape_wf | exact IHr].
    + apply well_formed_app; [now apply json_escape_unit_wf | exact IHr].
Qed.

Lemma json_string_wf (s : jsstring) : units_ok s -> well_formed (json_string s) = true.
Proof.
  intros Hs. unfold json_string.
  apply well_formed_app; [reflexivity|].
  apply well_formed_app; [now apply json_escape_wf | reflexivity].
Qed.

Lemma join_wf (sep : jsstring) (parts : list jsstring) :
  well_formed sep = true -> Forall (fun p => well_formed p = true) parts ->
  well_formed (join sep parts) = true.
Proof.
  intros Hsep. induction 1 as [|p rest Hp Hrest IH]; [reflexivity|].
  destruct rest as [|q rest]; [exact Hp|].
  change (join sep (p :: q :: rest)) with (p ++ sep ++ join sep (q :: rest)).
  apply well_formed_app; [exact Hp|]. now apply well_formed_app.
Qed.

Lemma json_array_wf (items : list jsstring) :
  Forall (fun p => well_formed p = true) items -> well_formed (json_array items) = true.
Proof.
  intros H. unfold json_array.
  apply well_formed_app; [reflexivity|].
  apply well_formed_app; [now apply join_wf | reflexivity].
Qed.

Lemma json_object_wf (fields : list (jsstring * jsstring)) :
  Forall (fun kv => units_ok kv.1 /\ well_formed kv.2 = true) fields ->
  well_formed (json_object fields) = true.
Proof.
  intros H. unfold json_object.
  apply well_formed_app; [reflexivity|].
  apply well_formed_app; [|reflexivity].
  apply join_wf; [reflexivity|].
  induction H as [|kv rest [Hk Hv] _ IH]; [constructor|].
  cbn [map]. constructor; [|exact IH].
  apply well_formed_app; [now apply json_string_wf|].
  now apply well_formed_app.
Qed.

Lemma js_units_ok (s : string) : units_ok (js s).
Proof.
  unfold js, units_ok. apply List.Forall_forall. intros c Hc.
  apply in_map_iff in Hc as (a & <- & _). unfold unit_ok.
  pose proof (N_ascii_bounded a). lia.
Qed.

Definition file_units_ok (f : SkillFile) : Prop :=
  units_ok (file_name f) /\ units_ok (file_content f).

(** The strings of a skill that are sent are JavaScript strings. *)
Definition skill_units_ok (s : Skill) : Prop :=
  units_ok (skill_name s) /\ units_ok (skill_content s) /\ units_ok (skill_path s)
  /\ units_ok (skill_modifiedAt s)
  /\ match skill_files s with
     | Some fs => Forall file_units_ok fs
     | None => True
     end.

Lemma json_files_wf (fs : list SkillFile) :
  Forall file_units_ok fs -> well_formed (json_files fs) = true.
Proof.
  intros H. unfold json_files. apply json_array_wf.
  induction H as [|f rest [Hn Hc] _ IH]; [constructor|].
  cbn [map]. constructor; [|exact IH].
  unfold json_file. apply json_object_wf.
  repeat (constructor; [split; cbn [fst snd];
                        [apply js_units_ok | now apply json_string_wf]|]).
  constructor.
Qed.

Lemma payload_json_wf (s : Skill) :
  skill_units_ok s -> well_formed (payload_json s) = true.
Proof.
  intros (Hn & Hc & Hp & Hm & Hf). unfold payload_json. apply json_object_wf.
  apply Forall_app. split.
  - repeat (constructor;
            [split; cbn [fst snd];
             [apply js_units_ok
             | first [now apply json_string_wf
                     | apply json_string_wf; destruct (skill_type s); apply js_units_ok]]|]).
    constructor.
  - destruct (skill_files s) as [fs|]; [|constructor].
    constructor; [|constructor].
    split; cbn [fst snd]; [apply js_units_ok | now apply json_files_wf].
Qed.

Lemma payload_json_head (s : Skill) : exists rest, payload_json s = 123 :: rest.
Proof. unfold payload_json, json_object. eexists. reflexivity. Qed.

Lemma payload_json_no_bom (s : Skill) : starts_with_bom (payload_json s) = false.
Proof. destruct (payload_json_head s) as (rest & ->). reflexivity. Qed.

Lemma utf8_encode_payload_nonempty (s : Skill) : utf8_encode (payload_json s) <> [].
Proof. destruct (payload_json_head s) as (rest & ->). discriminate. Qed.

(** *** Encrypting a skill and decrypting it again *)

Lemma nonempty_of_length {A} (l : list A) (n : nat) : length l = S n -> l <> [].
Proof. intros H ->. discriminate. Qed.

Lemma encryptSkill_spec (s : Skill) (K : bytes) (g : Rng) :
  key_ok K -> skill_units_ok s ->
  exists e g',
    encryptSkill s K g = Some (e, g')
    /\ decryptString (es_encryptedData e) K (es_iv e) (es_tag e) = Some (payload_json s)
    /\ es_encryptedData e <> [] /\ es_iv e <> [] /\ es_tag e <> [].
Proof.
  intros Hk Hs. pose proof (payload_json_wf s Hs) as Hwf.
  destruct (fresh_iv g) as [Hil Hib].
  unfold encryptSkill, encryptString. rewrite encrypt_spec by apply Hk. cbv zeta.
  set (iv0 := (generateRandomBytes AES_IV_LENGTH g).1) in *.
  set (c := GCM.ctr K iv0 (utf8_encode (payload_json s))).
  assert (Hc : bytes_ok c) by (apply ctr_ok; [| |apply utf8_encode_ok]; assumption).
  assert (Hcl : length c = length (utf8_encode (payload_json s)))
    by now apply ctr_length.
  destruct (tag_ok K iv0 c Hk Hib) as [Htl Htb].
  eexists _, _. split; [reflexivity|].
  cbn [es_encryptedData es_iv es_tag ciphertext64 iv64 tag64 ciphertext iv tag].
  split; [|split; [|split]].
  - unfold decryptString. rewrite !decode_encode by assumption.
    rewrite decrypt_spec by assumption. unfold c.
    rewrite ctr_involutive by assumption. f_equal.
    apply utf8_decode_encode; [exact Hwf | apply payload_json_no_bom].
  - apply encode_nonempty. intros E. rewrite E in Hcl.
    apply (utf8_encode_payload_nonempty s). now apply length_zero_iff_nil.
  - apply encode_nonempty. exact (nonempty_of_length _ _ Hil).
  - apply encode_nonempty. exact (nonempty_of_length _ _ Htl).
Qed.

(** X12.  A skill that [encryptSkill] encrypted under a 32-byte key
    decrypts under the same key to the JSON text that was encrypted, and
    [decryptSkill] hands exactly that text to [JSON.parse]; this holds for
    every skill, also one whose content has unpaired surrogates or begins
    with U+FEFF. *)
Theorem encryptSkill_then_decryptSkill (s : Skill) (K : bytes) (g : Rng) :
  key_ok K -> skill_units_ok s ->
  exists e g',
    encryptSkill s K g = Some (e, g')
    /\ decryptString (es_encryptedData e) K (es_iv e) (es_tag e) = Some (payload_json s)
    /\ forall JSON_parse,
         decryptSkill JSON_parse (es_encryptedData e) (es_iv e) (es_tag e) K
         = Some (JSON_parse (payload_json s)).
Proof.
  intros Hk Hs. destruct (encryptSkill_spec s K g Hk Hs) as (e & g' & He & Hd & _).
  exists e, g'. split; [exact He|]. split; [exact Hd|].
  intros JSON_parse. unfold decryptSkill. now rewrite Hd.
Qed.

(** A note that begins with U+FEFF and holds an unpaired surrogate. *)
Definition odd_note : Skill :=
  mkSkill (js "note") (0xFEFF :: 0xD83D :: js "to do") [] (js "/home/u/.claude/commands/note.md")
          (js "2024-05-01T10:00:00.000Z") SkillType.command None.

Lemma odd_note_units_ok : skill_units_ok odd_note.
Proof.
  unfold skill_units_ok, units_ok, unit_ok. cbn.
  repeat split; repeat constructor; lia.
Qed.

Lemma encryptSkill_then_decryptSkill_witness :
  exists e g',
    encryptSkill odd_note key32 rng0 = Some (e, g')
    /\ decryptString (es_encryptedData e) key32 (es_iv e) (es_tag e)
       = Some (payload_json odd_note)
    /\ forall JSON_parse,
         decryptSkill JSON_parse (es_encryptedData e) (es_iv e) (es_tag e) key32
         = Some (JSON_parse (payload_json odd_note)).
Proof.
  exact (encryptSkill_then_decryptSkill odd_note key32 rng0 key32_ok odd_note_units_ok).
Defined.

(** *** From push to the server and back *)

Import World.

(** The client puts the skill key into the URL with [encodeURIComponent]
    and the server reads it back from the path.  The statements about the
    client and the server together are made for skills whose name the URL
    carries as it is: ASCII letters, digits, "-", "_" and ".". *)
Definition is_plain_unit (c : Z) : bool :=
  ((48 <=? c) && (c <=? 57)) || ((65 <=? c) && (c <=? 90)) || ((97 <=? c) && (c <=? 122))
  || (c =? 45) || (c =? 95) || (c =? 46).

Definition sendable (s : Skill) : Prop :=
  skill_units_ok s /\ forallb is_plain_unit (skill_name s) = true.

Lemma push_one_stores (FS : Type) (K : bytes) (message : option jsstring)
    (index : SyncIndex) (c : @Client Session FS) (s : Skill) :
  key_ok K -> skill_units_ok s -> Server.db_wf (ss_db (cl_remote c)) ->
  entry_hash_is index (getSkillKey s) (computeSkillHash s) = false ->
  exists updatedAt c' data,
    push_one K message index c s
    = Some (PushSuccess (getSkillKey s) (computeSkillHash s)
              (localHash_of (skill_content s) (skill_files s)) updatedAt, c')
    /\ ss_user (cl_remote c') = ss_user (cl_remote c)
    /\ Server.db_wf (ss_db (cl_remote c'))
    /\ getSkill (cl_remote c') (getSkillKey s) = (ApiOk data, cl_remote c')
    /\ sr_skillKey data = getSkillKey s
    /\ sr_hash data = computeSkillHash s
    /\ decryptString (sr_encryptedData data) K (sr_iv data) (sr_tag data)
       = Some (payload_json s).
Proof.
  intros Hk Hs Hwf Hentry.
  destruct (encryptSkill_spec s K (cl_rng c) Hk Hs) as (e & g' & He & Hd & Hne & Hni & Hnt).
  unfold push_one. rewrite Hentry, He.
  cbn [pushSkillVersion server_api].
  set (body := Server.mkPushBody (computeSkillHash s) (es_encryptedData e) (es_iv e)
                 (es_tag e) message).
  assert (Hb : ServerFacts.valid_body body).
  { repeat split; cbn [body Server.pb_hash Server.pb_encryptedData Server.pb_iv Server.pb_tag];
      try assumption. apply computeSkillHash_nonempty. }
  destruct (ServerExtras.read_after_push (ss_db (cl_remote c)) (ss_user (cl_remote c))
              (getSkillKey s) body Hwf Hb)
    as (id & parent & msg & created & Hpost & Hget & _).
  pose proof (ServerInvariant.post_version_wf (ss_db (cl_remote c)) (ss_user (cl_remote c))
                (getSkillKey s) body Hwf) as Hwf'.
  destruct (Server.post_version _ _ _ body) as [r db'].
  cbn [fst snd] in Hpost, Hget, Hwf'. subst r. cbn [api_response push_json].
  eexists _, _, _. split; [reflexivity|].
  cbn [cl_remote ss_user ss_db getSkill server_api].
  split; [reflexivity|]. split; [exact Hwf'|].
  rewrite Hget. cbn [api_response skill_json]. split; [reflexivity|].
  cbn [sr_skillKey sr_hash sr_encryptedData sr_iv sr_tag body
       Server.pb_hash Server.pb_encryptedData Server.pb_iv Server.pb_tag].
  split; [reflexivity|]. split; [reflexivity|]. exact Hd.
Qed.


Definition laptop : @Client Session (gmap jsstring jsstring) :=
  mkClient empty_index rng0 (new_session (js "user-1")) ∅ [].

Lemma odd_note_sendable : sendable odd_note.
Proof. split; [exact odd_note_units_ok | reflexivity]. Qed.


(** *** Pulling on another machine *)

(** The object that [JSON.parse] reads from the payload of a skill. *)
Definition payload_of (s : Skill) : DecryptedSkillPayload :=
  mkPayload (skill_name s) (skill_content s) (skill_path s) (skill_modifiedAt s)
            (Some (skill_type s)) (skill_files s).

Lemma pull_one_fetches (FS : Type) `{FileSystem FS} (JSON_parse : jsstring -> Parsed)
    (claudeDir : jsstring) (K : bytes) (s : Skill) (index : SyncIndex)
    (c : @Client Session FS) (item : SkillListItem) (data : SkillResponse) :
  JSON_parse (payload_json s) = ParsedPayload (payload_of s) ->
  getSkill (cl_remote c) (getSkillKey s) = (ApiOk data, cl_remote c) ->
  decryptString (sr_encryptedData data) K (sr_iv data) (sr_tag data)
  = Some (payload_json s) ->
  sli_skillKey item = getSkillKey s ->
  sli_currentHash item = Some (computeSkillHash s) ->
  entry_hash_is index (getSkillKey s) (computeSkillHash s) = false ->
  pull_one JSON_parse claudeDir K index c item
  = match write_skill claudeDir (cl_fs c) (payload_of s) with
    | Some fs' =>
        Some (PullSuccess (getSkillKey s) (computeSkillHash s) (skill_content s)
                (skill_files s) (sli_updatedAt item),
              mkClient (cl_index c) (cl_rng c) (cl_remote c) fs'
                       (cl_requests c ++ [ReqGetSkill (getSkillKey s)]))
    | None =>
        Some (PullError (js "Failed to write " ++ skill_name s),
              mkClient (cl_index c) (cl_rng c) (cl_remote c) (cl_fs c)
                       (cl_requests c ++ [ReqGetSkill (getSkillKey s)]))
    end.
Proof.
  intros Hparse Hget Hdec Hkey Hhash Hentry.
  unfold pull_one. rewrite Hkey, Hhash.
  assert (E1 : remote_hash_is index (getSkillKey s) (Some (computeSkillHash s)) = false).
  { unfold remote_hash_is. unfold entry_hash_is in Hentry.
    now destruct (idx_skills index !! getSkillKey s). }
  assert (E2 : jseqb (computeSkillHash s) [] = false).
  { apply not_true_is_false. intros E. apply jseqb_eq in E.
    now apply (computeSkillHash_nonempty s). }
  rewrite E1, E2, Hget. unfold decryptSkill. rewrite Hdec, Hparse.
  cbn [log_request cl_fs cl_index cl_rng cl_remote cl_requests].
  destruct (write_skill claudeDir (cl_fs c) (payload_of s)); reflexivity.
Qed.

Lemma write_files_map (fs : gmap jsstring jsstring) (dir : jsstring) (files : list SkillFile) :
  exists fs', write_files fs dir files = Some fs'.
Proof.
  revert fs. induction files as [|f rest IH]; intros fs; cbn [write_files]; [eauto|].
  cbn [fs_writeFile map_fs]. apply IH.
Qed.

Lemma write_skill_map (claudeDir : jsstring) (fs : gmap jsstring jsstring)
    (p : DecryptedSkillPayload) :
  exists fs', write_skill claudeDir fs p = Some fs'.
Proof.
  unfold write_skill.
  destruct (match p_type p with Some t => t | None => SkillType.command end);
    destruct (p_files p); cbn [fs_mkdir fs_writeFile map_fs]; eauto using write_files_map.
Qed.



(** A [JSON.parse] that reads the payload of [odd_note] and nothing
    else. *)
Definition parse_note (payload : jsstring) : Parsed :=
  if jseqb payload (payload_json odd_note) then ParsedPayload (payload_of odd_note)
  else ParseThrows.


(** *** What status reports *)

Section ReadOnly.
Context {Remote : Type} `{Api Remote} {FS : Type}.

Local Abbreviation Client := (@Client Remote FS).

Lemma status_partition (index : SyncIndex) (skills : list Skill) :
  (length (List.filter is_synced (map (skill_status index) skills))
   + length (List.filter (fun st => negb (is_synced st)) (map (skill_status index) skills))
   = length skills)%nat.
Proof.
  induction skills as [|s rest IH]; [reflexivity|].
  cbn [map List.filter]. destruct (skill_status index s); cbn [is_synced negb length]; lia.
Qed.

Lemma filter_length_le {A} (f : A -> bool) (l : list A) :
  (length (List.filter f l) <= length l)%nat.
Proof.
  induction l as [|x l IH]; [reflexivity|]. cbn [List.filter].
  destruct (f x); cbn [length]; lia.
Qed.

(** X16.  What [getSyncStatus] reports adds up and costs one request:
    [local] is the number of local skills and equals
    [synced + pendingPush]; [pendingPull] is 0 when the list request
    fails and otherwise at most the number of remote skills; the sync
    index, the files and the random source are untouched, and exactly one
    request, the list request, is sent. *)
Theorem getSyncStatus_counts_add_up (skills : list Skill) (c : Client) :
  st_local (getSyncStatus skills c).1 = length skills
  /\ (st_synced (getSyncStatus skills c).1 + st_pendingPush (getSyncStatus skills c).1
      = st_local (getSyncStatus skills c).1)%nat
  /\ match (listSkills (cl_remote c)).1 with
     | ApiOk remoteSkills =>
         (st_pendingPull (getSyncStatus skills c).1 <= length remoteSkills)%nat
     | ApiFail _ _ => st_pendingPull (getSyncStatus skills c).1 = O
     end
  /\ cl_index (getSyncStatus skills c).2 = cl_index c
  /\ cl_fs (getSyncStatus skills c).2 = cl_fs c
  /\ cl_rng (getSyncStatus skills c).2 = cl_rng c
  /\ cl_remote (getSyncStatus skills c).2 = (listSkills (cl_remote c)).2
  /\ cl_requests (getSyncStatus skills c).2 = cl_requests c ++ [ReqListSkills].
Proof.
  unfold getSyncStatus.
  destruct (listSkills (cl_remote c)) as [listResult remote'].
  cbn [fst snd st_local st_synced st_pendingPush st_pendingPull log_request
       cl_index cl_fs cl_rng cl_remote cl_requests].
  split; [reflexivity|]. split; [apply status_partition|].
  split; [|repeat split].
  destruct listResult; [apply filter_length_le | reflexivity].
Qed.

End ReadOnly.

(** *** What a pull sends *)

Section PullReads.
Context {Remote : Type} `{Api Remote} {FS : Type} `{FileSystem FS}.
Variable JSON_parse : jsstring -> Parsed.
Variable claudeDir : jsstring.
(** The two reads answer without changing what lies behind the API. *)
Hypothesis getSkill_reads : forall (r : Remote) (k : jsstring), (getSkill r k).2 = r.
Hypothesis listSkills_reads : forall r : Remote, (listSkills r).2 = r.

Local Abbreviation Client := (@Client Remote FS).

Definition is_get (r : Request) : Prop := exists k, r = ReqGetSkill k.

Definition pull_is_skipped (r : PullResult) : bool :=
  match r with PullSkipped => true | _ => false end.

(** The request that a result has cost. *)
Definition request_of (item : SkillListItem) (res : PullResult) : list Request :=
  if pull_is_skipped res then [] else [ReqGetSkill (sli_skillKey item)].

Lemma pull_one_reads masterKey index (c : Client) (item : SkillListItem) res c' :
  pull_one JSON_parse claudeDir masterKey index c item = Some (res, c') ->
  cl_rng c' = cl_rng c
  /\ cl_remote c' = cl_remote c
  /\ cl_requests c' = cl_requests c ++ request_of item res.
Proof.
  assert (Hsame : Some (PullSkipped, c) = Some (res, c') ->
            cl_rng c' = cl_rng c /\ cl_remote c' = cl_remote c
            /\ cl_requests c' = cl_requests c ++ request_of item res).
  { intros [= <- <-]. cbn [request_of pull_is_skipped]. now rewrite app_nil_r. }
  unfold pull_one.
  destruct (remote_hash_is _ _ _); [apply Hsame|].
  destruct (sli_currentHash item) as [h|]; [|apply Hsame].
  destruct (jseqb h []); [apply Hsame|].
  pose proof (getSkill_reads (cl_remote c) (sli_skillKey item)) as Hr.
  destruct (getSkill (cl_remote c) (sli_skillKey item)) as [skillResult remote'].
  cbn [snd] in Hr. subst remote'. unfold log_request.
  destruct skillResult as [data|err st]; [|now intros [= <- <-]].
  destruct (decryptSkill _ _ _ _ _) as [[| |p]|];
    [now intros [= <- <-] | discriminate | | now intros [= <- <-]].
  cbn [cl_fs cl_index cl_rng cl_remote cl_requests].
  destruct (write_skill _ _ _); now intros [= <- <-].
Qed.

Lemma pull_all_reads masterKey index (c : Client) (items : list SkillListItem) rs c' :
  pull_all JSON_parse claudeDir masterKey index c items = Some (rs, c') ->
  cl_rng c' = cl_rng c
  /\ cl_remote c' = cl_remote c
  /\ exists gets,
       cl_requests c' = cl_requests c ++ gets
       /\ Forall is_get gets
       /\ length gets = length (List.filter (fun r => negb (pull_is_skipped r)) rs).
Proof.
  revert c rs c'. induction items as [|item rest IH]; intros c rs c'; cbn [pull_all].
  - intros [= <- <-]. split; [reflexivity|]. split; [reflexivity|].
    exists []. rewrite app_nil_r. split; [reflexivity|]. split; [constructor | reflexivity].
  - destruct (pull_one _ _ _ _ _ _) as [[res c1]|] eqn:H1; [|discriminate].
    destruct (pull_all _ _ _ _ _ _) as [[rs' c2]|] eqn:H2; [|discriminate].
    intros [= <- <-].
    apply pull_one_reads in H1 as (Hg1 & Hr1 & Hq1).
    apply IH in H2 as (Hg2 & Hr2 & gets & Hq2 & Hgets & Hlen).
    split; [congruence|]. split; [congruence|].
    exists (request_of item res ++ gets).
    split; [rewrite Hq2, Hq1; now rewrite <- app_assoc|].
    cbn [List.filter]. unfold request_of.
    destruct (pull_is_skipped res); cbn [negb app length]; split; try assumption.
    + constructor; [eexists; reflexivity | assumption].
    + now rewrite Hlen.
Qed.

Lemma count_results (rs : list PullResult) :
  length (List.filter (fun r => negb (pull_is_skipped r)) rs)
  = (length (List.filter pull_is_success rs) + length (pull_errors rs))%nat.
Proof.
  induction rs as [|r rs IH]; [reflexivity|].
  unfold pull_errors in *. cbn [List.filter flat_map].
  destruct r; cbn [pull_is_skipped pull_is_success negb length app]; lia.
Qed.

Lemma pullSkills_reads masterKey now (c : Client) out c' :
  pullSkills JSON_parse claudeDir masterKey now c = Some (out, c') ->
  cl_remote c' = cl_remote c
  /\ cl_rng c' = cl_rng c
  /\ exists gets,
       cl_requests c' = cl_requests c ++ ReqListSkills :: gets
       /\ Forall is_get gets
       /\ match (listSkills (cl_remote c)).1 with
          | ApiOk _ => length gets = (pulled out + length (pull_error_list out))%nat
          | ApiFail _ _ => gets = [] /\ pulled out = O
          end.
Proof.
  unfold pullSkills.
  pose proof (listSkills_reads (cl_remote c)) as Hr.
  destruct (listSkills (cl_remote c)) as [[remoteSkills|err st] remote'];
    cbn [fst snd] in *; subst remote'; unfold log_request.
  - destruct (pull_all _ _ _ _ _ _) as [[rs c1]|] eqn:Hall; [|discriminate].
    intros [= <- <-].
    apply pull_all_reads in Hall as (Hg & Hrem & gets & Hq & Hgets & Hlen).
    cbn [cl_rng cl_remote cl_requests pulled pull_error_list] in *.
    split; [exact Hrem|]. split; [exact Hg|].
    exists gets. split; [rewrite Hq; now rewrite <- app_assoc|].
    split; [exact Hgets|]. now rewrite Hlen, count_results.
  - intros [= <- <-]. cbn [cl_rng cl_remote cl_requests pulled].
    split; [reflexivity|]. split; [reflexivity|].
    exists []. split; [reflexivity|]. split; [constructor | now split].
Qed.

(** *** Pulling twice *)

(** The list items that a pull skips under the entries [m]: the entry of
    the key holds the current hash, or there is no current hash. *)
Definition settled (m : gmap jsstring IndexEntry) (item : SkillListItem) : Prop :=
  match m !! sli_skillKey item, sli_currentHash item with
  | Some existing, Some h => jseqb (ie_hash existing) h
  | _, _ => false
  end = true
  \/ sli_currentHash item = None
  \/ sli_currentHash item = Some [].

Definition pulled_or_settled (m : gmap jsstring IndexEntry) (item : SkillListItem)
    (res : PullResult) : Prop :=
  (res = PullSkipped /\ settled m item)
  \/ (exists h content files,
        res = PullSuccess (sli_skillKey item) h content files (sli_updatedAt item)
        /\ sli_currentHash item = Some h)
  \/ (exists message, res = PullError message).

Lemma pull_one_settled masterKey index (c : Client) (item : SkillListItem) :
  settled (idx_skills index) item ->
  pull_one JSON_parse claudeDir masterKey index c item = Some (PullSkipped, c).
Proof.
  unfold settled, pull_one, remote_hash_is. intros Hs.
  destruct (match idx_skills index !! sli_skillKey item with
            | Some existing =>
                match sli_currentHash item with
                | Some h => jseqb (ie_hash existing) h
                | None => false
                end
            | None => false
            end); [reflexivity|].
  destruct Hs as [Hs|[->| ->]]; [discriminate | reflexivity | reflexivity].
Qed.

Lemma pull_one_result masterKey index (c : Client) (item : SkillListItem) res c' :
  pull_one JSON_parse claudeDir masterKey index c item = Some (res, c') ->
  pulled_or_settled (idx_skills index) item res.
Proof.
  unfold pull_one, pulled_or_settled, settled, remote_hash_is.
  destruct (match idx_skills index !! sli_skillKey item with
            | Some existing =>
                match sli_currentHash item with
                | Some h => jseqb (ie_hash existing) h
                | None => false
                end
            | None => false
            end); [intros [= <- _]; left; split; [reflexivity | now left]|].
  destruct (sli_currentHash item) as [h|];
    [|intros [= <- _]; left; split; [reflexivity | right; now left]].
  destruct (jseqb h []) eqn:Eh.
  { apply jseqb_eq in Eh. subst h. intros [= <- _]. left.
    split; [reflexivity | right; now right]. }
  destruct (getSkill (cl_remote c) (sli_skillKey item)) as [[data|err st] remote'];
    [|intros [= <- _]; right; right; eauto].
  destruct (decryptSkill _ _ _ _ _) as [[| |p]|];
    [intros [= <- _]; right; right; eauto | discriminate | |
     intros [= <- _]; right; right; eauto].
  destruct (write_skill _ _ _); intros [= <- _]; right; [left | right]; eauto.
Qed.

Lemma pull_all_results masterKey index (c : Client) (items : list SkillListItem) rs c' :
  pull_all JSON_parse claudeDir masterKey index c items = Some (rs, c') ->
  Forall2 (pulled_or_settled (idx_skills index)) items rs.
Proof.
  revert c rs c'. induction items as [|item rest IH]; intros c rs c'; cbn [pull_all].
  - intros [= <- _]. constructor.
  - destruct (pull_one _ _ _ _ _ _) as [[res c1]|] eqn:H1; [|discriminate].
    destruct (pull_all _ _ _ _ _ _) as [[rs' c2]|] eqn:H2; [|discriminate].
    intros [= <- _]. constructor; [eapply pull_one_result | eapply IH]; eassumption.
Qed.

Lemma pull_all_settled masterKey index (c : Client) (items : list SkillListItem) :
  Forall (settled (idx_skills index)) items ->
  pull_all JSON_parse claudeDir masterKey index c items
  = Some (map (fun _ => PullSkipped) items, c).
Proof.
  induction 1 as [|item rest Hi _ IH]; [reflexivity|].
  cbn [pull_all map]. rewrite pull_one_settled by assumption. now rewrite IH.
Qed.

Lemma pull_errors_none (rs : list PullResult) :
  pull_errors rs = [] -> Forall (fun r => forall m, r <> PullError m) rs.
Proof.
  unfold pull_errors. induction rs as [|r rs IH]; [constructor|].
  cbn [flat_map]. destruct r; cbn [app]; try discriminate; intros Hn;
    (constructor; [intros ? ?; discriminate | now apply IH]).
Qed.

Lemma settled_insert_other (m : gmap jsstring IndexEntry) (k : jsstring) (e : IndexEntry)
    (item : SkillListItem) :
  sli_skillKey item <> k -> settled m item -> settled (<[k := e]> m) item.
Proof.
  intros Hne. unfold settled. now rewrite lookup_insert_ne by congruence.
Qed.

(** After a pull without errors over a list with distinct keys, a second
    pull would skip every item. *)
Lemma record_pull_all_settled (items : list SkillListItem) (rs : list PullResult)
    (m : gmap jsstring IndexEntry) :
  List.NoDup (map sli_skillKey items) ->
  Forall2 (pulled_or_settled m) items rs ->
  Forall (fun r => forall msg, r <> PullError msg) rs ->
  Forall (settled (fold_left record_pull (List.filter pull_is_success rs) m)) items.
Proof.
  intros Hnd Hrs. revert rs m Hrs Hnd.
  induction items as [|item items IH]; intros rs m Hrs Hnd Herr;
    inversion Hrs as [|? r ? rs' Hr Hrs']; subst; [constructor|].
  cbn [map] in Hnd. apply NoDup_cons_iff in Hnd as [Hk Hnd].
  apply Forall_cons_1 in Herr as [Hne Herr].
  assert (Hkeys : Forall (fun r => pull_success_key r <> Some (sli_skillKey item)) rs').
  { clear - Hrs' Hk. induction Hrs' as [|i' r' items' rs' Hr' _ IH']; [constructor|].
    constructor.
    - destruct Hr' as [[-> _]|[(h & ct & fs & -> & _)|(msg & ->)]]; cbn;
        try discriminate.
      intros [= E]. apply Hk. left. exact E.
    - apply IH'. intros Hin. apply Hk. now right. }
  assert (Hrest : forall e,
            Forall2 (pulled_or_settled (<[sli_skillKey item := e]> m)) items rs').
  { intros e. clear - Hrs' Hk.
    induction Hrs' as [|i' r' items' rs' Hr' _ IH']; constructor.
    - destruct Hr' as [[-> Hs]|Hother]; [left | now right].
      split; [reflexivity|]. apply settled_insert_other; [|exact Hs].
      intros E. apply Hk. left. exact E.
    - apply IH'. intros Hin. apply Hk. now right. }
  destruct Hr as [[-> Hs]|[(h & ct & fs & -> & Hcur)|(msg & ->)]];
    cbn [List.filter pull_is_success fold_left]; [| |now destruct (Hne msg)].
  - constructor; [|apply IH; assumption].
    unfold settled in *.
    rewrite record_pull_frame by now apply Forall_filter_weaken. exact Hs.
  - cbn [record_pull]. constructor; [|apply IH; [apply Hrest | assumption | assumption]].
    left. rewrite record_pull_frame by now apply Forall_filter_weaken.
    rewrite lookup_insert_eq, Hcur. cbn [ie_hash]. apply jseqb_refl.
Qed.

Lemma second_pull masterKey now now' (c : Client) out c1 :
  (forall items, (listSkills (cl_remote c)).1 = ApiOk items ->
                 List.NoDup (map sli_skillKey items)) ->
  pullSkills JSON_parse claudeDir masterKey now c = Some (out, c1) ->
  pull_error_list out = [] ->
  exists c2,
    pullSkills JSON_parse claudeDir masterKey now' c1 = Some (mkPullOutcome 0 [], c2)
    /\ cl_requests c2 = cl_requests c1 ++ [ReqListSkills]
    /\ cl_fs c2 = cl_fs c1
    /\ idx_skills (cl_index c2) = idx_skills (cl_index c1).
Proof.
  intros Hnd Hpull Herr.
  pose proof (pullSkills_reads masterKey now c out c1 Hpull) as (Hrem & _).
  revert Hpull. unfold pullSkills. rewrite Hrem.
  pose proof (listSkills_reads (cl_remote c)) as Hr.
  destruct (listSkills (cl_remote c)) as [[items|err st] remote'];
    cbn [fst snd] in *; subst remote'.
  2:{ intros [= <- _]. discriminate Herr. }
  specialize (Hnd items eq_refl).
  destruct (pull_all _ _ _ _ _ _) as [[rs c']|] eqn:Hall; [|discriminate].
  intros [= <- <-]. cbn [pull_error_list cl_index idx_skills] in *.
  apply pull_all_results in Hall.
  pose proof (record_pull_all_settled items rs (idx_skills (cl_index c)) Hnd Hall
                (pull_errors_none rs Herr)) as Hsettled.
  rewrite pull_all_settled by exact Hsettled.
  assert (Hnone : List.filter pull_is_success
                    (map (fun _ : SkillListItem => PullSkipped) items) = []).
  { clear. induction items; [reflexivity | assumption]. }
  assert (Hnoerr : pull_errors (map (fun _ : SkillListItem => PullSkipped) items) = []).
  { clear. induction items; [reflexivity | assumption]. }
  rewrite Hnone, Hnoerr. eexists. split; [reflexivity|].
  unfold log_request. cbn [cl_requests cl_fs cl_index idx_skills fold_left length].
  repeat split.
Qed.

End PullReads.

(** X17.  A pull only reads.  Against the server of this repository, a
    pull that completes leaves the server's database as it was and draws
    no random bytes; what it sends is one list request followed by GET
    /skills/:skillKey requests only, and when the list request succeeded
    there is exactly one such request for each skill counted as pulled or
    reported as an error. *)
Theorem pull_only_reads (FS : Type) `{FileSystem FS} (JSON_parse : jsstring -> Parsed)
    (claudeDir : jsstring) (K : bytes) (now : jsstring) (c : @Client Session FS)
    (out : PullOutcome) (c' : @Client Session FS) :
  pullSkills JSON_parse claudeDir K now c = Some (out, c') ->
  cl_remote c' = cl_remote c
  /\ cl_rng c' = cl_rng c
  /\ exists gets,
       cl_requests c' = cl_requests c ++ ReqListSkills :: gets
       /\ Forall is_get gets
       /\ match (listSkills (cl_remote c)).1 with
          | ApiOk _ => length gets = (pulled out + length (pull_error_list out))%nat
          | ApiFail _ _ => gets = [] /\ pulled out = O
          end.
Proof.
  apply pullSkills_reads; intros; reflexivity.
Qed.

(** A second machine of the same user, after [laptop] pushed [odd_note]. *)
Definition desktop : @Client Session (gmap jsstring jsstring) :=
  Eval vm_compute in
  mkClient empty_index rng0
    match push_one key32 None empty_index laptop odd_note with
    | Some (_, c') => cl_remote c'
    | None => cl_remote laptop
    end ∅ [].

Definition desktop_pull : option (PullOutcome * @Client Session (gmap jsstring jsstring)) :=
  Eval vm_compute in
  pullSkills parse_note (js "/home/u/.claude") key32 (js "2024-05-03T09:00:00.000Z") desktop.

Definition desktop_outcome : PullOutcome :=
  match desktop_pull with Some (out, _) => out | None => mkPullOutcome 0 [] end.

Definition desktop_after : @Client Session (gmap jsstring jsstring) :=
  match desktop_pull with Some (_, c') => c' | None => desktop end.

Lemma pull_only_reads_witness :
  pullSkills parse_note (js "/home/u/.claude") key32 (js "2024-05-03T09:00:00.000Z") desktop
  = Some (desktop_outcome, desktop_after)
  /\ pulled desktop_outcome = 1%nat
  /\ cl_remote desktop_after = cl_remote desktop
  /\ cl_rng desktop_after = cl_rng desktop
  /\ exists gets,
       cl_requests desktop_after = cl_requests desktop ++ ReqListSkills :: gets
       /\ Forall is_get gets
       /\ match (listSkills (cl_remote desktop)).1 with
          | ApiOk _ =>
              length gets
              = (pulled desktop_outcome + length (pull_error_list desktop_outcome))%nat
          | ApiFail _ _ => gets = [] /\ pulled desktop_outcome = O
          end.
Proof.
  assert (E : pullSkills parse_note (js "/home/u/.claude") key32
                (js "2024-05-03T09:00:00.000Z") desktop
              = Some (desktop_outcome, desktop_after)) by (vm_compute; reflexivity).
  split; [exact E|]. split; [vm_compute; reflexivity|].
  exact (pull_only_reads _ parse_note (js "/home/u/.claude") key32
           (js "2024-05-03T09:00:00.000Z") desktop desktop_outcome desktop_after E).
Defined.

Lemma listed_keys (db : Server.Db) (u : jsstring) (items : list SkillListItem) :
  Server.db_wf db ->
  api_response list_json (Server.get_skills db u) = ApiOk items ->
  List.NoDup (map sli_skillKey items).
Proof.
  intros Hwf [= <-]. unfold list_json. rewrite !map_map. cbn [sli_skillKey Server.sli_skillKey].
  now apply ServerExtras.listed_keys_distinct.
Qed.

(** X20.  Pulling twice.  Against the server of this repository, with a
    well-formed database: after a pull that completed without errors, a
    second pull sends the list request and nothing else, pulls nothing,
    reports no error, writes no file and leaves the entries of the sync
    index as they are. *)
Theorem second_pull_fetches_nothing (FS : Type) `{FileSystem FS}
    (JSON_parse : jsstring -> Parsed) (claudeDir : jsstring) (K : bytes)
    (now now' : jsstring) (c : @Client Session FS) (out : PullOutcome)
    (c1 : @Client Session FS) :
  Server.db_wf (ss_db (cl_remote c)) ->
  pullSkills JSON_parse claudeDir K now c = Some (out, c1) ->
  pull_error_list out = [] ->
  exists c2,
    pullSkills JSON_parse claudeDir K now' c1 = Some (mkPullOutcome 0 [], c2)
    /\ cl_requests c2 = cl_requests c1 ++ [ReqListSkills]
    /\ cl_fs c2 = cl_fs c1
    /\ idx_skills (cl_index c2) = idx_skills (cl_index c1).
Proof.
  intros Hwf. apply second_pull; try (intros; reflexivity).
  intros items. cbn [listSkills server_api fst]. now apply listed_keys.
Qed.

Lemma desktop_db_wf : Server.db_wf (ss_db (cl_remote desktop)).
Proof.
  split; cbn.
  - repeat constructor.
  - repeat constructor. intros [].
  - repeat constructor. intros [].
  - repeat constructor.
  - repeat constructor. intros [].
  - repeat constructor.
Qed.

Lemma second_pull_fetches_nothing_witness :
  pull_error_list desktop_outcome = []
  /\ exists c2,
       pullSkills parse_note (js "/home/u/.claude") key32 (js "2024-05-04T09:00:00.000Z")
         desktop_after
       = Some (mkPullOutcome 0 [], c2)
       /\ cl_requests c2 = cl_requests desktop_after ++ [ReqListSkills]
       /\ cl_fs c2 = cl_fs desktop_after
       /\ idx_skills (cl_index c2) = idx_skills (cl_index desktop_after).
Proof.
  assert (E : pullSkills parse_note (js "/home/u/.claude") key32
                (js "2024-05-03T09:00:00.000Z") desktop
              = Some (desktop_outcome, desktop_after)) by (vm_compute; reflexivity).
  assert (Herr : pull_error_list desktop_outcome = []) by reflexivity.
  split; [exact Herr|].
  exact (second_pull_fetches_nothing _ parse_note (js "/home/u/.claude") key32
           (js "2024-05-03T09:00:00.000Z") (js "2024-05-04T09:00:00.000Z")
           desktop desktop_outcome desktop_after desktop_db_wf E Herr).
Defined.

(** *** A whole push against the server *)

Definition not_synced (index : SyncIndex) (s : Skill) : bool :=
  negb (entry_hash_is index (getSkillKey s) (computeSkillHash s)).

Definition pushed_or_skipped (index : SyncIndex) (s : Skill) (r : PushResult) : Prop :=
  if entry_hash_is index (getSkillKey s) (computeSkillHash s)
  then r = PushSkipped
  else exists updatedAt,
         r = PushSuccess (getSkillKey s) (computeSkillHash s)
               (localHash_of (skill_content s) (skill_files s)) updatedAt.

Lemma push_all_succeeds (FS : Type) (K : bytes) (message : option jsstring)
    (index : SyncIndex) (skills : list Skill) (c : @Client Session FS) :
  key_ok K -> Forall skill_units_ok skills -> Server.db_wf (ss_db (cl_remote c)) ->
  exists rs c',
    push_all K message index c skills = Some (rs, c')
    /\ Forall2 (pushed_or_skipped index) skills rs
    /\ Server.db_wf (ss_db (cl_remote c'))
    /\ ss_user (cl_remote c') = ss_user (cl_remote c).
Proof.
  intros Hk Hs. revert c. induction Hs as [|s rest Hs _ IH]; intros c Hwf.
  - exists [], c. split; [reflexivity|]. split; [constructor|]. now split.
  - cbn [push_all].
    destruct (entry_hash_is index (getSkillKey s) (computeSkillHash s)) eqn:E.
    + rewrite (push_one_skip K message index c s E).
      destruct (IH c Hwf) as (rs & c' & -> & Hrs & Hwf' & Hu).
      exists (PushSkipped :: rs), c'. split; [reflexivity|].
      split; [|now split]. constructor; [|exact Hrs].
      unfold pushed_or_skipped. now rewrite E.
    + destruct (push_one_stores FS K message index c s Hk Hs Hwf E)
        as (t & c1 & data & -> & Hu1 & Hwf1 & _).
      destruct (IH c1 Hwf1) as (rs & c' & -> & Hrs & Hwf' & Hu).
      eexists (_ :: rs), c'. split; [reflexivity|].
      split; [|split; [exact Hwf' | congruence]]. constructor; [|exact Hrs].
      unfold pushed_or_skipped. rewrite E. eexists. reflexivity.
Qed.

Lemma pushed_or_skipped_counts (index : SyncIndex) (skills : list Skill)
    (rs : list PushResult) :
  Forall2 (pushed_or_skipped index) skills rs ->
  push_errors rs = []
  /\ length (List.filter push_is_success rs)
     = length (List.filter (not_synced index) skills).
Proof.
  unfold push_errors.
  induction 1 as [|s r skills rs Hr _ IH]; [now split|].
  destruct IH as [IHe IHl]. cbn [flat_map List.filter].
  unfold pushed_or_skipped, not_synced in *.
  destruct (entry_hash_is index (getSkillKey s) (computeSkillHash s)).
  - subst r. cbn [push_is_success negb app]. now split.
  - destruct Hr as (t & ->). cbn [push_is_success negb app length]. split; [exact IHe|].
    now rewrite IHl.
Qed.


Lemma Forall_sendable (skills : list Skill) :
  Forall sendable skills -> Forall skill_units_ok skills.
Proof. induction 1 as [|s rest [Hs _] _ IH]; constructor; assumption. Qed.


Definition review_agent : Skill :=
  mkSkill (js "review") (js "review the diff") [] (js "/home/u/.claude/agents/review.md")
          (js "2024-05-02T08:30:00.000Z") SkillType.agent None.

Lemma review_agent_units_ok : skill_units_ok review_agent.
Proof.
  unfold skill_units_ok. cbn [skill_name skill_content skill_path skill_modifiedAt
                              skill_files review_agent].
  repeat split; apply js_units_ok.
Qed.


End SyncExtras.
